(** * weeg-serializer: the cycle-capable structured serializer

    A shallow embedding of [structuredSerialize] and [structuredDeserialize]
    (the variant that encodes shared and circular structures through a
    reference table), with the properties of the codec proved over it.

    JavaScript values live in a heap of objects addressed by location, so
    that identity, sharing and cycles are explicit.  The serializer reads the
    heap; the deserializer allocates into a heap of its own.  Both recurse
    through the graph, so both take a fuel argument bounding the depth of the
    call stack. *)

From stdpp Require Import base option list gmap strings.
From Stdlib Require Import ZArith NArith Lia String Ascii Decimal DecimalString DecimalZ DecimalN.
From Stdlib.Strings Require Import Byte.

Open Scope string_scope.

(** ** Outcomes of a call *)

Inductive error :=
  | TypeError (message : string)
  | RangeError (message : string)
  | SyntaxError (message : string)
  | Error (message : string).

(** A call returns, throws, exhausts its fuel (the call stack), or leaves
    the fragment of the host language that is modelled here. *)
Inductive outcome (A : Type) :=
  | Ok (a : A)
  | Throw (e : error)
  | OutOfFuel
  | Unmodelled.
Arguments Ok {A} a.
Arguments Throw {A} e.
Arguments OutOfFuel {A}.
Arguments Unmodelled {A}.

#[global] Instance outcome_ret : MRet outcome := @Ok.
#[global] Instance outcome_bind : MBind outcome := λ A B f m,
  match m with
  | Ok a => f a
  | Throw e => Throw e
  | OutOfFuel => OutOfFuel
  | Unmodelled => Unmodelled
  end.

Definition is_Ok {A} (m : outcome A) : Prop := ∃ a, m = Ok a.
Definition is_Throw {A} (m : outcome A) : Prop := ∃ e, m = Throw e.

Fixpoint foldM {A S : Type} (f : S → A → outcome S) (s : S) (l : list A) : outcome S :=
  match l with
  | [] => Ok s
  | x :: l => s ← f s x; foldM f s l
  end.

(** ** Host primitives: text conversions *)

(** The Number values of the model: the integers (written by [toString] as
    plain decimal numerals), NaN and the two infinities.  Fractions, the
    exponent notation and negative zero are floating-point matters and have
    no value here; an integer stands for the Number of the host up to
    2^53 - 1 in magnitude, where every integer is a Number and its text is
    its decimal numeral. *)
Inductive number :=
  | NumInt (z : Z)
  | NaN
  | PosInfinity
  | NegInfinity.

#[global] Instance number_eq_dec : EqDecision number.
Proof. solve_decision. Defined.

Definition Boolean_toString (b : bool) : string := if b then "true" else "false".

Definition Z_toString (z : Z) : string := NilEmpty.string_of_int (Z.to_int z).
Definition N_toString (n : N) : string := NilEmpty.string_of_uint (N.to_uint n).

Definition Number_toString (n : number) : string :=
  match n with
  | NumInt z => Z_toString z
  | NaN => "NaN"
  | PosInfinity => "Infinity"
  | NegInfinity => "-Infinity"
  end.

(** [Number(text)] on the numerals the model has values for: the empty
    string is 0, a decimal integer is itself, anything else is NaN.  The
    numerals the host reads besides (with a fraction, an exponent, a radix
    prefix, a plus sign or blanks around them) are outside the model. *)
Definition Number (s : string) : number :=
  if String.eqb s "Infinity" then PosInfinity
  else if String.eqb s "+Infinity" then PosInfinity
  else if String.eqb s "-Infinity" then NegInfinity
  else match NilEmpty.int_of_string s with
       | Some (Neg Nil) => NaN
       | Some d => NumInt (Z.of_int d)
       | None => NaN
       end.

(** [BigInt(text)]: a decimal integer, or a SyntaxError.  The texts the
    host reads besides (with a radix prefix, a plus sign or blanks around
    them) are outside the model. *)
Definition BigInt (s : string) : outcome Z :=
  match NilEmpty.int_of_string s with
  | Some (Neg Nil) => Throw (SyntaxError "Cannot convert to BigInt")
  | Some d => Ok (Z.of_int d)
  | None => Throw (SyntaxError "Cannot convert to BigInt")
  end.

(** [Array.prototype.join] and [String.prototype.split] on a one-character
    separator. *)
Fixpoint join (sep : ascii) (l : list string) : string :=
  match l with
  | [] => ""
  | [x] => x
  | x :: l => x ++ String sep (join sep l)
  end.

Fixpoint split (sep : ascii) (s : string) : list string :=
  match s with
  | EmptyString => [""]
  | String c s =>
      if Ascii.eqb c sep then "" :: split sep s
      else match split sep s with
           | p :: ps => String c p :: ps
           | [] => [String c ""]
           end
  end.

(** Bytes of a buffer, read as Numbers and stored through ToUint8. *)
Definition byte_toNumber (b : byte) : number := NumInt (Z.of_N (Byte.to_N b)).

Definition byte_toString (b : byte) : string := Number_toString (byte_toNumber b).

Definition ToUint8 (n : number) : byte :=
  match n with
  | NumInt z => default x00 (Byte.of_N (Z.to_N (z mod 256)))
  | _ => x00
  end.

(** An array index is the canonical decimal numeral of an integer below
    2^32 - 1.  Own property keys enumerate array indices first, in ascending
    order, then the other string keys in creation order. *)
Definition array_index (key : string) : option N :=
  match NilEmpty.uint_of_string key with
  | Some d =>
      let n := N.of_uint d in
      if String.eqb (N_toString n) key && (n <? 4294967295)%N then Some n else None
  | None => None
  end.

(** ** Host primitives: dates *)

(** The time value of a Date: milliseconds since the epoch, or NaN for an
    invalid Date. *)
Inductive timeValue :=
  | TimeValue (ms : Z)
  | InvalidDate.

Definition msPerDay : Z := 86400000.
Definition maxTime : Z := 8640000000000000.

(** Proleptic Gregorian calendar: day number to (year, month, day) and
    back. *)
Definition civil_from_days (z : Z) : Z * Z * Z :=
  let z := (z + 719468)%Z in
  let era := (z / 146097)%Z in
  let doe := (z mod 146097)%Z in
  let yoe := ((doe - doe / 1460 + doe / 36524 - doe / 146096) / 365)%Z in
  let doy := (doe - (365 * yoe + yoe / 4 - yoe / 100))%Z in
  let mp := ((5 * doy + 2) / 153)%Z in
  let d := (doy - (153 * mp + 2) / 5 + 1)%Z in
  let m := (if mp <? 10 then mp + 3 else mp - 9)%Z in
  ((yoe + era * 400 + (if m <=? 2 then 1 else 0))%Z, m, d).

Definition days_from_civil (y m d : Z) : Z :=
  let y := (y - (if m <=? 2 then 1 else 0))%Z in
  let era := (y / 400)%Z in
  let yoe := (y mod 400)%Z in
  let doy := ((153 * (if m <=? 2 then m + 9 else m - 3) + 2) / 5 + d - 1)%Z in
  let doe := (yoe * 365 + yoe / 4 - yoe / 100 + doy)%Z in
  (era * 146097 + doe - 719468)%Z.

Definition digit (d : Z) : ascii := ascii_of_N (48 + Z.to_N d).

Definition digit_value (c : ascii) : option Z :=
  let n := N_of_ascii c in
  if (48 <=? n)%N && (n <=? 57)%N then Some (Z.of_N n - 48)%Z else None.

(** [pad w n]: the last [w] decimal digits of [n], zero-padded. *)
Fixpoint pad (w : nat) (n : Z) : string :=
  match w with
  | 0 => ""
  | S w' => String (digit ((n / 10 ^ Z.of_nat w') mod 10)) (pad w' n)
  end.

Fixpoint digits (w : nat) (acc : Z) (s : string) : option (Z * string) :=
  match w with
  | 0 => Some (acc, s)
  | S w' =>
      match s with
      | String c s' => d ← digit_value c; digits w' (acc * 10 + d)%Z s'
      | EmptyString => None
      end
  end.

Definition expect (c : ascii) (s : string) : option string :=
  match s with
  | String c' s' => if Ascii.eqb c c' then Some s' else None
  | EmptyString => None
  end.

Definition year_toString (y : Z) : string :=
  if (0 <=? y)%Z && (y <=? 9999)%Z then pad 4 y
  else if (y <? 0)%Z then String "-" (pad 6 (- y)) else String "+" (pad 6 y).

Definition ISOString (ms : Z) : string :=
  let '(y, m, d) := civil_from_days (ms / msPerDay) in
  let tod := (ms mod msPerDay)%Z in
  year_toString y ++ String "-" (pad 2 m ++ String "-" (pad 2 d ++ String "T"
    (pad 2 (tod / 3600000) ++ String ":" (pad 2 (tod / 60000 mod 60) ++ String ":"
    (pad 2 (tod / 1000 mod 60) ++ String "." (pad 3 (tod mod 1000) ++ "Z")))))).

(** [Date.prototype.toISOString]: a RangeError on an invalid Date. *)
Definition Date_toISOString (t : timeValue) : outcome string :=
  match t with
  | TimeValue ms => Ok (ISOString ms)
  | InvalidDate => Throw (RangeError "Invalid time value")
  end.

Definition parse_year (s : string) : option (Z * string) :=
  match s with
  | String "-" s' => '(y, s') ← digits 6 0 s'; Some ((- y)%Z, s')
  | String "+" s' => digits 6 0 s'
  | _ => digits 4 0 s
  end.

Definition parse_ISOString (s : string) : option Z :=
  '(y, s) ← parse_year s; s ← expect "-" s;
  '(m, s) ← digits 2 0 s; s ← expect "-" s;
  '(d, s) ← digits 2 0 s; s ← expect "T" s;
  '(hh, s) ← digits 2 0 s; s ← expect ":" s;
  '(mm, s) ← digits 2 0 s; s ← expect ":" s;
  '(ss, s) ← digits 2 0 s; s ← expect "." s;
  '(ms, s) ← digits 3 0 s; s ← expect "Z" s;
  if String.eqb s "" then
    Some (days_from_civil y m d * msPerDay + hh * 3600000 + mm * 60000 + ss * 1000 + ms)%Z
  else None.

(** [new Date(text)] on text in the format [toISOString] writes; the other
    date formats the host reads are outside the model and give an invalid
    Date here. *)
Definition Date_new (s : string) : timeValue :=
  match parse_ISOString s with
  | Some ms =>
      if (- maxTime <=? ms)%Z && (ms <=? maxTime)%Z && String.eqb (ISOString ms) s
      then TimeValue ms else InvalidDate
  | None => InvalidDate
  end.

(** ** Values and the heap *)

Abbreviation loc := nat (only parsing).

(** A value is a primitive or the identity of an object. *)
Inductive value :=
  | VUndefined
  | VNull
  | VBoolean (b : bool)
  | VNumber (n : number)
  | VBigInt (z : Z)
  | VString (s : string)
  | VSymbol (id : nat)
  | VObject (l : loc).

#[global] Instance value_eq_dec : EqDecision value.
Proof. solve_decision. Defined.

(** The constructors a buffer view can have ([value.constructor.name]). *)
Inductive viewKind :=
  | Int8Array | Uint8Array | Uint8ClampedArray
  | Int16Array | Uint16Array
  | Int32Array | Uint32Array | Float32Array
  | Float64Array | BigInt64Array | BigUint64Array
  | DataView.

#[global] Instance viewKind_eq_dec : EqDecision viewKind.
Proof. solve_decision. Defined.

Definition constructor_name (k : viewKind) : string :=
  match k with
  | Int8Array => "Int8Array" | Uint8Array => "Uint8Array"
  | Uint8ClampedArray => "Uint8ClampedArray"
  | Int16Array => "Int16Array" | Uint16Array => "Uint16Array"
  | Int32Array => "Int32Array" | Uint32Array => "Uint32Array"
  | Float32Array => "Float32Array" | Float64Array => "Float64Array"
  | BigInt64Array => "BigInt64Array" | BigUint64Array => "BigUint64Array"
  | DataView => "DataView"
  end.

(** Bytes per element; a DataView addresses single bytes. *)
Definition BYTES_PER_ELEMENT (k : viewKind) : nat :=
  match k with
  | Int8Array | Uint8Array | Uint8ClampedArray | DataView => 1
  | Int16Array | Uint16Array => 2
  | Int32Array | Uint32Array | Float32Array => 4
  | Float64Array | BigInt64Array | BigUint64Array => 8
  end.

(** The objects the serializer tells apart by its [instanceof] chain, each
    with what the serializer reads of it.  Maps and Sets list their entries
    in insertion order.  Arrays and plain objects list their own
    string-keyed data properties in own-property order; an Array keeps its
    [length] apart from them.  An Error has the [name] it answers to and its
    own [message] property, if any.  What the serializer does not read (the
    [lastIndex] of a RegExp, further own properties of a Date, a Map or an
    Error, symbol keys, accessors) is not part of the model. *)
Inductive obj :=
  | BooleanObject (b : bool)
  | NumberObject (n : number)
  | StringObject (s : string)
  | DateObject (t : timeValue)
  | RegExpObject (source flags : string)
  | ArrayBufferObject (data : list byte)
  | ArrayBufferViewObject (kind : viewKind) (buffer : loc) (byteOffset byteLength : nat)
  | MapObject (entries : list (value * value))
  | SetObject (elements : list value)
  | ErrorObject (name : string) (message : option string)
  | ArrayObject (length : nat) (props : list (string * value))
  | WeakMapObject
  | WeakSetObject
  | PromiseObject
  | WeakRefObject
  | FinalizationRegistryObject
  | FunctionObject
  | PlainObject (props : list (string * value)).

Abbreviation heap := (list obj) (only parsing).

(** ** The serialized form (the type declarations of the source) *)

Inductive PrimitiveType :=
  | PT_undefined | PT_null | PT_boolean | PT_number | PT_string | PT_bigint.

#[global] Instance PrimitiveType_eq_dec : EqDecision PrimitiveType.
Proof. solve_decision. Defined.

Inductive ChildSerialization :=
  | Primitive (primitiveType : PrimitiveType) (value : string)
  | Reference (referenceId : nat).

#[global] Instance ChildSerialization_eq_dec : EqDecision ChildSerialization.
Proof. solve_decision. Defined.

(** [OtherSerialization] stands for a record whose [type] is none of the
    twelve the source declares; the deserializer reads nothing else of it. *)
Inductive ComplexSerialization :=
  | BooleanSerialization (booleanData : string)
  | NumberSerialization (numberData : string)
  | StringSerialization (stringData : string)
  | DateSerialization (dateData : string)
  | RegExpSerialization (originalSource originalFlags : string)
  | ArrayBufferSerialization (arrayBufferByteLength : nat) (arrayBufferData : string)
  | TypedArraySerialization (typedArrayName : string)
      (typedArrayByteOffset typedArrayByteLength : nat)
      (arrayBufferSerialized : ChildSerialization)
  | MapSerialization (mapData : list (ChildSerialization * ChildSerialization))
  | SetSerialization (setData : list ChildSerialization)
  | ErrorSerialization (name : string) (message : option string)
  | ArraySerialization (length : nat) (properties : list (string * ChildSerialization))
  | ObjectSerialization (properties : list (string * ChildSerialization))
  | OtherSerialization (type : string).

Inductive TopLevelSerialization :=
  | TopLevel (objects : list ComplexSerialization) (topLevelValue : ChildSerialization)
  | TopLevelPrimitive (primitiveType : PrimitiveType) (value : string).

(** ** The serializer *)

(** [Memory] is a Map from values to their records; its entries keep
    insertion order, which the serializer reads as the reference ids. *)
Abbreviation Memory := (list (value * ComplexSerialization)) (only parsing).

Definition memory_keys (memory : Memory) : list value := memory.*1.
Definition memory_values (memory : Memory) : list ComplexSerialization := memory.*2.

Definition memory_has (memory : Memory) (v : value) : bool :=
  bool_decide (v ∈ memory_keys memory).

(** [Map.prototype.set]: an existing key keeps its position. *)
Fixpoint memory_set (memory : Memory) (v : value) (serialized : ComplexSerialization) : Memory :=
  match memory with
  | [] => [(v, serialized)]
  | (k, r) :: memory' =>
      if decide (k = v) then (k, serialized) :: memory'
      else (k, r) :: memory_set memory' v serialized
  end.

(** [[... memory.keys()].indexOf(value)]; [None] stands for -1. *)
Fixpoint indexOf (keys : list value) (v : value) : option nat :=
  match keys with
  | [] => None
  | k :: keys' => if decide (k = v) then Some 0 else S <$> indexOf keys' v
  end.

(** The record stored under [v] is the very object the local variable
    [serialized] refers to, so a [push] through that variable is an update
    of the entry under [v]. *)
Definition memory_update (v : value) (f : ComplexSerialization → ComplexSerialization)
    (memory : Memory) : Memory :=
  (λ e : value * ComplexSerialization, if decide (e.1 = v) then (e.1, f e.2) else e) <$> memory.

Definition push_mapData (e : ChildSerialization * ChildSerialization)
    (serialized : ComplexSerialization) : ComplexSerialization :=
  match serialized with
  | MapSerialization mapData => MapSerialization (mapData ++ [e])%list
  | _ => serialized
  end.

Definition push_setData (e : ChildSerialization)
    (serialized : ComplexSerialization) : ComplexSerialization :=
  match serialized with
  | SetSerialization setData => SetSerialization (setData ++ [e])%list
  | _ => serialized
  end.

Definition push_properties (e : string * ChildSerialization)
    (serialized : ComplexSerialization) : ComplexSerialization :=
  match serialized with
  | ArraySerialization length properties => ArraySerialization length (properties ++ [e])%list
  | ObjectSerialization properties => ObjectSerialization (properties ++ [e])%list
  | _ => serialized
  end.

Definition is_array_index (key : string) : bool := bool_decide (is_Some (array_index key)).

(** [Object.getOwnPropertyNames] of an Array or a plain object. *)
Definition getOwnPropertyNames (o : obj) : list string :=
  match o with
  | ArrayObject _ props =>
      (filter (λ k, is_array_index k) props.*1 ++ ["length"]
        ++ filter (λ k, ¬ is_array_index k) props.*1)%list
  | PlainObject props => props.*1
  | _ => []
  end.

Fixpoint lookup_property (key : string) (props : list (string * value)) : option value :=
  match props with
  | [] => None
  | (k, v) :: props' => if decide (k = key) then Some v else lookup_property key props'
  end.

Definition hasOwnProperty (o : obj) (key : string) : bool :=
  match o with
  | ArrayObject _ props => bool_decide (key = "length") || bool_decide (is_Some (lookup_property key props))
  | PlainObject props => bool_decide (is_Some (lookup_property key props))
  | _ => false
  end.

(** [Reflect.get] of an own data property. *)
Definition Reflect_get (o : obj) (key : string) : value :=
  match o with
  | ArrayObject length props =>
      if decide (key = "length") then VNumber (NumInt (Z.of_nat length))
      else default VUndefined (lookup_property key props)
  | PlainObject props => default VUndefined (lookup_property key props)
  | _ => VUndefined
  end.

Definition standard_error_names : list string :=
  ["Error"; "EvalError"; "RangeError"; "ReferenceError"; "SyntaxError"; "TypeError"; "URIError"].

Definition of_option {A} (o : option A) : outcome A :=
  match o with Some a => Ok a | None => Unmodelled end.

(** The body of [structuredSerializeInternal]; [self] is the function
    itself, called on the children. *)
Definition structuredSerializeInternal_body
    (self : value → Memory → outcome (ChildSerialization * Memory))
    (h : heap) (value : value) (memory : Memory)
    : outcome (ChildSerialization * Memory) :=
    if memory_has memory value then
      index ← of_option (indexOf (memory_keys memory) value);
      Ok (Reference index, memory)
    else
      match value with
      | VUndefined => Ok (Primitive PT_undefined "undefined", memory)
      | VNull => Ok (Primitive PT_null "null", memory)
      | VBoolean b => Ok (Primitive PT_boolean (Boolean_toString b), memory)
      | VNumber n => Ok (Primitive PT_number (Number_toString n), memory)
      | VBigInt z => Ok (Primitive PT_bigint (Z_toString z), memory)
      | VString s => Ok (Primitive PT_string s, memory)
      | VSymbol _ => Throw (TypeError "Cannot serialize a Symbol")
      | VObject l =>
        o ← of_option (h !! l);
        '(serialized, deep, memory) ←
          match o with
          | BooleanObject b => Ok (BooleanSerialization (Boolean_toString b), false, memory)
          | NumberObject n => Ok (NumberSerialization (Number_toString n), false, memory)
          | StringObject s => Ok (StringSerialization s, false, memory)
          | DateObject t =>
              dateData ← Date_toISOString t;
              Ok (DateSerialization dateData, false, memory)
          | RegExpObject source flags => Ok (RegExpSerialization source flags, false, memory)
          | ArrayBufferObject data =>
              let size := List.length data in
              Ok (ArrayBufferSerialization size
                    (join "," (byte_toString <$> data)),
                  false, memory)
          | ArrayBufferViewObject kind buffer byteOffset byteLength =>
              '(bufferSerialized, memory) ←
                self (VObject buffer) memory;
              Ok (TypedArraySerialization (constructor_name kind) byteOffset byteLength
                    bufferSerialized, false, memory)
          | MapObject _ => Ok (MapSerialization [], true, memory)
          | SetObject _ => Ok (SetSerialization [], true, memory)
          | ErrorObject name message =>
              let name := if bool_decide (name ∈ standard_error_names) then name else "Error" in
              Ok (ErrorSerialization name message, false, memory)
          | ArrayObject length _ => Ok (ArraySerialization length [], true, memory)
          | WeakMapObject | WeakSetObject => Throw (TypeError "Cannot serialize a WeakMap or WeakSet")
          | PromiseObject => Throw (TypeError "Cannot serialize a Promise")
          | WeakRefObject => Throw (TypeError "Cannot serialize a WeakRef")
          | FinalizationRegistryObject => Throw (TypeError "Cannot serialize a FinalizationRegistry")
          | FunctionObject => Throw (TypeError "Cannot serialize a function")
          | PlainObject _ => Ok (ObjectSerialization [], true, memory)
          end;
        let memory := memory_set memory value serialized in
        memory ←
          (if deep : bool then
             match o with
             | MapObject entries =>
                 foldM (λ memory '(key, val),
                   '(serializedKey, memory) ← self key memory;
                   '(serializedVal, memory) ← self val memory;
                   Ok (memory_update value (push_mapData (serializedKey, serializedVal)) memory))
                   memory entries
             | SetObject elements =>
                 foldM (λ memory val,
                   '(serializedVal, memory) ← self val memory;
                   Ok (memory_update value (push_setData serializedVal) memory))
                   memory elements
             | _ =>
                 foldM (λ memory ownPropertyName,
                   if hasOwnProperty o ownPropertyName then
                     let inputValue := Reflect_get o ownPropertyName in
                     '(outputValue, memory) ← self inputValue memory;
                     Ok (memory_update value (push_properties (ownPropertyName, outputValue)) memory)
                   else Ok memory)
                   memory (getOwnPropertyNames o)
             end
           else Ok memory);
        index ← of_option (indexOf (memory_keys memory) value);
        Ok (Reference index, memory)
      end.

Fixpoint structuredSerializeInternal (fuel : nat) (h : heap) (value : value) (memory : Memory)
    : outcome (ChildSerialization * Memory) :=
  match fuel with
  | 0 => OutOfFuel
  | S fuel => structuredSerializeInternal_body (structuredSerializeInternal fuel h) h value memory
  end.

(** [structuredSerialize] up to [JSON.stringify]: the result is the object
    whose JSON text the source returns. *)
Definition structuredSerialize (fuel : nat) (h : heap) (value : value)
    : outcome TopLevelSerialization :=
  '(serialized, memory) ← structuredSerializeInternal fuel h value [];
  match serialized with
  | Primitive primitiveType s => Ok (TopLevelPrimitive primitiveType s)
  | Reference _ => Ok (TopLevel (memory_values memory) serialized)
  end.

(** *** The JSON text of the serialized form *)

(** The tree [JSON.stringify] writes: the members of an object in the order
    of its properties, a property whose value is [undefined] left out. *)
Unset Elimination Schemes.
Inductive JSON :=
  | JSON_null
  | JSON_boolean (b : bool)
  | JSON_number (n : Z)
  | JSON_string (s : string)
  | JSON_array (elements : list JSON)
  | JSON_object (members : list (string * JSON)).
Set Elimination Schemes.

Definition PrimitiveType_toString (primitiveType : PrimitiveType) : string :=
  match primitiveType with
  | PT_undefined => "undefined"
  | PT_null => "null"
  | PT_boolean => "boolean"
  | PT_number => "number"
  | PT_string => "string"
  | PT_bigint => "bigint"
  end.

Definition JSON_of_ChildSerialization (c : ChildSerialization) : JSON :=
  match c with
  | Primitive primitiveType s =>
      JSON_object [("type", JSON_string "primitive");
                   ("primitiveType", JSON_string (PrimitiveType_toString primitiveType));
                   ("value", JSON_string s)]
  | Reference referenceId =>
      JSON_object [("type", JSON_string "Reference");
                   ("referenceId", JSON_number (Z.of_nat referenceId))]
  end.

Definition JSON_of_properties (properties : list (string * ChildSerialization)) : JSON :=
  JSON_array ((λ e, JSON_object [("key", JSON_string e.1);
                                 ("value", JSON_of_ChildSerialization e.2)]) <$> properties).

Definition JSON_of_ComplexSerialization (r : ComplexSerialization) : JSON :=
  match r with
  | BooleanSerialization booleanData =>
      JSON_object [("type", JSON_string "Boolean"); ("booleanData", JSON_string booleanData)]
  | NumberSerialization numberData =>
      JSON_object [("type", JSON_string "Number"); ("numberData", JSON_string numberData)]
  | StringSerialization stringData =>
      JSON_object [("type", JSON_string "String"); ("stringData", JSON_string stringData)]
  | DateSerialization dateData =>
      JSON_object [("type", JSON_string "Date"); ("dateData", JSON_string dateData)]
  | RegExpSerialization originalSource originalFlags =>
      JSON_object [("type", JSON_string "RegExp");
                   ("originalSource", JSON_string originalSource);
                   ("originalFlags", JSON_string originalFlags)]
  | ArrayBufferSerialization arrayBufferByteLength arrayBufferData =>
      JSON_object [("type", JSON_string "ArrayBuffer");
                   ("arrayBufferByteLength", JSON_number (Z.of_nat arrayBufferByteLength));
                   ("arrayBufferData", JSON_string arrayBufferData)]
  | TypedArraySerialization typedArrayName typedArrayByteOffset typedArrayByteLength
      arrayBufferSerialized =>
      JSON_object [("type", JSON_string "ArrayBufferView");
                   ("typedArrayName", JSON_string typedArrayName);
                   ("typedArrayByteOffset", JSON_number (Z.of_nat typedArrayByteOffset));
                   ("typedArrayByteLength", JSON_number (Z.of_nat typedArrayByteLength));
                   ("arrayBufferSerialized", JSON_of_ChildSerialization arrayBufferSerialized)]
  | MapSerialization mapData =>
      JSON_object [("type", JSON_string "Map");
                   ("mapData",
                    JSON_array ((λ e, JSON_object [("key", JSON_of_ChildSerialization e.1);
                                                   ("value", JSON_of_ChildSerialization e.2)])
                                  <$> mapData))]
  | SetSerialization setData =>
      JSON_object [("type", JSON_string "Set");
                   ("setData", JSON_array (JSON_of_ChildSerialization <$> setData))]
  | ErrorSerialization name message =>
      JSON_object ([("type", JSON_string "Error"); ("name", JSON_string name)]
                   ++ match message with
                      | Some s => [("message", JSON_string s)]
                      | None => []
                      end)%list
  | ArraySerialization length properties =>
      JSON_object [("type", JSON_string "Array");
                   ("length", JSON_number (Z.of_nat length));
                   ("properties", JSON_of_properties properties)]
  | ObjectSerialization properties =>
      JSON_object [("type", JSON_string "Object");
                   ("properties", JSON_of_properties properties)]
  | OtherSerialization type => JSON_object [("type", JSON_string type)]
  end.

Definition JSON_of_TopLevelSerialization (t : TopLevelSerialization) : JSON :=
  match t with
  | TopLevelPrimitive primitiveType s => JSON_of_ChildSerialization (Primitive primitiveType s)
  | TopLevel objects topLevelValue =>
      JSON_object [("type", JSON_string "TopLevel");
                   ("objects", JSON_array (JSON_of_ComplexSerialization <$> objects));
                   ("topLevelValue", JSON_of_ChildSerialization topLevelValue)]
  end.

(** The member of a JSON object under [key], if it has one. *)
Definition JSON_member (key : string) (j : JSON) : option JSON :=
  match j with
  | JSON_object members => (λ p, p.2.2) <$> list_find (λ e, e.1 = key) members
  | _ => None
  end.

(** ** The deserializer *)

Definition alloc (o : obj) (h : heap) : value * heap := (VObject (List.length h), (h ++ [o])%list).

(** [Map.prototype.set] and [Set.prototype.add]; SameValueZero is equality
    of the model's values. *)
Fixpoint Map_set_entries (k v : value) (entries : list (value * value)) : list (value * value) :=
  match entries with
  | [] => [(k, v)]
  | (k', v') :: entries' =>
      if decide (k' = k) then (k', v) :: entries'
      else (k', v') :: Map_set_entries k v entries'
  end.

Definition Set_add_elements (v : value) (elements : list value) : list value :=
  if bool_decide (v ∈ elements) then elements else (elements ++ [v])%list.

Definition Map_prototype_set (h : heap) (map : value) (k v : value) : heap :=
  match map with
  | VObject l =>
      match h !! l with
      | Some (MapObject entries) => <[l := MapObject (Map_set_entries k v entries)]> h
      | _ => h
      end
  | _ => h
  end.

Definition Set_prototype_add (h : heap) (set : value) (v : value) : heap :=
  match set with
  | VObject l =>
      match h !! l with
      | Some (SetObject elements) => <[l := SetObject (Set_add_elements v elements)]> h
      | _ => h
      end
  | _ => h
  end.

(** Defining an own data property keeps the own-property order: a new
    array index goes among the indices in ascending order, any other new
    key goes last, an existing key keeps its place. *)
Fixpoint replace_property (key : string) (v : value) (props : list (string * value))
    : list (string * value) :=
  match props with
  | [] => []
  | (k, x) :: props' =>
      if decide (k = key) then (k, v) :: props' else (k, x) :: replace_property key v props'
  end.

Fixpoint insert_index_property (i : N) (key : string) (v : value) (props : list (string * value))
    : list (string * value) :=
  match props with
  | [] => [(key, v)]
  | (k, x) :: props' =>
      match array_index k with
      | Some j =>
          if (j <? i)%N then (k, x) :: insert_index_property i key v props'
          else (key, v) :: (k, x) :: props'
      | None => (key, v) :: (k, x) :: props'
      end
  end.

Definition define_property (key : string) (v : value) (props : list (string * value))
    : list (string * value) :=
  if bool_decide (is_Some (lookup_property key props)) then replace_property key v props
  else match array_index key with
       | Some i => insert_index_property i key v props
       | None => (props ++ [(key, v)])%list
       end.

(** ToNumber of a primitive; the conversion of an object is not modelled. *)
Definition ToNumber (v : value) : outcome number :=
  match v with
  | VUndefined => Ok NaN
  | VNull => Ok (NumInt 0)
  | VBoolean b => Ok (NumInt (if b then 1 else 0))
  | VNumber n => Ok n
  | VString s => Ok (Number s)
  | VBigInt _ => Throw (TypeError "Cannot convert a BigInt value to a number")
  | VSymbol _ => Throw (TypeError "Cannot convert a Symbol value to a number")
  | VObject _ => Unmodelled
  end.

Definition below_length (newLen : N) (key : string) : bool :=
  match array_index key with
  | Some i => (i <? newLen)%N
  | None => true
  end.

(** Assigning [length] of an Array: the elements at or past the new length
    go away; a value that is no array length is a RangeError. *)
Definition ArraySetLength (v : value) (props : list (string * value))
    : outcome (nat * list (string * value)) :=
  n ← ToNumber v;
  match n with
  | NumInt z =>
      if (0 <=? z)%Z && (z <? 4294967296)%Z then
        Ok (Z.to_nat z, filter (λ e, below_length (Z.to_N z) e.1) props)
      else Throw (RangeError "Invalid array length")
  | _ => Throw (RangeError "Invalid array length")
  end.

(** Creating or assigning an own data property of an Array or a plain
    object. *)
Definition set_own_property (o : obj) (key : string) (v : value) : outcome obj :=
  match o with
  | ArrayObject length props =>
      if decide (key = "length") then
        '(length, props) ← ArraySetLength v props;
        Ok (ArrayObject length props)
      else
        match array_index key with
        | Some i =>
            Ok (ArrayObject (length `max` (N.to_nat i + 1)) (define_property key v props))
        | None => Ok (ArrayObject length (define_property key v props))
        end
  | PlainObject props => Ok (PlainObject (define_property key v props))
  | _ => Unmodelled
  end.

(** The effect of [Reflect.set(target, key, v)] on the target, an Array or
    a plain object.  The key [__proto__], unless it is an own property, is
    the accessor of [Object.prototype]: its setter ignores a primitive other
    than null, and otherwise replaces the prototype, which the model does
    not have. *)
Definition Reflect_set_own (o : obj) (key : string) (v : value) : outcome obj :=
  if decide (key = "__proto__") then
    if hasOwnProperty o key then set_own_property o key v
    else match o with
         | ArrayObject _ _ | PlainObject _ =>
             match v with
             | VObject _ | VNull => Unmodelled
             | _ => Ok o
             end
         | _ => Unmodelled
         end
  else set_own_property o key v.

Definition Reflect_set (h : heap) (target : value) (key : string) (v : value) : outcome heap :=
  match target with
  | VObject l =>
      match h !! l with
      | Some o => o ← Reflect_set_own o key v; Ok (<[l := o]> h)
      | None => Unmodelled
      end
  | _ => Unmodelled
  end.

(** [new Array(length)]: [length] empty slots. *)
Definition Array_new (length : nat) : outcome obj :=
  if (N.of_nat length <? 4294967296)%N then Ok (ArrayObject length [])
  else Throw (RangeError "Invalid array length").

(** The loop of lines 289-291: [data[i] = Number(dataParts[i])]; a store
    past the end of a typed array is ignored. *)
Fixpoint fill_bytes (i : nat) (dataParts : list string) (data : list byte) : list byte :=
  match dataParts with
  | [] => data
  | part :: dataParts' => fill_bytes (S i) dataParts' (<[i := ToUint8 (Number part)]> data)
  end.

(** The [switch] over [typedArrayName].  The case ['DataView'] has no
    [break]: after the assignment control runs into [default], which
    throws. *)
Definition typedArrayConstructor (typedArrayName : string) : outcome viewKind :=
  if decide (typedArrayName = "Int8Array") then Ok Int8Array
  else if decide (typedArrayName = "Uint8Array") then Ok Uint8Array
  else if decide (typedArrayName = "Uint8ClampedArray") then Ok Uint8ClampedArray
  else if decide (typedArrayName = "Int16Array") then Ok Int16Array
  else if decide (typedArrayName = "Uint16Array") then Ok Uint16Array
  else if decide (typedArrayName = "Int32Array") then Ok Int32Array
  else if decide (typedArrayName = "Uint32Array") then Ok Uint32Array
  else if decide (typedArrayName = "Float32Array") then Ok Float32Array
  else if decide (typedArrayName = "Float64Array") then Ok Float64Array
  else if decide (typedArrayName = "BigInt64Array") then Ok BigInt64Array
  else if decide (typedArrayName = "BigUint64Array") then Ok BigUint64Array
  else if decide (typedArrayName = "DataView") then
    let typedArrayConstructor := DataView in
    Throw (Error "Unknown typed array name")
  else Throw (Error "Unknown typed array name").

(** [new typedArrayConstructor(arrayBuffer, byteOffset, length)]: the third
    argument of a typed array constructor counts elements.  A first
    argument that is no ArrayBuffer selects other overloads of the
    constructor, which are not modelled. *)
Definition TypedArray_new (kind : viewKind) (h : heap) (arrayBuffer : value)
    (byteOffset length : nat) : outcome obj :=
  match arrayBuffer with
  | VObject buffer =>
      match h !! buffer with
      | Some (ArrayBufferObject data) =>
          let elementSize := BYTES_PER_ELEMENT kind in
          if negb (Nat.eqb (byteOffset `mod` elementSize) 0) then
            Throw (RangeError "start offset should be a multiple of the element size")
          else if Nat.ltb (List.length data) (byteOffset + length * elementSize) then
            Throw (RangeError "Invalid typed array length")
          else Ok (ArrayBufferViewObject kind buffer byteOffset (length * elementSize))
      | _ => Unmodelled
      end
  | _ => Unmodelled
  end.

(** The [switch] over [primitiveType] (lines 252-271). *)
Definition deserialize_primitive (primitiveType : PrimitiveType) (s : string) : outcome value :=
  match primitiveType with
  | PT_undefined => Ok VUndefined
  | PT_null => Ok VNull
  | PT_boolean => Ok (VBoolean (String.eqb s "true"))
  | PT_number => Ok (VNumber (Number s))
  | PT_bigint => z ← BigInt s; Ok (VBigInt z)
  | PT_string => Ok (VString s)
  end.

(** The body of [structuredDeserializeInternal]; [self] is the function
    itself, called on the children.  The pattern and flags of a RegExp
    record are taken to be those of a RegExp, as the serializer writes them,
    and the buffer of an ArrayBuffer record to be allocated: the SyntaxError
    of [new RegExp] and the RangeError of an allocation that fails are
    outside the model. *)
Definition structuredDeserializeInternal_body
    (self : ChildSerialization → list ComplexSerialization → heap → gmap nat value
            → outcome (value * heap * gmap nat value))
    (serialized : ChildSerialization)
    (objects : list ComplexSerialization) (h : heap) (memory : gmap nat value)
    : outcome (value * heap * gmap nat value) :=
    match serialized with
    | Primitive primitiveType s =>
        value ← deserialize_primitive primitiveType s;
        Ok (value, h, memory)
    | Reference referenceId =>
      match memory !! referenceId with
      | Some value => Ok (value, h, memory)
      | None =>
        match objects !! referenceId with
        | None => Throw (TypeError "Cannot read properties of undefined (reading 'type')")
        | Some complexSerialized =>
          '(value, deep, h, memory) ←
            match complexSerialized with
            | BooleanSerialization booleanData =>
                let '(value, h) := alloc (BooleanObject (String.eqb booleanData "true")) h in
                Ok (value, false, h, memory)
            | NumberSerialization numberData =>
                let '(value, h) := alloc (NumberObject (Number numberData)) h in
                Ok (value, false, h, memory)
            | StringSerialization stringData =>
                let '(value, h) := alloc (StringObject stringData) h in
                Ok (value, false, h, memory)
            | DateSerialization dateData =>
                let '(value, h) := alloc (DateObject (Date_new dateData)) h in
                Ok (value, false, h, memory)
            | RegExpSerialization originalSource originalFlags =>
                let '(value, h) := alloc (RegExpObject originalSource originalFlags) h in
                Ok (value, false, h, memory)
            | ArrayBufferSerialization size arrayBufferData =>
                let data := replicate size x00 in
                let dataParts := split "," arrayBufferData in
                let '(value, h) := alloc (ArrayBufferObject (fill_bytes 0 dataParts data)) h in
                Ok (value, false, h, memory)
            | TypedArraySerialization typedArrayName typedArrayByteOffset typedArrayByteLength
                arrayBufferSerialized =>
                kind ← typedArrayConstructor typedArrayName;
                '(arrayBuffer, h, memory) ←
                  self arrayBufferSerialized objects h memory;
                typedArray ← TypedArray_new kind h arrayBuffer
                               typedArrayByteOffset typedArrayByteLength;
                let '(value, h) := alloc typedArray h in
                Ok (value, false, h, memory)
            | MapSerialization _ =>
                let '(value, h) := alloc (MapObject []) h in Ok (value, true, h, memory)
            | SetSerialization _ =>
                let '(value, h) := alloc (SetObject []) h in Ok (value, true, h, memory)
            | ArraySerialization length _ =>
                array ← Array_new length;
                let '(value, h) := alloc array h in Ok (value, true, h, memory)
            | ObjectSerialization _ =>
                let '(value, h) := alloc (PlainObject []) h in Ok (value, true, h, memory)
            | ErrorSerialization name message =>
                let '(value, h) := alloc (ErrorObject name message) h in
                Ok (value, false, h, memory)
            | OtherSerialization _ => Ok (VUndefined, false, h, memory)
            end;
          let memory := <[referenceId := value]> memory in
          '(h, memory) ←
            (if deep : bool then
               match complexSerialized with
               | MapSerialization mapData =>
                   foldM (λ '(h, memory) '(serializedKey, serializedValue),
                     '(deserializedKey, h, memory) ←
                       self serializedKey objects h memory;
                     '(deserializedValue, h, memory) ←
                       self serializedValue objects h memory;
                     Ok (Map_prototype_set h value deserializedKey deserializedValue, memory))
                     (h, memory) mapData
               | SetSerialization setData =>
                   foldM (λ '(h, memory) serializedValue,
                     '(deserializedValue, h, memory) ←
                       self serializedValue objects h memory;
                     Ok (Set_prototype_add h value deserializedValue, memory))
                     (h, memory) setData
               | ArraySerialization _ properties | ObjectSerialization properties =>
                   foldM (λ '(h, memory) '(key, serializedValue),
                     '(deserializedValue, h, memory) ←
                       self serializedValue objects h memory;
                     h ← Reflect_set h value key deserializedValue;
                     Ok (h, memory))
                     (h, memory) properties
               | _ => Ok (h, memory)
               end
             else Ok (h, memory));
          Ok (value, h, memory)
        end
      end
    end.

Fixpoint structuredDeserializeInternal (fuel : nat) (serialized : ChildSerialization)
    (objects : list ComplexSerialization) (h : heap) (memory : gmap nat value)
    : outcome (value * heap * gmap nat value) :=
  match fuel with
  | 0 => OutOfFuel
  | S fuel =>
      structuredDeserializeInternal_body (structuredDeserializeInternal fuel)
        serialized objects h memory
  end.

(** [structuredDeserialize] after [JSON.parse], whose result the source
    takes for a [TopLevelSerialization]: a bare primitive is decoded against
    an empty record array, an envelope from its top-level value. *)
Definition structuredDeserialize (fuel : nat) (serialized : TopLevelSerialization)
    : outcome (value * heap) :=
  match serialized with
  | TopLevelPrimitive primitiveType s =>
      '(value, h, _) ← structuredDeserializeInternal fuel (Primitive primitiveType s) [] [] ∅;
      Ok (value, h)
  | TopLevel objects topLevelValue =>
      '(value, h, _) ← structuredDeserializeInternal fuel topLevelValue objects [] ∅;
      Ok (value, h)
  end.

(** ** Auxiliary definitions for the statements *)

Fixpoint has_char (c : ascii) (s : string) : bool :=
  match s with
  | EmptyString => false
  | String c' s' => Ascii.eqb c' c || has_char c s'
  end.


(** ** The value graph *)

Open Scope list_scope.
Open Scope nat_scope.

(** The values an object refers to, in the order the serializer visits
    them. *)
Definition children (o : obj) : list value :=
  match o with
  | ArrayBufferViewObject _ buffer _ _ => [VObject buffer]
  | MapObject entries => entries ≫= λ e, [e.1; e.2]
  | SetObject elements => elements
  | ArrayObject _ props | PlainObject props => props.*2
  | _ => []
  end.

Inductive reachable (h : heap) : value → value → Prop :=
  | reachable_refl v : reachable h v v
  | reachable_child l o c w :
      h !! l = Some o → c ∈ children o → reachable h c w → reachable h (VObject l) w.

(** Own-property order: array indices ascending, then the other keys. *)
Definition key_before (k1 k2 : string) : Prop :=
  match array_index k1, array_index k2 with
  | Some i, Some j => (i < j)%N
  | Some _, None => True
  | None, Some _ => False
  | None, None => True
  end.

#[global] Instance key_before_dec : RelDecision key_before.
Proof. intros k1 k2. unfold key_before. repeat case_match; apply _. Defined.

Fixpoint own_property_order (keys : list string) : Prop :=
  match keys with
  | [] => True
  | k :: keys' => Forall (key_before k) keys' ∧ own_property_order keys'
  end.

#[global] Instance own_property_order_dec keys : Decision (own_property_order keys).
Proof. induction keys; simpl; apply _. Defined.

Definition value_wf (h : heap) (v : value) : Prop :=
  match v with
  | VObject l => (l < List.length h)%nat
  | _ => True
  end.

#[global] Instance value_wf_dec h v : Decision (value_wf h v).
Proof. destruct v; simpl; apply _. Defined.

Definition props_wf (h : heap) (props : list (string * value)) : Prop :=
  NoDup props.*1 ∧ own_property_order props.*1 ∧ Forall (value_wf h) props.*2.

(** What the host guarantees of any object: references lead to objects, a
    view lies within its ArrayBuffer, the keys of a Map and the elements of
    a Set are distinct, own keys are distinct and in own-property order,
    the indices of an Array are below its length, a time value is within
    the range of Dates.  The buffer of a view is an ArrayBuffer: a view over
    a SharedArrayBuffer is outside the model. *)
Definition obj_wf (h : heap) (o : obj) : Prop :=
  match o with
  | DateObject (TimeValue ms) => (- maxTime ≤ ms)%Z ∧ (ms ≤ maxTime)%Z
  | ArrayBufferViewObject kind buffer byteOffset byteLength =>
      ∃ data, h !! buffer = Some (ArrayBufferObject data)
        ∧ (byteOffset + byteLength ≤ List.length data)%nat
        ∧ byteOffset `mod` BYTES_PER_ELEMENT kind = 0
        ∧ byteLength `mod` BYTES_PER_ELEMENT kind = 0
  | MapObject entries =>
      NoDup entries.*1 ∧ Forall (value_wf h) entries.*1 ∧ Forall (value_wf h) entries.*2
  | SetObject elements => NoDup elements ∧ Forall (value_wf h) elements
  | ArrayObject length props =>
      props_wf h props ∧ ("length" ∉ props.*1) ∧ (N.of_nat length < 4294967296)%N
      ∧ Forall (λ k, ∀ i, array_index k = Some i → (i < N.of_nat length)%N) props.*1
  | PlainObject props => props_wf h props
  | _ => True
  end.

Definition heap_wf (h : heap) : Prop := Forall (obj_wf h) h.

(** ** What the serializer is to produce *)

(** The child node of a value, given the values numbered so far. *)
Definition serialized_child (keys : list value) (v : value) : option ChildSerialization :=
  match v with
  | VUndefined => Some (Primitive PT_undefined "undefined")
  | VNull => Some (Primitive PT_null "null")
  | VBoolean b => Some (Primitive PT_boolean (Boolean_toString b))
  | VNumber n => Some (Primitive PT_number (Number_toString n))
  | VBigInt z => Some (Primitive PT_bigint (Z_toString z))
  | VString s => Some (Primitive PT_string s)
  | VSymbol _ => None
  | VObject _ => Reference <$> indexOf keys v
  end.

(** The record of an object, given the numbering of the values. *)
Definition serialized_record (keys : list value) (o : obj) : option ComplexSerialization :=
  match o with
  | BooleanObject b => Some (BooleanSerialization (Boolean_toString b))
  | NumberObject n => Some (NumberSerialization (Number_toString n))
  | StringObject s => Some (StringSerialization s)
  | DateObject (TimeValue ms) => Some (DateSerialization (ISOString ms))
  | DateObject InvalidDate => None
  | RegExpObject source flags => Some (RegExpSerialization source flags)
  | ArrayBufferObject data =>
      Some (ArrayBufferSerialization (List.length data) (join "," (byte_toString <$> data)))
  | ArrayBufferViewObject kind buffer byteOffset byteLength =>
      TypedArraySerialization (constructor_name kind) byteOffset byteLength
        <$> serialized_child keys (VObject buffer)
  | MapObject entries =>
      MapSerialization <$>
        mapM (λ e, k ← serialized_child keys e.1; v ← serialized_child keys e.2; Some (k, v))
          entries
  | SetObject elements => SetSerialization <$> mapM (serialized_child keys) elements
  | ErrorObject name message =>
      Some (ErrorSerialization
              (if bool_decide (name ∈ standard_error_names) then name else "Error") message)
  | ArrayObject length _ =>
      ArraySerialization length <$>
        mapM (λ name, c ← serialized_child keys (Reflect_get o name); Some (name, c))
          (filter (λ name, hasOwnProperty o name) (getOwnPropertyNames o))
  | PlainObject _ =>
      ObjectSerialization <$>
        mapM (λ name, c ← serialized_child keys (Reflect_get o name); Some (name, c))
          (filter (λ name, hasOwnProperty o name) (getOwnPropertyNames o))
  | WeakMapObject | WeakSetObject | PromiseObject | WeakRefObject
  | FinalizationRegistryObject | FunctionObject => None
  end.

Definition entry_complete (h : heap) (keys : list value)
    (e : value * ComplexSerialization) : Prop :=
  ∃ l o, e.1 = VObject l ∧ h !! l = Some o ∧ serialized_record keys o = Some e.2.

Definition memory_ok (h : heap) (memory : Memory) : Prop :=
  NoDup (memory_keys memory)
  ∧ Forall (λ k, ∃ l, k = VObject l ∧ (l < List.length h)%nat) (memory_keys memory).

(** The error a value is rejected with. *)
Definition unsupported_message (o : obj) : option string :=
  match o with
  | WeakMapObject | WeakSetObject => Some "Cannot serialize a WeakMap or WeakSet"
  | PromiseObject => Some "Cannot serialize a Promise"
  | WeakRefObject => Some "Cannot serialize a WeakRef"
  | FinalizationRegistryObject => Some "Cannot serialize a FinalizationRegistry"
  | FunctionObject => Some "Cannot serialize a function"
  | _ => None
  end.

Definition rejects (h : heap) (w : value) (e : error) : Prop :=
  match w with
  | VSymbol _ => e = TypeError "Cannot serialize a Symbol"
  | VObject l =>
      ∃ o, h !! l = Some o
        ∧ ((∃ message, unsupported_message o = Some message ∧ e = TypeError message)
           ∨ (o = DateObject InvalidDate ∧ e = RangeError "Invalid time value"))
  | _ => False
  end.

Definition serialize_post (h : heap) (v : value) (memory : Memory)
    (r : outcome (ChildSerialization * Memory)) : Prop :=
  match r with
  | Ok (c, memory') =>
      ∃ new, memory' = (memory ++ new)
        ∧ memory_ok h memory'
        ∧ serialized_child (memory_keys memory') v = Some c
        ∧ Forall (entry_complete h (memory_keys memory')) new
        ∧ Forall (λ e, reachable h v e.1) new
  | Throw e => ∃ w, reachable h v w ∧ rejects h w e
  | _ => False
  end.

(** Values with an identity: the serializer can only reject or record
    these. *)
Definition has_identity (w : value) : Prop :=
  match w with
  | VObject _ | VSymbol _ => True
  | _ => False
  end.

(** The state of the identity table while the children of [v] are being
    serialized: [v] has its entry, with the record [r] built so far, after
    the entries that were there before; the entries after it are
    complete. *)
Definition children_inv (h : heap) (memory0 : Memory) (v : value)
    (r : ComplexSerialization) (memory : Memory) : Prop :=
  ∃ new, memory = memory0 ++ (v, r) :: new
    ∧ memory_ok h memory
    ∧ Forall (entry_complete h (memory_keys memory)) new
    ∧ Forall (λ e, reachable h v e.1) new.

(** ** What the deserializer is to produce *)

Definition to_option {A} (m : outcome A) : option A :=
  match m with
  | Ok a => Some a
  | _ => None
  end.

(** The value a child node stands for, given the instances registered so
    far. *)
Definition resolve (memory : gmap nat value) (c : ChildSerialization) : option value :=
  match c with
  | Primitive primitiveType s => to_option (deserialize_primitive primitiveType s)
  | Reference referenceId => memory !! referenceId
  end.

Definition resolve_entry (memory : gmap nat value)
    (e : ChildSerialization * ChildSerialization) : option (value * value) :=
  k ← resolve memory e.1; v ← resolve memory e.2; Some (k, v).

Definition resolve_property (memory : gmap nat value)
    (e : string * ChildSerialization) : option (string * value) :=
  v ← resolve memory e.2; Some (e.1, v).

Definition populate_map (entries : list (value * value)) (more : list (value * value))
    : list (value * value) :=
  foldl (λ es e, Map_set_entries e.1 e.2 es) entries more.

Definition populate_set (elements : list value) (more : list value) : list value :=
  foldl (λ es v, Set_add_elements v es) elements more.

Definition populate_properties (o : obj) (props : list (string * value)) : outcome obj :=
  foldM (λ o e, Reflect_set_own o e.1 e.2) o props.

(** The object a record stands for, its children resolved. *)
Definition object_of_record (h : heap) (memory : gmap nat value)
    (r : ComplexSerialization) : option obj :=
  match r with
  | BooleanSerialization booleanData => Some (BooleanObject (String.eqb booleanData "true"))
  | NumberSerialization numberData => Some (NumberObject (Number numberData))
  | StringSerialization stringData => Some (StringObject stringData)
  | DateSerialization dateData => Some (DateObject (Date_new dateData))
  | RegExpSerialization originalSource originalFlags =>
      Some (RegExpObject originalSource originalFlags)
  | ArrayBufferSerialization size arrayBufferData =>
      Some (ArrayBufferObject (fill_bytes 0 (split "," arrayBufferData) (replicate size x00)))
  | TypedArraySerialization name byteOffset byteLength arrayBufferSerialized =>
      kind ← to_option (typedArrayConstructor name);
      arrayBuffer ← resolve memory arrayBufferSerialized;
      to_option (TypedArray_new kind h arrayBuffer byteOffset byteLength)
  | MapSerialization mapData =>
      entries ← mapM (resolve_entry memory) mapData;
      Some (MapObject (populate_map [] entries))
  | SetSerialization setData =>
      elements ← mapM (resolve memory) setData;
      Some (SetObject (populate_set [] elements))
  | ErrorSerialization name message => Some (ErrorObject name message)
  | ArraySerialization length properties =>
      shell ← to_option (Array_new length);
      props ← mapM (resolve_property memory) properties;
      to_option (populate_properties shell props)
  | ObjectSerialization properties =>
      props ← mapM (resolve_property memory) properties;
      to_option (populate_properties (PlainObject []) props)
  | OtherSerialization _ => None
  end.

(** [v] is the instance of record [r]: a fresh object, at or past [lo],
    holding what the record stands for; a record of unrecognized type has
    the instance [undefined]. *)
Definition decoded (lo : nat) (h : heap) (memory : gmap nat value)
    (r : ComplexSerialization) (v : value) : Prop :=
  match r with
  | OtherSerialization _ => v = VUndefined
  | _ => ∃ l o, v = VObject l ∧ lo ≤ l ∧ h !! l = Some o ∧ object_of_record h memory r = Some o
  end.

Definition is_container (o : obj) : Prop :=
  match o with
  | MapObject _ | SetObject _ | ArrayObject _ _ | PlainObject _ => True
  | _ => False
  end.

(** The registered instances are objects of the heap, one per id. *)
Definition instances_ok (h : heap) (memory : gmap nat value) : Prop :=
  (∀ id l, memory !! id = Some (VObject l) → l < List.length h)
  ∧ (∀ id1 id2 l,
       memory !! id1 = Some (VObject l) → memory !! id2 = Some (VObject l) → id1 = id2).

Definition deserialize_post (objects : list ComplexSerialization)
    (c : ChildSerialization) (h : heap) (memory : gmap nat value)
    (v : value) (h' : heap) (memory' : gmap nat value) : Prop :=
  (∀ l o, h !! l = Some o → h' !! l = Some o)
  ∧ memory ⊆ memory'
  ∧ resolve memory' c = Some v
  ∧ (∀ id v, memory !! id = None → memory' !! id = Some v →
       ∃ r, objects !! id = Some r ∧ decoded (List.length h) h' memory' r v)
  ∧ instances_ok h' memory'
  ∧ (∀ id, c = Reference id → is_Some (memory !! id) → h' = h ∧ memory' = memory)
  ∧ (∀ id size data, c = Reference id → memory !! id = None →
       objects !! id = Some (ArrayBufferSerialization size data) →
       memory' = <[id := v]> memory).

(** The state while the container at [l0] is being populated: apart from
    [l0] the heap [h0] it was allocated in is intact, and the instances
    registered since are complete. *)
Definition populating (objects : list ComplexSerialization) (l0 : nat)
    (h0 : heap) (memory0 : gmap nat value) (h : heap) (memory : gmap nat value) : Prop :=
  (∀ l o, h0 !! l = Some o → l ≠ l0 → h !! l = Some o)
  ∧ memory0 ⊆ memory
  ∧ (∀ id v, memory0 !! id = None → memory !! id = Some v →
       ∃ r, objects !! id = Some r ∧ decoded (S l0) h memory r v)
  ∧ instances_ok h memory
  ∧ (∃ o, h !! l0 = Some o ∧ is_container o).

(** ** Envelopes the deserializer accepts *)

Definition good_child (objects : list ComplexSerialization) (c : ChildSerialization) : Prop :=
  match c with
  | Primitive primitiveType s => is_Ok (deserialize_primitive primitiveType s)
  | Reference referenceId => referenceId < List.length objects
  end.

(** Every reference is within the record array, a view names a typed array
    constructor and lies, counted in elements, within an ArrayBuffer record,
    a [length] property of an Array is an array length, no property is
    named [__proto__]. *)
Definition good_record (objects : list ComplexSerialization) (r : ComplexSerialization) : Prop :=
  match r with
  | TypedArraySerialization name byteOffset byteLength c =>
      ∃ kind b size data,
        typedArrayConstructor name = Ok kind ∧ c = Reference b
        ∧ objects !! b = Some (ArrayBufferSerialization size data)
        ∧ byteOffset `mod` BYTES_PER_ELEMENT kind = 0
        ∧ byteOffset + byteLength * BYTES_PER_ELEMENT kind ≤ size
  | MapSerialization mapData =>
      Forall (λ e, good_child objects e.1 ∧ good_child objects e.2) mapData
  | SetSerialization setData => Forall (good_child objects) setData
  | ArraySerialization length properties =>
      (N.of_nat length < 4294967296)%N
      ∧ Forall (λ e : string * ChildSerialization, good_child objects e.2
                  ∧ e.1 ≠ "__proto__"
                  ∧ (e.1 = "length" →
                     ∃ s z, e.2 = Primitive PT_number s ∧ Number s = NumInt z
                            ∧ (0 ≤ z)%Z ∧ (z < 4294967296)%Z)) properties
  | ObjectSerialization properties =>
      Forall (λ e : string * ChildSerialization, good_child objects e.2 ∧ e.1 ≠ "__proto__")
        properties
  | _ => True
  end.

Definition good_envelope (objects : list ComplexSerialization) : Prop :=
  Forall (good_record objects) objects.

(** The state the deserializer can proceed from: the registered ids are
    within the record array, and the id of an ArrayBuffer record stands for
    an ArrayBuffer of the recorded size. *)
Definition ready (objects : list ComplexSerialization) (h : heap) (memory : gmap nat value)
    : Prop :=
  instances_ok h memory
  ∧ (∀ id, is_Some (memory !! id) → id < List.length objects)
  ∧ (∀ id v size data,
       memory !! id = Some v →
       objects !! id = Some (ArrayBufferSerialization size data) →
       ∃ l bytes, v = VObject l ∧ h !! l = Some (ArrayBufferObject bytes)
                  ∧ List.length bytes = size).

(** The state of a loop of the deserializer that populates the container
    at [l0], an object of kind [Q], with calls of depth [fuel] left. *)
Definition loop_ready (objects : list ComplexSerialization) (fuel : nat) (Q : obj → Prop)
    (l0 : nat) (s : heap * gmap nat value) : Prop :=
  ready objects s.1 s.2
  ∧ List.length objects + 1 ≤ fuel + size s.2
  ∧ ∃ o, s.1 !! l0 = Some o ∧ Q o.

(** ** Structural equivalence of value graphs *)

Definition rename_value (f : nat → nat) (v : value) : value :=
  match v with
  | VObject l => VObject (f l)
  | _ => v
  end.

Definition rename_entry (f : nat → nat) (e : value * value) : value * value :=
  (rename_value f e.1, rename_value f e.2).

Definition rename_property (f : nat → nat) (e : string * value) : string * value :=
  (e.1, rename_value f e.2).

(** An object with the identities it refers to renamed. *)
Definition rename_obj (f : nat → nat) (o : obj) : obj :=
  match o with
  | ArrayBufferViewObject kind buffer byteOffset byteLength =>
      ArrayBufferViewObject kind (f buffer) byteOffset byteLength
  | MapObject entries => MapObject (rename_entry f <$> entries)
  | SetObject elements => SetObject (rename_value f <$> elements)
  | ArrayObject length props => ArrayObject length (rename_property f <$> props)
  | PlainObject props => PlainObject (rename_property f <$> props)
  | _ => o
  end.

(** [(h', v')] is a copy of the graph of [v] in [h], up to [norm] on each
    object: a one-to-one renaming of identities takes the root to the root
    and every reachable object to an object of the same variant with the
    same fields. *)
Definition graph_copy (norm : obj → obj) (h : heap) (v : value) (h' : heap) (v' : value)
    : Prop :=
  ∃ f : nat → nat,
    v' = rename_value f v
    ∧ (∀ l1 l2, reachable h v (VObject l1) → reachable h v (VObject l2) →
         f l1 = f l2 → l1 = l2)
    ∧ (∀ l, reachable h v (VObject l) →
         ∃ o, h !! l = Some o ∧ h' !! f l = Some (rename_obj f (norm o))).

Definition graph_equiv : heap → value → heap → value → Prop := graph_copy id.

(** What the serializer does to the name of an Error (lines 174-177). *)
Definition standard_error_name (o : obj) : obj :=
  match o with
  | ErrorObject name message =>
      ErrorObject (if bool_decide (name ∈ standard_error_names) then name else "Error") message
  | _ => o
  end.

(** The objects both directions of the codec handle: the serializer
    records them, and the deserializer rebuilds them.  A view with elements
    wider than a byte and a DataView are not rebuilt; an own property named
    [__proto__] is not either, [Reflect.set] taking that key for the
    accessor of [Object.prototype]. *)
Definition round_trips (o : obj) : Prop :=
  match o with
  | DateObject InvalidDate => False
  | ArrayBufferViewObject kind _ _ _ => kind ∈ [Int8Array; Uint8Array; Uint8ClampedArray]
  | ArrayObject _ props | PlainObject props => "__proto__" ∉ props.*1
  | WeakMapObject | WeakSetObject | PromiseObject | WeakRefObject
  | FinalizationRegistryObject | FunctionObject => False
  | _ => True
  end.

Definition value_supported (P : obj → Prop) (h : heap) (w : value) : Prop :=
  match w with
  | VSymbol _ => False
  | VObject l => ∃ o, h !! l = Some o ∧ P o
  | _ => True
  end.

Definition supported_graph (h : heap) (v : value) : Prop :=
  ∀ w, reachable h v w → value_supported round_trips h w.

(** The Numbers whose text the model has as the host writes and reads it:
    the safe integers (of magnitude at most 2^53 - 1), NaN and the
    infinities. *)
Definition exact_number (n : number) : Prop :=
  match n with
  | NumInt z => (- 9007199254740991 ≤ z)%Z ∧ (z ≤ 9007199254740991)%Z
  | _ => True
  end.

Definition exact_value (w : value) : Prop :=
  match w with
  | VNumber n => exact_number n
  | _ => True
  end.

Definition exact_obj (o : obj) : Prop :=
  match o with
  | NumberObject n => exact_number n
  | _ => Forall exact_value (children o)
  end.

(** Every Number in the graph of [v], primitive or boxed, is one of them. *)
Definition exact_numbers (h : heap) (v : value) : Prop :=
  exact_value v
  ∧ ∀ l o, reachable h v (VObject l) → h !! l = Some o → exact_obj o.

(** The record array is the flattening of the heap under the numbering
    [keys]. *)
Definition flattened (h : heap) (keys : list value) (objects : list ComplexSerialization)
    : Prop :=
  List.length keys = List.length objects
  ∧ NoDup keys
  ∧ ∀ i k r, keys !! i = Some k → objects !! i = Some r →
      ∃ l o, k = VObject l ∧ h !! l = Some o ∧ serialized_record keys o = Some r.

(** ** The codec on its own output *)

(** What the serializer leaves when it returns [c] for [v], started from
    the empty table: the entries are the objects reachable from [v], each
    with its complete record. *)
Definition encoded (h : heap) (v : value) (c : ChildSerialization) (memory : Memory) : Prop :=
  memory_ok h memory
  ∧ serialized_child (memory_keys memory) v = Some c
  ∧ Forall (entry_complete h (memory_keys memory)) memory
  ∧ Forall (λ e, reachable h v e.1) memory.

(** The instance the deserializer registered for the object at [l], which
    the serializer numbered by its position in [keys]. *)
Definition instance_of (keys : list value) (memory : gmap nat value) (l : nat) : nat :=
  match indexOf keys (VObject l) with
  | Some id =>
      match memory !! id with
      | Some (VObject l') => l'
      | _ => 0
      end
  | None => 0
  end.

(** A position in a value graph: the value found from [v] by taking, at
    each step, the child of that index. *)
Fixpoint follow (h : heap) (v : value) (path : list nat) : option value :=
  match path with
  | [] => Some v
  | i :: path =>
      match v with
      | VObject l => o ← h !! l; c ← children o !! i; follow h c path
      | _ => None
      end
  end.

(** The child nodes a record holds. *)
Definition record_children (r : ComplexSerialization) : list ChildSerialization :=
  match r with
  | TypedArraySerialization _ _ _ arrayBufferSerialized => [arrayBufferSerialized]
  | MapSerialization mapData => mapData ≫= λ e, [e.1; e.2]
  | SetSerialization setData => setData
  | ArraySerialization _ properties | ObjectSerialization properties => properties.*2
  | _ => []
  end.

(** The object [structuredSerialize] builds from what the internal
    function returns. *)
Definition envelope_of (c : ChildSerialization) (memory : Memory) : TopLevelSerialization :=
  match c with
  | Primitive primitiveType s => TopLevelPrimitive primitiveType s
  | Reference _ => TopLevel (memory_values memory) c
  end.

(** Reading [message] of an Error: its own property, or else the empty
    string of [Error.prototype]. *)
Definition Error_message (o : obj) : option string :=
  match o with
  | ErrorObject _ message => Some (default "" message)
  | _ => None
  end.

(** ** Unsupported values *)

Definition unsupported (h : heap) (w : value) : Prop :=
  match w with
  | VSymbol _ => True
  | VObject l => ∃ o, h !! l = Some o ∧ is_Some (unsupported_message o)
  | _ => False
  end.

(** ** Envelopes as the deserializer reads them *)

(** The child nodes decoding reaches from a child node. *)
Inductive reaches (objects : list ComplexSerialization)
    : ChildSerialization → ChildSerialization → Prop :=
  | reaches_refl c : reaches objects c c
  | reaches_child id r c c' :
      objects !! id = Some r → c ∈ record_children r → reaches objects c c' →
      reaches objects (Reference id) c'.

Definition in_range (n : nat) (c : ChildSerialization) : Prop :=
  match c with
  | Primitive _ _ => True
  | Reference referenceId => referenceId < n
  end.

(** A view record whose [typedArrayName] names no view constructor. *)
Definition unrecognized_view (r : ComplexSerialization) : Prop :=
  match r with
  | TypedArraySerialization typedArrayName _ _ _ =>
      ∀ kind, typedArrayName ≠ constructor_name kind
  | _ => False
  end.

(** The records on which every step of the deserializer is within the
    model of the host.  The buffer of a view record that names a typed array
    is a Reference, to an ArrayBuffer record or to no record at all: any
    other first argument selects another overload of the constructor.  No
    property is named [__proto__], whose setter replaces the prototype.  The
    [length] property of an Array record is a primitive: the conversion of
    an object to a Number runs code of that object. *)
Definition modelled_record (objects : list ComplexSerialization) (r : ComplexSerialization)
    : Prop :=
  match r with
  | TypedArraySerialization typedArrayName _ _ arrayBufferSerialized =>
      is_Ok (typedArrayConstructor typedArrayName) →
      ∃ b, arrayBufferSerialized = Reference b
           ∧ (List.length objects ≤ b
              ∨ ∃ size data, objects !! b = Some (ArrayBufferSerialization size data))
  | ArraySerialization _ properties =>
      Forall (λ e : string * ChildSerialization,
                e.1 ≠ "__proto__"
                ∧ (e.1 = "length" → ∃ primitiveType s, e.2 = Primitive primitiveType s))
        properties
  | ObjectSerialization properties =>
      Forall (λ e : string * ChildSerialization, e.1 ≠ "__proto__") properties
  | _ => True
  end.

Definition modelled_envelope (objects : list ComplexSerialization) : Prop :=
  Forall (modelled_record objects) objects.

(** Renumbering the records: every [referenceId] goes through [π]. *)
Definition renumber_child (π : nat → nat) (c : ChildSerialization) : ChildSerialization :=
  match c with
  | Primitive _ _ => c
  | Reference referenceId => Reference (π referenceId)
  end.

Definition renumber_record (π : nat → nat) (r : ComplexSerialization) : ComplexSerialization :=
  match r with
  | TypedArraySerialization typedArrayName typedArrayByteOffset typedArrayByteLength
      arrayBufferSerialized =>
      TypedArraySerialization typedArrayName typedArrayByteOffset typedArrayByteLength
        (renumber_child π arrayBufferSerialized)
  | MapSerialization mapData =>
      MapSerialization ((λ e, (renumber_child π e.1, renumber_child π e.2)) <$> mapData)
  | SetSerialization setData => SetSerialization (renumber_child π <$> setData)
  | ArraySerialization length properties =>
      ArraySerialization length ((λ e, (e.1, renumber_child π e.2)) <$> properties)
  | ObjectSerialization properties =>
      ObjectSerialization ((λ e, (e.1, renumber_child π e.2)) <$> properties)
  | _ => r
  end.

(** [objects'] holds the records of [objects], the record of id [id] at
    position [π id], with its references renumbered. *)
Definition reordered (π : nat → nat) (objects objects' : list ComplexSerialization) : Prop :=
  ∀ id, objects' !! π id = renumber_record π <$> objects !! id.

(** ** Deciding the conditions on concrete graphs *)

#[global] Instance index_below_dec length k :
  Decision (∀ i, array_index k = Some i → (i < N.of_nat length)%N).
Proof.
  destruct (array_index k) as [i|].
  - destruct (decide (i < N.of_nat length)%N) as [Hlt|Hge].
    + left. by intros ? [= <-].
    + right. intros Hall. by apply Hge, Hall.
  - by left.
Defined.

#[global] Instance obj_wf_dec h o : Decision (obj_wf h o).
Proof.
  destruct o as [b|n|s|[ms|]|source flags|data|kind buffer byteOffset byteLength
                |entries|elements|name message|len props| | | | | | |props];
    simpl; unfold props_wf; try apply _.
  destruct (h !! buffer) as [[| | | | |data| | | | | | | | | | | |]|];
    try (right; by intros (data' & [=] & _)).
  destruct (decide ((byteOffset + byteLength ≤ List.length data)%nat
                    ∧ byteOffset `mod` BYTES_PER_ELEMENT kind = 0
                    ∧ byteLength `mod` BYTES_PER_ELEMENT kind = 0)) as [Hyes|Hno].
  - left. by exists data.
  - right. intros (data' & [= <-] & Hrest). by apply Hno.
Defined.

#[global] Instance heap_wf_dec h : Decision (heap_wf h).
Proof. unfold heap_wf. apply _. Defined.

#[global] Instance round_trips_dec o : Decision (round_trips o).
Proof. destruct o as [| | |[|]| | | | | | | | | | | | | |]; simpl; apply _. Defined.

#[global] Instance value_supported_dec h w : Decision (value_supported round_trips h w).
Proof.
  destruct w as [| | | | | | |l]; simpl; try apply _.
  destruct (h !! l) as [o|].
  - destruct (decide (round_trips o)) as [Hyes|Hno].
    + left. by exists o.
    + right. by intros (o' & [= <-] & Hrt).
  - right. by intros (o' & [=] & _).
Defined.

(** A check that suffices for [supported_graph]: the root and the children
    of every object are supported. *)
Definition supported_heap (h : heap) (v : value) : Prop :=
  value_supported round_trips h v
  ∧ Forall (λ o, Forall (value_supported round_trips h) (children o)) h.

#[global] Instance supported_heap_dec h v : Decision (supported_heap h v).
Proof. unfold supported_heap. apply _. Defined.

#[global] Instance exact_number_dec n : Decision (exact_number n).
Proof. destruct n; simpl; apply _. Defined.

#[global] Instance exact_value_dec w : Decision (exact_value w).
Proof. destruct w; simpl; apply _. Defined.

#[global] Instance exact_obj_dec o : Decision (exact_obj o).
Proof. destruct o; simpl; apply _. Defined.

(** A check that suffices for [exact_numbers]. *)
Definition exact_heap (h : heap) (v : value) : Prop :=
  exact_value v ∧ Forall exact_obj h.

#[global] Instance exact_heap_dec h v : Decision (exact_heap h v).
Proof. unfold exact_heap. apply _. Defined.

(** ** Example graphs *)

(** [const o = { name: 'a' }; o.self = o]. *)
Definition cyclic_record : heap :=
  [PlainObject [("name", VString "a"); ("self", VObject 0)]].

(** [const c = {}; const o = { a: c, b: c }]. *)
Definition shared_record : heap :=
  [PlainObject [("a", VObject 1); ("b", VObject 1)]; PlainObject []].

(** [const e = new Error('boom'); e.name = 'MyError']. *)
Definition custom_error : heap := [ErrorObject "MyError" (Some "boom")].

(** [{ cause: new TypeError() }]: an Error made without a message has no
    own [message]. *)
Definition bare_error : heap := [PlainObject [("cause", VObject 1)]; ErrorObject "TypeError" None].

(** [[1, , 3]]. *)
Definition sparse_array : heap :=
  [ArrayObject 3 [("0", VNumber (NumInt 1)); ("2", VNumber (NumInt 3))]].

(** [const b = new ArrayBuffer(4); [new DataView(b), new Uint8Array(b)]]. *)
Definition shared_buffer : heap :=
  [ArrayObject 2 [("0", VObject 1); ("1", VObject 2)];
   ArrayBufferViewObject DataView 3 0 4;
   ArrayBufferViewObject Uint8Array 3 0 4;
   ArrayBufferObject [x00; x00; x00; x00]].

(** [new Uint8Array(new ArrayBuffer(2))]. *)
Definition byte_view : heap :=
  [ArrayBufferViewObject Uint8Array 1 0 2; ArrayBufferObject [x01; x02]].

(** [JSON.parse('{"__proto__": 1, "a": null}')]: [__proto__] is an own
    property. *)
Definition own_proto_record : heap :=
  [PlainObject [("__proto__", VNumber (NumInt 1)); ("a", VNull)]].

(** [new Int16Array(new ArrayBuffer(4))]. *)
Definition wide_view : heap :=
  [ArrayBufferViewObject Int16Array 1 0 4; ArrayBufferObject [x00; x00; x00; x00]].

(** [const v = new Int16Array(new ArrayBuffer(4)); const o = { a: v, b: v }]. *)
Definition shared_wide_view : heap :=
  [PlainObject [("a", VObject 1); ("b", VObject 1)];
   ArrayBufferViewObject Int16Array 2 0 4;
   ArrayBufferObject [x00; x00; x00; x00]].

(** [[new Date(NaN), () => 0]] and [{ n: 1, f: () => 0 }]. *)
Definition invalid_date_then_function : heap :=
  [ArrayObject 2 [("0", VObject 1); ("1", VObject 2)]; DateObject InvalidDate; FunctionObject].

Definition record_with_function : heap :=
  [PlainObject [("n", VNumber (NumInt 1)); ("f", VObject 1)]; FunctionObject].

(** A Map whose value is the Map itself, a Set, a Date, a boxed string, a
    RegExp, negative and large numbers, a sparse array and two views over
    one buffer, all under one record. *)
Definition mixed_graph : heap :=
  [PlainObject [("map", VObject 1); ("set", VObject 2); ("list", VObject 3);
                ("when", VObject 4); ("text", VObject 5); ("re", VObject 6);
                ("views", VObject 7); ("err", VObject 11); ("none", VUndefined)];
   MapObject [(VString "me", VObject 1); (VNumber (NumInt (-7)), VNull)];
   SetObject [VBoolean true; VBigInt 123456789012345678901234567890; VObject 0];
   ArrayObject 3 [("0", VNumber (NumInt 1)); ("2", VNumber (NumInt 3))];
   DateObject (TimeValue 1700000000000);
   StringObject "boxed";
   RegExpObject "a+b" "gi";
   ArrayObject 2 [("0", VObject 8); ("1", VObject 9)];
   ArrayBufferViewObject Uint8Array 10 0 2;
   ArrayBufferViewObject Int8Array 10 1 2;
   ArrayBufferObject [x01; x02; xff];
   ErrorObject "RangeError" (Some "out of range")].

(** ** The order of the ids *)

(** [self] only adds entries to the table, after those that are there. *)
Definition extends_table (self : value → Memory → outcome (ChildSerialization * Memory))
    : Prop :=
  ∀ x (m : Memory) c m', self x m = Ok (c, m') → memory_keys m `prefix_of` memory_keys m'.

(** In the table [m] the object at [l] comes right after the entries of
    [memory]. *)
Definition numbered (memory : Memory) (l : nat) (m : Memory) : Prop :=
  (memory_keys memory ++ [VObject l]) `prefix_of` memory_keys m.

(** The renumbering that exchanges the ids [i] and [j]. *)
Definition swap_ids (i j : nat) (id : nat) : nat :=
  if decide (id = i) then j else if decide (id = j) then i else id.

(** The registered instances under the renumbered ids, and the results of
    the deserializer and of its loops with them. *)
Definition renumber_memory (π : nat → nat) (memory : gmap nat value) : gmap nat value :=
  kmap π memory.

Definition renumber_result (π : nat → nat) (r : outcome (value * heap * gmap nat value))
    : outcome (value * heap * gmap nat value) :=
  '(v, h, memory) ← r; Ok (v, h, renumber_memory π memory).

Definition renumber_state (π : nat → nat) (r : outcome (heap * gmap nat value))
    : outcome (heap * gmap nat value) :=
  '(h, memory) ← r; Ok (h, renumber_memory π memory).
(** * The codec without references

    The older of the two codecs (src/index.ts) writes a value as one tree:
    a container holds the serializations of its members, not references to
    records.  Its identity table only serves to refuse a value that is met
    twice. *)

Module Legacy.

(** ** The serialized form *)

(** [OtherSerialization] stands for an object whose [type] is none of the
    thirteen the source declares. *)
Unset Elimination Schemes.
Inductive Serialization :=
  | PrimitiveSerialization (primitiveType : PrimitiveType) (value : string)
  | BooleanSerialization (booleanData : string)
  | NumberSerialization (numberData : string)
  | StringSerialization (stringData : string)
  | DateSerialization (dateData : string)
  | RegExpSerialization (originalSource originalFlags : string)
  | ArrayBufferSerialization (arrayBufferByteLength : nat) (arrayBufferData : string)
  | TypedArraySerialization (typedArrayName : string)
      (typedArrayByteOffset typedArrayByteLength : nat)
      (arrayBufferSerialized : Serialization)
  | MapSerialization (mapData : list (Serialization * Serialization))
  | SetSerialization (setData : list Serialization)
  | ErrorSerialization (name : string) (message : option string)
  | ArraySerialization (length : nat) (properties : list (string * Serialization))
  | ObjectSerialization (properties : list (string * Serialization))
  | OtherSerialization (type : string).
Set Elimination Schemes.

(** ** The serializer *)

(** The identity table [memory].  The source only asks whether a value is
    a key of it ([memory.has]); what [memory.set] stores under the key is
    never read, so the table is the list of its keys, in insertion
    order. *)
Definition Memory := list value.

Definition memory_has (memory : Memory) (v : value) : bool := bool_decide (v ∈ memory).

Definition memory_set (memory : Memory) (v : value) : Memory :=
  if bool_decide (v ∈ memory) then memory else memory ++ [v].

Definition push_mapData (e : Serialization * Serialization) (serialized : Serialization)
    : Serialization :=
  match serialized with
  | MapSerialization mapData => MapSerialization (mapData ++ [e])
  | _ => serialized
  end.

Definition push_setData (e : Serialization) (serialized : Serialization) : Serialization :=
  match serialized with
  | SetSerialization setData => SetSerialization (setData ++ [e])
  | _ => serialized
  end.

Definition push_properties (e : string * Serialization) (serialized : Serialization)
    : Serialization :=
  match serialized with
  | ArraySerialization length properties => ArraySerialization length (properties ++ [e])
  | ObjectSerialization properties => ObjectSerialization (properties ++ [e])
  | _ => serialized
  end.

(** The body of [structuredSerializeInternal] (lines 102-212); [self] is
    the function itself, called on the children with the one table. *)
Definition structuredSerializeInternal_body
    (self : value → Memory → outcome (Serialization * Memory))
    (h : heap) (value : value) (memory : Memory)
    : outcome (Serialization * Memory) :=
    if memory_has memory value then
      Throw (TypeError "Cannot serialize a circular reference")
    else
      match value with
      | VUndefined => Ok (PrimitiveSerialization PT_undefined "undefined", memory)
      | VNull => Ok (PrimitiveSerialization PT_null "null", memory)
      | VBoolean b => Ok (PrimitiveSerialization PT_boolean (Boolean_toString b), memory)
      | VNumber n => Ok (PrimitiveSerialization PT_number (Number_toString n), memory)
      | VBigInt z => Ok (PrimitiveSerialization PT_bigint (Z_toString z), memory)
      | VString s => Ok (PrimitiveSerialization PT_string s, memory)
      | VSymbol _ => Throw (TypeError "Cannot serialize a Symbol")
      | VObject l =>
        o ← of_option (h !! l);
        '(serialized, deep, memory) ←
          match o with
          | BooleanObject b => Ok (BooleanSerialization (Boolean_toString b), false, memory)
          | NumberObject n => Ok (NumberSerialization (Number_toString n), false, memory)
          | StringObject s => Ok (StringSerialization s, false, memory)
          | DateObject t =>
              dateData ← Date_toISOString t;
              Ok (DateSerialization dateData, false, memory)
          | RegExpObject source flags => Ok (RegExpSerialization source flags, false, memory)
          | ArrayBufferObject data =>
              let size := List.length data in
              Ok (ArrayBufferSerialization size (join "," (byte_toString <$> data)),
                  false, memory)
          | ArrayBufferViewObject kind buffer byteOffset byteLength =>
              '(bufferSerialized, memory) ← self (VObject buffer) memory;
              match bufferSerialized with
              | ArrayBufferSerialization _ _ =>
                  Ok (TypedArraySerialization (constructor_name kind) byteOffset byteLength
                        bufferSerialized, false, memory)
              | _ => Throw (TypeError "ArrayBuffer serialization failed")
              end
          | MapObject _ => Ok (MapSerialization [], true, memory)
          | SetObject _ => Ok (SetSerialization [], true, memory)
          | ErrorObject name message =>
              let name := if bool_decide (name ∈ standard_error_names) then name else "Error" in
              Ok (ErrorSerialization name message, false, memory)
          | ArrayObject length _ => Ok (ArraySerialization length [], true, memory)
          | WeakMapObject | WeakSetObject =>
              Throw (TypeError "Cannot serialize a WeakMap or WeakSet")
          | PromiseObject => Throw (TypeError "Cannot serialize a Promise")
          | WeakRefObject => Throw (TypeError "Cannot serialize a WeakRef")
          | FinalizationRegistryObject =>
              Throw (TypeError "Cannot serialize a FinalizationRegistry")
          | FunctionObject => Throw (TypeError "Cannot serialize a function")
          | PlainObject _ => Ok (ObjectSerialization [], true, memory)
          end;
        let memory := memory_set memory value in
        if deep : bool then
          match o with
          | MapObject entries =>
              foldM (λ '(serialized, memory) '(key, val),
                '(serializedKey, memory) ← self key memory;
                '(serializedVal, memory) ← self val memory;
                Ok (push_mapData (serializedKey, serializedVal) serialized, memory))
                (serialized, memory) entries
          | SetObject elements =>
              foldM (λ '(serialized, memory) val,
                '(serializedVal, memory) ← self val memory;
                Ok (push_setData serializedVal serialized, memory))
                (serialized, memory) elements
          | _ =>
              foldM (λ '(serialized, memory) ownPropertyName,
                if hasOwnProperty o ownPropertyName then
                  let inputValue := Reflect_get o ownPropertyName in
                  '(outputValue, memory) ← self inputValue memory;
                  Ok (push_properties (ownPropertyName, outputValue) serialized, memory)
                else Ok (serialized, memory))
                (serialized, memory) (getOwnPropertyNames o)
          end
        else Ok (serialized, memory)
      end.

Fixpoint structuredSerializeInternal (fuel : nat) (h : heap) (value : value) (memory : Memory)
    : outcome (Serialization * Memory) :=
  match fuel with
  | 0 => OutOfFuel
  | S fuel => structuredSerializeInternal_body (structuredSerializeInternal fuel h) h value memory
  end.

(** [structuredSerialize] up to [JSON.stringify]: the result is the object
    whose JSON text the source returns. *)
Definition structuredSerialize (fuel : nat) (h : heap) (value : value)
    : outcome Serialization :=
  '(serialized, _) ← structuredSerializeInternal fuel h value [];
  Ok serialized.

(** ** The deserializer *)

(** [structuredDeserializeInternal] (lines 219-368), by recursion on the
    tree it reads. *)
Fixpoint structuredDeserializeInternal (serialized : Serialization) (h : heap)
    : outcome (value * heap) :=
  '(value, deep, h) ←
    match serialized with
    | PrimitiveSerialization primitiveType s =>
        value ← deserialize_primitive primitiveType s;
        Ok (value, false, h)
    | BooleanSerialization booleanData =>
        let '(value, h) := alloc (BooleanObject (String.eqb booleanData "true")) h in
        Ok (value, false, h)
    | NumberSerialization numberData =>
        let '(value, h) := alloc (NumberObject (Number numberData)) h in
        Ok (value, false, h)
    | StringSerialization stringData =>
        let '(value, h) := alloc (StringObject stringData) h in
        Ok (value, false, h)
    | DateSerialization dateData =>
        let '(value, h) := alloc (DateObject (Date_new dateData)) h in
        Ok (value, false, h)
    | RegExpSerialization originalSource originalFlags =>
        let '(value, h) := alloc (RegExpObject originalSource originalFlags) h in
        Ok (value, false, h)
    | ArrayBufferSerialization size arrayBufferData =>
        let data := replicate size x00 in
        let dataParts := split "," arrayBufferData in
        let '(value, h) := alloc (ArrayBufferObject (fill_bytes 0 dataParts data)) h in
        Ok (value, false, h)
    | TypedArraySerialization typedArrayName typedArrayByteOffset typedArrayByteLength
        arrayBufferSerialized =>
        kind ← typedArrayConstructor typedArrayName;
        '(arrayBuffer, h) ← structuredDeserializeInternal arrayBufferSerialized h;
        typedArray ← TypedArray_new kind h arrayBuffer
                       typedArrayByteOffset typedArrayByteLength;
        let '(value, h) := alloc typedArray h in
        Ok (value, false, h)
    | MapSerialization _ =>
        let '(value, h) := alloc (MapObject []) h in Ok (value, true, h)
    | SetSerialization _ =>
        let '(value, h) := alloc (SetObject []) h in Ok (value, true, h)
    | ArraySerialization length _ =>
        array ← Array_new length;
        let '(value, h) := alloc array h in Ok (value, true, h)
    | ObjectSerialization _ =>
        let '(value, h) := alloc (PlainObject []) h in Ok (value, true, h)
    | ErrorSerialization name message =>
        let '(value, h) := alloc (ErrorObject name message) h in
        Ok (value, false, h)
    | OtherSerialization _ => Ok (VUndefined, false, h)
    end;
  h ←
    (if deep : bool then
       match serialized with
       | MapSerialization mapData =>
           foldM (λ h '(serializedKey, serializedValue),
             '(deserializedKey, h) ← structuredDeserializeInternal serializedKey h;
             '(deserializedValue, h) ← structuredDeserializeInternal serializedValue h;
             Ok (Map_prototype_set h value deserializedKey deserializedValue))
             h mapData
       | SetSerialization setData =>
           foldM (λ h serializedValue,
             '(deserializedValue, h) ← structuredDeserializeInternal serializedValue h;
             Ok (Set_prototype_add h value deserializedValue))
             h setData
       | ArraySerialization _ properties | ObjectSerialization properties =>
           foldM (λ h '(key, serializedValue),
             '(deserializedValue, h) ← structuredDeserializeInternal serializedValue h;
             Reflect_set h value key deserializedValue)
             h properties
       | _ => Ok h
       end
     else Ok h);
  Ok (value, h).

(** [structuredDeserialize] after [JSON.parse], whose result the source
    takes for a [Serialization]. *)
Definition structuredDeserialize (serialized : Serialization) : outcome (value * heap) :=
  structuredDeserializeInternal serialized [].

(** ** Auxiliary definitions for the statements *)

(** A graph in which no object is found at two positions: no object is
    shared, and none lies on a cycle. *)
Definition tree_graph (h : heap) (v : value) : Prop :=
  ∀ path1 path2 l,
    follow h v path1 = Some (VObject l) → follow h v path2 = Some (VObject l) →
    path1 = path2.

(** Some object is found at two positions. *)
Definition shared (h : heap) (v : value) : Prop :=
  ∃ path1 path2 l,
    path1 ≠ path2 ∧ follow h v path1 = Some (VObject l)
    ∧ follow h v path2 = Some (VObject l).

(** The values the serializer calls itself on for the members of a
    container, in the order of the calls. *)
Definition calls (o : obj) : list value :=
  match o with
  | MapObject _ | SetObject _ => children o
  | ArrayObject _ _ | PlainObject _ =>
      Reflect_get o <$> filter (λ name, hasOwnProperty o name) (getOwnPropertyNames o)
  | _ => []
  end.

(** A run of calls, one per value, each on the table the one before it
    left. *)
Inductive chain (self : value → Memory → outcome (Serialization * Memory))
    : list value → Memory → Memory → list Serialization → Prop :=
  | chain_nil memory : chain self [] memory memory []
  | chain_cons x xs memory s memory1 memory' ss :
      self x memory = Ok (s, memory1) → chain self xs memory1 memory' ss →
      chain self (x :: xs) memory memory' (s :: ss).

Fixpoint pairs {A} (l : list A) : list (A * A) :=
  match l with
  | a :: b :: l => (a, b) :: pairs l
  | _ => []
  end.

(** The table holds objects of the heap, each once. *)
Definition keys_ok (h : heap) (memory : Memory) : Prop :=
  NoDup memory ∧ Forall (λ k, ∃ l, k = VObject l ∧ l < List.length h) memory.

(** [new] lists the objects that are reachable from [x]. *)
Definition reached (h : heap) (x : value) (new : list value) : Prop :=
  ∀ w, w ∈ new ↔ ∃ l, w = VObject l ∧ reachable h x w.

(** Fuel that suffices for the call on [v] with the table [memory]. *)
Definition enough (fuel : nat) (h : heap) (memory : Memory) (v : value) : Prop :=
  List.length h + 2 ≤ fuel + List.length memory
  ∨ (1 ≤ fuel ∧ ∃ l data, v = VObject l ∧ h !! l = Some (ArrayBufferObject data)).

(** What a call of the serializer on [v], with the table [memory], comes
    to. *)
Definition serialize_post (fuel : nat) (h : heap) (v : value) (memory : Memory)
    (r : outcome (Serialization * Memory)) : Prop :=
  match r with
  | Ok (s, memory') =>
      ∃ new, memory' = memory ++ new
        ∧ keys_ok h memory'
        ∧ reached h v new
        ∧ (∀ w e, reachable h v w → ¬ rejects h w e)
        ∧ tree_graph h v
        ∧ (∀ l data, v = VObject l → h !! l = Some (ArrayBufferObject data) →
             ∃ size arrayBufferData, s = ArrayBufferSerialization size arrayBufferData)
  | Throw e =>
      (e = TypeError "Cannot serialize a circular reference"
       ∧ ((∃ w, w ∈ memory ∧ reachable h v w) ∨ shared h v))
      ∨ (∃ w, reachable h v w ∧ rejects h w e)
  | OutOfFuel => ¬ enough fuel h memory v
  | Unmodelled => False
  end.

(** What a loop over the members of a container comes to: all the calls
    return, one after the other, or they return up to one that does not,
    and the loop ends as that call. *)
Definition loop_outcome (self : value → Memory → outcome (Serialization * Memory))
    (xs : list value) (memory : Memory) (mk : list Serialization → Serialization)
    (r : outcome (Serialization * Memory)) : Prop :=
  (∃ ss memory', r = Ok (mk ss, memory') ∧ chain self xs memory memory' ss)
  ∨ ((∀ a, r ≠ Ok a)
     ∧ ∃ xs1 x xs2 memory1 ss1,
         xs = xs1 ++ x :: xs2 ∧ chain self xs1 memory memory1 ss1 ∧ self x memory1 = r).

(** The object a call of the deserializer creates for the object [k] of
    the heap [h]: the object, its Error name the one the serializer wrote,
    with the identities it refers to renamed by [f]. *)
Definition copied (h : heap) (f : nat → nat) (k : value) (o' : obj) : Prop :=
  ∃ l o, k = VObject l ∧ h !! l = Some o ∧ o' = rename_obj f (standard_error_name o).

(** The serialization [s] of [v], decoded in a heap of [n] objects, gives
    the copy of [v], and the copies of the objects [new], in that order,
    after the objects of the heap. *)
Definition decodes_to (h : heap) (f : nat → nat) (n : nat) (v : value)
    (s : Serialization) (new : list value) : Prop :=
  ∀ h0, List.length h0 = n →
    ∃ hnew, Forall2 (copied h f) new hnew
      ∧ structuredDeserializeInternal s h0 = Ok (rename_value f v, h0 ++ hnew).

(** [s] is part of the serialization [s']. *)
Inductive component (s : Serialization) : Serialization → Prop :=
  | component_refl : component s s
  | component_buffer typedArrayName typedArrayByteOffset typedArrayByteLength b :
      component s b →
      component s (TypedArraySerialization typedArrayName typedArrayByteOffset
                     typedArrayByteLength b)
  | component_key mapData e :
      e ∈ mapData → component s e.1 → component s (MapSerialization mapData)
  | component_value mapData e :
      e ∈ mapData → component s e.2 → component s (MapSerialization mapData)
  | component_element setData e :
      e ∈ setData → component s e → component s (SetSerialization setData)
  | component_item length properties (e : string * Serialization) :
      e ∈ properties → component s e.2 → component s (ArraySerialization length properties)
  | component_property properties (e : string * Serialization) :
      e ∈ properties → component s e.2 → component s (ObjectSerialization properties).

End Legacy.

(** A record with an Array, a Date, a typed array and a Map holding an
    Error: no object of it is found at two places. *)
Definition nested_tree : heap :=
  [PlainObject [("list", VObject 1); ("when", VObject 2); ("bytes", VObject 3);
                ("map", VObject 5); ("n", VNumber (NumInt (-1)))];
   ArrayObject 3 [("0", VBoolean true); ("2", VString "x")];
   DateObject (TimeValue 1700000000000);
   ArrayBufferViewObject Uint8Array 4 1 2;
   ArrayBufferObject [x01; x02; xff];
   MapObject [(VString "error", VObject 6); (VBigInt 7, VNull)];
   ErrorObject "MyError" None].

(** [{ view: new DataView(new ArrayBuffer(2)) }]. *)
Definition data_view_record : heap :=
  [PlainObject [("view", VObject 1)];
   ArrayBufferViewObject DataView 2 0 2;
   ArrayBufferObject [x00; x00]].
(** ** Facts about the host primitives *)

Section host.
Local Open Scope string_scope.

Lemma bind_Ok {A B} (m : outcome A) (f : A → outcome B) (b : B) :
  m ≫= f = Ok b ↔ ∃ a, m = Ok a ∧ f a = Ok b.
Proof.
  destruct m; simpl; split; try (intros (? & ? & ?)); try discriminate; eauto.
  by simplify_eq.
Qed.

Lemma to_int_not_Neg_Nil z : Z.to_int z ≠ Neg Nil.
Proof.
  destruct z as [|p|p]; simpl; try discriminate.
  intros [= H]. by apply (DecimalPos.Unsigned.to_uint_nonnil p).
Qed.

Lemma int_of_Z_toString z : NilEmpty.int_of_string (Z_toString z) = Some (Z.to_int z).
Proof. apply NilEmpty.isi. Qed.

Lemma Number_toString_inv n : Number (Number_toString n) = n.
Proof.
  destruct n as [z| | |]; try reflexivity.
  unfold Number. simpl Number_toString.
  repeat match goal with
  | |- context [String.eqb (Z_toString z) ?s] =>
      destruct (String.eqb_spec (Z_toString z) s) as [E|_];
      [pose proof (int_of_Z_toString z) as H; rewrite E in H; discriminate|]
  end.
  rewrite int_of_Z_toString.
  pose proof (to_int_not_Neg_Nil z).
  destruct (Z.to_int z) as [d|d] eqn:E; [|destruct d; try congruence];
    rewrite <- E, DecimalZ.of_to; reflexivity.
Qed.

Lemma BigInt_Z_toString z : BigInt (Z_toString z) = Ok z.
Proof.
  unfold BigInt. rewrite int_of_Z_toString.
  pose proof (to_int_not_Neg_Nil z).
  destruct (Z.to_int z) as [d|d] eqn:E; [|destruct d; try congruence];
    rewrite <- E, DecimalZ.of_to; reflexivity.
Qed.

Lemma Boolean_toString_inv b : String.eqb (Boolean_toString b) "true" = b.
Proof. by destruct b. Qed.

Lemma ToUint8_byte b : ToUint8 (Number (byte_toString b)) = b.
Proof. unfold byte_toString. rewrite Number_toString_inv. by destruct b. Qed.

Lemma split_no_sep sep s : has_char sep s = false → split sep s = [s].
Proof.
  induction s as [|c s IH]; simpl; [done|].
  destruct (Ascii.eqb c sep); simpl; [done|]. intros H. by rewrite IH.
Qed.

Lemma split_app sep p s :
  has_char sep p = false → split sep (p ++ String sep s) = p :: split sep s.
Proof.
  induction p as [|c p IH]; simpl.
  - by rewrite Ascii.eqb_refl.
  - destruct (Ascii.eqb c sep); simpl; [done|]. intros H. by rewrite IH.
Qed.

Lemma split_join sep l :
  Forall (λ p, has_char sep p = false) l → l ≠ [] → split sep (join sep l) = l.
Proof.
  induction 1 as [|p l Hp Hl IH]; [done|]. intros _.
  destruct l as [|q l]; simpl.
  - by apply split_no_sep.
  - rewrite split_app by done. f_equal. by apply IH.
Qed.

Lemma byte_toString_no_comma b : has_char "," (byte_toString b) = false.
Proof. by destruct b. Qed.


Lemma fill_bytes_app pre bs rest :
  fill_bytes (List.length pre) (byte_toString <$> bs) (pre ++ replicate (List.length bs) x00 ++ rest)
  = (pre ++ bs ++ rest)%list.
Proof.
  revert pre. induction bs as [|b bs IH]; intros pre; [done|].
  cbn [fmap list_fmap List.length replicate fill_bytes app].
  rewrite (insert_app_r_alt pre) by done. rewrite Nat.sub_diag.
  cbn [insert list_insert app]. rewrite ToUint8_byte.
  specialize (IH (pre ++ [b])%list). rewrite length_app in IH. simpl in IH.
  rewrite Nat.add_1_r in IH. rewrite <- !(assoc_L (++)) in IH. simpl in IH. apply IH.
Qed.

Lemma ArrayBuffer_data_inv (data : list byte) :
  fill_bytes 0 (split "," (join "," (byte_toString <$> data))) (replicate (List.length data) x00)
  = data.
Proof.
  destruct data as [|b bs]; [done|].
  rewrite split_join.
  - pose proof (fill_bytes_app [] (b :: bs) []) as H. simpl in H.
    rewrite !app_nil_r in H. exact H.
  - apply Forall_fmap, Forall_forall. intros ? _. apply byte_toString_no_comma.
  - done.
Qed.
End host.

(** ** Facts about the calendar and the ISO format *)

Section calendar.
Local Open Scope string_scope.
Local Open Scope Z_scope.

Lemma civil_from_days_inv z :
  let '(y, m, d) := civil_from_days z in
  days_from_civil y m d = z ∧ 1 ≤ m ≤ 12 ∧ 1 ≤ d ≤ 31
  ∧ 400 * ((z + 719468) / 146097) ≤ y ≤ 400 * ((z + 719468) / 146097) + 400.
Proof.
  unfold civil_from_days, days_from_civil.
  set (era := (z + 719468) / 146097).
  set (doe := (z + 719468) mod 146097).
  set (yoe := (doe - doe / 1460 + doe / 36524 - doe / 146096) / 365).
  set (doy := doe - (365 * yoe + yoe / 4 - yoe / 100)).
  set (mp := (5 * doy + 2) / 153).
  assert (z = era * 146097 + doe - 719468 ∧ 0 ≤ doe < 146097) as [Hz Hdoe].
  { unfold era, doe. Z.to_euclidean_division_equations. lia. }
  assert (0 ≤ yoe ≤ 399 ∧ 0 ≤ doy ≤ 365) as [Hyoe Hdoy].
  { unfold doy, yoe. clear -Hdoe. Z.to_euclidean_division_equations. lia. }
  assert (0 ≤ mp ≤ 11) as Hmp.
  { unfold mp. clear -Hdoy. Z.to_euclidean_division_equations. lia. }
  assert (1 ≤ doy - (153 * mp + 2) / 5 + 1 ≤ 31) as Hd.
  { unfold mp. clear -Hdoy. Z.to_euclidean_division_equations. lia. }
  clearbody era doe yoe mp.
  destruct (Z.ltb_spec mp 10).
  - destruct (Z.leb_spec (mp + 3) 2); [lia|].
    replace (yoe + era * 400 + 0 - 0) with (yoe + era * 400) by lia.
    rewrite Z.div_add, Z.mod_add, Z.div_small, Z.mod_small by lia.
    replace (mp + 3 - 3) with mp by lia.
    repeat split; lia.
  - destruct (Z.leb_spec (mp - 9) 2); [|lia].
    replace (yoe + era * 400 + 1 - 1) with (yoe + era * 400) by lia.
    rewrite Z.div_add, Z.mod_add, Z.div_small, Z.mod_small by lia.
    replace (mp - 9 + 9) with mp by lia.
    repeat split; lia.
Qed.

Lemma digit_value_digit d : 0 ≤ d ≤ 9 → digit_value (digit d) = Some d.
Proof.
  intros H.
  assert (d = 0 ∨ d = 1 ∨ d = 2 ∨ d = 3 ∨ d = 4 ∨ d = 5 ∨ d = 6 ∨ d = 7 ∨ d = 8 ∨ d = 9)
    as Hd by lia.
  repeat (destruct Hd as [->|Hd]; [reflexivity|]). by subst.
Qed.

Lemma append_String c (p r : string) : String c p ++ r = String c (p ++ r).
Proof. reflexivity. Qed.

Lemma append_EmptyString (r : string) : "" ++ r = r.
Proof. reflexivity. Qed.

Lemma digits_pad w : ∀ n acc rest,
  0 ≤ n →
  digits w acc (pad w n ++ rest) = Some (acc * 10 ^ Z.of_nat w + n mod 10 ^ Z.of_nat w, rest).
Proof.
  induction w as [|w IH]; intros n acc rest Hn.
  - simpl. rewrite Z.mod_1_r. do 2 f_equal. lia.
  - cbn [pad]. rewrite append_String. cbn [digits].
    assert (0 < 10 ^ Z.of_nat w) as Hp by (apply Z.pow_pos_nonneg; lia).
    rewrite digit_value_digit
      by (pose proof (Z.mod_pos_bound (n / 10 ^ Z.of_nat w) 10); lia).
    cbn [mbind option_bind]. rewrite IH by done. do 2 f_equal.
    rewrite Nat2Z.inj_succ, Z.pow_succ_r by lia.
    rewrite (Z.mul_comm 10), Z.rem_mul_r by lia. lia.
Qed.

Lemma digits_pad_small w n acc rest :
  0 ≤ n < 10 ^ Z.of_nat w →
  digits w acc (pad w n ++ rest) = Some (acc * 10 ^ Z.of_nat w + n, rest).
Proof. intros H. rewrite digits_pad by lia. by rewrite Z.mod_small. Qed.

Lemma digit_cases d :
  0 ≤ d ≤ 9 →
  d = 0 ∨ d = 1 ∨ d = 2 ∨ d = 3 ∨ d = 4 ∨ d = 5 ∨ d = 6 ∨ d = 7 ∨ d = 8 ∨ d = 9.
Proof. lia. Qed.

Lemma parse_year_toString y rest :
  -999999 ≤ y ≤ 999999 → parse_year (year_toString y ++ rest) = Some (y, rest).
Proof.
  intros Hy. unfold year_toString.
  destruct (Z.leb_spec 0 y), (Z.leb_spec y 9999); cbn [andb].
  - transitivity (digits 4 0 (pad 4 y ++ rest)).
    + change (pad 4 y) with (String (digit ((y / 10 ^ 3) mod 10)) (pad 3 y)).
      rewrite append_String.
      pose proof (Z.mod_pos_bound (y / 10 ^ 3) 10) as Hd.
      destruct (digit_cases ((y / 10 ^ 3) mod 10)) as [E|Hc]; [lia|by rewrite E|].
      repeat (destruct Hc as [E|Hc]; [by rewrite E|]). by rewrite Hc.
    + rewrite digits_pad_small by (simpl; lia). do 2 f_equal.
  - destruct (Z.ltb_spec y 0); [lia|].
    rewrite append_String. cbn [parse_year].
    rewrite digits_pad_small by (simpl; lia). do 2 f_equal.
  - destruct (Z.ltb_spec y 0); [|lia].
    rewrite append_String. cbn [parse_year].
    rewrite digits_pad_small by (simpl; lia). cbn [mbind option_bind]. do 2 f_equal. lia.
  - lia.
Qed.

Lemma expect_String c s : expect c (String c s) = Some s.
Proof. unfold expect. by rewrite Ascii.eqb_refl. Qed.

Lemma parse_ISOString_inv ms :
  - maxTime ≤ ms ≤ maxTime → parse_ISOString (ISOString ms) = Some ms.
Proof.
  unfold maxTime. intros Hms. unfold ISOString, parse_ISOString.
  pose proof (civil_from_days_inv (ms / msPerDay)) as Hciv.
  destruct (civil_from_days (ms / msPerDay)) as [[y m] d].
  destruct Hciv as (Hdays & Hm & Hd & Hy).
  set (tod := ms mod msPerDay).
  assert (0 ≤ tod < 86400000) as Htod by (apply Z.mod_pos_bound; done).
  assert (-999999 ≤ y ≤ 999999) as Hy'.
  { clear -Hms Hy. unfold msPerDay in Hy. Z.to_euclidean_division_equations. lia. }
  rewrite parse_year_toString by done. cbn [mbind option_bind].
  rewrite expect_String. cbn [mbind option_bind].
  rewrite digits_pad_small by (simpl; lia). cbn [mbind option_bind].
  rewrite expect_String. cbn [mbind option_bind].
  rewrite digits_pad_small by (simpl; lia). cbn [mbind option_bind].
  rewrite expect_String. cbn [mbind option_bind].
  rewrite digits_pad_small by (clear -Htod; simpl; Z.to_euclidean_division_equations; lia).
  cbn [mbind option_bind].
  rewrite expect_String. cbn [mbind option_bind].
  rewrite digits_pad_small by (clear -Htod; simpl; Z.to_euclidean_division_equations; lia).
  cbn [mbind option_bind].
  rewrite expect_String. cbn [mbind option_bind].
  rewrite digits_pad_small by (clear -Htod; simpl; Z.to_euclidean_division_equations; lia).
  cbn [mbind option_bind].
  rewrite expect_String. cbn [mbind option_bind].
  rewrite digits_pad_small by (clear -Htod; simpl; Z.to_euclidean_division_equations; lia).
  cbn [mbind option_bind].
  rewrite expect_String. cbn [mbind option_bind].
  change (String.eqb "" "") with true. cbv iota. f_equal.
  rewrite !Z.mul_0_l, !Z.add_0_l, Hdays.
  clear -Htod. unfold tod, msPerDay in *. Z.to_euclidean_division_equations. lia.
Qed.

Lemma Date_new_ISOString ms :
  - maxTime ≤ ms ≤ maxTime → Date_new (ISOString ms) = TimeValue ms.
Proof.
  intros Hms. unfold Date_new. rewrite parse_ISOString_inv by done.
  destruct (Z.leb_spec (- maxTime) ms); [|lia].
  destruct (Z.leb_spec ms maxTime); [|lia].
  by rewrite String.eqb_refl.
Qed.

End calendar.

(** * Properties of the serializer *)

Arguments Reflect_get : simpl never.
Arguments hasOwnProperty : simpl never.
Arguments getOwnPropertyNames : simpl never.

(** ** The identity table *)

Lemma memory_has_true memory v : memory_has memory v = true ↔ v ∈ memory_keys memory.
Proof. unfold memory_has. by rewrite bool_decide_eq_true. Qed.

Lemma memory_has_false memory v : memory_has memory v = false ↔ v ∉ memory_keys memory.
Proof. unfold memory_has. by rewrite bool_decide_eq_false. Qed.

Lemma memory_keys_app (m1 m2 : Memory) :
  memory_keys (m1 ++ m2) = (memory_keys m1 ++ memory_keys m2)%list.
Proof. apply fmap_app. Qed.

Lemma memory_set_fresh memory v r :
  v ∉ memory_keys memory → memory_set memory v r = (memory ++ [(v, r)])%list.
Proof.
  induction memory as [|[k r'] memory IH]; simpl; [done|].
  intros Hv. apply not_elem_of_cons in Hv as [Hne Hv].
  destruct (decide (k = v)); [congruence|]. by rewrite IH.
Qed.

Lemma memory_update_fresh v f (memory : Memory) :
  v ∉ memory_keys memory → memory_update v f memory = memory.
Proof.
  induction memory as [|[k r'] memory IH]; simpl; [done|].
  intros Hv. apply not_elem_of_cons in Hv as [Hne Hv].
  unfold memory_update in *. rewrite IH by done. simpl.
  destruct (decide (k = v)); congruence.
Qed.

Lemma memory_update_middle v f (m1 m2 : Memory) r :
  v ∉ memory_keys m1 → v ∉ memory_keys m2 →
  memory_update v f (m1 ++ (v, r) :: m2) = (m1 ++ (v, f r) :: m2)%list.
Proof.
  intros H1 H2.
  pose proof (memory_update_fresh v f m1 H1) as E1.
  pose proof (memory_update_fresh v f m2 H2) as E2.
  unfold memory_update in *. rewrite fmap_app, fmap_cons, E1, E2. simpl.
  by rewrite decide_True.
Qed.

Lemma indexOf_Some_lookup keys v i : indexOf keys v = Some i → keys !! i = Some v.
Proof.
  revert i. induction keys as [|k keys IH]; intros i; simpl; [done|].
  destruct (decide (k = v)) as [->|].
  - by intros [= <-].
  - destruct (indexOf keys v) eqn:E; simpl; [|done]. intros [= <-]. by apply IH.
Qed.

Lemma indexOf_is_Some keys v : v ∈ keys → is_Some (indexOf keys v).
Proof.
  induction keys as [|k keys IH]; simpl.
  - by intros ?%elem_of_nil.
  - intros [->|H]%elem_of_cons.
    + rewrite decide_True by done. eauto.
    + destruct (decide (k = v)); [eauto|]. destruct (IH H) as [i ->]. simpl. eauto.
Qed.

Lemma indexOf_None keys v : v ∉ keys → indexOf keys v = None.
Proof.
  induction keys as [|k keys IH]; simpl; [done|].
  intros [Hne Hv]%not_elem_of_cons. rewrite decide_False by done. by rewrite IH.
Qed.

Lemma indexOf_app_l keys more v i :
  indexOf keys v = Some i → indexOf (keys ++ more) v = Some i.
Proof.
  revert i. induction keys as [|k keys IH]; intros i; simpl; [done|].
  destruct (decide (k = v)); [done|].
  destruct (indexOf keys v) eqn:E; simpl; [|done]. intros [= <-]. by rewrite (IH n0).
Qed.

Lemma indexOf_app_r keys more v :
  v ∉ keys → indexOf (keys ++ more) v = (λ i, List.length keys + i) <$> indexOf more v.
Proof.
  induction keys as [|k keys IH]; simpl.
  - intros _. by destruct (indexOf more v).
  - intros [Hne Hv]%not_elem_of_cons. rewrite decide_False by done. rewrite IH by done.
    by destruct (indexOf more v).
Qed.

Lemma indexOf_lt keys v i : indexOf keys v = Some i → i < List.length keys.
Proof. intros H%indexOf_Some_lookup. by eapply lookup_lt_Some. Qed.

Lemma indexOf_NoDup keys v i : NoDup keys → keys !! i = Some v → indexOf keys v = Some i.
Proof.
  intros Hnd Hi. destruct (indexOf_is_Some keys v) as [j Hj].
  { by eapply list_elem_of_lookup_2. }
  rewrite Hj. f_equal. apply indexOf_Some_lookup in Hj.
  by eapply NoDup_lookup.
Qed.

Lemma serialized_child_app keys more v c :
  serialized_child keys v = Some c → serialized_child (keys ++ more) v = Some c.
Proof.
  destruct v; simpl; try done.
  destruct (indexOf keys (VObject l)) eqn:E; simpl; [|done].
  intros [= <-]. by rewrite (indexOf_app_l _ _ _ _ E).
Qed.

Lemma mapM_ext_Some {A B} (f g : A → option B) (l : list A) k :
  (∀ x y, x ∈ l → f x = Some y → g x = Some y) → mapM f l = Some k → mapM g l = Some k.
Proof.
  revert k. induction l as [|x l IH]; intros k Hfg; simpl; [done|].
  destruct (f x) as [y|] eqn:Ey; simpl; [|done].
  assert (g x = Some y) as -> by (apply Hfg; [left|done]). simpl.
  destruct (mapM f l) as [k'|] eqn:Ek; simpl; [|done].
  assert (mapM g l = Some k') as ->; [|done].
  apply IH; [|done]. intros x' y' Hx'. apply Hfg. by right.
Qed.

Lemma serialized_record_app keys more o r :
  serialized_record keys o = Some r → serialized_record (keys ++ more) o = Some r.
Proof.
  destruct o as [| | |[]| | | | | | | | | | | | | |]; simpl; try done.
  - destruct (indexOf keys (VObject buffer)) eqn:E; simpl; [|done].
    intros [= <-]. by rewrite (indexOf_app_l _ _ _ _ E).
  - destruct (mapM _ entries) as [k|] eqn:E; simpl; [|done]. intros [= <-].
    erewrite mapM_ext_Some; [done| |exact E].
    intros [a b] y _. simpl.
    destruct (serialized_child keys a) eqn:Ea; simpl; [|done].
    destruct (serialized_child keys b) eqn:Eb; simpl; [|done].
    intros [= <-]. by rewrite (serialized_child_app _ _ _ _ Ea), (serialized_child_app _ _ _ _ Eb).
  - destruct (mapM _ elements) as [k|] eqn:E; simpl; [|done]. intros [= <-].
    erewrite mapM_ext_Some; [done| |exact E].
    intros x y _. apply serialized_child_app.
  - destruct (mapM _ _) as [k|] eqn:E; simpl; [|done]. intros [= <-].
    erewrite mapM_ext_Some; [done| |exact E].
    intros x y _. simpl.
    destruct (serialized_child keys (Reflect_get _ x)) eqn:Ea; simpl; [|done].
    intros [= <-]. by rewrite (serialized_child_app _ _ _ _ Ea).
  - destruct (mapM _ _) as [k|] eqn:E; simpl; [|done]. intros [= <-].
    erewrite mapM_ext_Some; [done| |exact E].
    intros x y _. simpl.
    destruct (serialized_child keys (Reflect_get _ x)) eqn:Ea; simpl; [|done].
    intros [= <-]. by rewrite (serialized_child_app _ _ _ _ Ea).
Qed.

Lemma entry_complete_app h keys more e :
  entry_complete h keys e → entry_complete h (keys ++ more) e.
Proof.
  intros (l & o & ? & ? & ?). exists l, o. eauto using serialized_record_app.
Qed.

Lemma reachable_trans h u v w : reachable h u v → reachable h v w → reachable h u w.
Proof. induction 1; eauto using reachable. Qed.

Lemma memory_keys_update v f memory : memory_keys (memory_update v f memory) = memory_keys memory.
Proof.
  unfold memory_keys, memory_update. rewrite <- list_fmap_compose.
  apply list_fmap_ext. intros ? [k r] _. simpl. by destruct (decide (k = v)).
Qed.

Lemma memory_update_length v f memory :
  List.length (memory_update v f memory) = List.length memory.
Proof. apply length_fmap. Qed.

Section serializer.
Context (h : heap).

Lemma memory_ok_length memory : memory_ok h memory → List.length memory ≤ List.length h.
Proof.
  intros [Hnd Hk].
  assert (memory_keys memory ⊆+ (VObject <$> seq 0 (List.length h))) as Hs.
  { apply NoDup_submseteq; [done|]. intros k Hin.
    rewrite Forall_forall in Hk. destruct (Hk k Hin) as (l & -> & Hl).
    apply list_elem_of_fmap. exists l. split; [done|]. apply elem_of_seq. lia. }
  apply submseteq_length in Hs. rewrite length_fmap, length_seq in Hs.
  unfold memory_keys in Hs. by rewrite length_fmap in Hs.
Qed.

Lemma memory_ok_snoc memory l r :
  memory_ok h memory → VObject l ∉ memory_keys memory → l < List.length h →
  memory_ok h (memory ++ [(VObject l, r)]).
Proof.
  intros [Hnd Hk] Hl Hlt. unfold memory_ok. rewrite memory_keys_app. simpl. split.
  - apply NoDup_app. split_and!; [done| |apply NoDup_singleton].
    intros x Hx ->%list_elem_of_singleton. done.
  - apply Forall_app. split; [done|]. apply Forall_singleton. eauto.
Qed.

Lemma memory_ok_length_fresh memory l :
  memory_ok h memory → VObject l ∉ memory_keys memory → l < List.length h →
  List.length memory < List.length h.
Proof.
  intros Hok Hl Hlt.
  pose proof (memory_ok_length _ (memory_ok_snoc memory l (BooleanSerialization "") Hok Hl Hlt)) as H.
  rewrite length_app in H. simpl in H. lia.
Qed.

Lemma memory_ok_update v f memory : memory_ok h memory → memory_ok h (memory_update v f memory).
Proof. unfold memory_ok. by rewrite memory_keys_update. Qed.

End serializer.


Lemma rejects_has_identity h w e : rejects h w e → has_identity w.
Proof. by destruct w. Qed.

Lemma reachable_primitive h v w :
  reachable h v w → (∀ l, v ≠ VObject l) → w = v.
Proof. destruct 1 as [|l ? ? ? ? ? ?]; [done|]. intros Hv. by destruct (Hv l). Qed.

Lemma lookup_property_elem_of key props v :
  lookup_property key props = Some v → (key, v) ∈ props.
Proof.
  induction props as [|[k x] props IH]; simpl; [done|].
  destruct (decide (k = key)) as [->|].
  - intros [= ->]. left.
  - intros H. right. by apply IH.
Qed.

Lemma lookup_property_is_Some key props :
  key ∈ props.*1 → is_Some (lookup_property key props).
Proof.
  induction props as [|[k x] props IH]; simpl.
  - by intros ?%elem_of_nil.
  - intros [->|H]%elem_of_cons.
    + rewrite decide_True by done. eauto.
    + destruct (decide (k = key)); eauto.
Qed.

Section serializer_body.
Context (h : heap) (Hwf : heap_wf h).
Context (self : value → Memory → outcome (ChildSerialization * Memory)) (fuel : nat).
Context (Hself : ∀ v memory,
  value_wf h v → memory_ok h memory →
  List.length h + 2 ≤ fuel + List.length memory
  ∨ (1 ≤ fuel ∧ ∃ l data, v = VObject l ∧ h !! l = Some (ArrayBufferObject data)) →
  serialize_post h v memory (self v memory)).

Lemma children_inv_push memory0 v r f memory :
  children_inv h memory0 v r memory →
  children_inv h memory0 v (f r) (memory_update v f memory).
Proof.
  intros (new & -> & Hok & Hnew & Hreach).
  pose proof Hok as [Hnd _]. rewrite memory_keys_app in Hnd. simpl in Hnd.
  apply NoDup_app in Hnd as (_ & Hdisj & [Hv _]%NoDup_cons).
  exists new. rewrite memory_update_middle; [|intros ?; eapply Hdisj; [done|left]|done].
  split; [done|].
  unfold memory_ok in *. by rewrite !memory_keys_app in *.
Qed.

Lemma child_step memory0 v r memory c :
  children_inv h memory0 v r memory →
  value_wf h c →
  (∀ w, reachable h c w → has_identity w → reachable h v w) →
  List.length h + 2 ≤ fuel + List.length memory →
  match self c memory with
  | Ok (out, memory') =>
      children_inv h memory0 v r memory'
      ∧ serialized_child (memory_keys memory') c = Some out
      ∧ ∃ more, memory' = memory ++ more
  | Throw e => ∃ w, reachable h v w ∧ rejects h w e
  | _ => False
  end.
Proof.
  intros (new & -> & Hok & Hnew & Hreach) Hc Hsub Hfuel.
  pose proof (Hself c _ Hc Hok (or_introl Hfuel)) as Hpost.
  destruct (self c _) as [[out memory']|e| |]; simpl in Hpost; try done.
  - destruct Hpost as (new' & -> & Hok' & Hout & Hnew' & Hreach').
    split_and!; [|done|eauto].
    exists (new ++ new'). split; [by rewrite <- !app_assoc|]. split; [done|]. split.
    + apply Forall_app. split; [|done].
      eapply Forall_impl; [exact Hnew|]. intros e He.
      rewrite memory_keys_app. by apply entry_complete_app.
    + apply Forall_app. split; [done|].
      destruct Hok' as [_ Hk]. rewrite memory_keys_app, Forall_app in Hk.
      destruct Hk as [_ Hk]. unfold memory_keys in Hk. rewrite Forall_fmap in Hk.
      rewrite Forall_forall in Hk, Hreach'. apply Forall_forall. intros e He.
      destruct (Hk e He) as (l & Hl & _). simpl in Hl.
      apply Hsub; [by apply Hreach'|]. by rewrite Hl.
  - destruct Hpost as (w & Hw & Hrej). exists w. split; [|done].
    apply Hsub; [done|]. by eapply rejects_has_identity.
Qed.

Lemma children_inv_length memory0 v r memory more :
  children_inv h memory0 v r (memory ++ more) → List.length memory ≤ List.length (memory ++ more).
Proof. rewrite length_app. lia. Qed.

Lemma set_loop memory0 v elements : ∀ done memory,
  children_inv h memory0 v (SetSerialization done) memory →
  Forall (value_wf h) elements →
  Forall (λ c, ∀ w, reachable h c w → has_identity w → reachable h v w) elements →
  List.length h + 2 ≤ fuel + List.length memory →
  match foldM (λ memory val,
           '(serializedVal, memory) ← self val memory;
           Ok (memory_update v (push_setData serializedVal) memory)) memory elements with
  | Ok memory' =>
      ∃ cs, children_inv h memory0 v (SetSerialization (done ++ cs)) memory'
        ∧ mapM (serialized_child (memory_keys memory')) elements = Some cs
        ∧ ∃ more, memory_keys memory' = memory_keys memory ++ more
  | Throw e => ∃ w, reachable h v w ∧ rejects h w e
  | _ => False
  end.
Proof.
  induction elements as [|c elements IH]; intros done memory Hinv Hwfs Hsubs Hfuel.
  - simpl. exists []. rewrite !app_nil_r. split_and!; [done..|]. exists []. by rewrite app_nil_r.
  - apply Forall_cons in Hwfs as [Hc Hwfs]. apply Forall_cons in Hsubs as [Hsub Hsubs].
    cbn [foldM]. pose proof (child_step _ _ _ _ c Hinv Hc Hsub Hfuel) as Hstep.
    destruct (self c memory) as [[out memory1]|e| |]; cbn [mbind outcome_bind]; try done.
    destruct Hstep as (Hinv1 & Hout & more1 & ->).
    apply (children_inv_push _ _ _ (push_setData out)) in Hinv1. cbn [push_setData] in Hinv1.
    specialize (IH _ _ Hinv1 Hwfs Hsubs).
    rewrite memory_update_length, length_app in IH. specialize (IH ltac:(lia)).
    destruct (foldM _ _ elements) as [memory'|e| |]; try done.
    destruct IH as (cs & Hinv' & Hcs & more & Hmore).
    rewrite memory_keys_update in Hmore.
    exists (out :: cs). rewrite <- app_assoc in Hinv'. split; [done|].
    rewrite Hmore. split.
    + cbn [mapM]. rewrite (serialized_child_app _ _ _ _ Hout). cbn [mbind option_bind].
      rewrite <- Hmore, Hcs. done.
    + rewrite memory_keys_app, <- app_assoc. eauto.
Qed.

Lemma map_loop memory0 v entries : ∀ done memory,
  children_inv h memory0 v (MapSerialization done) memory →
  Forall (λ e : value * value, value_wf h e.1 ∧ value_wf h e.2) entries →
  Forall (λ e : value * value, ∀ c, c = e.1 ∨ c = e.2 →
            ∀ w, reachable h c w → has_identity w → reachable h v w) entries →
  List.length h + 2 ≤ fuel + List.length memory →
  match foldM (λ memory '(key, val),
           '(serializedKey, memory) ← self key memory;
           '(serializedVal, memory) ← self val memory;
           Ok (memory_update v (push_mapData (serializedKey, serializedVal)) memory))
          memory entries with
  | Ok memory' =>
      ∃ cs, children_inv h memory0 v (MapSerialization (done ++ cs)) memory'
        ∧ mapM (λ e, k ← serialized_child (memory_keys memory') e.1;
                     x ← serialized_child (memory_keys memory') e.2; Some (k, x))
            entries = Some cs
        ∧ ∃ more, memory_keys memory' = memory_keys memory ++ more
  | Throw e => ∃ w, reachable h v w ∧ rejects h w e
  | _ => False
  end.
Proof.
  induction entries as [|[key val] entries IH]; intros done memory Hinv Hwfs Hsubs Hfuel.
  - simpl. exists []. rewrite !app_nil_r. split_and!; [done..|]. exists []. by rewrite app_nil_r.
  - apply Forall_cons in Hwfs as [[Hkey Hval] Hwfs]. apply Forall_cons in Hsubs as [Hsub Hsubs].
    simpl in Hkey, Hval, Hsub.
    cbn [foldM]. pose proof (child_step _ _ _ _ key Hinv Hkey (Hsub _ (or_introl eq_refl)) Hfuel) as Hstep.
    destruct (self key memory) as [[outk memory1]|e| |]; cbn [mbind outcome_bind]; try done.
    destruct Hstep as (Hinv1 & Houtk & more1 & ->).
    pose proof (child_step _ _ _ _ val Hinv1 Hval (Hsub _ (or_intror eq_refl))) as Hstep.
    rewrite length_app in Hstep. specialize (Hstep ltac:(lia)).
    destruct (self val _) as [[outv memory2]|e| |]; cbn [mbind outcome_bind]; try done.
    destruct Hstep as (Hinv2 & Houtv & more2 & ->).
    apply (children_inv_push _ _ _ (push_mapData (outk, outv))) in Hinv2.
    cbn [push_mapData] in Hinv2.
    specialize (IH _ _ Hinv2 Hwfs Hsubs).
    rewrite memory_update_length, !length_app in IH. specialize (IH ltac:(lia)).
    destruct (foldM _ _ entries) as [memory'|e| |]; try done.
    destruct IH as (cs & Hinv' & Hcs & more & Hmore).
    rewrite memory_keys_update in Hmore.
    exists ((outk, outv) :: cs). rewrite <- app_assoc in Hinv'. split; [done|].
    rewrite Hmore. split.
    + cbn [mapM fst snd].
      rewrite (serialized_child_app _ _ _ _ Houtv). cbn [mbind option_bind].
      rewrite (memory_keys_app _ more2), <- app_assoc.
      rewrite (serialized_child_app _ _ _ _ Houtk). cbn [mbind option_bind].
      rewrite app_assoc, <- memory_keys_app, <- Hmore, Hcs. done.
    + rewrite !memory_keys_app, <- !app_assoc. eauto.
Qed.

Lemma props_loop memory0 v (push : string * ChildSerialization → ComplexSerialization → ComplexSerialization)
    (mk : list (string * ChildSerialization) → ComplexSerialization) (g : string → value)
    (p : string → bool) names :
  (∀ e done, push e (mk done) = mk (done ++ [e])) →
  ∀ done memory,
  children_inv h memory0 v (mk done) memory →
  Forall (λ name, value_wf h (g name)) names →
  Forall (λ name, ∀ w, reachable h (g name) w → has_identity w → reachable h v w) names →
  List.length h + 2 ≤ fuel + List.length memory →
  match foldM (λ memory ownPropertyName,
           if p ownPropertyName then
             let inputValue := g ownPropertyName in
             '(outputValue, memory) ← self inputValue memory;
             Ok (memory_update v (push (ownPropertyName, outputValue)) memory)
           else Ok memory) memory names with
  | Ok memory' =>
      ∃ cs, children_inv h memory0 v (mk (done ++ cs)) memory'
        ∧ mapM (λ name, c ← serialized_child (memory_keys memory') (g name); Some (name, c))
            (filter (λ name, p name) names) = Some cs
        ∧ ∃ more, memory_keys memory' = memory_keys memory ++ more
  | Throw e => ∃ w, reachable h v w ∧ rejects h w e
  | _ => False
  end.
Proof.
  intros Hpush.
  induction names as [|name names IH]; intros done memory Hinv Hwfs Hsubs Hfuel.
  - simpl. exists []. rewrite !app_nil_r. split_and!; [done..|]. exists []. by rewrite app_nil_r.
  - apply Forall_cons in Hwfs as [Hc Hwfs]. apply Forall_cons in Hsubs as [Hsub Hsubs].
    cbn [foldM]. rewrite filter_cons. destruct (p name) eqn:Hp; cbn [mbind outcome_bind].
    + rewrite decide_True by done.
      pose proof (child_step _ _ _ _ (g name) Hinv Hc Hsub Hfuel) as Hstep.
      destruct (self (g name) memory) as [[out memory1]|e| |]; cbn [mbind outcome_bind]; try done.
      destruct Hstep as (Hinv1 & Hout & more1 & ->).
      apply (children_inv_push _ _ _ (push (name, out))) in Hinv1. rewrite Hpush in Hinv1.
      specialize (IH _ _ Hinv1 Hwfs Hsubs).
      rewrite memory_update_length, length_app in IH. specialize (IH ltac:(lia)).
      destruct (foldM _ _ names) as [memory'|e| |]; try done.
      destruct IH as (cs & Hinv' & Hcs & more & Hmore).
      rewrite memory_keys_update in Hmore.
      exists ((name, out) :: cs). rewrite <- app_assoc in Hinv'. split; [done|].
      rewrite Hmore. split.
      * cbn [mapM]. rewrite (serialized_child_app _ _ _ _ Hout). cbn [mbind option_bind].
        rewrite <- Hmore, Hcs. done.
      * rewrite memory_keys_app, <- app_assoc. eauto.
    + rewrite decide_False by (by intros ?). by apply IH.
Qed.

Lemma memory_set_length (memory : Memory) v r :
  v ∉ memory_keys memory → List.length (memory_set memory v r) = S (List.length memory).
Proof. intros Hv. rewrite memory_set_fresh by done. rewrite length_app. simpl. lia. Qed.

Lemma children_inv_init memory0 l r :
  memory_ok h memory0 → VObject l ∉ memory_keys memory0 → l < List.length h →
  children_inv h memory0 (VObject l) r (memory_set memory0 (VObject l) r).
Proof.
  intros Hok Hl Hlt. exists []. rewrite memory_set_fresh by done.
  split_and!; [done| |done..]. by apply memory_ok_snoc.
Qed.

Lemma serialize_finish memory0 l o r memory' :
  children_inv h memory0 (VObject l) r memory' →
  h !! l = Some o →
  serialized_record (memory_keys memory') o = Some r →
  serialize_post h (VObject l) memory0
    (index ← of_option (indexOf (memory_keys memory') (VObject l));
     Ok (Reference index, memory')).
Proof.
  intros (new & -> & Hok & Hnew & Hreach) Ho Hr.
  pose proof Hok as [Hnd _]. rewrite memory_keys_app in Hnd. simpl in Hnd.
  apply NoDup_app in Hnd as (_ & Hdisj & _).
  assert (indexOf (memory_keys (memory0 ++ (VObject l, r) :: new)) (VObject l)
          = Some (List.length (memory_keys memory0))) as Hidx.
  { rewrite memory_keys_app, indexOf_app_r.
    - simpl. rewrite decide_True by done. simpl. f_equal. lia.
    - intros ?; eapply Hdisj; [done|left]. }
  rewrite Hidx. simpl. exists ((VObject l, r) :: new).
  split_and!; [done|done| |apply Forall_cons; split; [|done]|apply Forall_cons; split; [|done]].
  - by rewrite Hidx.
  - by exists l, o.
  - apply reachable_refl.
Qed.

Lemma serialize_leaf memory0 l o r :
  memory_ok h memory0 → VObject l ∉ memory_keys memory0 → l < List.length h →
  h !! l = Some o →
  (∀ keys, serialized_record keys o = Some r) →
  serialize_post h (VObject l) memory0
    (index ← of_option (indexOf (memory_keys (memory_set memory0 (VObject l) r)) (VObject l));
     Ok (Reference index, memory_set memory0 (VObject l) r)).
Proof.
  intros Hok Hl Hlt Ho Hr. eapply serialize_finish; [by apply children_inv_init|done|done].
Qed.

Lemma obj_wf_lookup l o : h !! l = Some o → obj_wf h o.
Proof. intros Hl. unfold heap_wf in Hwf. rewrite Forall_forall in Hwf. apply Hwf. by eapply list_elem_of_lookup_2. Qed.

Lemma obj_wf_children o : obj_wf h o → Forall (value_wf h) (children o).
Proof.
  destruct o as [| | |[]| | | | | | | | | | | | | |]; simpl; try by constructor.
  - intros (data & Hb & _). apply Forall_singleton. simpl. by eapply lookup_lt_Some.
  - intros (_ & Hk & Hv). rewrite !Forall_fmap in Hk, Hv. rewrite Forall_forall in Hk, Hv.
    apply Forall_forall. intros c ([a b] & Hc & Hin)%list_elem_of_bind.
    simpl in Hc. apply elem_of_cons in Hc as [->|Hc]; [by apply (Hk _ Hin)|].
    apply list_elem_of_singleton in Hc as ->. by apply (Hv _ Hin).
  - by intros [_ ?].
  - by intros ((_&_&?)&_).
  - by intros (_&_&?).
Qed.

Lemma reachable_child_sub l o c :
  h !! l = Some o → c ∈ children o →
  ∀ w, reachable h c w → has_identity w → reachable h (VObject l) w.
Proof. intros Hl Hc w Hw _. by eapply reachable_child. Qed.

Lemma reachable_primitive_sub v c :
  ¬ has_identity c → ∀ w, reachable h c w → has_identity w → reachable h v w.
Proof.
  intros Hc w Hw Hid. apply reachable_primitive in Hw; [by subst|].
  intros l ->. by apply Hc.
Qed.

Lemma Reflect_get_cases o name :
  ¬ has_identity (Reflect_get o name) ∨ Reflect_get o name ∈ children o.
Proof.
  unfold Reflect_get. destruct o; simpl; try (left; by intros []).
  - destruct (decide (name = "length")); [left; by intros []|].
    destruct (lookup_property name props) as [x|] eqn:E; simpl; [|left; by intros []].
    right. apply lookup_property_elem_of in E. apply list_elem_of_fmap. by exists (name, x).
  - destruct (lookup_property name props) as [x|] eqn:E; simpl; [|left; by intros []].
    right. apply lookup_property_elem_of in E. apply list_elem_of_fmap. by exists (name, x).
Qed.

Lemma Reflect_get_wf o name : obj_wf h o → value_wf h (Reflect_get o name).
Proof.
  intros Ho. destruct (Reflect_get_cases o name) as [Hp|Hin].
  - by destruct (Reflect_get o name).
  - pose proof (obj_wf_children o Ho) as Hc. rewrite Forall_forall in Hc. by apply Hc.
Qed.

Lemma Reflect_get_sub l o name :
  h !! l = Some o →
  ∀ w, reachable h (Reflect_get o name) w → has_identity w → reachable h (VObject l) w.
Proof.
  intros Hl. destruct (Reflect_get_cases o name) as [Hp|Hin].
  - by apply reachable_primitive_sub.
  - by eapply reachable_child_sub.
Qed.

Lemma reachable_ArrayBuffer b data w :
  h !! b = Some (ArrayBufferObject data) → reachable h (VObject b) w → w = VObject b.
Proof.
  intros Hb Hw. inversion Hw as [|l o c w' Hl Hc Hcw]; subst; [done|].
  rewrite Hb in Hl. injection Hl as <-. simpl in Hc. by apply elem_of_nil in Hc.
Qed.

Lemma memory_ok_primitive memory v :
  memory_ok h memory → v ∈ memory_keys memory → ∃ l, v = VObject l ∧ l < List.length h.
Proof. intros [_ Hk] Hin. rewrite Forall_forall in Hk. by apply Hk. Qed.

Lemma body_spec v memory :
  value_wf h v → memory_ok h memory →
  List.length h + 2 ≤ S fuel + List.length memory
  ∨ (∃ l data, v = VObject l ∧ h !! l = Some (ArrayBufferObject data)) →
  serialize_post h v memory (structuredSerializeInternal_body self h v memory).
Proof.
  intros Hv Hok Hfuel. unfold structuredSerializeInternal_body.
  destruct (memory_has memory v) eqn:Hhas.
  { apply memory_has_true in Hhas. destruct (indexOf_is_Some _ _ Hhas) as [i Hi].
    rewrite Hi. simpl. exists []. rewrite app_nil_r. split_and!; try done.
    destruct (memory_ok_primitive _ _ Hok Hhas) as (l & -> & _). simpl. by rewrite Hi. }
  apply memory_has_false in Hhas.
  destruct v as [| | | | | | |l];
    try (simpl; exists []; rewrite app_nil_r; by split_and!).
  { simpl. exists (VSymbol id). split; [apply reachable_refl|done]. }
  simpl in Hv. destruct (lookup_lt_is_Some_2 _ _ Hv) as [o Ho]. rewrite Ho.
  cbn [of_option mbind outcome_bind].
  pose proof (obj_wf_lookup _ _ Ho) as Howf.
  assert ((∀ data, o ≠ ArrayBufferObject data) →
          List.length h + 2 ≤ S fuel + List.length memory) as Hfuel'.
  { intros Hne. destruct Hfuel as [?|(l' & data & [= <-] & Hl')]; [done|]. congruence. }
  assert (List.length (memory_set memory (VObject l) (BooleanSerialization "")) = S (List.length memory))
    as Hlen.
  { rewrite memory_set_fresh by done. rewrite length_app. simpl. lia. }
  destruct o as [b|n|s|[ms|]|source flags|data|kind buffer byteOffset byteLength
                |entries|elements|name message|len props| | | | | | |props];
    cbn [mbind outcome_bind Date_toISOString].
  - eapply serialize_leaf; eauto.
  - eapply serialize_leaf; eauto.
  - eapply serialize_leaf; eauto.
  - eapply serialize_leaf; eauto.
  - exists (VObject l). split; [apply reachable_refl|]. simpl. eauto.
  - eapply serialize_leaf; eauto.
  - eapply serialize_leaf; eauto.
  - (* a view: the buffer is serialized first *)
    destruct Howf as (data & Hb & _).
    specialize (Hfuel' ltac:(congruence)).
    pose proof (memory_ok_length_fresh _ _ _ Hok Hhas Hv) as Hlt.
    assert (value_wf h (VObject buffer)) as Hbwf by (simpl; by eapply lookup_lt_Some).
    assert (1 ≤ fuel) as Hone by lia.
    pose proof (Hself (VObject buffer) memory Hbwf Hok
                  (or_intror (conj Hone (ex_intro _ buffer (ex_intro _ data (conj eq_refl Hb))))))
      as Hpost.
    destruct (self (VObject buffer) memory) as [[bs memory1]|e| |];
      cbn [mbind outcome_bind]; simpl in Hpost; try done.
    + destruct Hpost as (new1 & -> & Hok1 & Hbs & Hnew1 & Hreach1).
      change (serialized_child (memory_keys (memory ++ new1)) (VObject buffer) = Some bs) in Hbs.
      assert (VObject l ∉ memory_keys (memory ++ new1)) as Hfresh.
      { rewrite memory_keys_app. intros [?|Hin]%elem_of_app; [done|].
        apply list_elem_of_fmap in Hin as (e & He & Hin).
        rewrite Forall_forall in Hreach1. specialize (Hreach1 _ Hin). rewrite <- He in Hreach1.
        apply (reachable_ArrayBuffer _ _ _ Hb) in Hreach1. congruence. }
      rewrite memory_set_fresh by done.
      rewrite (memory_keys_app (memory ++ new1)), indexOf_app_r by done.
      simpl. rewrite decide_True by done. simpl.
      exists (new1 ++ [(VObject l, TypedArraySerialization (constructor_name kind)
                          byteOffset byteLength bs)]).
      split; [by rewrite app_assoc|]. split; [by apply memory_ok_snoc|].
      rewrite (memory_keys_app (memory ++ new1)). simpl. split.
      { rewrite indexOf_app_r by done. simpl. rewrite decide_True by done. done. }
      split.
      * apply Forall_app. split.
        -- eapply Forall_impl; [exact Hnew1|]. intros e He. by apply entry_complete_app.
        -- apply Forall_singleton. exists l, (ArrayBufferViewObject kind buffer byteOffset byteLength).
           split_and!; [done..|]. cbn [serialized_record snd].
           by rewrite (serialized_child_app _ [VObject l] _ _ Hbs).
      * apply Forall_app. split.
        -- eapply Forall_impl; [exact Hreach1|]. intros e He.
           apply (reachable_child h l _ (VObject buffer) _ Ho); [|done].
           by apply list_elem_of_singleton.
        -- apply Forall_singleton. apply reachable_refl.
    + destruct Hpost as (w & Hw & Hrej). exists w. split; [|done].
      apply (reachable_child h l _ (VObject buffer) _ Ho); [|done].
      by apply list_elem_of_singleton.
  - (* Map *)
    destruct Howf as (_ & Hk & Hx). rewrite !Forall_fmap in Hk, Hx.
    rewrite Forall_forall in Hk, Hx.
    pose proof (map_loop memory (VObject l) entries [] _
                  (children_inv_init _ _ (MapSerialization []) Hok Hhas Hv)) as Hloop.
    rewrite memory_set_length in Hloop by done.
    specialize (Hloop ltac:(apply Forall_forall; intros [a b] Hin; simpl; split;
                              [by apply (Hk _ Hin)|by apply (Hx _ Hin)])).
    specialize (Hloop ltac:(apply Forall_forall; intros [a b] Hin c Hc;
      eapply reachable_child_sub; [done|];
      simpl; apply list_elem_of_bind; exists (a, b); split; [|done];
      simpl in Hc; destruct Hc as [->| ->]; [left|right; left])).
    specialize (Hloop ltac:(specialize (Hfuel' ltac:(congruence)); lia)).
    cbn zeta.
    destruct (foldM _ _ entries) as [memory'|e| |]; cbn [mbind outcome_bind]; try done.
    destruct Hloop as (cs & Hinv & Hcs & _).
    eapply serialize_finish; [done..|]. simpl. by rewrite Hcs.
  - (* Set *)
    destruct Howf as (_ & Hx). rewrite Forall_forall in Hx.
    pose proof (set_loop memory (VObject l) elements [] _
                  (children_inv_init _ _ (SetSerialization []) Hok Hhas Hv)) as Hloop.
    rewrite memory_set_length in Hloop by done.
    specialize (Hloop ltac:(by apply Forall_forall)).
    specialize (Hloop ltac:(apply Forall_forall; intros c Hc; by eapply reachable_child_sub)).
    specialize (Hloop ltac:(specialize (Hfuel' ltac:(congruence)); lia)).
    cbn zeta.
    destruct (foldM _ _ elements) as [memory'|e| |]; cbn [mbind outcome_bind]; try done.
    destruct Hloop as (cs & Hinv & Hcs & _).
    eapply serialize_finish; [done..|]. simpl. by rewrite Hcs.
  - eapply serialize_leaf; eauto.
  - (* Array *)
    pose proof (props_loop memory (VObject l) push_properties (ArraySerialization len)
                  (Reflect_get (ArrayObject len props)) (hasOwnProperty (ArrayObject len props))
                  (getOwnPropertyNames (ArrayObject len props)) ltac:(done) [] _
                  (children_inv_init _ _ (ArraySerialization len []) Hok Hhas Hv)) as Hloop.
    rewrite memory_set_length in Hloop by done.
    specialize (Hloop ltac:(apply Forall_forall; intros name _; by apply Reflect_get_wf)).
    specialize (Hloop ltac:(apply Forall_forall; intros name _; by apply Reflect_get_sub)).
    specialize (Hloop ltac:(specialize (Hfuel' ltac:(congruence)); lia)).
    cbn zeta.
    destruct (foldM _ _ (getOwnPropertyNames _)) as [memory'|e| |]; cbn [mbind outcome_bind]; try done.
    destruct Hloop as (cs & Hinv & Hcs & _).
    eapply serialize_finish; [done..|]. simpl. by rewrite Hcs.
  - exists (VObject l). split; [apply reachable_refl|]. simpl. eauto 10.
  - exists (VObject l). split; [apply reachable_refl|]. simpl. eauto 10.
  - exists (VObject l). split; [apply reachable_refl|]. simpl. eauto 10.
  - exists (VObject l). split; [apply reachable_refl|]. simpl. eauto 10.
  - exists (VObject l). split; [apply reachable_refl|]. simpl. eauto 10.
  - exists (VObject l). split; [apply reachable_refl|]. simpl. eauto 10.
  - (* plain object *)
    pose proof (props_loop memory (VObject l) push_properties ObjectSerialization
                  (Reflect_get (PlainObject props)) (hasOwnProperty (PlainObject props))
                  (getOwnPropertyNames (PlainObject props)) ltac:(done) [] _
                  (children_inv_init _ _ (ObjectSerialization []) Hok Hhas Hv)) as Hloop.
    rewrite memory_set_length in Hloop by done.
    specialize (Hloop ltac:(apply Forall_forall; intros name _; by apply Reflect_get_wf)).
    specialize (Hloop ltac:(apply Forall_forall; intros name _; by apply Reflect_get_sub)).
    specialize (Hloop ltac:(specialize (Hfuel' ltac:(congruence)); lia)).
    cbn zeta.
    destruct (foldM _ _ (getOwnPropertyNames _)) as [memory'|e| |]; cbn [mbind outcome_bind]; try done.
    destruct Hloop as (cs & Hinv & Hcs & _).
    eapply serialize_finish; [done..|]. simpl. by rewrite Hcs.
Qed.

End serializer_body.

Lemma serialize_spec h fuel :
  heap_wf h →
  ∀ v memory,
  value_wf h v → memory_ok h memory →
  List.length h + 2 ≤ fuel + List.length memory
  ∨ (1 ≤ fuel ∧ ∃ l data, v = VObject l ∧ h !! l = Some (ArrayBufferObject data)) →
  serialize_post h v memory (structuredSerializeInternal fuel h v memory).
Proof.
  intros Hwf. induction fuel as [|fuel IH]; intros v memory Hv Hok Hfuel.
  - pose proof (memory_ok_length _ _ Hok). destruct Hfuel as [?|[? _]]; lia.
  - cbn [structuredSerializeInternal]. apply (body_spec h Hwf _ fuel IH); [done..|].
    destruct Hfuel as [?|[_ ?]]; eauto.
Qed.


(** * Properties of the deserializer *)

Arguments Reflect_set_own : simpl never.
Arguments TypedArray_new : simpl never.
Arguments typedArrayConstructor : simpl never.
Arguments deserialize_primitive : simpl never.
Arguments Array_new : simpl never.

Lemma resolve_mono (m m' : gmap nat value) c v :
  m ⊆ m' → resolve m c = Some v → resolve m' c = Some v.
Proof. destruct c; simpl; [done|]. intros Hsub Hm. by eapply lookup_weaken. Qed.

Lemma resolve_entry_mono (m m' : gmap nat value) e kv :
  m ⊆ m' → resolve_entry m e = Some kv → resolve_entry m' e = Some kv.
Proof.
  intros Hsub. unfold resolve_entry.
  destruct (resolve m e.1) as [k|] eqn:Ek; simpl; [|done].
  destruct (resolve m e.2) as [x|] eqn:Ex; simpl; [|done].
  by rewrite (resolve_mono _ _ _ _ Hsub Ek), (resolve_mono _ _ _ _ Hsub Ex).
Qed.

Lemma resolve_property_mono (m m' : gmap nat value) e kv :
  m ⊆ m' → resolve_property m e = Some kv → resolve_property m' e = Some kv.
Proof.
  intros Hsub. unfold resolve_property.
  destruct (resolve m e.2) as [x|] eqn:Ex; simpl; [|done].
  by rewrite (resolve_mono _ _ _ _ Hsub Ex).
Qed.

Lemma TypedArray_new_buffer kind h v byteOffset len o :
  TypedArray_new kind h v byteOffset len = Ok o →
  ∃ l data, v = VObject l ∧ h !! l = Some (ArrayBufferObject data).
Proof.
  unfold TypedArray_new. destruct v; try done.
  destruct (h !! l) as [[]|] eqn:E; try done. eauto.
Qed.

Lemma TypedArray_new_stable kind (h h2 : list obj) v byteOffset len o :
  (∀ l d, h !! l = Some (ArrayBufferObject d) → h2 !! l = Some (ArrayBufferObject d)) →
  TypedArray_new kind h v byteOffset len = Ok o →
  TypedArray_new kind h2 v byteOffset len = Ok o.
Proof.
  intros Hbuf Hnew. destruct (TypedArray_new_buffer _ _ _ _ _ _ Hnew) as (l & data & -> & Hl).
  unfold TypedArray_new in *. by rewrite Hl in Hnew; rewrite (Hbuf _ _ Hl).
Qed.

Lemma to_option_Some {A} (m : outcome A) a : to_option m = Some a ↔ m = Ok a.
Proof. destruct m; simpl; split; congruence. Qed.

Lemma object_of_record_stable (h h2 : list obj) (m m2 : gmap nat value) r o :
  (∀ l d, h !! l = Some (ArrayBufferObject d) → h2 !! l = Some (ArrayBufferObject d)) →
  m ⊆ m2 →
  object_of_record h m r = Some o → object_of_record h2 m2 r = Some o.
Proof.
  intros Hbuf Hsub. destruct r; simpl; try done.
  - destruct (to_option (typedArrayConstructor typedArrayName)) as [kind|]; simpl; [|done].
    destruct (resolve m arrayBufferSerialized) as [vb|] eqn:Evb; simpl; [|done].
    rewrite (resolve_mono _ _ _ _ Hsub Evb). simpl.
    intros Hnew%to_option_Some. apply to_option_Some. by eapply TypedArray_new_stable.
  - destruct (mapM _ mapData) as [es|] eqn:E; simpl; [|done].
    erewrite mapM_ext_Some; [done| |exact E]. intros; by eapply resolve_entry_mono.
  - destruct (mapM _ setData) as [es|] eqn:E; simpl; [|done].
    erewrite mapM_ext_Some; [done| |exact E]. intros; by eapply resolve_mono.
  - destruct (to_option (Array_new length)) as [shell|]; simpl; [|done].
    destruct (mapM _ properties) as [es|] eqn:E; simpl; [|done].
    erewrite mapM_ext_Some; [done| |exact E]. intros; by eapply resolve_property_mono.
  - destruct (mapM _ properties) as [es|] eqn:E; simpl; [|done].
    erewrite mapM_ext_Some; [done| |exact E]. intros; by eapply resolve_property_mono.
Qed.

Lemma decoded_stable lo (h h2 : list obj) (m m2 : gmap nat value) r v :
  (∀ l o, lo ≤ l → h !! l = Some o → h2 !! l = Some o) →
  (∀ l d, h !! l = Some (ArrayBufferObject d) → h2 !! l = Some (ArrayBufferObject d)) →
  m ⊆ m2 →
  decoded lo h m r v → decoded lo h2 m2 r v.
Proof.
  intros Hobj Hbuf Hsub. unfold decoded.
  destruct r; try done;
    intros (l & o & -> & Hlo & Hl & Hr); exists l, o;
    (split_and!; [done|done|by apply Hobj|by eapply object_of_record_stable]).
Qed.

Lemma decoded_weaken lo lo' (h : list obj) (m : gmap nat value) r v :
  lo' ≤ lo → decoded lo h m r v → decoded lo' h m r v.
Proof.
  intros Hle. unfold decoded.
  destruct r; try done;
    intros (l & o & -> & Hlo & Hl & Hr); exists l, o; (split_and!; [done|lia|done|done]).
Qed.

Lemma instances_ok_alloc (h : list obj) (m : gmap nat value) id o :
  instances_ok h m → m !! id = None →
  instances_ok (h ++ [o]) (<[id := VObject (List.length h)]> m).
Proof.
  intros [Hlt Hinj] Hid. split.
  - intros id' l. rewrite lookup_insert, length_app. simpl. case_decide.
    + intros [= <-]. lia.
    + intros Hl%Hlt. lia.
  - intros id1 id2 l. rewrite !lookup_insert. repeat case_decide; subst; try done.
    + intros [= <-] Hl%Hlt. lia.
    + intros Hl%Hlt [= <-]. lia.
    + apply Hinj.
Qed.

Lemma instances_ok_insert (h : list obj) (m : gmap nat value) l o :
  instances_ok h m → instances_ok (<[l := o]> h) m.
Proof. intros [Hlt Hinj]. split; [|done]. intros id l'. rewrite length_insert. apply Hlt. Qed.

Lemma instances_ok_extend (h h' : list obj) (m : gmap nat value) :
  instances_ok h m → List.length h ≤ List.length h' → instances_ok h' m.
Proof. intros [Hlt Hinj] Hle. split; [|done]. intros id l Hl%Hlt. lia. Qed.

Section deserializer_body.
Context (objects : list ComplexSerialization).
Context (self : ChildSerialization → list ComplexSerialization → list obj → gmap nat value
                → outcome (value * list obj * gmap nat value)).
Context (Hself : ∀ c h m v h' m',
  instances_ok h m → self c objects h m = Ok (v, h', m') →
  deserialize_post objects c h m v h' m').

Lemma populating_call l0 h0 m0 h m c v h1 m1 :
  populating objects l0 h0 m0 h m →
  self c objects h m = Ok (v, h1, m1) →
  populating objects l0 h0 m0 h1 m1 ∧ resolve m1 c = Some v ∧ m ⊆ m1
  ∧ (∀ o, h !! l0 = Some o → h1 !! l0 = Some o).
Proof.
  intros (Hframe & Hsub & Hnew & Hok & o0 & Hl0 & Hc) Hcall.
  destruct (Hself _ _ _ _ _ _ Hok Hcall) as (P1 & P2 & P3 & P4 & P5 & _).
  split_and!; try done; [|auto].
  split_and!.
  - intros l o Hl Hne. apply P1. by apply Hframe.
  - by transitivity m.
  - intros id v' Hm0 Hm1. destruct (m !! id) as [v''|] eqn:Em.
    + pose proof (lookup_weaken _ _ _ _ Em P2) as E. rewrite Hm1 in E. injection E as ->.
      destruct (Hnew _ _ Hm0 Em) as (r & Hr & Hdec). exists r. split; [done|].
      eapply decoded_stable; [| |exact P2|exact Hdec]; eauto.
    + destruct (P4 _ _ Em Hm1) as (r & Hr & Hdec). exists r. split; [done|].
      eapply decoded_weaken; [|exact Hdec]. apply lookup_lt_Some in Hl0. lia.
  - done.
  - exists o0. split; [by apply P1|done].
Qed.

Lemma populating_update l0 h0 m0 h m o' :
  populating objects l0 h0 m0 h m → is_container o' →
  populating objects l0 h0 m0 (<[l0 := o']> h) m.
Proof.
  intros (Hframe & Hsub & Hnew & Hok & o0 & Hl0 & Hc) Hc'. split_and!.
  - intros l o Hl Hne. rewrite list_lookup_insert_ne by done. by apply Hframe.
  - done.
  - intros id v Hm0 Hm. destruct (Hnew _ _ Hm0 Hm) as (r & Hr & Hdec). exists r. split; [done|].
    eapply decoded_stable; [| |reflexivity|exact Hdec].
    + intros l o Hle Hl. rewrite list_lookup_insert_ne by lia. done.
    + intros l d Hl. rewrite list_lookup_insert_ne; [done|].
      intros <-. rewrite Hl0 in Hl. injection Hl as ->. done.
  - by apply instances_ok_insert.
  - exists o'. split; [|done]. apply list_lookup_insert_eq. by eapply lookup_lt_Some.
Qed.

Lemma populating_init (h : list obj) (m : gmap nat value) id shell :
  instances_ok h m → m !! id = None → is_container shell →
  populating objects (List.length h) (h ++ [shell]) (<[id := VObject (List.length h)]> m)
    (h ++ [shell]) (<[id := VObject (List.length h)]> m).
Proof.
  intros Hok Hid Hc. split_and!; try done.
  - intros id' v H1 H2. congruence.
  - by apply instances_ok_alloc.
  - exists shell. split; [|done]. by rewrite lookup_app_r, Nat.sub_diag.
Qed.

Lemma populating_finish (h : list obj) (m : gmap nat value) id shell r h' m' o :
  instances_ok h m → m !! id = None → objects !! id = Some r →
  populating objects (List.length h) (h ++ [shell]) (<[id := VObject (List.length h)]> m) h' m' →
  h' !! List.length h = Some o →
  object_of_record h' m' r = Some o →
  (∀ type, r ≠ OtherSerialization type) →
  (∀ size data, r ≠ ArrayBufferSerialization size data) →
  deserialize_post objects (Reference id) h m (VObject (List.length h)) h' m'.
Proof.
  intros Hok Hid Hr (Hframe & Hsub & Hnew & Hok' & _) Ho Hobj Hother Hbuf.
  assert (m' !! id = Some (VObject (List.length h))) as Hid'.
  { eapply lookup_weaken; [|exact Hsub]. apply lookup_insert_eq. }
  split_and!.
  - intros l o' Hl. apply Hframe.
    + by apply lookup_app_l_Some.
    + apply lookup_lt_Some in Hl. lia.
  - etransitivity; [|exact Hsub]. by apply insert_subseteq.
  - done.
  - intros id' v Hm Hm'. destruct (decide (id' = id)) as [->|Hne].
    + rewrite Hid' in Hm'. injection Hm' as <-. exists r. split; [done|].
      unfold decoded. destruct r; try (by exists (List.length h), o).
      by destruct (Hother type).
    + destruct (Hnew id' v) as (r' & Hr' & Hdec); [by rewrite lookup_insert_ne|done|].
      exists r'. split; [done|]. eapply decoded_weaken; [|exact Hdec]. lia.
  - done.
  - intros id' [= <-] [? ?]. congruence.
  - intros id' size data [= <-] _ Hr'. rewrite Hr in Hr'. injection Hr' as ->.
    by destruct (Hbuf size data).
Qed.

Lemma Set_prototype_add_lookup (h : list obj) l elements v :
  h !! l = Some (SetObject elements) →
  Set_prototype_add h (VObject l) v = <[l := SetObject (Set_add_elements v elements)]> h.
Proof. intros Hl. unfold Set_prototype_add. by rewrite Hl. Qed.

Lemma Map_prototype_set_lookup (h : list obj) l entries k v :
  h !! l = Some (MapObject entries) →
  Map_prototype_set h (VObject l) k v = <[l := MapObject (Map_set_entries k v entries)]> h.
Proof. intros Hl. unfold Map_prototype_set. by rewrite Hl. Qed.

Lemma set_populate_loop l0 h0 m0 setData : ∀ elements h m h' m',
  populating objects l0 h0 m0 h m →
  h !! l0 = Some (SetObject elements) →
  foldM (λ '(h, memory) serializedValue,
     '(deserializedValue, h, memory) ← self serializedValue objects h memory;
     Ok (Set_prototype_add h (VObject l0) deserializedValue, memory)) (h, m) setData
  = Ok (h', m') →
  populating objects l0 h0 m0 h' m' ∧ m ⊆ m'
  ∧ ∃ vs, mapM (resolve m') setData = Some vs
      ∧ h' !! l0 = Some (SetObject (populate_set elements vs)).
Proof.
  induction setData as [|c setData IH]; intros elements h m h' m' Hpop Hl0 Hloop.
  - simpl in Hloop. injection Hloop as <- <-. split_and!; [done..|]. by exists [].
  - cbn [foldM] in Hloop. apply bind_Ok in Hloop as ([h2 m2] & Hstep & Hloop).
    apply bind_Ok in Hstep as ([[v h1] m1] & Hcall & Hstep). injection Hstep as <- <-.
    destruct (populating_call _ _ _ _ _ _ _ _ _ Hpop Hcall) as (Hpop1 & Hv & Hsub1 & Hkeep).
    rewrite (Hkeep _ Hl0) in Hloop.
    apply (populating_update _ _ _ _ _ (SetObject (Set_add_elements v elements))) in Hpop1;
      [|exact I].
    eapply IH in Hloop as (Hpop' & Hsub' & vs & Hvs & Hl0'); [|exact Hpop1|].
    2: { apply list_lookup_insert_eq. eapply lookup_lt_Some. by apply Hkeep. }
    split_and!; [done|by transitivity m1|].
    exists (v :: vs). cbn [mapM]. rewrite (resolve_mono _ _ _ _ Hsub' Hv). simpl.
    rewrite Hvs. simpl. done.
Qed.

Lemma map_populate_loop l0 h0 m0 mapData : ∀ entries h m h' m',
  populating objects l0 h0 m0 h m →
  h !! l0 = Some (MapObject entries) →
  foldM (λ '(h, memory) '(serializedKey, serializedValue),
     '(deserializedKey, h, memory) ← self serializedKey objects h memory;
     '(deserializedValue, h, memory) ← self serializedValue objects h memory;
     Ok (Map_prototype_set h (VObject l0) deserializedKey deserializedValue, memory))
    (h, m) mapData
  = Ok (h', m') →
  populating objects l0 h0 m0 h' m' ∧ m ⊆ m'
  ∧ ∃ vs, mapM (resolve_entry m') mapData = Some vs
      ∧ h' !! l0 = Some (MapObject (populate_map entries vs)).
Proof.
  induction mapData as [|[ck cv] mapData IH]; intros entries h m h' m' Hpop Hl0 Hloop.
  - simpl in Hloop. injection Hloop as <- <-. split_and!; [done..|]. by exists [].
  - cbn [foldM] in Hloop. apply bind_Ok in Hloop as ([h3 m3] & Hstep & Hloop).
    apply bind_Ok in Hstep as ([[k h1] m1] & Hcall1 & Hstep).
    apply bind_Ok in Hstep as ([[v h2] m2] & Hcall2 & Hstep). injection Hstep as <- <-.
    destruct (populating_call _ _ _ _ _ _ _ _ _ Hpop Hcall1) as (Hpop1 & Hk & Hsub1 & Hkeep1).
    destruct (populating_call _ _ _ _ _ _ _ _ _ Hpop1 Hcall2) as (Hpop2 & Hv & Hsub2 & Hkeep2).
    rewrite (Hkeep2 _ (Hkeep1 _ Hl0)) in Hloop.
    apply (populating_update _ _ _ _ _ (MapObject (Map_set_entries k v entries))) in Hpop2;
      [|exact I].
    eapply IH in Hloop as (Hpop' & Hsub' & vs & Hvs & Hl0'); [|exact Hpop2|].
    2: { apply list_lookup_insert_eq. eapply lookup_lt_Some. by apply Hkeep2, Hkeep1. }
    split_and!; [done|by do 2 (etransitivity; [eassumption|])|].
    exists ((k, v) :: vs). cbn [mapM].
    assert (resolve_entry m' (ck, cv) = Some (k, v)) as ->.
    { unfold resolve_entry. cbn [fst snd].
      rewrite (resolve_mono _ _ _ _ (transitivity Hsub2 Hsub') Hk).
      rewrite (resolve_mono _ _ _ _ Hsub' Hv). done. }
    cbn [mbind option_bind]. by rewrite Hvs.
Qed.

Lemma Reflect_set_own_ordinary o key v :
  key ≠ "__proto__" → Reflect_set_own o key v = set_own_property o key v.
Proof. intros Hkey. unfold Reflect_set_own. by rewrite decide_False. Qed.

Lemma set_own_property_container o key v o' :
  set_own_property o key v = Ok o' → is_container o ∧ is_container o'.
Proof.
  unfold set_own_property. destruct o; try done.
  - destruct (decide (key = "length")).
    + intros ([len' props'] & _ & [= <-])%bind_Ok. done.
    + destruct (array_index key); by intros [= <-].
  - by intros [= <-].
Qed.

Lemma Reflect_set_own_container o key v o' :
  Reflect_set_own o key v = Ok o' → is_container o ∧ is_container o'.
Proof.
  unfold Reflect_set_own.
  destruct (decide (key = "__proto__")); [|apply set_own_property_container].
  destruct (hasOwnProperty o key); [apply set_own_property_container|].
  destruct o; try done; destruct v; try done; by intros [= <-].
Qed.

Lemma properties_populate_loop l0 h0 m0 properties : ∀ o h m h' m',
  populating objects l0 h0 m0 h m →
  h !! l0 = Some o →
  foldM (λ '(h, memory) '(key, serializedValue),
     '(deserializedValue, h, memory) ← self serializedValue objects h memory;
     h ← Reflect_set h (VObject l0) key deserializedValue;
     Ok (h, memory)) (h, m) properties
  = Ok (h', m') →
  populating objects l0 h0 m0 h' m' ∧ m ⊆ m'
  ∧ ∃ vs o', mapM (resolve_property m') properties = Some vs
      ∧ populate_properties o vs = Ok o'
      ∧ h' !! l0 = Some o'.
Proof.
  induction properties as [|[key c] properties IH]; intros o h m h' m' Hpop Hl0 Hloop.
  - simpl in Hloop. injection Hloop as <- <-. split_and!; [done..|]. by exists [], o.
  - cbn [foldM] in Hloop. apply bind_Ok in Hloop as ([h3 m3] & Hstep & Hloop).
    apply bind_Ok in Hstep as ([[v h1] m1] & Hcall & Hstep).
    apply bind_Ok in Hstep as (h2 & Hset & Hstep). injection Hstep as <- <-.
    destruct (populating_call _ _ _ _ _ _ _ _ _ Hpop Hcall) as (Hpop1 & Hv & Hsub1 & Hkeep).
    unfold Reflect_set in Hset. rewrite (Hkeep _ Hl0) in Hset.
    apply bind_Ok in Hset as (o1 & Hown & [= <-]).
    destruct (Reflect_set_own_container _ _ _ _ Hown) as [_ Hc1].
    apply (populating_update _ _ _ _ _ o1) in Hpop1; [|exact Hc1].
    eapply IH in Hloop as (Hpop' & Hsub' & vs & o' & Hvs & Hfold & Hl0'); [|exact Hpop1|].
    2: { apply list_lookup_insert_eq. eapply lookup_lt_Some. by apply Hkeep. }
    split_and!; [done|by transitivity m1|].
    exists ((key, v) :: vs), o'. split_and!; [|  |done].
    + cbn [mapM].
      assert (resolve_property m' (key, c) = Some (key, v)) as ->.
      { unfold resolve_property. cbn [fst snd]. by rewrite (resolve_mono _ _ _ _ Hsub' Hv). }
      cbn [mbind option_bind]. by rewrite Hvs.
    + unfold populate_properties in *. cbn [foldM]. simpl. rewrite Hown. done.
Qed.

Lemma deserialize_primitive_no_identity primitiveType s v :
  deserialize_primitive primitiveType s = Ok v → ¬ has_identity v.
Proof.
  unfold deserialize_primitive. intros H Hid.
  destruct primitiveType; try (injection H as <-; exact Hid).
  apply bind_Ok in H as (z & _ & [= <-]). exact Hid.
Qed.

Lemma populate_properties_container o vs o' :
  populate_properties o vs = Ok o' → is_container o → is_container o'.
Proof.
  unfold populate_properties. revert o. induction vs as [|[key v] vs IH]; intros o; simpl.
  - by intros [= <-].
  - intros (o1 & Hown & Hrest)%bind_Ok _. apply (IH _ Hrest).
    by apply Reflect_set_own_container in Hown as [_ ?].
Qed.

Lemma object_of_record_ArrayBuffer (h : list obj) (m : gmap nat value) r data :
  object_of_record h m r = Some (ArrayBufferObject data) →
  ∃ size arrayBufferData, r = ArrayBufferSerialization size arrayBufferData.
Proof.
  destruct r; simpl; try done; eauto.
  - destruct (to_option (typedArrayConstructor typedArrayName)) as [kind|]; simpl; [|done].
    destruct (resolve m arrayBufferSerialized) as [vb|]; simpl; [|done].
    intros Hnew%to_option_Some. unfold TypedArray_new in Hnew.
    destruct vb; try done. destruct (h !! l) as [[]|]; try done.
    repeat case_match; done.
  - destruct (mapM _ mapData); done.
  - destruct (mapM _ setData); done.
  - destruct (to_option (Array_new length)) as [shell|] eqn:Es; simpl; [|done].
    destruct (mapM _ properties); simpl; [|done].
    intros Hp%to_option_Some. apply populate_properties_container in Hp; [done|].
    apply to_option_Some in Es. unfold Array_new in Es. case_match; [|done]. by injection Es as <-.
  - destruct (mapM _ properties); simpl; [|done].
    intros Hp%to_option_Some. by apply populate_properties_container in Hp.
Qed.

Lemma preserved_length (h h' : list obj) :
  (∀ l o, h !! l = Some o → h' !! l = Some o) → List.length h ≤ List.length h'.
Proof.
  intros Hp. destruct (decide (h = [])) as [->|Hne]; [simpl; lia|].
  destruct (exists_last Hne) as (h0 & o0 & ->).
  specialize (Hp (List.length h0) o0).
  rewrite lookup_app_r, Nat.sub_diag in Hp by done. specialize (Hp eq_refl).
  apply lookup_lt_Some in Hp. rewrite length_app. simpl. lia.
Qed.

Lemma deserialize_leaf (h : list obj) (m : gmap nat value) id r o :
  instances_ok h m → m !! id = None → objects !! id = Some r →
  (∀ h' m', object_of_record h' m' r = Some o) →
  deserialize_post objects (Reference id) h m (VObject (List.length h)) (h ++ [o])
    (<[id := VObject (List.length h)]> m).
Proof.
  intros Hok Hid Hr Hobj. split_and!.
  - intros l o' Hl. by apply lookup_app_l_Some.
  - by apply insert_subseteq.
  - apply lookup_insert_eq.
  - intros id' v Hm. rewrite lookup_insert. case_decide; [|congruence].
    intros [= <-]. subst id'. exists r. split; [done|].
    assert (∃ l o', VObject (List.length h) = VObject l ∧ List.length h ≤ l
                    ∧ (h ++ [o]) !! l = Some o'
                    ∧ object_of_record (h ++ [o]) (<[id:=VObject (List.length h)]> m) r = Some o')
      as Hdec.
    { exists (List.length h), o. split_and!; [done|done| |done].
      by rewrite lookup_app_r, Nat.sub_diag. }
    unfold decoded. destruct r; try done. by specialize (Hobj h m).
  - by apply instances_ok_alloc.
  - intros id' [= <-] [? ?]. congruence.
  - by intros id' size data [= <-] _ _.
Qed.

Lemma deserialize_view (h : list obj) (m : gmap nat value) id name byteOffset byteLength c
    kind arrayBuffer ha ma typedArray :
  instances_ok h m → m !! id = None →
  objects !! id = Some (TypedArraySerialization name byteOffset byteLength c) →
  typedArrayConstructor name = Ok kind →
  self c objects h m = Ok (arrayBuffer, ha, ma) →
  TypedArray_new kind ha arrayBuffer byteOffset byteLength = Ok typedArray →
  deserialize_post objects (Reference id) h m (VObject (List.length ha)) (ha ++ [typedArray])
    (<[id := VObject (List.length ha)]> ma).
Proof.
  intros Hok Hid Hr Hkind Hcall Hnew.
  destruct (Hself _ _ _ _ _ _ Hok Hcall) as (P1 & P2 & P3 & P4 & P5 & P6a & P6b).
  destruct (TypedArray_new_buffer _ _ _ _ _ _ Hnew) as (lb & data & -> & Hlb).
  assert (ma !! id = None) as Hid'.
  { destruct c as [pt s|b]; simpl in P3.
    - apply to_option_Some, deserialize_primitive_no_identity in P3. by destruct P3.
    - destruct (m !! b) as [vb|] eqn:Eb.
      + destruct (P6a b eq_refl) as [_ ->]; [by eexists|done].
      + destruct (P4 _ _ Eb P3) as (rb & Hrb & Hdec).
        assert (∃ size abd, rb = ArrayBufferSerialization size abd) as (size & abd & ->).
        { unfold decoded in Hdec.
          destruct rb; try done;
            destruct Hdec as (l' & o' & [= <-] & _ & Hl' & Hobj);
            rewrite Hlb in Hl'; injection Hl' as <-;
            apply object_of_record_ArrayBuffer in Hobj as (? & ? & ?); first [done|eauto]. }
        rewrite (P6b _ _ _ eq_refl Eb Hrb). rewrite lookup_insert_ne; [done|].
        intros ->. congruence. }
  pose proof (preserved_length _ _ P1) as Hlen.
  split_and!.
  - intros l o Hl. apply lookup_app_l_Some. by apply P1.
  - etransitivity; [exact P2|]. by apply insert_subseteq.
  - apply lookup_insert_eq.
  - intros id' v Hm. rewrite lookup_insert. case_decide as Hc.
    + intros [= <-]. subst id'. eexists. split; [exact Hr|].
      exists (List.length ha), typedArray. split_and!; [done|done| |].
      * by rewrite lookup_app_r, Nat.sub_diag.
      * simpl. rewrite Hkind. simpl.
        rewrite (resolve_mono ma _ c (VObject lb)); [|by apply insert_subseteq|done]. simpl.
        apply to_option_Some. eapply TypedArray_new_stable; [|exact Hnew].
        intros l d Hl. by apply lookup_app_l_Some.
    + intros Hv. destruct (P4 _ _ Hm Hv) as (r' & Hr' & Hdec). exists r'. split; [done|].
      eapply decoded_stable; [| | |exact Hdec].
      * intros l o _ Hl. by apply lookup_app_l_Some.
      * intros l d Hl. by apply lookup_app_l_Some.
      * by apply insert_subseteq.
  - by apply instances_ok_alloc.
  - intros id' [= <-] [? ?]. congruence.
  - intros id' size data' [= <-] _ Hr'. congruence.
Qed.

Lemma deserialize_other (h : list obj) (m : gmap nat value) id type :
  instances_ok h m → m !! id = None →
  objects !! id = Some (OtherSerialization type) →
  deserialize_post objects (Reference id) h m VUndefined h (<[id := VUndefined]> m).
Proof.
  intros [Hlt Hinj] Hid Hr. split_and!.
  - done.
  - by apply insert_subseteq.
  - apply lookup_insert_eq.
  - intros id' v Hm. rewrite lookup_insert. case_decide; [|congruence].
    intros [= <-]. subst id'. by exists (OtherSerialization type).
  - split.
    + intros id' l. rewrite lookup_insert. case_decide; [done|]. apply Hlt.
    + intros id1 id2 l. rewrite !lookup_insert. repeat case_decide; try done. apply Hinj.
  - intros id' [= <-] [? ?]. congruence.
  - intros id' size data [= <-] _ Hr'. congruence.
Qed.

Lemma deserialize_body_spec c h m v h' m' :
  instances_ok h m →
  structuredDeserializeInternal_body self c objects h m = Ok (v, h', m') →
  deserialize_post objects c h m v h' m'.
Proof.
  intros Hok Hrun. unfold structuredDeserializeInternal_body in Hrun.
  destruct c as [pt s|id].
  { apply bind_Ok in Hrun as (v0 & Hp & [= <- <- <-]).
    split_and!; try done.
    - simpl. by rewrite Hp.
    - intros id v' H1 H2. congruence. }
  destruct (m !! id) as [v0|] eqn:Hm.
  { injection Hrun as <- <- <-. split_and!; try done.
    - intros id' v' H1 H2. congruence.
    - intros id' size data [= <-] H1. congruence. }
  destruct (objects !! id) as [r|] eqn:Hr; [|done].
  apply bind_Ok in Hrun as ([[[v0 deep] h1] m1] & Hshell & Hrun).
  cbn zeta in Hrun. apply bind_Ok in Hrun as ([h2 m2] & Hloop & [= <- <- <-]).
  destruct r.
  - injection Hshell as <- <- <- <-. injection Hloop as <- <-. by eapply deserialize_leaf.
  - injection Hshell as <- <- <- <-. injection Hloop as <- <-. by eapply deserialize_leaf.
  - injection Hshell as <- <- <- <-. injection Hloop as <- <-. by eapply deserialize_leaf.
  - injection Hshell as <- <- <- <-. injection Hloop as <- <-. by eapply deserialize_leaf.
  - injection Hshell as <- <- <- <-. injection Hloop as <- <-. by eapply deserialize_leaf.
  - injection Hshell as <- <- <- <-. injection Hloop as <- <-. by eapply deserialize_leaf.
  - apply bind_Ok in Hshell as (kind & Hkind & Hshell).
    apply bind_Ok in Hshell as ([[ab ha] ma] & Hcall & Hshell).
    apply bind_Ok in Hshell as (ta & Hnew & Hshell).
    injection Hshell as <- <- <- <-. injection Hloop as <- <-.
    by eapply deserialize_view.
  - injection Hshell as <- <- <- <-.
    eapply map_populate_loop in Hloop as (Hpop & _ & vs & Hvs & Hl0);
      [|by apply populating_init|by rewrite lookup_app_r, Nat.sub_diag].
    eapply populating_finish; [done..| |done|done]. simpl. by rewrite Hvs.
  - injection Hshell as <- <- <- <-.
    eapply set_populate_loop in Hloop as (Hpop & _ & vs & Hvs & Hl0);
      [|by apply populating_init|by rewrite lookup_app_r, Nat.sub_diag].
    eapply populating_finish; [done..| |done|done]. simpl. by rewrite Hvs.
  - injection Hshell as <- <- <- <-. injection Hloop as <- <-. by eapply deserialize_leaf.
  - apply bind_Ok in Hshell as (array & Harr & Hshell). injection Hshell as <- <- <- <-.
    assert (is_container array) as Hc.
    { unfold Array_new in Harr. case_match; [|done]. by injection Harr as <-. }
    eapply properties_populate_loop in Hloop as (Hpop & _ & vs & o' & Hvs & Hfold & Hl0);
      [|by apply populating_init|by rewrite lookup_app_r, Nat.sub_diag].
    eapply populating_finish; [done..| |done|done]. simpl. rewrite Harr. simpl.
    rewrite Hvs. simpl. by rewrite Hfold.
  - injection Hshell as <- <- <- <-.
    eapply properties_populate_loop in Hloop as (Hpop & _ & vs & o' & Hvs & Hfold & Hl0);
      [|by apply populating_init|by rewrite lookup_app_r, Nat.sub_diag].
    eapply populating_finish; [done..| |done|done]. simpl.
    rewrite Hvs. simpl. by rewrite Hfold.
  - injection Hshell as <- <- <- <-. injection Hloop as <- <-. by eapply deserialize_other.
Qed.

End deserializer_body.

Lemma instances_ok_empty : instances_ok [] ∅.
Proof. split; intros *; by rewrite lookup_empty. Qed.

Lemma deserialize_spec objects fuel :
  ∀ c h m v h' m',
  instances_ok h m →
  structuredDeserializeInternal fuel c objects h m = Ok (v, h', m') →
  deserialize_post objects c h m v h' m'.
Proof.
  induction fuel as [|fuel IH]; intros c h m v h' m' Hok Hrun; [done|].
  cbn [structuredDeserializeInternal] in Hrun.
  by apply (deserialize_body_spec objects _ IH).
Qed.


(** ** The deserializer returns on the envelopes it accepts *)

Lemma fill_bytes_length dataParts : ∀ i data,
  List.length (fill_bytes i dataParts data) = List.length data.
Proof.
  induction dataParts as [|p ps IH]; intros i data; simpl; [done|].
  by rewrite IH, length_insert.
Qed.

Lemma ready_size objects (h : list obj) (m : gmap nat value) :
  ready objects h m → size m ≤ List.length objects.
Proof.
  intros (_ & Hdom & _).
  assert (dom m ⊆ set_seq 0 (List.length objects)) as Hsub.
  { intros id Hid%elem_of_dom. apply elem_of_set_seq. specialize (Hdom _ Hid). lia. }
  apply subseteq_size in Hsub. rewrite size_dom, size_set_seq in Hsub. done.
Qed.

Lemma ready_size_fresh objects (h : list obj) (m : gmap nat value) id :
  ready objects h m → m !! id = None → id < List.length objects →
  size m < List.length objects.
Proof.
  intros (_ & Hdom & _) Hid Hlt.
  assert (dom (<[id := VUndefined]> m) ⊆ set_seq 0 (List.length objects)) as Hsub.
  { intros id' Hid'%elem_of_dom. apply elem_of_set_seq.
    rewrite lookup_insert in Hid'. case_decide; [subst; lia|].
    specialize (Hdom _ Hid'). lia. }
  apply subseteq_size in Hsub.
  rewrite size_dom, size_set_seq, map_size_insert_None in Hsub by done. lia.
Qed.

Lemma ready_step objects c (h : list obj) (m : gmap nat value) v h' m' :
  ready objects h m → deserialize_post objects c h m v h' m' → ready objects h' m'.
Proof.
  intros (Hok & Hdom & Hbuf) (P1 & P2 & P3 & P4 & P5 & _). split_and!; [done| |].
  - intros id [v' Hv']. destruct (m !! id) as [v''|] eqn:Em; [apply Hdom; eauto|].
    destruct (P4 _ _ Em Hv') as (r & Hr & _). by eapply lookup_lt_Some.
  - intros id v' size data Hv' Hr. destruct (m !! id) as [v''|] eqn:Em.
    + pose proof (lookup_weaken _ _ _ _ Em P2) as E. rewrite Hv' in E. injection E as ->.
      destruct (Hbuf _ _ _ _ Em Hr) as (l & bytes & -> & Hl & Hlen).
      exists l, bytes. split_and!; [done| |done]. by apply P1.
    + destruct (P4 _ _ Em Hv') as (r & Hr' & Hdec). rewrite Hr in Hr'. injection Hr' as <-.
      destruct Hdec as (l & o & -> & _ & Hl & [= <-]).
      eexists l, _. split_and!; [done|exact Hl|]. by rewrite fill_bytes_length, length_replicate.
Qed.

Lemma ready_update objects (h : list obj) (m : gmap nat value) l0 o0 o' :
  ready objects h m → h !! l0 = Some o0 → is_container o0 →
  ready objects (<[l0 := o']> h) m.
Proof.
  intros (Hok & Hdom & Hbuf) Hl0 Hc. split_and!; [by apply instances_ok_insert|done|].
  intros id v size data Hv Hr. destruct (Hbuf _ _ _ _ Hv Hr) as (l & bytes & -> & Hl & Hlen).
  exists l, bytes. split_and!; [done| |done]. rewrite list_lookup_insert_ne; [done|].
  intros <-. rewrite Hl0 in Hl. by injection Hl as ->.
Qed.

Lemma ready_register objects (h : list obj) (m : gmap nat value) id r o :
  ready objects h m → m !! id = None → objects !! id = Some r →
  (∀ size data, r = ArrayBufferSerialization size data →
     ∃ bytes, o = ArrayBufferObject bytes ∧ List.length bytes = size) →
  ready objects (h ++ [o]) (<[id := VObject (List.length h)]> m).
Proof.
  intros (Hok & Hdom & Hbuf) Hid Hr Ho. split_and!; [by apply instances_ok_alloc| |].
  - intros id'. rewrite lookup_insert. case_decide; [subst; intros _; by eapply lookup_lt_Some|].
    apply Hdom.
  - intros id' v size data. rewrite lookup_insert. case_decide.
    + subst id'. intros [= <-] Hr'. rewrite Hr in Hr'. injection Hr' as ->.
      destruct (Ho _ _ eq_refl) as (bytes & -> & Hlen).
      exists (List.length h), bytes. split_and!; [done| |done].
      by rewrite lookup_app_r, Nat.sub_diag.
    + intros Hv Hr'. destruct (Hbuf _ _ _ _ Hv Hr') as (l & bytes & -> & Hl & Hlen).
      exists l, bytes. split_and!; [done| |done]. by apply lookup_app_l_Some.
Qed.

Lemma ready_empty objects : ready objects [] ∅.
Proof.
  split_and!; [apply instances_ok_empty|..].
  - intros id [? ?]. by rewrite lookup_empty in *.
  - intros id v size data. by rewrite lookup_empty.
Qed.

Section deserializer_progress.
Context (objects : list ComplexSerialization) (Hgood : good_envelope objects).
Context (self : ChildSerialization → list ComplexSerialization → list obj → gmap nat value
                → outcome (value * list obj * gmap nat value)) (fuel : nat).
Context (Hself : ∀ c h m v h' m',
  instances_ok h m → self c objects h m = Ok (v, h', m') →
  deserialize_post objects c h m v h' m').
Context (Hprog : ∀ c h m,
  good_child objects c → ready objects h m →
  List.length objects + 1 ≤ fuel + size m
  ∨ (1 ≤ fuel ∧ ∃ b size data,
       c = Reference b ∧ objects !! b = Some (ArrayBufferSerialization size data)) →
  is_Ok (self c objects h m)).

Lemma progress_call c (h : list obj) (m : gmap nat value) :
  good_child objects c → ready objects h m →
  List.length objects + 1 ≤ fuel + size m →
  ∃ v h1 m1, self c objects h m = Ok (v, h1, m1)
    ∧ ready objects h1 m1
    ∧ (∀ l o, h !! l = Some o → h1 !! l = Some o)
    ∧ resolve m1 c = Some v
    ∧ List.length objects + 1 ≤ fuel + size m1.
Proof.
  intros Hc Hready Hfuel.
  destruct (Hprog c h m Hc Hready (or_introl Hfuel)) as [[[v h1] m1] Hcall].
  pose proof (Hself _ _ _ _ _ _ (proj1 Hready) Hcall) as Hpost.
  exists v, h1, m1. split_and!; [done|by eapply ready_step|apply Hpost| |].
  - by destruct Hpost as (_ & _ & ? & _).
  - destruct Hpost as (_ & Hsub & _). apply map_subseteq_size in Hsub. lia.
Qed.

Lemma set_progress l0 setData : ∀ elements (h : list obj) (m : gmap nat value),
  ready objects h m → h !! l0 = Some (SetObject elements) →
  Forall (good_child objects) setData →
  List.length objects + 1 ≤ fuel + size m →
  is_Ok (foldM (λ '(h, memory) serializedValue,
     '(deserializedValue, h, memory) ← self serializedValue objects h memory;
     Ok (Set_prototype_add h (VObject l0) deserializedValue, memory)) (h, m) setData).
Proof.
  induction setData as [|c setData IH]; intros elements h m Hready Hl0 Hcs Hfuel.
  - by eexists.
  - apply Forall_cons in Hcs as [Hc Hcs].
    destruct (progress_call c h m Hc Hready Hfuel) as (v & h1 & m1 & Hcall & Hready1 & Hframe & _ & Hfuel1).
    cbn [foldM]. rewrite Hcall. cbn [mbind outcome_bind].
    rewrite (Set_prototype_add_lookup _ _ _ _ (Hframe _ _ Hl0)).
    eapply IH; [|by apply list_lookup_insert_eq; eapply lookup_lt_Some, Hframe|done..].
    eapply ready_update; [done|by apply Hframe|done].
Qed.

Lemma map_progress l0 mapData : ∀ entries (h : list obj) (m : gmap nat value),
  ready objects h m → h !! l0 = Some (MapObject entries) →
  Forall (λ e, good_child objects e.1 ∧ good_child objects e.2) mapData →
  List.length objects + 1 ≤ fuel + size m →
  is_Ok (foldM (λ '(h, memory) '(serializedKey, serializedValue),
     '(deserializedKey, h, memory) ← self serializedKey objects h memory;
     '(deserializedValue, h, memory) ← self serializedValue objects h memory;
     Ok (Map_prototype_set h (VObject l0) deserializedKey deserializedValue, memory))
    (h, m) mapData).
Proof.
  induction mapData as [|[ck cv] mapData IH]; intros entries h m Hready Hl0 Hcs Hfuel.
  - by eexists.
  - apply Forall_cons in Hcs as [[Hck Hcv] Hcs]. simpl in Hck, Hcv.
    destruct (progress_call ck h m Hck Hready Hfuel)
      as (k & h1 & m1 & Hcall1 & Hready1 & Hframe1 & _ & Hfuel1).
    destruct (progress_call cv h1 m1 Hcv Hready1 Hfuel1)
      as (v & h2 & m2 & Hcall2 & Hready2 & Hframe2 & _ & Hfuel2).
    cbn [foldM]. rewrite Hcall1. cbn [mbind outcome_bind]. rewrite Hcall2.
    cbn [mbind outcome_bind].
    rewrite (Map_prototype_set_lookup _ _ _ _ _ (Hframe2 _ _ (Hframe1 _ _ Hl0))).
    eapply IH; [|by apply list_lookup_insert_eq; eapply lookup_lt_Some, Hframe2, Hframe1|done..].
    eapply ready_update; [done|by apply Hframe2, Hframe1|done].
Qed.

Lemma Reflect_set_own_Array_Ok len props key v :
  key ≠ "__proto__" →
  (key = "length" → ∃ z, v = VNumber (NumInt z) ∧ (0 ≤ z)%Z ∧ (z < 4294967296)%Z) →
  ∃ len' props', Reflect_set_own (ArrayObject len props) key v = Ok (ArrayObject len' props').
Proof.
  intros Hkey Hlen. rewrite Reflect_set_own_ordinary by done.
  unfold set_own_property. destruct (decide (key = "length")) as [Hk|Hk].
  - destruct (Hlen Hk) as (z & -> & Hz0 & Hz1). unfold ArraySetLength. simpl.
    destruct (Z.leb_spec 0 z); [|lia]. destruct (Z.ltb_spec z 4294967296); [|lia].
    simpl. eauto.
  - destruct (array_index key); eauto.
Qed.

Lemma properties_progress l0 (arr : bool) properties : ∀ o (h : list obj) (m : gmap nat value),
  ready objects h m → h !! l0 = Some o →
  (if arr then ∃ len props, o = ArrayObject len props else ∃ props, o = PlainObject props) →
  Forall (λ e : string * ChildSerialization, good_child objects e.2
            ∧ e.1 ≠ "__proto__"
            ∧ (arr = true → e.1 = "length" →
               ∃ s z, e.2 = Primitive PT_number s ∧ Number s = NumInt z
                      ∧ (0 ≤ z)%Z ∧ (z < 4294967296)%Z)) properties →
  List.length objects + 1 ≤ fuel + size m →
  is_Ok (foldM (λ '(h, memory) '(key, serializedValue),
     '(deserializedValue, h, memory) ← self serializedValue objects h memory;
     h ← Reflect_set h (VObject l0) key deserializedValue;
     Ok (h, memory)) (h, m) properties).
Proof.
  induction properties as [|[key c] properties IH]; intros o h m Hready Hl0 Hkind Hcs Hfuel.
  - by eexists.
  - apply Forall_cons in Hcs as [(Hc & Hkey & Hlen) Hcs]. simpl in Hc, Hkey, Hlen.
    destruct (progress_call c h m Hc Hready Hfuel)
      as (v & h1 & m1 & Hcall & Hready1 & Hframe & Hv & Hfuel1).
    cbn [foldM]. rewrite Hcall. cbn [mbind outcome_bind].
    unfold Reflect_set. rewrite (Hframe _ _ Hl0).
    assert (∃ o1, Reflect_set_own o key v = Ok o1
                  ∧ (if arr then ∃ len props, o1 = ArrayObject len props
                     else ∃ props, o1 = PlainObject props)) as (o1 & Hown & Hkind1).
    { destruct arr.
      - destruct Hkind as (len & props & ->).
        destruct (Reflect_set_own_Array_Ok len props key v Hkey)
          as (len' & props' & Hown); [|eauto].
        intros Hk. destruct (Hlen eq_refl Hk) as (s & z & -> & Hn & Hz0 & Hz1).
        simpl in Hv. unfold deserialize_primitive in Hv. simpl in Hv. injection Hv as <-.
        rewrite Hn. eauto.
      - destruct Hkind as (props & ->). rewrite Reflect_set_own_ordinary by done.
        eexists. split; [reflexivity|eauto]. }
    rewrite Hown. cbn [mbind outcome_bind].
    eapply IH; [|by apply list_lookup_insert_eq; eapply lookup_lt_Some, Hframe|done..].
    eapply ready_update; [done|by apply Hframe|].
    destruct arr; [destruct Hkind as (? & ? & ->)|destruct Hkind as (? & ->)]; done.
Qed.

Lemma good_record_lookup id r : objects !! id = Some r → good_record objects r.
Proof.
  intros Hr. unfold good_envelope in Hgood. rewrite Forall_forall in Hgood.
  apply Hgood. by eapply list_elem_of_lookup_2.
Qed.

Lemma deserialize_body_progress c (h : list obj) (m : gmap nat value) :
  good_child objects c → ready objects h m →
  List.length objects + 1 ≤ S fuel + size m
  ∨ (∃ b size data,
       c = Reference b ∧ objects !! b = Some (ArrayBufferSerialization size data)) →
  is_Ok (structuredDeserializeInternal_body self c objects h m).
Proof.
  intros Hc Hready Hfuel. unfold structuredDeserializeInternal_body.
  destruct c as [pt s|id].
  { destruct Hc as [v ->]. by eexists. }
  destruct (m !! id) as [v0|] eqn:Hm; [by eexists|].
  simpl in Hc. destruct (lookup_lt_is_Some_2 _ _ Hc) as [r Hr]. rewrite Hr.
  pose proof (good_record_lookup _ _ Hr) as Hrec.
  pose proof (ready_size_fresh _ _ _ _ Hready Hm Hc) as Hsize.
  assert ((∀ size data, r ≠ ArrayBufferSerialization size data) →
          List.length objects + 1 ≤ fuel + S (size m)) as Hfuel'.
  { intros Hne. destruct Hfuel as [?|(b & size & data & [= <-] & Hb)]; [lia|]. congruence. }
  assert (∀ shell, (∀ size data, r ≠ ArrayBufferSerialization size data) →
            ready objects (h ++ [shell]) (<[id := VObject (List.length h)]> m)) as Hreg.
  { intros shell Hne. eapply ready_register; [done..|]. intros size data ->. by destruct (Hne size data). }
  destruct r; try (by eexists).
  - (* a view *)
    destruct Hrec as (kind & b & size & data & Hkind & -> & Hb & Hmod & Hle).
    rewrite Hkind. cbn [mbind outcome_bind].
    assert (1 ≤ fuel) as Hone by (specialize (Hfuel' ltac:(done)); lia).
    destruct (Hprog (Reference b) h m) as [[[vb ha] ma] Hcall];
      [by eapply lookup_lt_Some|done|right; eauto 10|].
    rewrite Hcall. cbn [mbind outcome_bind].
    pose proof (Hself _ _ _ _ _ _ (proj1 Hready) Hcall) as Hpost.
    pose proof (ready_step _ _ _ _ _ _ _ Hready Hpost) as (_ & _ & Hbuf).
    destruct Hpost as (_ & _ & Hvb & _). simpl in Hvb.
    destruct (Hbuf _ _ _ _ Hvb Hb) as (lb & bytes & -> & Hlb & Hlen).
    unfold TypedArray_new. rewrite Hlb, Hmod. simpl.
    destruct (Nat.ltb_spec (List.length bytes)
                (typedArrayByteOffset + typedArrayByteLength * BYTES_PER_ELEMENT kind));
      [lia|]. by eexists.
  - (* Map *)
    cbn [alloc mbind outcome_bind]. cbn zeta.
    destruct (map_progress (List.length h) mapData [] (h ++ [MapObject []])
                (<[id := VObject (List.length h)]> m)) as [[h' m'] Hloop];
      [by apply Hreg|by rewrite lookup_app_r, Nat.sub_diag|done| |].
    { rewrite map_size_insert_None by done. by apply Hfuel'. }
    rewrite Hloop. by eexists.
  - (* Set *)
    cbn [alloc mbind outcome_bind]. cbn zeta.
    destruct (set_progress (List.length h) setData [] (h ++ [SetObject []])
                (<[id := VObject (List.length h)]> m)) as [[h' m'] Hloop];
      [by apply Hreg|by rewrite lookup_app_r, Nat.sub_diag|done| |].
    { rewrite map_size_insert_None by done. by apply Hfuel'. }
    rewrite Hloop. by eexists.
  - (* Array *)
    destruct Hrec as [Hlen Hprops]. unfold Array_new.
    destruct (N.ltb_spec (N.of_nat length) 4294967296); [|lia].
    cbn [alloc mbind outcome_bind]. cbn zeta.
    destruct (properties_progress (List.length h) true properties (ArrayObject length [])
                (h ++ [ArrayObject length []])
                (<[id := VObject (List.length h)]> m)) as [[h' m'] Hloop];
      [by apply Hreg|by rewrite lookup_app_r, Nat.sub_diag|eauto| | |].
    { eapply Forall_impl; [exact Hprops|]. intros e (? & ? & ?). eauto. }
    { rewrite map_size_insert_None by done. by apply Hfuel'. }
    rewrite Hloop. by eexists.
  - (* plain object *)
    cbn [alloc mbind outcome_bind]. cbn zeta.
    destruct (properties_progress (List.length h) false properties (PlainObject [])
                (h ++ [PlainObject []])
                (<[id := VObject (List.length h)]> m)) as [[h' m'] Hloop];
      [by apply Hreg|by rewrite lookup_app_r, Nat.sub_diag|eauto| | |].
    { eapply Forall_impl; [exact Hrec|]. intros e [? ?]. split; [done|]. split; done. }
    { rewrite map_size_insert_None by done. by apply Hfuel'. }
    rewrite Hloop. by eexists.
Qed.

End deserializer_progress.

Lemma deserialize_progress objects fuel :
  good_envelope objects →
  ∀ c (h : list obj) (m : gmap nat value),
  good_child objects c → ready objects h m →
  List.length objects + 1 ≤ fuel + size m
  ∨ (1 ≤ fuel ∧ ∃ b size data,
       c = Reference b ∧ objects !! b = Some (ArrayBufferSerialization size data)) →
  is_Ok (structuredDeserializeInternal fuel c objects h m).
Proof.
  intros Hgood. induction fuel as [|fuel IH]; intros c h m Hc Hready Hfuel.
  - pose proof (ready_size _ _ _ Hready). destruct Hfuel as [?|[? _]]; lia.
  - cbn [structuredDeserializeInternal].
    apply (deserialize_body_progress objects Hgood _ fuel
             (deserialize_spec objects fuel) IH); [done..|].
    destruct Hfuel as [?|[_ ?]]; eauto.
Qed.

(** * Decoding what the serializer wrote *)

Arguments serialized_child : simpl never.
Arguments resolve : simpl never.

(** ** Rebuilding Maps, Sets and property lists *)

Lemma Map_set_entries_fresh k v (entries : list (value * value)) :
  k ∉ entries.*1 → Map_set_entries k v entries = entries ++ [(k, v)].
Proof.
  induction entries as [|[k' v'] entries IH]; simpl; [done|].
  intros [Hne Hk]%not_elem_of_cons. rewrite decide_False by done. by rewrite IH.
Qed.

Lemma populate_map_fresh (more : list (value * value)) : ∀ entries,
  NoDup (entries.*1 ++ more.*1) → populate_map entries more = entries ++ more.
Proof.
  unfold populate_map. induction more as [|[k v] more IH]; intros entries Hnd; simpl.
  - by rewrite app_nil_r.
  - rewrite Map_set_entries_fresh.
    + rewrite IH; [by rewrite <- app_assoc|].
      rewrite fmap_app. simpl. by rewrite <- app_assoc.
    + simpl in Hnd. apply NoDup_app in Hnd as (_ & Hdisj & _).
      intros Hin. apply (Hdisj _ Hin). left.
Qed.

Lemma populate_set_fresh (more : list value) : ∀ elements,
  NoDup (elements ++ more) → populate_set elements more = elements ++ more.
Proof.
  unfold populate_set. induction more as [|v more IH]; intros elements Hnd; simpl.
  - by rewrite app_nil_r.
  - unfold Set_add_elements at 2. rewrite bool_decide_eq_false_2.
    + rewrite IH; by rewrite <- app_assoc.
    + apply NoDup_app in Hnd as (_ & Hdisj & _). intros Hin. apply (Hdisj _ Hin). left.
Qed.

Lemma lookup_property_None key (props : list (string * value)) :
  key ∉ props.*1 → lookup_property key props = None.
Proof.
  induction props as [|[k x] props IH]; simpl; [done|].
  intros [Hne Hk]%not_elem_of_cons. rewrite decide_False by done. by apply IH.
Qed.

Lemma insert_index_property_snoc i key v (props : list (string * value)) :
  array_index key = Some i →
  Forall (λ k, key_before k key) props.*1 →
  insert_index_property i key v props = props ++ [(key, v)].
Proof.
  intros Hi. induction props as [|[k x] props IH]; simpl; [done|].
  intros [Hk Hall]%Forall_cons. unfold key_before in Hk. rewrite Hi in Hk.
  destruct (array_index k) as [j|]; [|done].
  destruct (N.ltb_spec j i); [|lia]. by rewrite IH.
Qed.

Lemma define_property_snoc key v (props : list (string * value)) :
  key ∉ props.*1 →
  Forall (λ k, key_before k key) props.*1 →
  define_property key v props = props ++ [(key, v)].
Proof.
  intros Hk Hall. unfold define_property.
  rewrite lookup_property_None by done. rewrite bool_decide_eq_false_2 by (by intros [? ?]).
  destruct (array_index key) as [i|] eqn:Hi; [|done].
  by apply insert_index_property_snoc.
Qed.

Lemma own_property_order_app (ks1 ks2 : list string) :
  own_property_order (ks1 ++ ks2) →
  own_property_order ks1 ∧ own_property_order ks2
  ∧ ∀ k1 k2, k1 ∈ ks1 → k2 ∈ ks2 → key_before k1 k2.
Proof.
  induction ks1 as [|k ks1 IH]; simpl.
  - intros H. split; [done|]. split; [done|]. intros k1 k2 Hin. by apply elem_of_nil in Hin.
  - intros [Hk Hrest]. apply Forall_app in Hk as [Hk1 Hk2].
    destruct (IH Hrest) as (H1 & H2 & H12). split; [done|]. split; [done|].
    intros k1 k2 [->|Hin]%elem_of_cons Hin2.
    + rewrite Forall_forall in Hk2. by apply Hk2.
    + by apply H12.
Qed.

(** Own-property order puts the array indices first. *)
Lemma own_property_order_split (ks : list string) :
  own_property_order ks →
  ks = filter (λ k, is_array_index k) ks ++ filter (λ k, ¬ is_array_index k) ks.
Proof.
  induction ks as [|k ks IH]; simpl; [done|]. intros [Hk Hrest].
  rewrite !filter_cons. destruct (is_array_index k) eqn:Hidx.
  - rewrite decide_True by done. rewrite decide_False by (by intros []).
    simpl. f_equal. by apply IH.
  - rewrite decide_False by (by intros ?). rewrite decide_True by (by intros ?).
    assert (Forall (λ k0 : string, ¬ is_array_index k0) ks) as Hnone.
    { eapply Forall_impl; [exact Hk|]. intros k' Hb Hk'. unfold key_before in Hb.
      unfold is_array_index in Hidx, Hk'.
      apply bool_decide_eq_false in Hidx. apply bool_decide_unpack in Hk' as [j Hj].
      rewrite Hj in Hb. destruct (array_index k); [by destruct Hidx|done]. }
    assert (filter (λ k0 : string, is_array_index k0) ks = []) as ->.
    { clear -Hnone. induction Hnone as [|k' ks Hk' _ IH']; [done|].
      rewrite filter_cons, decide_False by done. done. }
    simpl. f_equal.
    clear -Hnone. induction Hnone as [|k' ks Hk' _ IH']; [done|].
    rewrite filter_cons, decide_True by done. by f_equal.
Qed.

Lemma foldM_app {A S} (f : S → A → outcome S) (l1 l2 : list A) s :
  foldM f s (l1 ++ l2) = s' ← foldM f s l1; foldM f s' l2.
Proof.
  revert s. induction l1 as [|x l1 IH]; intros s; simpl; [done|].
  destruct (f s x); simpl; auto.
Qed.

Lemma populate_plain (props : list (string * value)) : ∀ done,
  "__proto__" ∉ props.*1 →
  NoDup (done.*1 ++ props.*1) → own_property_order (done.*1 ++ props.*1) →
  populate_properties (PlainObject done) props = Ok (PlainObject (done ++ props)).
Proof.
  unfold populate_properties.
  induction props as [|[key v] props IH]; intros done Hproto Hnd Hord; simpl.
  - by rewrite app_nil_r.
  - apply not_elem_of_cons in Hproto as [Hkey Hproto]. simpl in Hkey.
    rewrite Reflect_set_own_ordinary by done. unfold set_own_property. simpl.
    rewrite define_property_snoc.
    + rewrite IH; rewrite ?fmap_app; simpl; rewrite <- ?app_assoc; done.
    + apply NoDup_app in Hnd as (_ & Hdisj & _). intros Hin. apply (Hdisj _ Hin). left.
    + apply own_property_order_app in Hord as (_ & _ & H12).
      apply Forall_forall. intros k Hk. apply H12; [done|left].
Qed.

Lemma populate_array_properties len (props : list (string * value)) : ∀ done,
  Forall (λ e : string * value, e.1 ≠ "length" ∧ e.1 ≠ "__proto__"
            ∧ ∀ i, array_index e.1 = Some i → (i < N.of_nat len)%N) props →
  NoDup (done.*1 ++ props.*1) → own_property_order (done.*1 ++ props.*1) →
  populate_properties (ArrayObject len done) props = Ok (ArrayObject len (done ++ props)).
Proof.
  unfold populate_properties.
  induction props as [|[key v] props IH]; intros done Hall Hnd Hord; simpl.
  - by rewrite app_nil_r.
  - apply Forall_cons in Hall as [(Hkey & Hproto & Hidx) Hall]. simpl in Hkey, Hproto, Hidx.
    rewrite Reflect_set_own_ordinary by done.
    unfold set_own_property. rewrite decide_False by done.
    assert (define_property key v done = done ++ [(key, v)]) as ->.
    { apply define_property_snoc.
      - apply NoDup_app in Hnd as (_ & Hdisj & _). intros Hin. apply (Hdisj _ Hin). left.
      - apply own_property_order_app in Hord as (_ & _ & H12).
        apply Forall_forall. intros k Hk. apply H12; [done|left]. }
    assert (∀ o, (match array_index key with
                  | Some i => Ok (ArrayObject (len `max` (N.to_nat i + 1)) (done ++ [(key, v)]))
                  | None => Ok (ArrayObject len (done ++ [(key, v)]))
                  end ≫= o) = o (ArrayObject len (done ++ [(key, v)]))) as ->.
    { intros o. destruct (array_index key) as [i|] eqn:Hi; [|done].
      specialize (Hidx i eq_refl). by replace (len `max` (N.to_nat i + 1)) with len by lia. }
    rewrite IH; rewrite ?fmap_app; simpl; rewrite <- ?app_assoc; done.
Qed.

Lemma ArraySetLength_same len (props : list (string * value)) :
  (N.of_nat len < 4294967296)%N →
  Forall (λ e : string * value, ∀ i, array_index e.1 = Some i → (i < N.of_nat len)%N) props →
  ArraySetLength (VNumber (NumInt (Z.of_nat len))) props = Ok (len, props).
Proof.
  intros Hlen Hall. unfold ArraySetLength. simpl.
  destruct (Z.leb_spec 0 (Z.of_nat len)); [|lia].
  destruct (Z.ltb_spec (Z.of_nat len) 4294967296); [|lia]. simpl.
  rewrite Nat2Z.id. do 2 f_equal.
  induction Hall as [|e props He _ IH]; [done|].
  rewrite filter_cons, decide_True; [by rewrite IH|].
  unfold below_length. destruct (array_index e.1) as [i|] eqn:Hi; [|done].
  specialize (He i eq_refl). apply Is_true_true. apply N.ltb_lt. lia.
Qed.

Lemma own_property_order_split_by {A} (g : A → string) (l : list A) :
  own_property_order (g <$> l) →
  l = filter (λ x, is_array_index (g x)) l ++ filter (λ x, ¬ is_array_index (g x)) l.
Proof.
  induction l as [|x l IH]; simpl; [done|]. intros [Hk Hrest].
  rewrite !filter_cons. destruct (is_array_index (g x)) eqn:Hidx.
  - rewrite decide_True by done. rewrite decide_False by (by intros []).
    simpl. f_equal. by apply IH.
  - rewrite decide_False by (by intros ?). rewrite decide_True by (by intros ?).
    assert (Forall (λ y, ¬ is_array_index (g y)) l) as Hnone.
    { rewrite Forall_fmap in Hk. eapply Forall_impl; [exact Hk|]. intros y Hb Hy. simpl in Hb.
      unfold key_before in Hb. unfold is_array_index in Hidx, Hy.
      apply bool_decide_eq_false in Hidx. apply bool_decide_unpack in Hy as [j Hj].
      rewrite Hj in Hb. destruct (array_index (g x)); [by destruct Hidx|done]. }
    assert (filter (λ y, is_array_index (g y)) l = []) as ->.
    { clear -Hnone. induction Hnone as [|y l Hy _ IH']; [done|].
      rewrite filter_cons, decide_False by done. done. }
    simpl. f_equal.
    clear -Hnone. induction Hnone as [|y l Hy _ IH']; [done|].
    rewrite filter_cons, decide_True by done. by f_equal.
Qed.

Lemma filter_all {A} (P : A → Prop) `{!∀ x, Decision (P x)} (l : list A) :
  Forall P l → filter P l = l.
Proof.
  induction 1 as [|x l Hx _ IH]; [done|]. rewrite filter_cons, decide_True by done. by f_equal.
Qed.

Lemma lookup_property_NoDup key v (props : list (string * value)) :
  NoDup props.*1 → (key, v) ∈ props → lookup_property key props = Some v.
Proof.
  induction props as [|[k x] props IH]; simpl.
  - by intros _ ?%elem_of_nil.
  - intros [Hk Hnd]%NoDup_cons [[= -> ->]|Hin]%elem_of_cons.
    + by rewrite decide_True.
    + rewrite decide_False; [by apply IH|]. intros ->. apply Hk.
      apply list_elem_of_fmap. by exists (key, v).
Qed.

Lemma own_entries_Array len (props sub : list (string * value)) :
  NoDup props.*1 → "length" ∉ props.*1 → (∀ e, e ∈ sub → e ∈ props) →
  (λ name, (name, Reflect_get (ArrayObject len props) name)) <$> sub.*1 = sub.
Proof.
  intros Hnd Hlen Hsub. induction sub as [|[k v] sub IH]; [done|].
  simpl. f_equal.
  - f_equal. unfold Reflect_get. rewrite decide_False.
    + rewrite (lookup_property_NoDup k v); [done|done|]. apply Hsub. left.
    + intros ->. apply Hlen. apply list_elem_of_fmap. exists ("length", v). split; [done|].
      apply Hsub. left.
  - apply IH. intros e He. apply Hsub. by right.
Qed.

Lemma own_entries_Plain (props sub : list (string * value)) :
  NoDup props.*1 → (∀ e, e ∈ sub → e ∈ props) →
  (λ name, (name, Reflect_get (PlainObject props) name)) <$> sub.*1 = sub.
Proof.
  intros Hnd Hsub. induction sub as [|[k v] sub IH]; [done|].
  simpl. f_equal.
  - f_equal. unfold Reflect_get.
    rewrite (lookup_property_NoDup k v); [done|done|]. apply Hsub. left.
  - apply IH. intros e He. apply Hsub. by right.
Qed.

Lemma hasOwnProperty_names o :
  Forall (λ name, hasOwnProperty o name) (getOwnPropertyNames o).
Proof.
  unfold hasOwnProperty, getOwnPropertyNames. destruct o; try by constructor.
  - apply Forall_app. split; [|apply Forall_cons; split].
    + apply Forall_forall. intros k [_ Hk]%list_elem_of_filter.
      apply Is_true_true. apply orb_true_iff. right. apply bool_decide_eq_true.
      by apply lookup_property_is_Some.
    + done.
    + apply Forall_forall. intros k [_ Hk]%list_elem_of_filter.
      apply Is_true_true. apply orb_true_iff. right. apply bool_decide_eq_true.
      by apply lookup_property_is_Some.
  - apply Forall_forall. intros k Hk. apply Is_true_true, bool_decide_eq_true.
    by apply lookup_property_is_Some.
Qed.

Lemma filter_hasOwnProperty o :
  filter (λ name, hasOwnProperty o name) (getOwnPropertyNames o) = getOwnPropertyNames o.
Proof. apply filter_all, hasOwnProperty_names. Qed.

Lemma filter_keys (P : string → Prop) `{!∀ k, Decision (P k)} (props : list (string * value)) :
  filter P props.*1 = (filter (λ e : string * value, P e.1) props).*1.
Proof.
  induction props as [|[k v] props IH]; [done|].
  rewrite fmap_cons, !filter_cons. simpl. case_decide; simpl; by rewrite IH.
Qed.

Lemma rename_property_keys f (props : list (string * value)) :
  (rename_property f <$> props).*1 = props.*1.
Proof. rewrite <- list_fmap_compose. by apply list_fmap_ext. Qed.

Lemma array_index_length : array_index "length" = None.
Proof. reflexivity. Qed.

Lemma Reflect_set_own_length len (props : list (string * value)) v :
  Reflect_set_own (ArrayObject len props) "length" v
  = '(len', props') ← ArraySetLength v props; Ok (ArrayObject len' props').
Proof. reflexivity. Qed.

(** Populating a fresh Array from the properties the serializer wrote gives
    the Array back. *)
Lemma populate_array f len (props : list (string * value)) :
  NoDup props.*1 → own_property_order props.*1 → "length" ∉ props.*1 →
  "__proto__" ∉ props.*1 →
  (N.of_nat len < 4294967296)%N →
  Forall (λ k, ∀ i, array_index k = Some i → (i < N.of_nat len)%N) props.*1 →
  populate_properties (ArrayObject len [])
    ((λ name, (name, rename_value f (Reflect_get (ArrayObject len props) name)))
       <$> getOwnPropertyNames (ArrayObject len props))
  = Ok (ArrayObject len (rename_property f <$> props)).
Proof.
  intros Hnd Hord Hlen Hproto Hlt Hidx.
  set (I := filter (λ e : string * value, is_array_index e.1) props).
  set (O := filter (λ e : string * value, ¬ is_array_index e.1) props).
  assert (props = I ++ O) as Hsplit by (by apply (own_property_order_split_by fst)).
  assert (∀ e, e ∈ I → e ∈ props) as HI by (intros e [_ ?]%list_elem_of_filter; done).
  assert (∀ e, e ∈ O → e ∈ props) as HO by (intros e [_ ?]%list_elem_of_filter; done).
  assert (∀ sub : list (string * value), (∀ e, e ∈ sub → e ∈ props) →
            (λ name, (name, rename_value f (Reflect_get (ArrayObject len props) name)))
              <$> sub.*1 = rename_property f <$> sub) as Hent.
  { intros sub Hsub. rewrite <- (own_entries_Array len props sub Hnd Hlen Hsub) at 2.
    rewrite <- !list_fmap_compose. by apply list_fmap_ext. }
  assert (∀ sub : list (string * value), (∀ e, e ∈ sub → e ∈ props) →
            Forall (λ e : string * value, e.1 ≠ "length" ∧ e.1 ≠ "__proto__"
                      ∧ ∀ i, array_index e.1 = Some i → (i < N.of_nat len)%N)
              (rename_property f <$> sub)) as Hcond.
  { intros sub Hsub. apply Forall_fmap, Forall_forall. intros [k v] Hin. simpl.
    split; [|split].
    - intros ->. apply Hlen. apply list_elem_of_fmap. exists ("length", v). split; [done|].
      by apply Hsub.
    - intros ->. apply Hproto. apply list_elem_of_fmap. exists ("__proto__", v).
      split; [done|]. by apply Hsub.
    - rewrite Forall_forall in Hidx. apply Hidx. apply list_elem_of_fmap. exists (k, v).
      split; [done|]. by apply Hsub. }
  unfold getOwnPropertyNames.
  rewrite (filter_keys (λ k, is_array_index k)), (filter_keys (λ k, ¬ is_array_index k)).
  fold I O.
  rewrite !fmap_app, (Hent I HI). simpl. rewrite (Hent O HO).
  unfold populate_properties. rewrite foldM_app.
  pose proof (populate_array_properties len (rename_property f <$> I) [] (Hcond I HI)) as H1.
  unfold populate_properties in H1. rewrite H1; clear H1.
  - cbn [mbind outcome_bind foldM fst snd app].
    change (Reflect_get (ArrayObject len props) "length")
      with (VNumber (NumInt (Z.of_nat len))).
    rewrite Reflect_set_own_length. cbn [app].
    rewrite ArraySetLength_same; [|done|].
    + cbn [mbind outcome_bind].
      pose proof (populate_array_properties len (rename_property f <$> O)
                    (rename_property f <$> I) (Hcond O HO)) as H3.
      unfold populate_properties in H3. rewrite app_nil_l. rewrite H3; clear H3.
      * by rewrite <- fmap_app, <- Hsplit.
      * rewrite !rename_property_keys, <- fmap_app, <- Hsplit. done.
      * rewrite !rename_property_keys, <- fmap_app, <- Hsplit. done.
    + eapply Forall_impl; [exact (Hcond I HI)|]. by intros e (_ & _ & ?).
  - simpl. rewrite rename_property_keys.
    rewrite Hsplit, fmap_app in Hnd. by apply NoDup_app in Hnd as (? & _ & _).
  - simpl. rewrite rename_property_keys.
    rewrite Hsplit, fmap_app in Hord. by apply own_property_order_app in Hord as (? & _ & _).
Qed.

Lemma populate_plain_names f (props : list (string * value)) :
  NoDup props.*1 → own_property_order props.*1 → "__proto__" ∉ props.*1 →
  populate_properties (PlainObject [])
    ((λ name, (name, rename_value f (Reflect_get (PlainObject props) name)))
       <$> getOwnPropertyNames (PlainObject props))
  = Ok (PlainObject (rename_property f <$> props)).
Proof.
  intros Hnd Hord Hproto. unfold getOwnPropertyNames.
  assert ((λ name, (name, rename_value f (Reflect_get (PlainObject props) name)))
            <$> props.*1 = rename_property f <$> props) as ->.
  { rewrite <- (own_entries_Plain props props Hnd ltac:(done)) at 2.
    rewrite <- !list_fmap_compose. by apply list_fmap_ext. }
  rewrite populate_plain; rewrite ?rename_property_keys; done.
Qed.

(** ** One record *)

Lemma mapM_compose_Some {A B C} (g : A → option B) (k : B → option C) (t : A → C)
    (l : list A) cs :
  mapM g l = Some cs →
  (∀ x c, x ∈ l → g x = Some c → k c = Some (t x)) →
  mapM k cs = Some (t <$> l).
Proof.
  revert cs. induction l as [|x l IH]; intros cs; simpl.
  - by intros [= <-].
  - destruct (g x) as [c|] eqn:Ec; simpl; [|done].
    destruct (mapM g l) as [cs'|] eqn:Ecs; simpl; [|done].
    intros [= <-] Hk. simpl. rewrite (Hk x c); [|left|done]. simpl.
    rewrite (IH cs'); [done|done|]. intros x' c' Hx'. apply Hk. by right.
Qed.

Lemma resolve_serialized_primitive keys (m : gmap nat value) x c :
  ¬ has_identity x → serialized_child keys x = Some c → resolve m c = Some x.
Proof.
  intros Hid. unfold serialized_child, resolve. destruct x; simpl; intros Hc; try (by destruct Hid);
    injection Hc as <-; simpl; unfold deserialize_primitive;
    rewrite ?Boolean_toString_inv, ?Number_toString_inv, ?BigInt_Z_toString; done.
Qed.

Lemma rename_value_primitive f x : ¬ has_identity x → rename_value f x = x.
Proof. destruct x; try done. Qed.

Lemma typedArrayConstructor_name kind :
  kind ≠ DataView → typedArrayConstructor (constructor_name kind) = Ok kind.
Proof. by destruct kind. Qed.

Lemma typedArrayConstructor_DataView :
  typedArrayConstructor "DataView" = Throw (Error "Unknown typed array name").
Proof. reflexivity. Qed.

Section record.
Context (h : list obj) (keys : list value) (h' : list obj) (m' : gmap nat value)
  (f : nat → nat).

Lemma children_resolved_value o x c :
  (∀ x c, x ∈ children o → serialized_child keys x = Some c →
          resolve m' c = Some (rename_value f x)) →
  ¬ has_identity x ∨ x ∈ children o →
  serialized_child keys x = Some c → resolve m' c = Some (rename_value f x).
Proof.
  intros Hres [Hid|Hin] Hc; [|by apply Hres].
  rewrite rename_value_primitive by done. by eapply resolve_serialized_primitive.
Qed.

Lemma object_of_serialized_record o r :
  obj_wf h o → round_trips o →
  serialized_record keys o = Some r →
  (∀ x c, x ∈ children o → serialized_child keys x = Some c →
          resolve m' c = Some (rename_value f x)) →
  (∀ x y, x ∈ children o → y ∈ children o → rename_value f x = rename_value f y → x = y) →
  (∀ kind b off len data, o = ArrayBufferViewObject kind b off len →
     h !! b = Some (ArrayBufferObject data) → h' !! f b = Some (ArrayBufferObject data)) →
  object_of_record h' m' r = Some (rename_obj f (standard_error_name o)).
Proof.
  intros Hwf Hrt Hr Hres Hinj Hview.
  destruct o as [b|n|s|[ms|]|source flags|data|kind buffer byteOffset byteLength
                |entries|elements|name message|len props| | | | | | |props];
    simpl in Hr, Hrt; try done; try (injection Hr as <-; simpl).
  - by rewrite Boolean_toString_inv.
  - by rewrite Number_toString_inv.
  - done.
  - simpl in Hwf. rewrite Date_new_ISOString; [done|lia].
  - done.
  - by rewrite ArrayBuffer_data_inv.
  - destruct (serialized_child keys (VObject buffer)) as [c|] eqn:Ec; [|done].
    injection Hr as <-. simpl.
    rewrite typedArrayConstructor_name by (intros ->; revert Hrt; clear; rewrite !elem_of_cons, elem_of_nil; intros [|[|[|[]]]]; done). simpl.
    rewrite (Hres (VObject buffer) c); [|by left|done]. simpl.
    destruct Hwf as (data & Hb & Hle & _).
    unfold TypedArray_new. rewrite (Hview _ _ _ _ _ eq_refl Hb).
    assert (BYTES_PER_ELEMENT kind = 1) as ->.
    { repeat (apply elem_of_cons in Hrt as [->|Hrt]; [done|]). by apply elem_of_nil in Hrt. }
    rewrite Nat.mod_1_r, Nat.mul_1_r. simpl.
    destruct (Nat.ltb_spec (List.length data) (byteOffset + byteLength)); [lia|]. done.
  - destruct (mapM _ entries) as [cs|] eqn:Ecs; [|done]. injection Hr as <-. simpl.
    rewrite (mapM_compose_Some _ (resolve_entry m') (rename_entry f) _ _ Ecs).
    + simpl. rewrite populate_map_fresh; [done|]. simpl.
      destruct Hwf as (Hnd & _).
      rewrite <- list_fmap_compose.
      rewrite (list_fmap_ext (fst ∘ rename_entry f) (rename_value f ∘ fst) entries) by done.
      rewrite list_fmap_compose. apply NoDup_fmap_2_strong; [|done].
      intros x y [ex [-> Hex]]%list_elem_of_fmap [ey [-> Hey]]%list_elem_of_fmap.
      apply Hinj; simpl; apply list_elem_of_bind;
        [exists ex|exists ey]; (split; [left|done]).
    + intros [a b] c Hin. simpl.
      destruct (serialized_child keys a) as [ca|] eqn:Ea; simpl; [|done].
      destruct (serialized_child keys b) as [cb|] eqn:Eb; simpl; [|done].
      intros [= <-]. unfold resolve_entry, rename_entry. simpl.
      rewrite (Hres a ca), (Hres b cb); try done;
        simpl; apply list_elem_of_bind; exists (a, b); (split; [|done]); simpl.
      * right; left.
      * left.
  - destruct (mapM _ elements) as [cs|] eqn:Ecs; [|done]. injection Hr as <-. simpl.
    rewrite (mapM_compose_Some _ (resolve m') (rename_value f) _ _ Ecs).
    + simpl. rewrite populate_set_fresh; [done|]. simpl.
      destruct Hwf as (Hnd & _). apply NoDup_fmap_2_strong; [|done].
      intros x y Hx Hy. by apply Hinj.
    + intros x c Hin Hc. by apply Hres.
  - done.
  - rewrite filter_hasOwnProperty in Hr.
    destruct (mapM _ _) as [cs|] eqn:Ecs; [|done]. injection Hr as <-. simpl.
    destruct Hwf as ((Hnd & Hord & _) & Hlen & Hlt & Hidx).
    unfold Array_new. destruct (N.ltb_spec (N.of_nat len) 4294967296); [|lia]. simpl.
    rewrite (mapM_compose_Some _ (resolve_property m')
               (λ name, (name, rename_value f (Reflect_get (ArrayObject len props) name)))
               _ _ Ecs).
    + simpl. by rewrite populate_array.
    + intros name [k c] Hin.
      destruct (serialized_child keys _) as [c'|] eqn:Ec; simpl; [|done].
      intros [= <- <-]. unfold resolve_property. simpl.
      rewrite (children_resolved_value _ _ _ Hres (Reflect_get_cases _ name) Ec). done.
  - rewrite filter_hasOwnProperty in Hr.
    destruct (mapM _ _) as [cs|] eqn:Ecs; [|done]. injection Hr as <-. simpl.
    destruct Hwf as (Hnd & Hord & _).
    rewrite (mapM_compose_Some _ (resolve_property m')
               (λ name, (name, rename_value f (Reflect_get (PlainObject props) name)))
               _ _ Ecs).
    + simpl. by rewrite populate_plain_names.
    + intros name [k c] Hin.
      destruct (serialized_child keys _) as [c'|] eqn:Ec; simpl; [|done].
      intros [= <- <-]. unfold resolve_property. simpl.
      rewrite (children_resolved_value _ _ _ Hres (Reflect_get_cases _ name) Ec). done.
Qed.

End record.

(** * The serializer on supported graphs *)

Lemma rejects_not_supported (h : list obj) w e :
  rejects h w e → ¬ value_supported round_trips h w.
Proof.
  destruct w; simpl; try done; try tauto.
  intros (o & Hl & Hrej) (o' & Hl' & Hrt). rewrite Hl in Hl'. injection Hl' as <-.
  destruct Hrej as [(message & Hm & _)|[-> _]]; [|done]. by destruct o.
Qed.

Lemma serialized_record_not_rejected keys o r :
  serialized_record keys o = Some r → unsupported_message o = None ∧ o ≠ DateObject InvalidDate.
Proof. destruct o as [| | |[|]| | | | | | | | | | | | | |]; simpl; done. Qed.

Lemma elem_of_props_names (props : list (string * value)) x :
  x ∈ props.*2 → ∃ k, (k, x) ∈ props ∧ k ∈ props.*1.
Proof.
  intros ([k x'] & -> & Hin)%list_elem_of_fmap. exists k. split; [done|].
  apply list_elem_of_fmap. by exists (k, x').
Qed.

Lemma getOwnPropertyNames_elem o name :
  name ∈ getOwnPropertyNames o →
  match o with
  | ArrayObject _ props => name = "length" ∨ name ∈ props.*1
  | PlainObject props => name ∈ props.*1
  | _ => False
  end.
Proof.
  unfold getOwnPropertyNames. destruct o; try (by intros ?%elem_of_nil); [|done].
  rewrite !elem_of_app, list_elem_of_singleton, !list_elem_of_filter. tauto.
Qed.

Lemma getOwnPropertyNames_Array len (props : list (string * value)) k :
  k ∈ props.*1 → k ∈ getOwnPropertyNames (ArrayObject len props).
Proof.
  intros Hk. simpl. destruct (decide (is_array_index k)).
  - apply elem_of_app. left. by apply list_elem_of_filter.
  - apply elem_of_app. right. apply elem_of_cons. right. by apply list_elem_of_filter.
Qed.

Lemma serialized_record_children (h : list obj) keys o r x :
  obj_wf h o → serialized_record keys o = Some r → x ∈ children o →
  is_Some (serialized_child keys x).
Proof.
  intros Hwf Hr Hx.
  destruct o as [b|n|s|[ms|]|source flags|data|kind buffer byteOffset byteLength
                |entries|elements|name message|len props| | | | | | |props];
    simpl in Hr, Hx; try (by apply elem_of_nil in Hx); try done.
  - apply list_elem_of_singleton in Hx as ->.
    destruct (serialized_child keys (VObject buffer)); [done|done].
  - destruct (mapM _ entries) as [cs|] eqn:Ecs; [|done].
    apply list_elem_of_bind in Hx as (e & Hx & He).
    assert (is_Some (mapM (λ e : value * value,
              k ← serialized_child keys e.1; v ← serialized_child keys e.2; Some (k, v))
              entries)) as Hs by (by rewrite Ecs).
    rewrite mapM_is_Some, Forall_forall in Hs. specialize (Hs e He). simpl in Hs.
    destruct (serialized_child keys e.1) eqn:E1; simpl in Hs; [|by destruct Hs].
    destruct (serialized_child keys e.2) eqn:E2; simpl in Hs; [|by destruct Hs].
    apply elem_of_cons in Hx as [->|Hx]; [by rewrite E1|].
    apply list_elem_of_singleton in Hx as ->. by rewrite E2.
  - destruct (mapM _ elements) as [cs|] eqn:Ecs; [|done].
    assert (is_Some (mapM (serialized_child keys) elements)) as Hs by (by rewrite Ecs).
    rewrite mapM_is_Some, Forall_forall in Hs. by apply Hs.
  - rewrite filter_hasOwnProperty in Hr.
    destruct (mapM _ _) as [cs|] eqn:Ecs; [|done].
    destruct Hwf as ((Hnd & _) & Hlen & _).
    apply elem_of_props_names in Hx as (k & Hin & Hk).
    assert (is_Some (mapM (λ name, c ← serialized_child keys (Reflect_get (ArrayObject len props) name);
                                   Some (name, c))
              (getOwnPropertyNames (ArrayObject len props)))) as Hs by (by rewrite Ecs).
    rewrite mapM_is_Some, Forall_forall in Hs.
    specialize (Hs k (getOwnPropertyNames_Array len props k Hk)). simpl in Hs.
    assert (Reflect_get (ArrayObject len props) k = x) as Hget.
    { unfold Reflect_get. rewrite decide_False by (by intros ->).
      by rewrite (lookup_property_NoDup k x). }
    rewrite Hget in Hs. destruct (serialized_child keys x); [done|by destruct Hs].
  - rewrite filter_hasOwnProperty in Hr.
    destruct (mapM _ _) as [cs|] eqn:Ecs; [|done].
    destruct Hwf as (Hnd & _).
    apply elem_of_props_names in Hx as (k & Hin & Hk).
    assert (is_Some (mapM (λ name, c ← serialized_child keys (Reflect_get (PlainObject props) name);
                                   Some (name, c))
              (getOwnPropertyNames (PlainObject props)))) as Hs by (by rewrite Ecs).
    rewrite mapM_is_Some, Forall_forall in Hs.
    specialize (Hs k Hk). simpl in Hs.
    assert (Reflect_get (PlainObject props) k = x) as Hget.
    { unfold Reflect_get. by rewrite (lookup_property_NoDup k x). }
    rewrite Hget in Hs. destruct (serialized_child keys x); [done|by destruct Hs].
Qed.

Lemma mapM_Some_elem {A B} (g : A → option B) l k x :
  mapM g l = Some k → x ∈ l → ∃ y, g x = Some y ∧ y ∈ k.
Proof.
  intros HF%mapM_Some_1 (i & Hi)%list_elem_of_lookup.
  destruct (Forall2_lookup_l _ _ _ _ _ HF Hi) as (y & Hy & Hg).
  exists y. split; [done|]. by eapply list_elem_of_lookup_2.
Qed.

Lemma mapM_Some_elem_r {A B} (g : A → option B) l k y :
  mapM g l = Some k → y ∈ k → ∃ x, x ∈ l ∧ g x = Some y.
Proof.
  intros HF%mapM_Some_1 (i & Hi)%list_elem_of_lookup.
  destruct (Forall2_lookup_r _ _ _ _ _ HF Hi) as (x & Hx & Hg).
  exists x. split; [|done]. by eapply list_elem_of_lookup_2.
Qed.

(** The child nodes of a record are those of the object's children. *)
Lemma serialized_record_nodes (h : list obj) keys o r x cx :
  obj_wf h o → serialized_record keys o = Some r → x ∈ children o →
  serialized_child keys x = Some cx → cx ∈ record_children r.
Proof.
  intros Hwf Hr Hx Hcx.
  destruct o as [b|n|s|[ms|]|source flags|data|kind buffer byteOffset byteLength
                |entries|elements|name message|len props| | | | | | |props];
    simpl in Hr, Hx; try (by apply elem_of_nil in Hx); try done.
  - apply list_elem_of_singleton in Hx as ->. rewrite Hcx in Hr.
    injection Hr as <-. simpl. left.
  - destruct (mapM _ entries) as [cs|] eqn:Ecs; [|done]. injection Hr as <-.
    apply list_elem_of_bind in Hx as (e & Hx & He).
    destruct (mapM_Some_elem _ _ _ _ Ecs He) as ([k v'] & Hg & Hy). simpl in Hg.
    destruct (serialized_child keys e.1) eqn:E1; simpl in Hg; [|done].
    destruct (serialized_child keys e.2) eqn:E2; simpl in Hg; [|done].
    injection Hg as <- <-. simpl. apply list_elem_of_bind. exists (c, c0).
    split; [|done]. simpl.
    apply elem_of_cons in Hx as [->|Hx]; [rewrite E1 in Hcx; injection Hcx as <-; left|].
    apply list_elem_of_singleton in Hx as ->. rewrite E2 in Hcx. injection Hcx as <-.
    right; left.
  - destruct (mapM _ elements) as [cs|] eqn:Ecs; [|done]. injection Hr as <-.
    destruct (mapM_Some_elem _ _ _ _ Ecs Hx) as (y & Hg & Hy).
    rewrite Hcx in Hg. by injection Hg as <-.
  - rewrite filter_hasOwnProperty in Hr.
    destruct (mapM _ _) as [cs|] eqn:Ecs; [|done]. injection Hr as <-.
    destruct Hwf as ((Hnd & _) & Hlen & _).
    apply elem_of_props_names in Hx as (k & Hin & Hk).
    destruct (mapM_Some_elem _ _ _ _ Ecs (getOwnPropertyNames_Array len props k Hk))
      as ([k' c'] & Hg & Hy).
    assert (Reflect_get (ArrayObject len props) k = x) as Hget.
    { unfold Reflect_get. rewrite decide_False by (by intros ->).
      by rewrite (lookup_property_NoDup k x). }
    simpl in Hg. rewrite Hget, Hcx in Hg. simpl in Hg. injection Hg as <- <-.
    simpl. apply list_elem_of_fmap. by exists (k, cx).
  - rewrite filter_hasOwnProperty in Hr.
    destruct (mapM _ _) as [cs|] eqn:Ecs; [|done]. injection Hr as <-.
    destruct Hwf as (Hnd & _).
    apply elem_of_props_names in Hx as (k & Hin & Hk).
    destruct (mapM_Some_elem _ _ _ _ Ecs Hk) as ([k' c'] & Hg & Hy).
    assert (Reflect_get (PlainObject props) k = x) as Hget.
    { unfold Reflect_get. by rewrite (lookup_property_NoDup k x). }
    simpl in Hg. rewrite Hget, Hcx in Hg. simpl in Hg. injection Hg as <- <-.
    simpl. apply list_elem_of_fmap. by exists (k, cx).
Qed.

(** Every child node of a record is the node of some value. *)
Lemma record_children_serialized keys o r c :
  serialized_record keys o = Some r → c ∈ record_children r →
  ∃ x, serialized_child keys x = Some c.
Proof.
  intros Hr Hc.
  destruct o as [b|n|s|[ms|]|source flags|data|kind buffer byteOffset byteLength
                |entries|elements|name message|len props| | | | | | |props];
    simpl in Hr; try done; try (injection Hr as <-; by apply elem_of_nil in Hc).
  - destruct (serialized_child keys (VObject buffer)) as [cb|] eqn:Eb; [|done].
    injection Hr as <-. apply list_elem_of_singleton in Hc as ->. eauto.
  - destruct (mapM _ entries) as [cs|] eqn:Ecs; [|done]. injection Hr as <-.
    apply list_elem_of_bind in Hc as ([k v'] & Hc & He).
    destruct (mapM_Some_elem_r _ _ _ _ Ecs He) as (e & _ & Hg). simpl in Hg.
    destruct (serialized_child keys e.1) eqn:E1; simpl in Hg; [|done].
    destruct (serialized_child keys e.2) eqn:E2; simpl in Hg; [|done].
    injection Hg as <- <-. simpl in Hc.
    apply elem_of_cons in Hc as [->|Hc]; [eauto|].
    apply list_elem_of_singleton in Hc as ->. eauto.
  - destruct (mapM _ elements) as [cs|] eqn:Ecs; [|done]. injection Hr as <-.
    destruct (mapM_Some_elem_r _ _ _ _ Ecs Hc) as (e & _ & Hg). eauto.
  - destruct (mapM _ _) as [cs|] eqn:Ecs; [|done]. injection Hr as <-.
    apply list_elem_of_fmap in Hc as ([k c'] & -> & He).
    destruct (mapM_Some_elem_r _ _ _ _ Ecs He) as (e & _ & Hg). simpl in Hg.
    destruct (serialized_child keys _) eqn:E1; simpl in Hg; [|done].
    injection Hg as <- <-. eauto.
  - destruct (mapM _ _) as [cs|] eqn:Ecs; [|done]. injection Hr as <-.
    apply list_elem_of_fmap in Hc as ([k c'] & -> & He).
    destruct (mapM_Some_elem_r _ _ _ _ Ecs He) as (e & _ & Hg). simpl in Hg.
    destruct (serialized_child keys _) eqn:E1; simpl in Hg; [|done].
    injection Hg as <- <-. eauto.
Qed.

(** The instance of a record has all the record's children resolved. *)
Lemma object_of_record_children (h' : list obj) (m' : gmap nat value) r o' c :
  object_of_record h' m' r = Some o' → c ∈ record_children r → is_Some (resolve m' c).
Proof.
  intros Hr Hc. destruct r; simpl in Hr, Hc; try (by apply elem_of_nil in Hc).
  - apply list_elem_of_singleton in Hc as ->.
    destruct (to_option (typedArrayConstructor _)); simpl in Hr; [|done].
    destruct (resolve m' _); [done|done].
  - destruct (mapM _ mapData) as [es|] eqn:Ees; [|done].
    apply list_elem_of_bind in Hc as (e & Hc & He).
    destruct (mapM_Some_elem _ _ _ _ Ees He) as (y & Hg & _). unfold resolve_entry in Hg.
    destruct (resolve m' e.1) eqn:E1; simpl in Hg; [|done].
    destruct (resolve m' e.2) eqn:E2; simpl in Hg; [|done].
    apply elem_of_cons in Hc as [->|Hc]; [by rewrite E1|].
    apply list_elem_of_singleton in Hc as ->. by rewrite E2.
  - destruct (mapM _ setData) as [es|] eqn:Ees; [|done].
    destruct (mapM_Some_elem _ _ _ _ Ees Hc) as (y & Hg & _). by rewrite Hg.
  - destruct (to_option (Array_new _)); simpl in Hr; [|done].
    destruct (mapM _ properties) as [es|] eqn:Ees; [|done].
    apply list_elem_of_fmap in Hc as (e & -> & He).
    destruct (mapM_Some_elem _ _ _ _ Ees He) as (y & Hg & _). unfold resolve_property in Hg.
    destruct (resolve m' e.2); [done|done].
  - destruct (mapM _ properties) as [es|] eqn:Ees; [|done].
    apply list_elem_of_fmap in Hc as (e & -> & He).
    destruct (mapM_Some_elem _ _ _ _ Ees He) as (y & Hg & _). unfold resolve_property in Hg.
    destruct (resolve m' e.2); [done|done].
Qed.

(** ** What the serializer leaves *)

Lemma serialize_encoded h fuel v :
  heap_wf h → value_wf h v → List.length h + 2 ≤ fuel →
  match structuredSerializeInternal fuel h v [] with
  | Ok (c, memory) => encoded h v c memory
  | Throw e => ∃ w, reachable h v w ∧ rejects h w e
  | _ => False
  end.
Proof.
  intros Hh Hv Hfuel.
  pose proof (serialize_spec h fuel Hh v [] Hv) as Hspec.
  unfold serialize_post in Hspec.
  destruct (structuredSerializeInternal fuel h v []) as [[c memory]|e| |].
  - destruct Hspec as (new & -> & Hok & Hc & Hall & Hreach).
    + split; [apply NoDup_nil_2|apply Forall_nil_2].
    + left. simpl. lia.
    + done.
  - apply Hspec; [split; [apply NoDup_nil_2|apply Forall_nil_2]|left; simpl; lia].
  - apply Hspec; [split; [apply NoDup_nil_2|apply Forall_nil_2]|left; simpl; lia].
  - apply Hspec; [split; [apply NoDup_nil_2|apply Forall_nil_2]|left; simpl; lia].
Qed.

Section encoded.
Context (h : list obj) (v : value) (c : ChildSerialization)
  (memory : list (value * ComplexSerialization)).
Context (Hh : heap_wf h) (Henc : encoded h v c memory).

Lemma encoded_length : List.length (memory_keys memory) = List.length (memory_values memory).
Proof. unfold memory_keys, memory_values. by rewrite !length_fmap. Qed.

Lemma encoded_lookup i k :
  memory_keys memory !! i = Some k →
  ∃ l o r, k = VObject l ∧ h !! l = Some o ∧ memory_values memory !! i = Some r
           ∧ serialized_record (memory_keys memory) o = Some r ∧ reachable h v k.
Proof.
  destruct Henc as (_ & _ & Hall & Hreach). intros Hk.
  unfold memory_keys in Hk. apply list_lookup_fmap_Some in Hk as ([k' r] & -> & Ei).
  rewrite Forall_lookup in Hall. destruct (Hall i _ Ei) as (l & o & Hk & Hl & Hr).
  rewrite Forall_lookup in Hreach. specialize (Hreach i _ Ei). simpl in *.
  exists l, o, r. repeat split; try done.
  unfold memory_values. rewrite list_lookup_fmap. by rewrite Ei.
Qed.

Lemma encoded_id l :
  is_Some (serialized_child (memory_keys memory) (VObject l)) →
  ∃ id o r, indexOf (memory_keys memory) (VObject l) = Some id ∧ h !! l = Some o
            ∧ memory_values memory !! id = Some r
            ∧ serialized_record (memory_keys memory) o = Some r.
Proof.
  unfold serialized_child. intros [c' Hc'].
  destruct (indexOf (memory_keys memory) (VObject l)) as [id|] eqn:Eid; [|done].
  destruct (encoded_lookup id _ (indexOf_Some_lookup _ _ _ Eid))
    as (l' & o & r & [= <-] & Hl & Hr & Hrec & _).
  by exists id, o, r.
Qed.

Lemma encoded_closed_from u w :
  reachable h u w → is_Some (serialized_child (memory_keys memory) u) →
  is_Some (serialized_child (memory_keys memory) w).
Proof.
  induction 1 as [|l o x w Hl Hx Hreach IH]; [done|]. intros Hu. apply IH.
  destruct (encoded_id l Hu) as (id & o' & r & _ & Hl' & _ & Hr).
  rewrite Hl in Hl'. injection Hl' as <-.
  eapply serialized_record_children; [|done..]. by eapply obj_wf_lookup.
Qed.

Lemma encoded_closed w :
  reachable h v w → is_Some (serialized_child (memory_keys memory) w).
Proof.
  intros Hw. eapply encoded_closed_from; [done|]. destruct Henc as (_ & -> & _). done.
Qed.

(** Nothing the serializer recorded, or passed through, is a value it
    rejects. *)
Lemma encoded_not_rejected w e : reachable h v w → ¬ rejects h w e.
Proof.
  intros Hw Hrej. pose proof (encoded_closed w Hw) as Hs.
  destruct w; simpl in Hrej; try done.
  - by destruct Hs.
  - destruct (encoded_id l Hs) as (id & o & r & _ & Hl & _ & Hr).
    destruct Hrej as (o' & Hl' & Hrej). rewrite Hl in Hl'. injection Hl' as <-.
    destruct (serialized_record_not_rejected _ _ _ Hr) as [Hm Hd].
    destruct Hrej as [(message & Hm' & _)|[-> _]]; [congruence|done].
Qed.

End encoded.

(** ** The serializer's output is an envelope the deserializer accepts *)

Lemma serialized_child_good keys (objects : list ComplexSerialization) x c :
  List.length keys = List.length objects →
  serialized_child keys x = Some c → good_child objects c.
Proof.
  intros Hlen. unfold serialized_child.
  destruct x as [| |b|n|z|s|sy|l]; intros Hc;
    try (injection Hc as <-; simpl; unfold deserialize_primitive, is_Ok;
         rewrite ?BigInt_Z_toString; by eauto); try done.
  destruct (indexOf keys (VObject l)) as [id|] eqn:Eid; [|done]. injection Hc as <-.
  simpl. rewrite <- Hlen. by eapply indexOf_lt.
Qed.

Lemma record_children_good keys (objects : list ComplexSerialization) o r c :
  List.length keys = List.length objects →
  serialized_record keys o = Some r → c ∈ record_children r → good_child objects c.
Proof.
  intros Hlen Hr Hc. destruct (record_children_serialized _ _ _ _ Hr Hc) as (x & Hx).
  by eapply serialized_child_good.
Qed.

Section encoded_supported.
Context (h : list obj) (v : value) (c : ChildSerialization)
  (memory : list (value * ComplexSerialization)).
Context (Hh : heap_wf h) (Henc : encoded h v c memory) (Hsup : supported_graph h v).

Lemma encoded_round_trips l o :
  reachable h v (VObject l) → h !! l = Some o → round_trips o.
Proof.
  intros Hl Ho. destruct (Hsup _ Hl) as (o' & Ho' & Hrt). rewrite Ho in Ho'. by injection Ho' as <-.
Qed.

Lemma encoded_good_record id r :
  memory_values memory !! id = Some r → good_record (memory_values memory) r.
Proof.
  intros Hid.
  assert (is_Some (memory_keys memory !! id)) as [k Hk].
  { apply lookup_lt_is_Some. rewrite (encoded_length memory). by eapply lookup_lt_Some. }
  destruct (encoded_lookup h v c memory Henc id k Hk) as (l & o & r' & -> & Hl & Hr' & Hrec & Hreach).
  rewrite Hid in Hr'. injection Hr' as <-.
  pose proof (encoded_round_trips l o Hreach Hl) as Hrt.
  pose proof (obj_wf_lookup h Hh l o Hl) as Hwf.
  pose proof (λ c', record_children_good _ (memory_values memory) _ _ c'
                      (encoded_length memory) Hrec) as Hgood.
  destruct o as [b|n|s|[ms|]|source flags|data|kind buffer byteOffset byteLength
                |entries|elements|name message|len props| | | | | | |props];
    simpl in Hrec, Hrt; try done; try (by injection Hrec as <-).
  - destruct (serialized_child _ (VObject buffer)) as [cb|] eqn:Eb; [|done].
    injection Hrec as <-. simpl.
    destruct Hwf as (data & Hb & Hle & _).
    destruct (encoded_id h v c memory Henc buffer ltac:(by rewrite Eb))
      as (b & o' & r' & Hidx & Hb' & Hrb & Hrecb).
    rewrite Hb in Hb'. injection Hb' as <-. simpl in Hrecb. injection Hrecb as <-.
    unfold serialized_child in Eb. rewrite Hidx in Eb. injection Eb as <-.
    exists kind, b, (List.length data), (join "," (byte_toString <$> data)).
    assert (BYTES_PER_ELEMENT kind = 1) as ->.
    { revert Hrt; clear; rewrite !elem_of_cons, elem_of_nil; intros [->|[->|[->|[]]]]; done. }
    rewrite typedArrayConstructor_name
      by (intros ->; revert Hrt; clear; rewrite !elem_of_cons, elem_of_nil; intros [|[|[|[]]]]; done).
    split; [done|]. split; [done|]. split; [done|].
    split; [by rewrite Nat.mod_1_r|lia].
  - destruct (mapM _ entries) as [cs|] eqn:Ecs; [|done]. injection Hrec as <-.
    simpl. apply Forall_forall. intros e He.
    split; apply Hgood; simpl; apply list_elem_of_bind; exists e; (split; [|done]).
    + left.
    + right; left.
  - destruct (mapM _ elements) as [cs|] eqn:Ecs; [|done]. injection Hrec as <-.
    simpl. apply Forall_forall. intros e He. by apply Hgood.
  - destruct (mapM _ _) as [cs|] eqn:Ecs; [|done]. injection Hrec as <-.
    destruct Hwf as (_ & _ & Hlt & _). simpl. split; [done|].
    apply Forall_forall. intros e He.
    destruct (mapM_Some_elem_r _ _ _ _ Ecs He) as (name & Hname & Hg).
    simpl in Hg. destruct (serialized_child _ _) as [c'|] eqn:Ec'; simpl in Hg; [|done].
    injection Hg as <-. simpl. split; [|split].
    + apply Hgood. simpl. apply list_elem_of_fmap. by exists (name, c').
    + intros ->. apply list_elem_of_filter in Hname as [_ Hname].
      apply getOwnPropertyNames_elem in Hname as [?|?]; done.
    + intros ->.
      unfold Reflect_get in Ec'. rewrite decide_True in Ec' by done.
      unfold serialized_child in Ec'. injection Ec' as <-.
      exists (Number_toString (NumInt (Z.of_nat len))), (Z.of_nat len).
      rewrite Number_toString_inv. repeat split; [lia|lia].
  - destruct (mapM _ _) as [cs|] eqn:Ecs; [|done]. injection Hrec as <-.
    simpl. apply Forall_forall. intros e He.
    destruct (mapM_Some_elem_r _ _ _ _ Ecs He) as (name & Hname & Hg).
    simpl in Hg. destruct (serialized_child _ _) as [c'|] eqn:Ec'; simpl in Hg; [|done].
    injection Hg as <-. simpl. split.
    + apply Hgood. simpl. apply list_elem_of_fmap. by exists (name, c').
    + intros ->. apply list_elem_of_filter in Hname as [_ Hname].
      by apply getOwnPropertyNames_elem in Hname.
Qed.

Lemma encoded_good_envelope : good_envelope (memory_values memory).
Proof.
  apply Forall_forall. intros r (id & Hid)%list_elem_of_lookup. by eapply encoded_good_record.
Qed.

Lemma encoded_good_child : good_child (memory_values memory) c.
Proof.
  destruct Henc as (_ & Hc & _). eapply serialized_child_good; [|done]. apply encoded_length.
Qed.

End encoded_supported.

(** ** Decoding the serializer's output *)

Lemma serialized_record_not_Other keys o r type :
  serialized_record keys o = Some r → r ≠ OtherSerialization type.
Proof.
  intros Hr ->.
  destruct o as [| | |[|]| | | | | | | | | | | | | |]; simpl in Hr; try done;
    by destruct (mapM _ _) || by destruct (serialized_child _ _).
Qed.

Lemma rename_value_inj (P : value → Prop) f x y :
  (∀ l1 l2, P (VObject l1) → P (VObject l2) → f l1 = f l2 → l1 = l2) →
  P x → P y → rename_value f x = rename_value f y → x = y.
Proof.
  intros Hinj Hx Hy. destruct x, y; simpl; try done.
  intros [= Heq]. f_equal. by apply Hinj.
Qed.

Section decoded.
Context (h : list obj) (v : value) (c : ChildSerialization)
  (memory : list (value * ComplexSerialization)).
Context (Hh : heap_wf h) (Henc : encoded h v c memory) (Hsup : supported_graph h v).
Context (v' : value) (h' : list obj) (m' : gmap nat value).
Context (Hpost : deserialize_post (memory_values memory) c [] ∅ v' h' m').

Lemma decoded_registered id r u :
  m' !! id = Some u → memory_values memory !! id = Some r →
  (∀ type, r ≠ OtherSerialization type) →
  ∃ l' o', u = VObject l' ∧ h' !! l' = Some o' ∧ object_of_record h' m' r = Some o'.
Proof.
  intros Hu Hr Hother. destruct Hpost as (_ & _ & _ & Hnew & _).
  destruct (Hnew id u (lookup_empty _) Hu) as (r' & Hr' & Hdec).
  rewrite Hr in Hr'. injection Hr' as <-.
  destruct r; try (by destruct (Hother type));
    destruct Hdec as (l' & o' & -> & _ & Hl' & Ho'); eauto.
Qed.

Lemma decoded_resolved_from u w :
  reachable h u w → reachable h v u →
  (∀ cu, serialized_child (memory_keys memory) u = Some cu → is_Some (resolve m' cu)) →
  ∀ cw, serialized_child (memory_keys memory) w = Some cw → is_Some (resolve m' cw).
Proof.
  induction 1 as [|l o x w Hl Hx Hreach IH]; [done|]. intros Hvl Hu.
  apply IH.
  { eapply reachable_trans; [done|]. eapply reachable_child; [done|done|constructor]. }
  intros cx Hcx.
  destruct (encoded_id h v c memory Henc l (encoded_closed h v c memory Hh Henc _ Hvl))
    as (id & o' & r & Hid & Hl' & Hr & Hrec).
  rewrite Hl in Hl'. injection Hl' as <-.
  destruct (Hu (Reference id)) as [u' Hu'].
  { unfold serialized_child. by rewrite Hid. }
  destruct (decoded_registered id r u' Hu' Hr) as (l' & od & -> & Hl' & Hod).
  { intros type. by eapply serialized_record_not_Other. }
  eapply object_of_record_children; [done|].
  eapply serialized_record_nodes; [|done..]. by eapply obj_wf_lookup.
Qed.

Lemma decoded_resolved w cw :
  reachable h v w → serialized_child (memory_keys memory) w = Some cw →
  is_Some (resolve m' cw).
Proof.
  intros Hw. eapply decoded_resolved_from; [done|constructor|].
  intros cu Hcu. destruct Henc as (_ & Hc & _). rewrite Hc in Hcu. injection Hcu as <-.
  destruct Hpost as (_ & _ & -> & _). done.
Qed.

(** The object at a reachable [l] has an id, a record, and an instance
    that holds what the record stands for. *)
Lemma decoded_instance l :
  reachable h v (VObject l) →
  ∃ id o r o',
    indexOf (memory_keys memory) (VObject l) = Some id ∧ h !! l = Some o
    ∧ memory_values memory !! id = Some r
    ∧ serialized_record (memory_keys memory) o = Some r
    ∧ m' !! id = Some (VObject (instance_of (memory_keys memory) m' l))
    ∧ h' !! instance_of (memory_keys memory) m' l = Some o'
    ∧ object_of_record h' m' r = Some o'.
Proof.
  intros Hl.
  destruct (encoded_id h v c memory Henc l (encoded_closed h v c memory Hh Henc _ Hl))
    as (id & o & r & Hid & Ho & Hr & Hrec).
  destruct (decoded_resolved (VObject l) (Reference id) Hl) as [u Hu].
  { unfold serialized_child. by rewrite Hid. }
  destruct (decoded_registered id r u Hu Hr) as (l' & o' & -> & Hl' & Ho').
  { intros type. by eapply serialized_record_not_Other. }
  unfold resolve in Hu.
  exists id, o, r, o'. unfold instance_of. rewrite Hid, Hu. done.
Qed.

Lemma decoded_child x cx :
  reachable h v x → serialized_child (memory_keys memory) x = Some cx →
  resolve m' cx = Some (rename_value (instance_of (memory_keys memory) m') x).
Proof.
  intros Hx Hcx.
  assert (has_identity x ∨ ¬ has_identity x) as [Hid|Hid] by (destruct x; simpl; tauto).
  - destruct x; try done.
    destruct (decoded_instance l Hx) as (id & o & r & o' & Hidx & _ & _ & _ & Hm & _).
    unfold serialized_child in Hcx. rewrite Hidx in Hcx. injection Hcx as <-. done.
  - rewrite rename_value_primitive by done. by eapply resolve_serialized_primitive.
Qed.

Lemma instance_of_inj l1 l2 :
  reachable h v (VObject l1) → reachable h v (VObject l2) →
  instance_of (memory_keys memory) m' l1 = instance_of (memory_keys memory) m' l2 → l1 = l2.
Proof.
  intros H1 H2 Heq.
  destruct (decoded_instance l1 H1) as (id1 & _ & _ & _ & Hid1 & _ & _ & _ & Hm1 & _).
  destruct (decoded_instance l2 H2) as (id2 & _ & _ & _ & Hid2 & _ & _ & _ & Hm2 & _).
  rewrite Heq in Hm1. destruct Hpost as (_ & _ & _ & _ & [_ Hinj] & _).
  pose proof (Hinj _ _ _ Hm1 Hm2) as ->.
  apply indexOf_Some_lookup in Hid1, Hid2. rewrite Hid1 in Hid2. by injection Hid2.
Qed.

Lemma decoded_copy l o :
  reachable h v (VObject l) → h !! l = Some o →
  h' !! instance_of (memory_keys memory) m' l
  = Some (rename_obj (instance_of (memory_keys memory) m') (standard_error_name o)).
Proof.
  assert (∀ l o, reachable h v (VObject l) → h !! l = Some o →
            (∀ kind b off len data, o = ArrayBufferViewObject kind b off len →
               h !! b = Some (ArrayBufferObject data) →
               h' !! instance_of (memory_keys memory) m' b = Some (ArrayBufferObject data)) →
            h' !! instance_of (memory_keys memory) m' l
            = Some (rename_obj (instance_of (memory_keys memory) m') (standard_error_name o)))
    as Hcopy.
  { clear l o. intros l o Hl Ho Hview.
    destruct (decoded_instance l Hl) as (id & o0 & r & o' & Hid & Ho0 & Hr & Hrec & Hm & Hl' & Ho').
    rewrite Ho in Ho0. injection Ho0 as <-.
    assert (∀ x, x ∈ children o → reachable h v x) as Hchild.
    { intros x Hx. eapply reachable_trans; [done|].
      eapply reachable_child; [done|done|constructor]. }
    rewrite Hl'. rewrite <- Ho'.
    apply (object_of_serialized_record h (memory_keys memory)); try done.
    - by eapply obj_wf_lookup.
    - by eapply encoded_round_trips.
    - intros x cx Hx Hcx. apply decoded_child; [|done]. by apply Hchild.
    - intros x y Hx Hy. apply (rename_value_inj (reachable h v)); [|by apply Hchild..].
      apply instance_of_inj. }
  intros Hl Ho. apply Hcopy; [done..|].
  intros kind b off len data -> Hb. rewrite (Hcopy b (ArrayBufferObject data)); [done| |done|done].
  eapply reachable_trans; [done|]. eapply reachable_child; [done|by left|constructor].
Qed.

Lemma decoded_graph_copy : graph_copy standard_error_name h v h' v'.
Proof.
  exists (instance_of (memory_keys memory) m'). split; [|split].
  - destruct Henc as (_ & Hc & _).
    pose proof (decoded_child v c (reachable_refl _ _) Hc) as Hres.
    destruct Hpost as (_ & _ & Hv' & _). rewrite Hv' in Hres. by injection Hres.
  - apply instance_of_inj.
  - intros l Hl. destruct (decoded_instance l Hl) as (_ & o & _ & _ & _ & Ho & _).
    exists o. split; [done|]. by apply decoded_copy.
Qed.

End decoded.

(** ** The round trip *)

Lemma encoded_decodes h v c memory fuel :
  heap_wf h → encoded h v c memory → supported_graph h v →
  List.length (memory_values memory) + 1 ≤ fuel →
  ∃ v' h' m',
    structuredDeserializeInternal fuel c (memory_values memory) [] ∅ = Ok (v', h', m')
    ∧ deserialize_post (memory_values memory) c [] ∅ v' h' m'
    ∧ graph_copy standard_error_name h v h' v'.
Proof.
  intros Hh Henc Hsup Hfuel.
  destruct (deserialize_progress (memory_values memory) fuel
              (encoded_good_envelope h v c memory Hh Henc Hsup) c [] ∅
              (encoded_good_child h v c memory Henc) (ready_empty _))
    as [[[v' h'] m'] Hrun].
  { left. rewrite map_size_empty. lia. }
  pose proof (deserialize_spec _ _ _ _ _ _ _ _ instances_ok_empty Hrun) as Hpost.
  exists v', h', m'. split; [done|]. split; [done|].
  by eapply decoded_graph_copy.
Qed.

Lemma encoded_primitive h v primitiveType s memory :
  encoded h v (Primitive primitiveType s) memory → memory = [].
Proof.
  intros (_ & Hc & Hall & Hreach). destruct memory as [|e memory]; [done|].
  apply Forall_cons in Hall as [(l & o & He & _) _].
  apply Forall_cons in Hreach as [Hreach _].
  destruct v; try (by apply reachable_primitive in Hreach; [congruence|]).
  unfold serialized_child in Hc. by destruct (indexOf _ _).
Qed.

(** * The exported functions *)

Lemma structuredSerialize_envelope fuel (h : list obj) v c memory :
  structuredSerializeInternal fuel h v [] = Ok (c, memory) →
  structuredSerialize fuel h v = Ok (envelope_of c memory).
Proof. unfold structuredSerialize. intros ->. simpl. by destruct c. Qed.

Lemma structuredSerialize_Throw fuel (h : list obj) v e :
  structuredSerializeInternal fuel h v [] = Throw e → structuredSerialize fuel h v = Throw e.
Proof. unfold structuredSerialize. by intros ->. Qed.

Lemma structuredSerialize_inv fuel (h : list obj) v env :
  structuredSerialize fuel h v = Ok env →
  ∃ c memory, structuredSerializeInternal fuel h v [] = Ok (c, memory)
              ∧ env = envelope_of c memory.
Proof.
  unfold structuredSerialize.
  destruct (structuredSerializeInternal fuel h v []) as [[c memory]|e| |]; simpl; try done.
  intros Henv. exists c, memory. split; [done|]. destruct c; by injection Henv.
Qed.

Lemma structuredDeserialize_envelope fuel c memory v' (h' : list obj) m' :
  (∀ primitiveType s, c = Primitive primitiveType s → memory = []) →
  structuredDeserializeInternal fuel c (memory_values memory) [] ∅ = Ok (v', h', m') →
  structuredDeserialize fuel (envelope_of c memory) = Ok (v', h').
Proof.
  intros Hprim Hrun. destruct c as [primitiveType s|id]; simpl.
  - rewrite (Hprim _ _ eq_refl) in Hrun. simpl in Hrun. by rewrite Hrun.
  - by rewrite Hrun.
Qed.

Lemma round_trip_full (h : list obj) v fuel fuel' :
  heap_wf h → value_wf h v → supported_graph h v →
  List.length h + 2 ≤ fuel → List.length h + 1 ≤ fuel' →
  ∃ c memory v' h' m',
    structuredSerializeInternal fuel h v [] = Ok (c, memory)
    ∧ encoded h v c memory
    ∧ structuredSerialize fuel h v = Ok (envelope_of c memory)
    ∧ structuredDeserialize fuel' (envelope_of c memory) = Ok (v', h')
    ∧ deserialize_post (memory_values memory) c [] ∅ v' h' m'.
Proof.
  intros Hh Hv Hsup Hfuel Hfuel'.
  pose proof (serialize_encoded h fuel v Hh Hv Hfuel) as Henc.
  destruct (structuredSerializeInternal fuel h v []) as [[c memory]|e| |] eqn:Hrun; try done.
  - destruct (encoded_decodes h v c memory fuel' Hh Henc Hsup) as (v' & h' & m' & Hdec & Hpost & _).
    { destruct Henc as (Hok & _). apply memory_ok_length in Hok.
      unfold memory_values. rewrite length_fmap. lia. }
    exists c, memory, v', h', m'. split; [done|]. split; [done|].
    split; [by apply structuredSerialize_envelope|]. split; [|done].
    eapply structuredDeserialize_envelope; [|done].
    intros primitiveType s ->. by eapply encoded_primitive.
  - destruct Henc as (w & Hw & Hrej). destruct (rejects_not_supported _ _ _ Hrej). by apply Hsup.
Qed.

Lemma supported_heap_graph (h : list obj) v : supported_heap h v → supported_graph h v.
Proof.
  intros [Hv Hall] w Hreach. induction Hreach as [|l o x w Hl Hx Hreach IH]; [done|].
  apply IH. rewrite Forall_lookup in Hall. specialize (Hall l o Hl).
  rewrite Forall_forall in Hall. by apply Hall.
Qed.

Lemma graph_copy_norm (norm norm' : obj → obj) (h : list obj) v (h' : list obj) v' :
  (∀ l o, reachable h v (VObject l) → h !! l = Some o → norm o = norm' o) →
  graph_copy norm h v h' v' → graph_copy norm' h v h' v'.
Proof.
  intros Hnorm (f & Hv & Hinj & Hcopy). exists f. split; [done|]. split; [done|].
  intros l Hl. destruct (Hcopy l Hl) as (o & Ho & Ho'). exists o. split; [done|].
  by rewrite <- (Hnorm l o).
Qed.

(** * The round trip (C1) *)

(** A graph whose objects and root pass the check of [exact_heap] has
    exact Numbers only. *)
Lemma exact_heap_numbers (h : list obj) v : exact_heap h v → exact_numbers h v.
Proof.
  intros [Hv Hall]. split; [done|]. intros l o _ Hl.
  rewrite Forall_forall in Hall. apply Hall. by eapply list_elem_of_lookup_2.
Qed.




(** * Identity (C3, X18) *)

Lemma children_rename f o :
  children (rename_obj f (standard_error_name o)) = rename_value f <$> children o.
Proof.
  destruct o as [b|n|s|t|source flags|data|kind buffer byteOffset byteLength
                |entries|elements|name message|len props| | | | | | |props];
    cbn [children rename_obj standard_error_name]; try done.
  - induction entries as [|e entries IH]; [done|].
    by rewrite fmap_cons, !bind_cons, fmap_app, IH.
  - by rewrite <- !list_fmap_compose.
  - by rewrite <- !list_fmap_compose.
Qed.

Lemma follow_copy (h : list obj) v (h' : list obj) f :
  (∀ l, reachable h v (VObject l) →
        ∃ o, h !! l = Some o ∧ h' !! f l = Some (rename_obj f (standard_error_name o))) →
  ∀ path u w, reachable h v u → follow h u path = Some w →
    follow h' (rename_value f u) path = Some (rename_value f w) ∧ reachable h v w.
Proof.
  intros Hcopy. induction path as [|i path IH]; intros u w Hu Hw; simpl in Hw.
  - injection Hw as <-. done.
  - destruct u as [| | | | | | |l]; try done.
    destruct (Hcopy l Hu) as (o & Ho & Ho'). rewrite Ho in Hw. simpl in Hw.
    destruct (children o !! i) as [x|] eqn:Hx; simpl in Hw; [|done].
    assert (reachable h v x) as Hvx.
    { eapply reachable_trans; [done|].
      eapply reachable_child; [done|by eapply list_elem_of_lookup_2|constructor]. }
    destruct (IH x w Hvx Hw) as [Hfollow Hreach]. split; [|done].
    simpl. rewrite Ho'. simpl. rewrite children_rename, list_lookup_fmap, Hx. done.
Qed.

(** X18: on a graph of objects the codec handles in both directions, two
    positions that hold the same object hold the same instance after
    [structuredDeserialize (structuredSerialize v)], and positions that hold
    different objects hold different instances; a record that is its own
    property and two properties that hold one record are such cases. *)
Theorem identity_preserved (h : list obj) v fuel fuel' :
  heap_wf h → value_wf h v → supported_graph h v →
  List.length h + 2 ≤ fuel → List.length h + 1 ≤ fuel' →
  ∃ env v' h',
    structuredSerialize fuel h v = Ok env
    ∧ structuredDeserialize fuel' env = Ok (v', h')
    ∧ ∀ p q l1 l2,
        follow h v p = Some (VObject l1) → follow h v q = Some (VObject l2) →
        ∃ l1' l2',
          follow h' v' p = Some (VObject l1') ∧ follow h' v' q = Some (VObject l2')
          ∧ (l1 = l2 ↔ l1' = l2').
Proof.
  intros Hh Hv Hsup Hfuel Hfuel'.
  destruct (round_trip_full h v fuel fuel' Hh Hv Hsup Hfuel Hfuel')
    as (c & memory & v' & h' & m' & _ & Henc & Hser & Hdes & Hpost).
  exists (envelope_of c memory), v', h'. split; [done|]. split; [done|].
  intros p q l1 l2 Hp Hq.
  destruct (decoded_graph_copy h v c memory Hh Henc Hsup v' h' m' Hpost)
    as (f & -> & Hinj & Hcopy).
  destruct (follow_copy h v h' f Hcopy p v _ (reachable_refl _ _) Hp) as [Hp' Hr1].
  destruct (follow_copy h v h' f Hcopy q v _ (reachable_refl _ _) Hq) as [Hq' Hr2].
  exists (f l1), (f l2). split; [done|]. split; [done|].
  split; [by intros ->|by apply Hinj].
Qed.

Lemma identity_preserved_witness :
  heap_wf cyclic_record ∧ value_wf cyclic_record (VObject 0)
  ∧ supported_graph cyclic_record (VObject 0)
  ∧ ∃ env v' h',
      structuredSerialize 3 cyclic_record (VObject 0) = Ok env
      ∧ structuredDeserialize 2 env = Ok (v', h')
      ∧ ∀ p q l1 l2,
          follow cyclic_record (VObject 0) p = Some (VObject l1) →
          follow cyclic_record (VObject 0) q = Some (VObject l2) →
          ∃ l1' l2',
            follow h' v' p = Some (VObject l1') ∧ follow h' v' q = Some (VObject l2')
            ∧ (l1 = l2 ↔ l1' = l2').
Proof.
  assert (heap_wf cyclic_record) as Hh by (apply (bool_decide_unpack _); vm_compute; exact I).
  assert (value_wf cyclic_record (VObject 0)) as Hv by (simpl; lia).
  assert (supported_graph cyclic_record (VObject 0)) as Hsup.
  { apply supported_heap_graph. apply (bool_decide_unpack _). vm_compute. exact I. }
  split; [exact Hh|]. split; [exact Hv|]. split; [exact Hsup|].
  apply (identity_preserved cyclic_record (VObject 0) 3 2 Hh Hv Hsup); simpl; lia.
Defined.

(** C3, at a record that holds one Int16Array under two properties: the
    serializer writes the view once and both properties as References to
    it, and the deserializer throws on the view record, passing its byte
    length as the number of elements (line 338); nothing is decoded, so the
    two positions do not come back as one instance. *)
Theorem shared_Int16Array_not_decoded :
  heap_wf shared_wide_view
  ∧ follow shared_wide_view (VObject 0) [0] = Some (VObject 1)
  ∧ follow shared_wide_view (VObject 0) [1] = Some (VObject 1)
  ∧ structuredSerialize 5 shared_wide_view (VObject 0)
    = Ok (TopLevel
            [ObjectSerialization [("a", Reference 2); ("b", Reference 2)];
             ArrayBufferSerialization 4 "0,0,0,0";
             TypedArraySerialization "Int16Array" 0 4 (Reference 1)]
            (Reference 0))
  ∧ ∀ fuel,
      3 ≤ fuel →
      structuredDeserialize fuel
        (TopLevel
           [ObjectSerialization [("a", Reference 2); ("b", Reference 2)];
            ArrayBufferSerialization 4 "0,0,0,0";
            TypedArraySerialization "Int16Array" 0 4 (Reference 1)]
           (Reference 0))
      = Throw (RangeError "Invalid typed array length").
Proof.
  split; [apply (bool_decide_unpack _); vm_compute; exact I|].
  split; [reflexivity|]. split; [reflexivity|]. split; [reflexivity|].
  intros [|[|[|fuel]]] Hfuel; [lia|lia|lia|]. reflexivity.
Qed.

Lemma shared_Int16Array_not_decoded_witness :
  3 ≤ 4
  ∧ structuredDeserialize 4
      (TopLevel
         [ObjectSerialization [("a", Reference 2); ("b", Reference 2)];
          ArrayBufferSerialization 4 "0,0,0,0";
          TypedArraySerialization "Int16Array" 0 4 (Reference 1)]
         (Reference 0))
    = Throw (RangeError "Invalid typed array length").
Proof.
  split; [lia|]. apply (proj2 (proj2 (proj2 (proj2 shared_Int16Array_not_decoded))) 4). lia.
Defined.

(** * The envelope (C10) *)

(** C10: the envelope of a successful [structuredSerialize] of an object
    has a Reference as its top-level value, and every [referenceId] in it --
    the top-level value, Map keys and values, Set elements, property values,
    the buffer of a view -- is below the length of the record array. *)
Theorem envelope_well_formed (h : list obj) l fuel env :
  heap_wf h → value_wf h (VObject l) → List.length h + 2 ≤ fuel →
  structuredSerialize fuel h (VObject l) = Ok env →
  ∃ objects id,
    env = TopLevel objects (Reference id)
    ∧ id < List.length objects
    ∧ Forall (λ r, Forall (in_range (List.length objects)) (record_children r)) objects.
Proof.
  intros Hh Hv Hfuel (c & memory & Hrun & ->)%structuredSerialize_inv.
  pose proof (serialize_encoded h fuel (VObject l) Hh Hv Hfuel) as Henc.
  rewrite Hrun in Henc.
  assert (∀ x c', serialized_child (memory_keys memory) x = Some c' →
            in_range (List.length (memory_values memory)) c') as Hin.
  { intros x c' Hc'. rewrite <- (encoded_length memory).
    destruct x; try (injection Hc' as <-; exact I); try done.
    unfold serialized_child in Hc'.
    destruct (indexOf _ _) as [id|] eqn:Hid; [|done]. injection Hc' as <-.
    by eapply indexOf_lt. }
  pose proof Henc as (_ & Hc & _).
  pose proof (Hin _ _ Hc) as Hroot. unfold serialized_child in Hc.
  destruct (indexOf _ _) as [id|]; [|done]. injection Hc as <-.
  exists (memory_values memory), id. split; [done|]. split; [done|].
  apply Forall_forall. intros r (i & Hi)%list_elem_of_lookup.
  assert (is_Some (memory_keys memory !! i)) as [k Hk].
  { apply lookup_lt_is_Some. rewrite (encoded_length memory). by eapply lookup_lt_Some. }
  destruct (encoded_lookup h _ _ memory Henc i k Hk) as (l' & o & r' & -> & Hl & Hr' & Hrec & _).
  rewrite Hi in Hr'. injection Hr' as <-.
  apply Forall_forall. intros c' Hc'.
  destruct (record_children_serialized _ _ _ _ Hrec Hc') as (x & Hx). by eapply Hin.
Qed.

Lemma envelope_well_formed_witness :
  heap_wf cyclic_record ∧ value_wf cyclic_record (VObject 0)
  ∧ structuredSerialize 3 cyclic_record (VObject 0)
    = Ok (TopLevel [ObjectSerialization [("name", Primitive PT_string "a");
                                          ("self", Reference 0)]] (Reference 0))
  ∧ ∃ objects id,
      TopLevel [ObjectSerialization [("name", Primitive PT_string "a");
                                     ("self", Reference 0)]] (Reference 0)
      = TopLevel objects (Reference id)
      ∧ id < List.length objects
      ∧ Forall (λ r, Forall (in_range (List.length objects)) (record_children r)) objects.
Proof.
  assert (heap_wf cyclic_record) as Hh by (apply (bool_decide_unpack _); vm_compute; exact I).
  assert (value_wf cyclic_record (VObject 0)) as Hv by (simpl; lia).
  split; [exact Hh|]. split; [exact Hv|]. split; [reflexivity|].
  apply (envelope_well_formed cyclic_record 0 3 _ Hh Hv); [simpl; lia|reflexivity].
Defined.

(** * Unsupported values (C7, X20) *)

Lemma unsupported_rejects (h : list obj) w :
  unsupported h w → ∃ message, rejects h w (TypeError message).
Proof.
  destruct w as [| | | | | |sy|l]; simpl; try done.
  - intros _. by eexists.
  - intros (o & Hl & [message Hm]). exists message, o. split; [done|]. left. eauto.
Qed.

Lemma rejects_unsupported (h : list obj) w e :
  rejects h w e →
  (∃ message, unsupported h w ∧ e = TypeError message)
  ∨ (∃ l, w = VObject l ∧ h !! l = Some (DateObject InvalidDate)).
Proof.
  destruct w as [| | | | | |sy|l]; simpl; try done.
  - intros ->. left. by eexists.
  - intros (o & Hl & [(message & Hm & ->)|[-> _]]).
    + left. exists message. split; [|done]. exists o. by rewrite Hm.
    + right. by exists l.
Qed.

Lemma serialize_unsupported fuel (h : list obj) w memory :
  unsupported h w → w ∉ memory_keys memory →
  ∃ message, structuredSerializeInternal (S fuel) h w memory = Throw (TypeError message)
             ∧ rejects h w (TypeError message).
Proof.
  intros Hw Hfresh. cbn [structuredSerializeInternal]. unfold structuredSerializeInternal_body.
  rewrite (proj2 (memory_has_false memory w) Hfresh).
  destruct w as [| | | | | |sy|l]; simpl in Hw; try done.
  - by eexists.
  - destruct Hw as (o & Hl & [message Hm]). rewrite Hl. simpl.
    exists message. split.
    + destruct o; simpl in Hm; try done; by injection Hm as <-.
    + exists o. split; [done|]. left. eauto.
Qed.

(** X20: when a value the serializer does not support -- a symbol, a
    function, a WeakMap, a WeakSet, a WeakRef, a FinalizationRegistry or a
    Promise -- is anywhere in the graph of [v], [structuredSerialize]
    throws and returns no envelope.  The serializer throws the TypeError of
    such a value the moment it is called on it.  The error of the whole call
    is that of a value of the graph that the serializer rejects: the
    TypeError of an unsupported value when the graph holds no invalid Date,
    and otherwise possibly the RangeError that [toISOString] throws on an
    invalid Date the serializer came to first. *)
Theorem unsupported_rejected (h : list obj) v w fuel :
  heap_wf h → value_wf h v → List.length h + 2 ≤ fuel →
  reachable h v w → unsupported h w →
  (∀ fuel' memory, w ∉ memory_keys memory →
     ∃ message, structuredSerializeInternal (S fuel') h w memory = Throw (TypeError message)
                ∧ rejects h w (TypeError message))
  ∧ ∃ e, structuredSerialize fuel h v = Throw e
         ∧ (∃ w', reachable h v w' ∧ rejects h w' e)
         ∧ ((∀ l, reachable h v (VObject l) → h !! l ≠ Some (DateObject InvalidDate)) →
            ∃ w' message, reachable h v w' ∧ unsupported h w' ∧ e = TypeError message).
Proof.
  intros Hh Hv Hfuel Hw Hun. split.
  { intros fuel' memory Hfresh. by apply serialize_unsupported. }
  pose proof (serialize_encoded h fuel v Hh Hv Hfuel) as Henc.
  destruct (structuredSerializeInternal fuel h v []) as [[c memory]|e| |] eqn:Hrun; try done.
  - destruct (unsupported_rejects h w Hun) as (message & Hrej).
    destruct (encoded_not_rejected h v c memory Hh Henc w _ Hw Hrej).
  - exists e. split; [by apply structuredSerialize_Throw|]. split; [done|].
    intros Hdates. destruct Henc as (w' & Hw' & Hrej).
    destruct (rejects_unsupported h w' e Hrej) as [(message & Hun' & ->)|(l & -> & Hl)].
    + by exists w', message.
    + destruct (Hdates l Hw' Hl).
Qed.

Lemma unsupported_rejected_witness :
  heap_wf record_with_function ∧ value_wf record_with_function (VObject 0)
  ∧ reachable record_with_function (VObject 0) (VObject 1)
  ∧ unsupported record_with_function (VObject 1)
  ∧ (∀ fuel' memory, VObject 1 ∉ memory_keys memory →
       ∃ message,
         structuredSerializeInternal (S fuel') record_with_function (VObject 1) memory
         = Throw (TypeError message)
         ∧ rejects record_with_function (VObject 1) (TypeError message))
  ∧ ∃ e, structuredSerialize 4 record_with_function (VObject 0) = Throw e
         ∧ (∃ w', reachable record_with_function (VObject 0) w'
                  ∧ rejects record_with_function w' e)
         ∧ ((∀ l, reachable record_with_function (VObject 0) (VObject l) →
                  record_with_function !! l ≠ Some (DateObject InvalidDate)) →
            ∃ w' message, reachable record_with_function (VObject 0) w'
                          ∧ unsupported record_with_function w' ∧ e = TypeError message).
Proof.
  assert (heap_wf record_with_function) as Hh
    by (apply (bool_decide_unpack _); vm_compute; exact I).
  assert (value_wf record_with_function (VObject 0)) as Hv by (simpl; lia).
  assert (reachable record_with_function (VObject 0) (VObject 1)) as Hw.
  { eapply reachable_child; [reflexivity| |constructor]. simpl. right. left. }
  assert (unsupported record_with_function (VObject 1)) as Hun.
  { exists FunctionObject. split; [reflexivity|]. simpl. eauto. }
  split; [exact Hh|]. split; [exact Hv|]. split; [exact Hw|]. split; [exact Hun|].
  apply (unsupported_rejected record_with_function (VObject 0) (VObject 1) 4 Hh Hv);
    [simpl; lia|exact Hw|exact Hun].
Defined.

(** C7, at an Array that holds an invalid Date and then a function: the
    graph holds an unsupported value, and [structuredSerialize] ends with
    the RangeError that [toISOString] throws on the invalid Date (line 152),
    which the serializer comes to first; whatever the depth of its calls,
    it does not end with the TypeError of the function. *)
Theorem invalid_date_met_first :
  heap_wf invalid_date_then_function
  ∧ reachable invalid_date_then_function (VObject 0) (VObject 2)
  ∧ unsupported invalid_date_then_function (VObject 2)
  ∧ structuredSerialize 5 invalid_date_then_function (VObject 0)
    = Throw (RangeError "Invalid time value")
  ∧ ∀ fuel message,
      structuredSerialize fuel invalid_date_then_function (VObject 0)
      ≠ Throw (TypeError message).
Proof.
  split; [apply (bool_decide_unpack _); vm_compute; exact I|]. split.
  { eapply reachable_child; [reflexivity| |constructor]. simpl. right. left. }
  split; [exists FunctionObject; split; [reflexivity|simpl; eauto]|].
  split; [reflexivity|]. by intros [|[|fuel]] message.
Qed.

(** * Errors without a message (C8) and Arrays with holes (C9) *)

Lemma follow_reachable (h : list obj) : ∀ path v w, follow h v path = Some w → reachable h v w.
Proof.
  induction path as [|i path IH]; intros v w Hw; simpl in Hw.
  - injection Hw as <-. constructor.
  - destruct v as [| | | | | | |l]; try done.
    destruct (h !! l) as [o|] eqn:Ho; simpl in Hw; [|done].
    destruct (children o !! i) as [x|] eqn:Hx; simpl in Hw; [|done].
    eapply reachable_child; [done|by eapply list_elem_of_lookup_2|by apply IH].
Qed.

(** What the round trip does to the object at a position. *)
Lemma round_trip_at (h : list obj) v fuel fuel' path l o :
  heap_wf h → value_wf h v → supported_graph h v →
  List.length h + 2 ≤ fuel → List.length h + 1 ≤ fuel' →
  follow h v path = Some (VObject l) → h !! l = Some o →
  ∃ c memory v' h' f,
    structuredSerializeInternal fuel h v [] = Ok (c, memory)
    ∧ structuredSerialize fuel h v = Ok (envelope_of c memory)
    ∧ structuredDeserialize fuel' (envelope_of c memory) = Ok (v', h')
    ∧ (∃ id r, indexOf (memory_keys memory) (VObject l) = Some id
               ∧ memory_values memory !! id = Some r
               ∧ serialized_record (memory_keys memory) o = Some r)
    ∧ follow h' v' path = Some (VObject (f l))
    ∧ h' !! f l = Some (rename_obj f (standard_error_name o)).
Proof.
  intros Hh Hv Hsup Hfuel Hfuel' Hpath Ho.
  destruct (round_trip_full h v fuel fuel' Hh Hv Hsup Hfuel Hfuel')
    as (c & memory & v' & h' & m' & Hrun & Henc & Hser & Hdes & Hpost).
  exists c, memory, v', h', (instance_of (memory_keys memory) m').
  split; [done|]. split; [done|]. split; [done|].
  pose proof (follow_reachable h path v _ Hpath) as Hl.
  destruct (decoded_instance h v c memory Hh Henc v' h' m' Hpost l Hl)
    as (id & o0 & r & o' & Hid & Ho0 & Hr & Hrec & _).
  rewrite Ho in Ho0. injection Ho0 as <-.
  split; [by exists id, r|].
  destruct (decoded_graph_copy h v c memory Hh Henc Hsup v' h' m' Hpost)
    as (f & Hv' & _ & _).
  split; [|by eapply decoded_copy].
  assert (∀ l0, reachable h v (VObject l0) →
            ∃ o0, h !! l0 = Some o0
                  ∧ h' !! instance_of (memory_keys memory) m' l0
                    = Some (rename_obj (instance_of (memory_keys memory) m')
                              (standard_error_name o0))) as Hcopy.
  { intros l0 Hl0.
    destruct (decoded_instance h v c memory Hh Henc v' h' m' Hpost l0 Hl0)
      as (_ & o0 & _ & _ & _ & Ho0 & _).
    exists o0. split; [done|]. by eapply decoded_copy. }
  assert (v' = rename_value (instance_of (memory_keys memory) m') v) as ->.
  { pose proof Henc as (_ & Hc & _).
    pose proof (decoded_child h v c memory Hh Henc v' h' m' Hpost v c (reachable_refl _ _) Hc)
      as Hres.
    destruct Hpost as (_ & _ & Hroot & _). rewrite Hroot in Hres. by injection Hres. }
  exact (proj1 (follow_copy h v h' _ Hcopy path v _ (reachable_refl _ _) Hpath)).
Qed.

(** C8: the record of an Error that has no own [message] has no [message]
    either, so that the JSON text has no such member; the Error decoded at
    its position has no own [message], and reading [message] of it gives
    the empty string. *)
Theorem error_without_message (h : list obj) v fuel fuel' path l name :
  heap_wf h → value_wf h v → supported_graph h v →
  List.length h + 2 ≤ fuel → List.length h + 1 ≤ fuel' →
  follow h v path = Some (VObject l) → h !! l = Some (ErrorObject name None) →
  ∃ c memory v' h',
    structuredSerializeInternal fuel h v [] = Ok (c, memory)
    ∧ structuredSerialize fuel h v = Ok (envelope_of c memory)
    ∧ structuredDeserialize fuel' (envelope_of c memory) = Ok (v', h')
    ∧ (∃ id name',
         indexOf (memory_keys memory) (VObject l) = Some id
         ∧ memory_values memory !! id = Some (ErrorSerialization name' None)
         ∧ JSON_member "message" (JSON_of_ComplexSerialization (ErrorSerialization name' None))
           = None)
    ∧ (∃ l' name',
         follow h' v' path = Some (VObject l')
         ∧ h' !! l' = Some (ErrorObject name' None)
         ∧ Error_message (ErrorObject name' None) = Some "").
Proof.
  intros Hh Hv Hsup Hfuel Hfuel' Hpath Ho.
  destruct (round_trip_at h v fuel fuel' path l _ Hh Hv Hsup Hfuel Hfuel' Hpath Ho)
    as (c & memory & v' & h' & f & Hrun & Hser & Hdes & (id & r & Hid & Hr & Hrec) & Hpath' & Ho').
  exists c, memory, v', h'. split; [done|]. split; [done|]. split; [done|].
  simpl in Hrec. injection Hrec as <-. split.
  - exists id. eexists. split; [done|]. split; [done|]. reflexivity.
  - exists (f l). eexists. split; [done|]. split; [exact Ho'|]. reflexivity.
Qed.

Lemma error_without_message_witness :
  heap_wf bare_error ∧ value_wf bare_error (VObject 0) ∧ supported_graph bare_error (VObject 0)
  ∧ follow bare_error (VObject 0) [0] = Some (VObject 1)
  ∧ bare_error !! 1 = Some (ErrorObject "TypeError" None)
  ∧ ∃ c memory v' h',
      structuredSerializeInternal 4 bare_error (VObject 0) [] = Ok (c, memory)
      ∧ structuredSerialize 4 bare_error (VObject 0) = Ok (envelope_of c memory)
      ∧ structuredDeserialize 3 (envelope_of c memory) = Ok (v', h')
      ∧ (∃ id name',
           indexOf (memory_keys memory) (VObject 1) = Some id
           ∧ memory_values memory !! id = Some (ErrorSerialization name' None)
           ∧ JSON_member "message"
               (JSON_of_ComplexSerialization (ErrorSerialization name' None)) = None)
      ∧ (∃ l' name',
           follow h' v' [0] = Some (VObject l')
           ∧ h' !! l' = Some (ErrorObject name' None)
           ∧ Error_message (ErrorObject name' None) = Some "").
Proof.
  assert (heap_wf bare_error) as Hh by (apply (bool_decide_unpack _); vm_compute; exact I).
  assert (value_wf bare_error (VObject 0)) as Hv by (simpl; lia).
  assert (supported_graph bare_error (VObject 0)) as Hsup.
  { apply supported_heap_graph. apply (bool_decide_unpack _). vm_compute. exact I. }
  split; [exact Hh|]. split; [exact Hv|]. split; [exact Hsup|].
  split; [reflexivity|]. split; [reflexivity|].
  apply (error_without_message bare_error (VObject 0) 4 3 [0] 1 "TypeError" Hh Hv Hsup);
    [simpl; lia|simpl; lia|reflexivity|reflexivity].
Defined.

Lemma mapM_names keys (g : string → value) names cs :
  mapM (λ name, c ← serialized_child keys (g name); Some (name, c)) names = Some cs →
  cs.*1 = names.
Proof.
  revert cs. induction names as [|name names IH]; intros cs; simpl.
  - by intros [= <-].
  - destruct (serialized_child keys (g name)) as [c|]; simpl; [|done].
    destruct (mapM _ names) as [cs'|]; simpl; [|done].
    intros [= <-]. simpl. f_equal. by apply IH.
Qed.

(** C9: the record of an Array holds its [length] and one property for
    each own property of the Array -- the indices that are present, [length]
    itself and the other keys -- and none for a hole; the Array decoded at
    its position has that length and the same own keys, so that an index
    that was absent is absent, not a property whose value is
    [undefined]. *)
Theorem sparse_array_preserved (h : list obj) v fuel fuel' path l length props :
  heap_wf h → value_wf h v → supported_graph h v →
  List.length h + 2 ≤ fuel → List.length h + 1 ≤ fuel' →
  follow h v path = Some (VObject l) → h !! l = Some (ArrayObject length props) →
  ∃ c memory v' h',
    structuredSerializeInternal fuel h v [] = Ok (c, memory)
    ∧ structuredSerialize fuel h v = Ok (envelope_of c memory)
    ∧ structuredDeserialize fuel' (envelope_of c memory) = Ok (v', h')
    ∧ (∃ id properties,
         indexOf (memory_keys memory) (VObject l) = Some id
         ∧ memory_values memory !! id = Some (ArraySerialization length properties)
         ∧ ∀ key, key ∈ properties.*1 ↔ key = "length" ∨ key ∈ props.*1)
    ∧ (∃ l' props',
         follow h' v' path = Some (VObject l')
         ∧ h' !! l' = Some (ArrayObject length props')
         ∧ props'.*1 = props.*1
         ∧ ∀ key, hasOwnProperty (ArrayObject length props') key
                  = hasOwnProperty (ArrayObject length props) key).
Proof.
  intros Hh Hv Hsup Hfuel Hfuel' Hpath Ho.
  destruct (round_trip_at h v fuel fuel' path l _ Hh Hv Hsup Hfuel Hfuel' Hpath Ho)
    as (c & memory & v' & h' & f & Hrun & Hser & Hdes & (id & r & Hid & Hr & Hrec) & Hpath' & Ho').
  exists c, memory, v', h'. split; [done|]. split; [done|]. split; [done|].
  split.
  - simpl in Hrec. rewrite filter_hasOwnProperty in Hrec.
    destruct (mapM _ _) as [cs|] eqn:Ecs; [|done]. injection Hrec as <-.
    exists id, cs. split; [done|]. split; [done|].
    intros key. rewrite (mapM_names _ _ _ _ Ecs). unfold getOwnPropertyNames.
    rewrite !elem_of_app, list_elem_of_singleton, !list_elem_of_filter.
    destruct (decide (is_array_index key)); tauto.
  - exists (f l), (rename_property f <$> props).
    split; [done|]. split; [exact Ho'|].
    assert ((rename_property f <$> props).*1 = props.*1) as Hkeys
      by apply rename_property_keys.
    split; [done|]. intros key. unfold hasOwnProperty. f_equal.
    apply bool_decide_ext. split; intros Hsome.
    + apply lookup_property_is_Some. rewrite <- Hkeys.
      destruct (decide (key ∈ (rename_property f <$> props).*1)) as [|Hnot]; [done|].
      rewrite (lookup_property_None _ _ Hnot) in Hsome. by destruct Hsome.
    + apply lookup_property_is_Some. rewrite Hkeys.
      destruct (decide (key ∈ props.*1)) as [|Hnot]; [done|].
      rewrite (lookup_property_None _ _ Hnot) in Hsome. by destruct Hsome.
Qed.

Lemma sparse_array_preserved_witness :
  heap_wf sparse_array ∧ value_wf sparse_array (VObject 0)
  ∧ supported_graph sparse_array (VObject 0)
  ∧ follow sparse_array (VObject 0) [] = Some (VObject 0)
  ∧ sparse_array !! 0
    = Some (ArrayObject 3 [("0", VNumber (NumInt 1)); ("2", VNumber (NumInt 3))])
  ∧ ∃ c memory v' h',
      structuredSerializeInternal 3 sparse_array (VObject 0) [] = Ok (c, memory)
      ∧ structuredSerialize 3 sparse_array (VObject 0) = Ok (envelope_of c memory)
      ∧ structuredDeserialize 2 (envelope_of c memory) = Ok (v', h')
      ∧ (∃ id properties,
           indexOf (memory_keys memory) (VObject 0) = Some id
           ∧ memory_values memory !! id = Some (ArraySerialization 3 properties)
           ∧ ∀ key, key ∈ properties.*1
                    ↔ key = "length"
                      ∨ key ∈ [("0", VNumber (NumInt 1)); ("2", VNumber (NumInt 3))].*1)
      ∧ (∃ l' props',
           follow h' v' [] = Some (VObject l')
           ∧ h' !! l' = Some (ArrayObject 3 props')
           ∧ props'.*1 = [("0", VNumber (NumInt 1)); ("2", VNumber (NumInt 3))].*1
           ∧ ∀ key, hasOwnProperty (ArrayObject 3 props') key
                    = hasOwnProperty
                        (ArrayObject 3 [("0", VNumber (NumInt 1)); ("2", VNumber (NumInt 3))])
                        key).
Proof.
  assert (heap_wf sparse_array) as Hh by (apply (bool_decide_unpack _); vm_compute; exact I).
  assert (value_wf sparse_array (VObject 0)) as Hv by (simpl; lia).
  assert (supported_graph sparse_array (VObject 0)) as Hsup.
  { apply supported_heap_graph. apply (bool_decide_unpack _). vm_compute. exact I. }
  split; [exact Hh|]. split; [exact Hv|]. split; [exact Hsup|].
  split; [reflexivity|]. split; [reflexivity|].
  apply (sparse_array_preserved sparse_array (VObject 0) 3 2 [] 0 3 _ Hh Hv Hsup);
    [simpl; lia|simpl; lia|reflexivity|reflexivity].
Defined.

(** * Views over one buffer (C4) *)

(** C4, at a DataView and a Uint8Array over one ArrayBuffer: the serializer
    records both views with the id of the one buffer, and the deserializer
    throws on the DataView record, the case ['DataView'] of its [switch]
    running into [default]. *)
Theorem shared_buffer_DataView_throws :
  structuredSerialize 6 shared_buffer (VObject 0)
  = Ok (TopLevel
          [ArraySerialization 2
             [("0", Reference 2); ("1", Reference 3); ("length", Primitive PT_number "2")];
           ArrayBufferSerialization 4 "0,0,0,0";
           TypedArraySerialization "DataView" 0 4 (Reference 1);
           TypedArraySerialization "Uint8Array" 0 4 (Reference 1)]
          (Reference 0))
  ∧ ∀ fuel,
      2 ≤ fuel →
      structuredDeserialize fuel
        (TopLevel
           [ArraySerialization 2
              [("0", Reference 2); ("1", Reference 3); ("length", Primitive PT_number "2")];
            ArrayBufferSerialization 4 "0,0,0,0";
            TypedArraySerialization "DataView" 0 4 (Reference 1);
            TypedArraySerialization "Uint8Array" 0 4 (Reference 1)]
           (Reference 0))
      = Throw (Error "Unknown typed array name").
Proof.
  split; [reflexivity|]. intros [|[|fuel]] Hfuel; [lia|lia|]. reflexivity.
Qed.

Lemma shared_buffer_DataView_throws_witness :
  2 ≤ 5
  ∧ structuredDeserialize 5
      (TopLevel
         [ArraySerialization 2
            [("0", Reference 2); ("1", Reference 3); ("length", Primitive PT_number "2")];
          ArrayBufferSerialization 4 "0,0,0,0";
          TypedArraySerialization "DataView" 0 4 (Reference 1);
          TypedArraySerialization "Uint8Array" 0 4 (Reference 1)]
         (Reference 0))
    = Throw (Error "Unknown typed array name").
Proof.
  split; [lia|]. apply (proj2 shared_buffer_DataView_throws 5). lia.
Defined.

(** * The order of the ids (C5) *)

Lemma foldM_invariant {A S} (K : S → Prop) (step : S → A → outcome S) l :
  (∀ s x s', K s → step s x = Ok s' → K s') →
  ∀ s s', K s → foldM step s l = Ok s' → K s'.
Proof.
  intros Hstep. induction l as [|x l IH]; intros s s' Hs; simpl.
  - by intros [= <-].
  - intros (s1 & H1 & Hrest)%bind_Ok. eapply IH; [|done]. by eapply Hstep.
Qed.

Lemma foldM_agree {A S} (K : S → Prop) (step step' : S → A → outcome S) l :
  (∀ s x, K s → step' s x = step s x) →
  (∀ s x s', K s → step s x = Ok s' → K s') →
  ∀ s, K s → foldM step' s l = foldM step s l.
Proof.
  intros Hagree Hstep. induction l as [|x l IH]; intros s Hs; simpl; [done|].
  rewrite (Hagree s x Hs). destruct (step s x) as [s1| | |] eqn:H1; simpl; try done.
  apply IH. by eapply Hstep.
Qed.

Lemma memory_keys_set (memory : list (value * ComplexSerialization)) v r :
  memory_keys memory `prefix_of` memory_keys (memory_set memory v r).
Proof.
  induction memory as [|[k r'] memory IH]; simpl; [apply prefix_nil|].
  destruct (decide (k = v)); simpl; [done|]. by apply prefix_cons.
Qed.

Section serializer_order.
Context (h : list obj).

Lemma body_extends (self : value → list (value * ComplexSerialization)
                           → outcome (ChildSerialization * list (value * ComplexSerialization))) :
  extends_table self → extends_table (structuredSerializeInternal_body self h).
Proof.
  intros Hself x m c m' Hrun. unfold structuredSerializeInternal_body in Hrun.
  destruct (memory_has m x).
  { apply bind_Ok in Hrun as (i & _ & [= _ <-]). done. }
  destruct x as [| | | | | | |l]; try (by injection Hrun as _ <-); try done.
  apply bind_Ok in Hrun as (o & _ & Hrun).
  apply bind_Ok in Hrun as ([[r deep] m1] & Hfirst & Hrun).
  apply bind_Ok in Hrun as (m2 & Hloop & Hrun).
  apply bind_Ok in Hrun as (i & _ & [= _ <-]).
  assert (memory_keys m `prefix_of` memory_keys m1) as H1.
  { destruct o; simpl in Hfirst; try (by injection Hfirst as _ _ <-); try done.
    - apply bind_Ok in Hfirst as (dateData & _ & [= _ _ <-]). done.
    - apply bind_Ok in Hfirst as ([bs mb] & Hb & [= _ _ <-]). by eapply Hself. }
  etrans; [exact H1|]. etrans; [apply (memory_keys_set m1 (VObject l) r)|].
  set (m0 := memory_set m1 (VObject l) r) in *.
  assert (∀ (f : ComplexSerialization → ComplexSerialization) ma mb,
            memory_keys m0 `prefix_of` memory_keys ma →
            memory_keys ma `prefix_of` memory_keys mb →
            memory_keys m0 `prefix_of` memory_keys (memory_update (VObject l) f mb)) as Hupd.
  { intros f ma mb Ha Hb. rewrite memory_keys_update. by etrans. }
  destruct deep; [|by injection Hloop as <-].
  destruct o; try (
    refine (foldM_invariant (λ ma, memory_keys m0 `prefix_of` memory_keys ma) _ _ _ _ _ _ Hloop);
    [|done]; intros ma own ma' Hs Hstep;
    destruct (hasOwnProperty _ own); [|by injection Hstep as <-];
    apply bind_Ok in Hstep as ([cx mx] & Hx & [= <-]);
    eapply Hupd; [exact Hs|by eapply Hself]).
  - refine (foldM_invariant (λ ma, memory_keys m0 `prefix_of` memory_keys ma) _ _ _ _ _ _ Hloop);
      [|done]. intros ma [key val] ma' Hs Hstep.
    apply bind_Ok in Hstep as ([ck mk] & Hk & Hstep).
    apply bind_Ok in Hstep as ([cv mv] & Hv & [= <-]).
    eapply Hupd; [exact Hs|]. etrans; by eapply Hself.
  - refine (foldM_invariant (λ ma, memory_keys m0 `prefix_of` memory_keys ma) _ _ _ _ _ _ Hloop);
      [|done]. intros ma val ma' Hs Hstep.
    apply bind_Ok in Hstep as ([cv mv] & Hv & [= <-]).
    eapply Hupd; [exact Hs|]. by eapply Hself.
Qed.

Lemma serialize_extends fuel : extends_table (structuredSerializeInternal fuel h).
Proof.
  induction fuel as [|fuel IH]; [done|]. intros x m c m'. cbn [structuredSerializeInternal].
  by apply body_extends.
Qed.

End serializer_order.

Section first_visit.
Context (h : list obj) (l : nat) (memory : list (value * ComplexSerialization)).
Context (Hfresh : VObject l ∉ memory_keys memory).

Lemma numbered_indexOf (m : list (value * ComplexSerialization)) :
  numbered memory l m → indexOf (memory_keys m) (VObject l) = Some (List.length memory).
Proof.
  unfold numbered. intros [rest ->]. rewrite <- app_assoc. rewrite indexOf_app_r by done.
  simpl. rewrite decide_True by done. simpl. unfold memory_keys. rewrite length_fmap.
  f_equal. lia.
Qed.

Lemma numbered_set r : numbered memory l (memory_set memory (VObject l) r).
Proof. unfold numbered. rewrite memory_set_fresh by done. by rewrite memory_keys_app. Qed.

Lemma numbered_update (f : ComplexSerialization → ComplexSerialization)
    (ma mb : list (value * ComplexSerialization)) :
  numbered memory l ma → memory_keys ma `prefix_of` memory_keys mb →
  numbered memory l (memory_update (VObject l) f mb).
Proof. unfold numbered. intros Ha Hb. rewrite memory_keys_update. by etrans. Qed.

Section body.
Context (self self' : value → list (value * ComplexSerialization)
                      → outcome (ChildSerialization * list (value * ComplexSerialization))).
Context (Hself : ∀ x (m : list (value * ComplexSerialization)) c m',
                   self x m = Ok (c, m') → memory_keys m `prefix_of` memory_keys m').
Context (Hagree : ∀ x (m : list (value * ComplexSerialization)),
                    indexOf (memory_keys m) (VObject l) = Some (List.length memory) →
                    self' x m = self x m).

Lemma properties_step_numbered o (ma : list (value * ComplexSerialization)) own ma' :
  numbered memory l ma →
  (if hasOwnProperty o own then
     '(outputValue, memory) ← self (Reflect_get o own) ma;
     Ok (memory_update (VObject l) (push_properties (own, outputValue)) memory)
   else Ok ma) = Ok ma' →
  numbered memory l ma'.
Proof.
  intros Hs Hstep. destruct (hasOwnProperty o own); [|by injection Hstep as <-].
  apply bind_Ok in Hstep as ([cx mx] & Hx & [= <-]).
  eapply numbered_update; [exact Hs|by eapply Hself].
Qed.

Lemma body_numbered o c memory' :
  h !! l = Some o →
  (∀ kind buffer byteOffset byteLength,
     o ≠ ArrayBufferViewObject kind buffer byteOffset byteLength) →
  structuredSerializeInternal_body self h (VObject l) memory = Ok (c, memory') →
  c = Reference (List.length memory) ∧ numbered memory l memory'.
Proof.
  intros Ho Hview Hrun. unfold structuredSerializeInternal_body in Hrun.
  rewrite (proj2 (memory_has_false memory (VObject l)) Hfresh), Ho in Hrun.
  apply bind_Ok in Hrun as (o' & Ho' & Hrun). simpl in Ho'. injection Ho' as <-.
  apply bind_Ok in Hrun as ([[r deep] m1] & Hfirst & Hrun).
  apply bind_Ok in Hrun as (m2 & Hloop & Hrun).
  assert (m1 = memory) as ->.
  { destruct o; simpl in Hfirst; try (by injection Hfirst as _ _ <-); try done.
    - by apply bind_Ok in Hfirst as (dateData & _ & [= _ _ <-]).
    - by edestruct Hview. }
  assert (numbered memory l m2) as Hm2.
  { destruct deep; [|injection Hloop as <-; apply numbered_set].
    destruct o; try (
      refine (foldM_invariant (numbered memory l) _ _ _ _ _ (numbered_set r) Hloop);
      intros ma own ma'; apply properties_step_numbered).
    - refine (foldM_invariant (numbered memory l) _ _ _ _ _ (numbered_set r) Hloop).
      intros ma [key val] ma' Hs Hstep.
      apply bind_Ok in Hstep as ([ck mk] & Hk & Hstep).
      apply bind_Ok in Hstep as ([cv mv] & Hv & [= <-]).
      eapply numbered_update; [exact Hs|]. etrans; by eapply Hself.
    - refine (foldM_invariant (numbered memory l) _ _ _ _ _ (numbered_set r) Hloop).
      intros ma val ma' Hs Hstep.
      apply bind_Ok in Hstep as ([cv mv] & Hv & [= <-]).
      eapply numbered_update; [exact Hs|]. by eapply Hself. }
  rewrite (numbered_indexOf m2 Hm2) in Hrun. simpl in Hrun. by injection Hrun as <- <-.
Qed.

Lemma body_agree o :
  h !! l = Some o →
  (∀ kind buffer byteOffset byteLength,
     o ≠ ArrayBufferViewObject kind buffer byteOffset byteLength) →
  structuredSerializeInternal_body self' h (VObject l) memory
  = structuredSerializeInternal_body self h (VObject l) memory.
Proof.
  intros Ho Hview. unfold structuredSerializeInternal_body.
  rewrite (proj2 (memory_has_false memory (VObject l)) Hfresh), Ho.
  cbn [of_option mbind outcome_bind].
  destruct o as [b|n|s|t|source flags|data|kind buffer byteOffset byteLength
                |entries|elements|name message|len props| | | | | | |props];
    try done; try (by edestruct Hview); cbn [mbind outcome_bind].
  - erewrite (foldM_agree (numbered memory l)); [done| | |apply numbered_set].
    + intros ma [key val] Hs. rewrite (Hagree key ma (numbered_indexOf ma Hs)).
      destruct (self key ma) as [[ck mk]| | |] eqn:Hk; simpl; try done.
      rewrite (Hagree val mk); [done|]. apply numbered_indexOf.
      unfold numbered. etrans; [exact Hs|]. by eapply Hself.
    + intros ma [key val] ma' Hs Hstep.
      apply bind_Ok in Hstep as ([ck mk] & Hk & Hstep).
      apply bind_Ok in Hstep as ([cv mv] & Hv & [= <-]).
      eapply numbered_update; [exact Hs|]. etrans; by eapply Hself.
  - erewrite (foldM_agree (numbered memory l)); [done| | |apply numbered_set].
    + intros ma val Hs. by rewrite (Hagree val ma (numbered_indexOf ma Hs)).
    + intros ma val ma' Hs Hstep.
      apply bind_Ok in Hstep as ([cv mv] & Hv & [= <-]).
      eapply numbered_update; [exact Hs|]. by eapply Hself.
  - erewrite (foldM_agree (numbered memory l)); [done| | |apply numbered_set].
    + intros ma own Hs. cbv beta. destruct (hasOwnProperty _ own); [|done].
      by rewrite (Hagree _ ma (numbered_indexOf ma Hs)).
    + intros ma own ma'. apply properties_step_numbered.
  - erewrite (foldM_agree (numbered memory l)); [done| | |apply numbered_set].
    + intros ma own Hs. cbv beta. destruct (hasOwnProperty _ own); [|done].
      by rewrite (Hagree _ ma (numbered_indexOf ma Hs)).
    + intros ma own ma'. apply properties_step_numbered.
Qed.

End body.
End first_visit.

Lemma serialize_known fuel (h : list obj) x (m : list (value * ComplexSerialization)) i :
  indexOf (memory_keys m) x = Some i →
  structuredSerializeInternal (S fuel) h x m = Ok (Reference i, m).
Proof.
  intros Hi. cbn [structuredSerializeInternal]. unfold structuredSerializeInternal_body.
  assert (memory_has m x = true) as ->.
  { apply memory_has_true. eapply list_elem_of_lookup_2. by apply indexOf_Some_lookup. }
  by rewrite Hi.
Qed.

(** C5, as the code has it: an object other than a view that is not yet in
    the table gets the next id, the number of entries of the table, and is
    entered under it before any of its children is serialized: the calls on
    the children are all made with a table in which the object has that id
    (the result is the same for every function [self'] that agrees with the
    serializer on such tables), the call returns the Reference of that id,
    and the entries that were there keep their ids.  A value that is in the
    table, such as a child that refers back to the object, is encoded as
    the Reference of its id. *)
Theorem id_assigned_before_children (h : list obj) l o
    (memory : list (value * ComplexSerialization)) fuel :
  h !! l = Some o →
  (∀ kind buffer byteOffset byteLength,
     o ≠ ArrayBufferViewObject kind buffer byteOffset byteLength) →
  VObject l ∉ memory_keys memory →
  (∀ self',
     (∀ x (m : list (value * ComplexSerialization)),
        indexOf (memory_keys m) (VObject l) = Some (List.length memory) →
        self' x m = structuredSerializeInternal fuel h x m) →
     structuredSerializeInternal_body self' h (VObject l) memory
     = structuredSerializeInternal (S fuel) h (VObject l) memory)
  ∧ (∀ c memory',
       structuredSerializeInternal (S fuel) h (VObject l) memory = Ok (c, memory') →
       c = Reference (List.length memory)
       ∧ ((memory_keys memory ++ [VObject l]) `prefix_of` memory_keys memory'))
  ∧ (∀ x (m : list (value * ComplexSerialization)) i,
       indexOf (memory_keys m) x = Some i →
       structuredSerializeInternal (S fuel) h x m = Ok (Reference i, m)).
Proof.
  intros Ho Hview Hfresh. split; [|split].
  - intros self' Hagree. cbn [structuredSerializeInternal].
    apply (body_agree h l memory Hfresh _ self' (serialize_extends h fuel) Hagree o Ho Hview).
  - intros c memory' Hrun. cbn [structuredSerializeInternal] in Hrun.
    apply (body_numbered h l memory Hfresh _ (serialize_extends h fuel) o c memory' Ho Hview Hrun).
  - intros x m i. apply serialize_known.
Qed.

Lemma id_assigned_before_children_witness :
  cyclic_record !! 0 = Some (PlainObject [("name", VString "a"); ("self", VObject 0)])
  ∧ (VObject 0 ∉ memory_keys [])
  ∧ (∀ self',
       (∀ x (m : list (value * ComplexSerialization)),
          indexOf (memory_keys m) (VObject 0) = Some 0 →
          self' x m = structuredSerializeInternal 2 cyclic_record x m) →
       structuredSerializeInternal_body self' cyclic_record (VObject 0) []
       = structuredSerializeInternal 3 cyclic_record (VObject 0) [])
  ∧ (∀ c memory',
       structuredSerializeInternal 3 cyclic_record (VObject 0) [] = Ok (c, memory') →
       c = Reference 0 ∧ (([] ++ [VObject 0]) `prefix_of` memory_keys memory'))
  ∧ (∀ x (m : list (value * ComplexSerialization)) i,
       indexOf (memory_keys m) x = Some i →
       structuredSerializeInternal 3 cyclic_record x m = Ok (Reference i, m)).
Proof.
  split; [reflexivity|]. split; [apply not_elem_of_nil|].
  apply (id_assigned_before_children cyclic_record 0
           (PlainObject [("name", VString "a"); ("self", VObject 0)]) [] 2);
    [reflexivity|intros; discriminate|apply not_elem_of_nil].
Defined.

(** A view visited with an empty table does not get the id 0: its buffer,
    serialized before the view is entered, does. *)
Lemma view_numbered_after_buffer :
  byte_view !! 0 = Some (ArrayBufferViewObject Uint8Array 1 0 2)
  ∧ (VObject 0 ∉ memory_keys [])
  ∧ structuredSerializeInternal 3 byte_view (VObject 0) []
    = Ok (Reference 1,
          [(VObject 1, ArrayBufferSerialization 2 "1,2");
           (VObject 0, TypedArraySerialization "Uint8Array" 0 2 (Reference 0))])
  ∧ Reference 1 ≠ Reference (List.length ([] : list (value * ComplexSerialization))).
Proof.
  split; [reflexivity|]. split; [apply not_elem_of_nil|]. split; [reflexivity|]. discriminate.
Qed.

(** * Envelopes the deserializer rejects (C2) *)

Lemma typedArrayConstructor_Ok name kind :
  typedArrayConstructor name = Ok kind → name = constructor_name kind.
Proof.
  unfold typedArrayConstructor. repeat case_decide; try done; by intros [= <-].
Qed.

Lemma typedArrayConstructor_unrecognized name :
  (∀ kind, name ≠ constructor_name kind) →
  typedArrayConstructor name = Throw (Error "Unknown typed array name").
Proof.
  intros Hname. destruct (typedArrayConstructor name) as [kind| | |] eqn:Hk.
  - apply typedArrayConstructor_Ok in Hk. by destruct (Hname kind).
  - revert Hk. unfold typedArrayConstructor. by repeat case_decide.
  - revert Hk. unfold typedArrayConstructor. by repeat case_decide.
  - revert Hk. unfold typedArrayConstructor. by repeat case_decide.
Qed.

Lemma structuredDeserialize_inv fuel objects c v' (h' : list obj) :
  structuredDeserialize fuel (TopLevel objects c) = Ok (v', h') →
  ∃ m', structuredDeserializeInternal fuel c objects [] ∅ = Ok (v', h', m').
Proof.
  unfold structuredDeserialize.
  intros ([[v0 h0] m0] & Hrun & [= <- <-])%bind_Ok. by exists m0.
Qed.

(** Whatever decoding reaches has been resolved when decoding returns. *)
Lemma reaches_resolved objects c v' (h' : list obj) (m' : gmap nat value) :
  deserialize_post objects c [] ∅ v' h' m' →
  ∀ c', reaches objects c c' → is_Some (resolve m' c').
Proof.
  intros Hpost c' Hreach.
  assert (is_Some (resolve m' c)) as Hc.
  { destruct Hpost as (_ & _ & -> & _). done. }
  destruct Hpost as (_ & _ & _ & Hnew & _).
  induction Hreach as [|id r c1 c' Hr Hc1 Hreach IH]; [done|].
  apply IH. destruct Hc as [u Hu]. unfold resolve in Hu.
  destruct (Hnew id u (lookup_empty _) Hu) as (r' & Hr' & Hdec).
  rewrite Hr in Hr'. injection Hr' as <-.
  destruct r; try (by apply elem_of_nil in Hc1);
    destruct Hdec as (l' & o' & _ & _ & _ & Ho');
    by eapply object_of_record_children.
Qed.

(** ** The deserializer comes back on the envelopes within the model *)

Lemma foldM_returns {A S} (K : S → Prop) (P : A → Prop) (step : S → A → outcome S) l :
  (∀ s x, K s → P x → (∃ s', step s x = Ok s' ∧ K s') ∨ is_Throw (step s x)) →
  ∀ s, K s → Forall P l →
  is_Ok (foldM step s l) ∨ is_Throw (foldM step s l).
Proof.
  intros Hstep. induction l as [|x l IH]; intros s Hs Hl; [left; by exists s|].
  apply Forall_cons in Hl as [Hx Hl]. cbn [foldM].
  destruct (Hstep s x Hs Hx) as [(s' & -> & Hs')|[e ->]]; [|right; by exists e].
  cbn [mbind outcome_bind]. by apply IH.
Qed.

Lemma typedArrayConstructor_returns name :
  is_Ok (typedArrayConstructor name) ∨ is_Throw (typedArrayConstructor name).
Proof.
  unfold typedArrayConstructor, is_Ok, is_Throw. repeat case_decide; eauto.
Qed.

Lemma deserialize_primitive_returns primitiveType s :
  is_Ok (deserialize_primitive primitiveType s)
  ∨ is_Throw (deserialize_primitive primitiveType s).
Proof.
  unfold deserialize_primitive, BigInt, is_Ok, is_Throw.
  destruct primitiveType; simpl; eauto. repeat case_match; simpl; eauto.
Qed.

Lemma set_own_property_returns o key v :
  (∃ len props, o = ArrayObject len props ∧ (key = "length" → ¬ has_identity v))
  ∨ (∃ props, o = PlainObject props) →
  (∃ o', set_own_property o key v = Ok o' ∧ is_container o')
  ∨ is_Throw (set_own_property o key v).
Proof.
  intros [(len & props & -> & Hlen)|(props & ->)]; simpl; [|left; by eexists].
  destruct (decide (key = "length")) as [Hk|Hk].
  - specialize (Hlen Hk). unfold ArraySetLength, is_Throw.
    destruct v as [| |b|n|z|s|sy|l]; simpl; try (by destruct Hlen); eauto;
      repeat case_match; simpl; eauto; left; by eexists.
  - destruct (array_index key); left; by eexists.
Qed.

Section deserializer_returns.
Context (objects : list ComplexSerialization) (Hmod : modelled_envelope objects).
Context (self : ChildSerialization → list ComplexSerialization → list obj → gmap nat value
                → outcome (value * list obj * gmap nat value)) (fuel : nat).
Context (Hself : ∀ c h m v h' m',
  instances_ok h m → self c objects h m = Ok (v, h', m') →
  deserialize_post objects c h m v h' m').
Context (Hret : ∀ c h m,
  ready objects h m →
  List.length objects + 1 ≤ fuel + size m
  ∨ (1 ≤ fuel ∧ ∃ b, c = Reference b
       ∧ (List.length objects ≤ b
          ∨ ∃ size data, objects !! b = Some (ArrayBufferSerialization size data))) →
  is_Ok (self c objects h m) ∨ is_Throw (self c objects h m)).

Lemma returns_call c (h : list obj) (m : gmap nat value) :
  ready objects h m →
  List.length objects + 1 ≤ fuel + size m →
  (∃ v h1 m1, self c objects h m = Ok (v, h1, m1)
     ∧ ready objects h1 m1
     ∧ (∀ l o, h !! l = Some o → h1 !! l = Some o)
     ∧ resolve m1 c = Some v
     ∧ List.length objects + 1 ≤ fuel + size m1)
  ∨ is_Throw (self c objects h m).
Proof.
  intros Hready Hfuel.
  destruct (Hret c h m Hready (or_introl Hfuel)) as [[[[v h1] m1] Hcall]|Hthrow]; [left|by right].
  pose proof (Hself _ _ _ _ _ _ (proj1 Hready) Hcall) as Hpost.
  exists v, h1, m1. split_and!; [done|by eapply ready_step|apply Hpost| |].
  - by destruct Hpost as (_ & _ & ? & _).
  - destruct Hpost as (_ & Hsub & _). apply map_subseteq_size in Hsub. lia.
Qed.

Lemma set_returns l0 setData (h : list obj) (m : gmap nat value) elements :
  ready objects h m → h !! l0 = Some (SetObject elements) →
  List.length objects + 1 ≤ fuel + size m →
  let loop := foldM (λ '(h, memory) serializedValue,
     '(deserializedValue, h, memory) ← self serializedValue objects h memory;
     Ok (Set_prototype_add h (VObject l0) deserializedValue, memory)) (h, m) setData in
  is_Ok loop ∨ is_Throw loop.
Proof.
  intros Hready Hl0 Hfuel. cbv zeta.
  apply (foldM_returns (loop_ready objects fuel (λ o, ∃ elements, o = SetObject elements) l0)
           (λ _, True));
    [|split_and!; [exact Hready|exact Hfuel|eauto]|by apply Forall_true].
  - intros [h1 m1] c (Hr1 & Hf1 & o & Ho & elements1 & ->) _. simpl in Hr1, Hf1, Ho.
    destruct (returns_call c h1 m1 Hr1 Hf1)
      as [(v & h2 & m2 & Hcall & Hr2 & Hframe & _ & Hf2)|[e He]].
    + left. rewrite Hcall. cbn [mbind outcome_bind].
      rewrite (Set_prototype_add_lookup _ _ _ _ (Hframe _ _ Ho)).
      eexists. split; [done|]. split_and!; simpl; [|done|].
      * eapply ready_update; [done|by apply Hframe|done].
      * eexists. split; [by apply list_lookup_insert_eq; eapply lookup_lt_Some, Hframe|eauto].
    + right. rewrite He. by exists e.
Qed.

Lemma map_returns l0 mapData (h : list obj) (m : gmap nat value) entries :
  ready objects h m → h !! l0 = Some (MapObject entries) →
  List.length objects + 1 ≤ fuel + size m →
  let loop := foldM (λ '(h, memory) '(serializedKey, serializedValue),
     '(deserializedKey, h, memory) ← self serializedKey objects h memory;
     '(deserializedValue, h, memory) ← self serializedValue objects h memory;
     Ok (Map_prototype_set h (VObject l0) deserializedKey deserializedValue, memory))
    (h, m) mapData in
  is_Ok loop ∨ is_Throw loop.
Proof.
  intros Hready Hl0 Hfuel. cbv zeta.
  apply (foldM_returns (loop_ready objects fuel (λ o, ∃ entries, o = MapObject entries) l0)
           (λ _, True));
    [|split_and!; [exact Hready|exact Hfuel|eauto]|by apply Forall_true].
  - intros [h1 m1] [ck cv] (Hr1 & Hf1 & o & Ho & entries1 & ->) _. simpl in Hr1, Hf1, Ho.
    destruct (returns_call ck h1 m1 Hr1 Hf1)
      as [(k & h2 & m2 & Hcall1 & Hr2 & Hframe1 & _ & Hf2)|[e He]];
      [|right; rewrite He; by exists e].
    rewrite Hcall1. cbn [mbind outcome_bind].
    destruct (returns_call cv h2 m2 Hr2 Hf2)
      as [(v & h3 & m3 & Hcall2 & Hr3 & Hframe2 & _ & Hf3)|[e He]];
      [|right; rewrite He; by exists e].
    left. rewrite Hcall2. cbn [mbind outcome_bind].
    rewrite (Map_prototype_set_lookup _ _ _ _ _ (Hframe2 _ _ (Hframe1 _ _ Ho))).
    eexists. split; [done|]. split_and!; simpl; [|done|].
    * eapply ready_update; [done|by apply Hframe2, Hframe1|done].
    * eexists. split;
        [by apply list_lookup_insert_eq; eapply lookup_lt_Some, Hframe2, Hframe1|eauto].
Qed.

Lemma properties_returns l0 (arr : bool) properties (h : list obj) (m : gmap nat value) o :
  ready objects h m → h !! l0 = Some o →
  (if arr then ∃ len props, o = ArrayObject len props else ∃ props, o = PlainObject props) →
  Forall (λ e : string * ChildSerialization,
            e.1 ≠ "__proto__"
            ∧ (arr = true → e.1 = "length" →
               ∃ primitiveType s, e.2 = Primitive primitiveType s)) properties →
  List.length objects + 1 ≤ fuel + size m →
  let loop := foldM (λ '(h, memory) '(key, serializedValue),
     '(deserializedValue, h, memory) ← self serializedValue objects h memory;
     h ← Reflect_set h (VObject l0) key deserializedValue;
     Ok (h, memory)) (h, m) properties in
  is_Ok loop ∨ is_Throw loop.
Proof.
  intros Hready Hl0 Hkind Hprops Hfuel. cbv zeta.
  apply (foldM_returns
           (loop_ready objects fuel
              (λ o, if arr then ∃ len props, o = ArrayObject len props
                    else ∃ props, o = PlainObject props) l0)
           (λ e : string * ChildSerialization,
              e.1 ≠ "__proto__"
              ∧ (arr = true → e.1 = "length" →
                 ∃ primitiveType s, e.2 = Primitive primitiveType s)));
    [|split_and!; [exact Hready|exact Hfuel|eauto]|exact Hprops].
  - intros [h1 m1] [key c] (Hr1 & Hf1 & o1 & Ho1 & Hkind1) [Hkey Hlen].
    simpl in Hr1, Hf1, Ho1, Hkey, Hlen.
    destruct (returns_call c h1 m1 Hr1 Hf1)
      as [(v & h2 & m2 & Hcall & Hr2 & Hframe & Hv & Hf2)|[e He]];
      [|right; rewrite He; by exists e].
    rewrite Hcall. cbn [mbind outcome_bind].
    unfold Reflect_set. rewrite (Hframe _ _ Ho1), Reflect_set_own_ordinary by done.
    destruct (set_own_property_returns o1 key v) as [(o2 & Hset & Hcont)|[e He]].
    + destruct arr; [left|right; done].
      destruct Hkind1 as (len & props & ->). exists len, props. split; [done|].
      intros Hk. destruct (Hlen eq_refl Hk) as (primitiveType & s & ->). unfold resolve in Hv.
      destruct (deserialize_primitive primitiveType s) as [v0| | |] eqn:Hp; try done.
      simpl in Hv. injection Hv as ->. by eapply deserialize_primitive_no_identity.
    + left. rewrite Hset. cbn [mbind outcome_bind]. eexists. split; [done|].
      split_and!; simpl; [|done|].
      * eapply ready_update; [done|by apply Hframe|].
        destruct arr; [destruct Hkind1 as (? & ? & ->)|destruct Hkind1 as (? & ->)]; done.
      * exists o2. split; [by apply list_lookup_insert_eq; eapply lookup_lt_Some, Hframe|].
        destruct arr.
        -- destruct Hkind1 as (len & props & ->). revert Hset. simpl.
           destruct (decide (key = "length")).
           ++ intros ([len' props'] & _ & [= <-])%bind_Ok. eauto.
           ++ destruct (array_index key); intros [= <-]; eauto.
        -- destruct Hkind1 as (props & ->). injection Hset as <-. eauto.
    + right. rewrite He. by exists e.
Qed.

Lemma modelled_record_lookup id r : objects !! id = Some r → modelled_record objects r.
Proof.
  intros Hr. unfold modelled_envelope in Hmod. rewrite Forall_forall in Hmod.
  apply Hmod. by eapply list_elem_of_lookup_2.
Qed.

Lemma deserialize_body_returns c (h : list obj) (m : gmap nat value) :
  ready objects h m →
  List.length objects + 1 ≤ S fuel + size m
  ∨ (∃ b, c = Reference b
       ∧ (List.length objects ≤ b
          ∨ ∃ size data, objects !! b = Some (ArrayBufferSerialization size data))) →
  is_Ok (structuredDeserializeInternal_body self c objects h m)
  ∨ is_Throw (structuredDeserializeInternal_body self c objects h m).
Proof.
  intros Hready Hfuel. unfold structuredDeserializeInternal_body.
  destruct c as [pt s|id].
  { destruct (deserialize_primitive_returns pt s) as [[v ->]|[e ->]];
      [left|right]; by eexists. }
  destruct (m !! id) as [v0|] eqn:Hm; [left; by eexists|].
  destruct (objects !! id) as [r|] eqn:Hr; [|right; by eexists].
  pose proof (modelled_record_lookup _ _ Hr) as Hrec.
  pose proof (ready_size_fresh _ _ _ _ Hready Hm (lookup_lt_Some _ _ _ Hr)) as Hsize.
  assert ((∀ size data, r ≠ ArrayBufferSerialization size data) →
          List.length objects + 1 ≤ fuel + S (size m)) as Hfuel'.
  { intros Hne. destruct Hfuel as [?|(b & [= <-] & [Hb|(size & data & Hb)])]; [lia|..].
    - apply lookup_lt_Some in Hr. lia.
    - congruence. }
  assert (∀ shell, (∀ size data, r ≠ ArrayBufferSerialization size data) →
            ready objects (h ++ [shell]) (<[id := VObject (List.length h)]> m)) as Hreg.
  { intros shell Hne. eapply ready_register; [done..|].
    intros size data ->. by destruct (Hne size data). }
  destruct r; try (left; by eexists).
  - (* a view *)
    destruct (typedArrayConstructor_returns typedArrayName) as [Hkind|[e He]];
      [|right; rewrite He; by exists e].
    destruct (Hrec Hkind) as (b & -> & Hb). destruct Hkind as [kind Hkind].
    rewrite Hkind. cbn [mbind outcome_bind].
    assert (1 ≤ fuel) as Hone by (specialize (Hfuel' ltac:(done)); lia).
    destruct (Hret (Reference b) h m Hready) as [[[[vb ha] ma] Hcall]|[e He]];
      [right; eauto| |right; rewrite He; by exists e].
    rewrite Hcall. cbn [mbind outcome_bind].
    pose proof (Hself _ _ _ _ _ _ (proj1 Hready) Hcall) as Hpost.
    pose proof (ready_step _ _ _ _ _ _ _ Hready Hpost) as (_ & Hdom & Hbuf).
    destruct Hpost as (_ & _ & Hvb & _). simpl in Hvb.
    destruct Hb as [Hb|(size & data & Hb)].
    { assert (b < List.length objects) by (apply Hdom; eauto). lia. }
    destruct (Hbuf _ _ _ _ Hvb Hb) as (lb & bytes & -> & Hlb & Hlen).
    unfold TypedArray_new. rewrite Hlb.
    repeat case_match; [right|right|left]; by eexists.
  - (* Map *)
    cbn [alloc mbind outcome_bind]. cbn zeta.
    destruct (map_returns (List.length h) mapData (h ++ [MapObject []])
                (<[id := VObject (List.length h)]> m) [])
      as [[[h' m'] Hloop]|[e Hloop]];
      [by apply Hreg|by rewrite lookup_app_r, Nat.sub_diag| | |].
    { rewrite map_size_insert_None by done. by apply Hfuel'. }
    + rewrite Hloop. left. by eexists.
    + rewrite Hloop. right. by eexists.
  - (* Set *)
    cbn [alloc mbind outcome_bind]. cbn zeta.
    destruct (set_returns (List.length h) setData (h ++ [SetObject []])
                (<[id := VObject (List.length h)]> m) [])
      as [[[h' m'] Hloop]|[e Hloop]];
      [by apply Hreg|by rewrite lookup_app_r, Nat.sub_diag| | |].
    { rewrite map_size_insert_None by done. by apply Hfuel'. }
    + rewrite Hloop. left. by eexists.
    + rewrite Hloop. right. by eexists.
  - (* Array *)
    unfold Array_new. case_match; [|right; by eexists].
    cbn [alloc mbind outcome_bind]. cbn zeta.
    destruct (properties_returns (List.length h) true properties
                (h ++ [ArrayObject length []])
                (<[id := VObject (List.length h)]> m) (ArrayObject length []))
      as [[[h' m'] Hloop]|[e Hloop]];
      [by apply Hreg|by rewrite lookup_app_r, Nat.sub_diag|eauto| | | |].
    { eapply Forall_impl; [exact Hrec|]. intros e [? ?]. eauto. }
    { rewrite map_size_insert_None by done. by apply Hfuel'. }
    + rewrite Hloop. left. by eexists.
    + rewrite Hloop. right. by eexists.
  - (* plain object *)
    cbn [alloc mbind outcome_bind]. cbn zeta.
    destruct (properties_returns (List.length h) false properties
                (h ++ [PlainObject []])
                (<[id := VObject (List.length h)]> m) (PlainObject []))
      as [[[h' m'] Hloop]|[e Hloop]];
      [by apply Hreg|by rewrite lookup_app_r, Nat.sub_diag|eauto| | | |].
    { eapply Forall_impl; [exact Hrec|]. intros e ?. split; [done|]. done. }
    { rewrite map_size_insert_None by done. by apply Hfuel'. }
    + rewrite Hloop. left. by eexists.
    + rewrite Hloop. right. by eexists.
Qed.

End deserializer_returns.

(** With calls as deep as the record array is long, and one more, the
    deserializer returns or throws on an envelope within the model. *)
Lemma deserialize_returns objects fuel :
  modelled_envelope objects →
  ∀ c (h : list obj) (m : gmap nat value),
  ready objects h m →
  List.length objects + 1 ≤ fuel + size m
  ∨ (1 ≤ fuel ∧ ∃ b, c = Reference b
       ∧ (List.length objects ≤ b
          ∨ ∃ size data, objects !! b = Some (ArrayBufferSerialization size data))) →
  is_Ok (structuredDeserializeInternal fuel c objects h m)
  ∨ is_Throw (structuredDeserializeInternal fuel c objects h m).
Proof.
  intros Hmod. induction fuel as [|fuel IH]; intros c h m Hready Hfuel.
  - pose proof (ready_size _ _ _ Hready). destruct Hfuel as [?|[? _]]; lia.
  - cbn [structuredDeserializeInternal].
    apply (deserialize_body_returns objects Hmod _ fuel
             (deserialize_spec objects fuel) IH); [done|].
    destruct Hfuel as [?|[_ ?]]; eauto.
Qed.




(** * The order of the records (C6) *)

Arguments Map_prototype_set : simpl never.
Arguments Set_prototype_add : simpl never.
Arguments Reflect_set : simpl never.

Section renumbering.
Context (π : nat → nat) `{!Inj (=) (=) π}.
Context (objects objects' : list ComplexSerialization).
Context (Hre : reordered π objects objects').

Lemma foldM_renumber {A} (g : A → A)
    (step step' : list obj * gmap nat value → A → outcome (list obj * gmap nat value)) :
  (∀ h m x, step' (h, renumber_memory π m) (g x) = renumber_state π (step (h, m) x)) →
  ∀ l h m, foldM step' (h, renumber_memory π m) (g <$> l)
           = renumber_state π (foldM step (h, m) l).
Proof.
  intros Hstep. induction l as [|x l IH]; intros h m; simpl; [done|].
  rewrite Hstep. destruct (step (h, m) x) as [[h1 m1]| | |]; simpl; try done.
Qed.

Lemma renumber_memory_lookup (m : gmap nat value) id :
  renumber_memory π m !! π id = m !! id.
Proof. unfold renumber_memory. by rewrite lookup_kmap. Qed.

Lemma renumber_memory_insert (m : gmap nat value) id v :
  <[π id := v]> (renumber_memory π m) = renumber_memory π (<[id := v]> m).
Proof. unfold renumber_memory. by rewrite kmap_insert. Qed.

Section body.
Context (self self' : ChildSerialization → list ComplexSerialization → list obj → gmap nat value
                      → outcome (value * list obj * gmap nat value)).
Context (Hself : ∀ c h m,
           self' (renumber_child π c) objects' h (renumber_memory π m)
           = renumber_result π (self c objects h m)).

Lemma body_renumber c h m :
  structuredDeserializeInternal_body self' (renumber_child π c) objects' h
    (renumber_memory π m)
  = renumber_result π (structuredDeserializeInternal_body self c objects h m).
Proof.
  destruct c as [primitiveType s|id]; simpl.
  { by destruct (deserialize_primitive primitiveType s). }
  rewrite renumber_memory_lookup. destruct (m !! id) as [u|] eqn:Hid; [done|].
  rewrite Hre. destruct (objects !! id) as [r|]; [|done]. simpl.
  destruct r; simpl; rewrite ?renumber_memory_insert; try done.
  - (* a view *)
    destruct (typedArrayConstructor typedArrayName) as [kind| | |]; simpl; try done.
    rewrite Hself. destruct (self arrayBufferSerialized objects h m) as [[[ab h1] m1]| | |];
      simpl; try done.
    destruct (TypedArray_new kind h1 ab typedArrayByteOffset typedArrayByteLength);
      simpl; rewrite ?renumber_memory_insert; done.
  - (* a Map *)
    rewrite (foldM_renumber (λ e, (renumber_child π e.1, renumber_child π e.2))
               (λ '(h1, memory) '(serializedKey, serializedValue),
                  '(deserializedKey, h1, memory) ← self serializedKey objects h1 memory;
                  '(deserializedValue, h1, memory) ← self serializedValue objects h1 memory;
                  Ok (Map_prototype_set h1 (VObject (List.length h)) deserializedKey
                        deserializedValue, memory))).
    + by destruct (foldM _ _ mapData) as [[h1 m1]| | |].
    + intros h1 m1 [k v]. simpl. rewrite Hself.
      destruct (self k objects h1 m1) as [[[dk h2] m2]| | |]; simpl; try done.
      rewrite Hself. by destruct (self v objects h2 m2) as [[[dv h3] m3]| | |].
  - (* a Set *)
    rewrite (foldM_renumber (renumber_child π)
               (λ '(h1, memory) serializedValue,
                  '(deserializedValue, h1, memory) ← self serializedValue objects h1 memory;
                  Ok (Set_prototype_add h1 (VObject (List.length h)) deserializedValue, memory))).
    + by destruct (foldM _ _ setData) as [[h1 m1]| | |].
    + intros h1 m1 v. simpl. rewrite Hself.
      by destruct (self v objects h1 m1) as [[[dv h2] m2]| | |].
  - (* an Array *)
    destruct (Array_new length) as [array| | |]; simpl; try done.
    rewrite renumber_memory_insert.
    rewrite (foldM_renumber (λ e, (e.1, renumber_child π e.2))
               (λ '(h1, memory) '(key, serializedValue),
                  '(deserializedValue, h1, memory) ← self serializedValue objects h1 memory;
                  h1 ← Reflect_set h1 (VObject (List.length h)) key deserializedValue;
                  Ok (h1, memory))).
    + by destruct (foldM _ _ properties) as [[h1 m1]| | |].
    + intros h1 m1 [k v]. simpl. rewrite Hself.
      destruct (self v objects h1 m1) as [[[dv h2] m2]| | |]; simpl; try done.
      by destruct (Reflect_set h2 _ k dv).
  - (* a plain object *)
    rewrite (foldM_renumber (λ e, (e.1, renumber_child π e.2))
               (λ '(h1, memory) '(key, serializedValue),
                  '(deserializedValue, h1, memory) ← self serializedValue objects h1 memory;
                  h1 ← Reflect_set h1 (VObject (List.length h)) key deserializedValue;
                  Ok (h1, memory))).
    + by destruct (foldM _ _ properties) as [[h1 m1]| | |].
    + intros h1 m1 [k v]. simpl. rewrite Hself.
      destruct (self v objects h1 m1) as [[[dv h2] m2]| | |]; simpl; try done.
      by destruct (Reflect_set h2 _ k dv).
Qed.

End body.

Lemma deserialize_renumber fuel : ∀ c h m,
  structuredDeserializeInternal fuel (renumber_child π c) objects' h
    (renumber_memory π m)
  = renumber_result π (structuredDeserializeInternal fuel c objects h m).
Proof.
  induction fuel as [|fuel IH]; intros c h m; [done|].
  cbn [structuredDeserializeInternal]. by apply body_renumber.
Qed.

End renumbering.

(** C6, as the code has it: the id of a record is its position in the
    record array, so the records can be put in another order only together
    with their ids: when the record of id [id] is moved to position [π id]
    and every [referenceId] of the envelope is renumbered by [π],
    [structuredDeserialize] returns the same value and the same objects. *)
Theorem reordering_with_renumbering (π : nat → nat) objects objects' c fuel :
  Inj (=) (=) π → reordered π objects objects' →
  structuredDeserialize fuel (TopLevel objects' (renumber_child π c))
  = structuredDeserialize fuel (TopLevel objects c).
Proof.
  intros Hinj Hre. unfold structuredDeserialize.
  pose proof (deserialize_renumber π objects objects' Hre fuel c [] ∅) as Hrun.
  unfold renumber_memory in Hrun at 1. rewrite kmap_empty in Hrun. rewrite Hrun.
  unfold renumber_result.
  by destruct (structuredDeserializeInternal fuel c objects [] ∅) as [[[v h] m]| | |].
Qed.

Lemma reordering_with_renumbering_witness :
  Inj (=) (=) (swap_ids 0 1)
  ∧ reordered (swap_ids 0 1)
      [BooleanSerialization "true"; SetSerialization [Reference 0; Reference 1]]
      [SetSerialization [Reference 1; Reference 0]; BooleanSerialization "true"]
  ∧ structuredDeserialize 3
      (TopLevel [SetSerialization [Reference 1; Reference 0]; BooleanSerialization "true"]
         (renumber_child (swap_ids 0 1) (Reference 1)))
    = structuredDeserialize 3
        (TopLevel [BooleanSerialization "true"; SetSerialization [Reference 0; Reference 1]]
           (Reference 1)).
Proof.
  assert (Inj (=) (=) (swap_ids 0 1)) as Hinj.
  { intros i j. unfold swap_ids. repeat case_decide; lia. }
  assert (reordered (swap_ids 0 1)
            [BooleanSerialization "true"; SetSerialization [Reference 0; Reference 1]]
            [SetSerialization [Reference 1; Reference 0]; BooleanSerialization "true"]) as Hre.
  { intros [|[|id]]; reflexivity. }
  split; [exact Hinj|]. split; [exact Hre|].
  apply (reordering_with_renumbering (swap_ids 0 1) _ _ (Reference 1) 3 Hinj Hre).
Defined.

(** The same records in another order, the references left as they are,
    decode to another value. *)
Lemma reordering_changes_value :
  [BooleanSerialization "false"; BooleanSerialization "true"]
  ≡ₚ [BooleanSerialization "true"; BooleanSerialization "false"]
  ∧ structuredDeserialize 2
      (TopLevel [BooleanSerialization "true"; BooleanSerialization "false"] (Reference 0))
    = Ok (VObject 0, [BooleanObject true])
  ∧ structuredDeserialize 2
      (TopLevel [BooleanSerialization "false"; BooleanSerialization "true"] (Reference 0))
    = Ok (VObject 0, [BooleanObject false]).
Proof. split; [apply Permutation_swap|]. split; reflexivity. Qed.

(** * The codec on the example graphs *)

(** A record that is its own property. *)
Lemma cyclic_record_round_trip :
  structuredSerialize 3 cyclic_record (VObject 0)
  = Ok (TopLevel [ObjectSerialization [("name", Primitive PT_string "a");
                                       ("self", Reference 0)]] (Reference 0))
  ∧ structuredDeserialize 2
      (TopLevel [ObjectSerialization [("name", Primitive PT_string "a");
                                      ("self", Reference 0)]] (Reference 0))
    = Ok (VObject 0, cyclic_record).
Proof. split; reflexivity. Qed.

(** Two properties that hold one object. *)
Lemma shared_record_round_trip :
  structuredSerialize 4 shared_record (VObject 0)
  = Ok (TopLevel [ObjectSerialization [("a", Reference 1); ("b", Reference 1)];
                  ObjectSerialization []] (Reference 0))
  ∧ structuredDeserialize 3
      (TopLevel [ObjectSerialization [("a", Reference 1); ("b", Reference 1)];
                 ObjectSerialization []] (Reference 0))
    = Ok (VObject 0, shared_record).
Proof. split; reflexivity. Qed.

(** An Array with a hole: the record has no property for index 1, and
    neither has the decoded Array. *)
Lemma sparse_array_round_trip :
  structuredSerialize 3 sparse_array (VObject 0)
  = Ok (TopLevel [ArraySerialization 3 [("0", Primitive PT_number "1");
                                        ("2", Primitive PT_number "3");
                                        ("length", Primitive PT_number "3")]]
          (Reference 0))
  ∧ structuredDeserialize 2
      (TopLevel [ArraySerialization 3 [("0", Primitive PT_number "1");
                                       ("2", Primitive PT_number "3");
                                       ("length", Primitive PT_number "3")]]
         (Reference 0))
    = Ok (VObject 0, sparse_array).
Proof. split; reflexivity. Qed.

(** The graph with a Map that holds itself, a Set, a Date, views over one
    buffer and the rest: the decoded heap is the original one up to the
    places of the buffer and the views. *)
Lemma mixed_graph_round_trip :
  (env ← structuredSerialize 14 mixed_graph (VObject 0); structuredDeserialize 13 env)
  = Ok (VObject 0,
        [PlainObject [("map", VObject 1); ("set", VObject 2); ("list", VObject 3);
                      ("when", VObject 4); ("text", VObject 5); ("re", VObject 6);
                      ("views", VObject 7); ("err", VObject 11); ("none", VUndefined)];
         MapObject [(VString "me", VObject 1); (VNumber (NumInt (-7)), VNull)];
         SetObject [VBoolean true; VBigInt 123456789012345678901234567890; VObject 0];
         ArrayObject 3 [("0", VNumber (NumInt 1)); ("2", VNumber (NumInt 3))];
         DateObject (TimeValue 1700000000000);
         StringObject "boxed";
         RegExpObject "a+b" "gi";
         ArrayObject 2 [("0", VObject 9); ("1", VObject 10)];
         ArrayBufferObject [x01; x02; xff];
         ArrayBufferViewObject Uint8Array 8 0 2;
         ArrayBufferViewObject Int8Array 8 1 2;
         ErrorObject "RangeError" (Some "out of range")]).
Proof. vm_compute. reflexivity. Qed.

(** A view with two-byte elements: the deserializer passes its byte length
    as the number of elements (line 338), which does not fit the buffer. *)
Lemma wide_view_throws :
  structuredSerialize 3 wide_view (VObject 0)
  = Ok (TopLevel [ArrayBufferSerialization 4 "0,0,0,0";
                  TypedArraySerialization "Int16Array" 0 4 (Reference 0)] (Reference 1))
  ∧ structuredDeserialize 3
      (TopLevel [ArrayBufferSerialization 4 "0,0,0,0";
                 TypedArraySerialization "Int16Array" 0 4 (Reference 0)] (Reference 1))
    = Throw (RangeError "Invalid typed array length").
Proof. split; reflexivity. Qed.

(** An own property named [__proto__] is written by the serializer and
    dropped by the deserializer, whose [Reflect.set] calls the setter of
    [Object.prototype] with it. *)
Lemma own_proto_property_lost :
  structuredSerialize 3 own_proto_record (VObject 0)
  = Ok (TopLevel [ObjectSerialization [("__proto__", Primitive PT_number "1");
                                       ("a", Primitive PT_null "null")]] (Reference 0))
  ∧ structuredDeserialize 2
      (TopLevel [ObjectSerialization [("__proto__", Primitive PT_number "1");
                                      ("a", Primitive PT_null "null")]] (Reference 0))
    = Ok (VObject 0, [PlainObject [("a", VNull)]]).
Proof. split; reflexivity. Qed.

(** A record whose [type] is none of the known ones decodes to
    [undefined]. *)
Lemma unknown_type_decodes_to_undefined type :
  structuredDeserialize 1 (TopLevel [OtherSerialization type] (Reference 0))
  = Ok (VUndefined, []).
Proof. reflexivity. Qed.

(** * Further properties of the codec *)

(** ** The serializer: termination, errors, the record array *)

(** X1: on every graph, cyclic ones included, [structuredSerialize] comes
    to an end within a call depth of the number of objects plus two: it
    returns an envelope, or it throws the error of a value of the graph it
    rejects -- the TypeError of a symbol or of an unsupported object, or the
    RangeError of an invalid Date. *)
Theorem structuredSerialize_terminates (h : list obj) v fuel :
  heap_wf h → value_wf h v → List.length h + 2 ≤ fuel →
  (∃ env, structuredSerialize fuel h v = Ok env)
  ∨ (∃ e w, structuredSerialize fuel h v = Throw e ∧ reachable h v w ∧ rejects h w e).
Proof.
  intros Hh Hv Hfuel. pose proof (serialize_encoded h fuel v Hh Hv Hfuel) as Henc.
  destruct (structuredSerializeInternal fuel h v []) as [[c memory]|e| |] eqn:Hrun; try done.
  - left. eexists. by apply structuredSerialize_envelope.
  - right. destruct Henc as (w & Hw & Hrej). exists e, w.
    split; [by apply structuredSerialize_Throw|done].
Qed.

Lemma structuredSerialize_terminates_witness :
  heap_wf cyclic_record ∧ value_wf cyclic_record (VObject 0)
  ∧ ((∃ env, structuredSerialize 3 cyclic_record (VObject 0) = Ok env)
     ∨ (∃ e w, structuredSerialize 3 cyclic_record (VObject 0) = Throw e
               ∧ reachable cyclic_record (VObject 0) w ∧ rejects cyclic_record w e)).
Proof.
  assert (heap_wf cyclic_record) as Hh by (apply (bool_decide_unpack _); vm_compute; exact I).
  assert (value_wf cyclic_record (VObject 0)) as Hv by (simpl; lia).
  split; [exact Hh|]. split; [exact Hv|].
  apply (structuredSerialize_terminates cyclic_record (VObject 0) 3 Hh Hv). simpl. lia.
Defined.

(** X2: the identity table of a successful run holds the objects reachable
    from the value, each once, so that the record array has exactly one
    record for each of them, however often and along however many paths it
    is met. *)
Theorem one_record_per_object (h : list obj) v fuel c memory :
  heap_wf h → value_wf h v → List.length h + 2 ≤ fuel →
  structuredSerializeInternal fuel h v [] = Ok (c, memory) →
  NoDup (memory_keys memory)
  ∧ (∀ w, w ∈ memory_keys memory ↔ ∃ l, w = VObject l ∧ reachable h v (VObject l))
  ∧ List.length (memory_values memory) = List.length (memory_keys memory)
  ∧ structuredSerialize fuel h v = Ok (envelope_of c memory).
Proof.
  intros Hh Hv Hfuel Hrun. pose proof (serialize_encoded h fuel v Hh Hv Hfuel) as Henc.
  rewrite Hrun in Henc. split; [apply Henc|]. split; [|split].
  - intros w. split.
    + intros (i & Hi)%list_elem_of_lookup.
      destruct (encoded_lookup h v c memory Henc i w Hi) as (l & o & r & -> & _ & _ & _ & Hreach).
      by exists l.
    + intros (l & -> & Hl).
      destruct (encoded_id h v c memory Henc l (encoded_closed h v c memory Hh Henc _ Hl))
        as (id & _ & _ & Hid & _).
      eapply list_elem_of_lookup_2. by apply indexOf_Some_lookup.
  - symmetry. apply encoded_length.
  - by apply structuredSerialize_envelope.
Qed.

Lemma one_record_per_object_witness :
  heap_wf shared_record ∧ value_wf shared_record (VObject 0)
  ∧ structuredSerializeInternal 4 shared_record (VObject 0) []
    = Ok (Reference 0,
          [(VObject 0, ObjectSerialization [("a", Reference 1); ("b", Reference 1)]);
           (VObject 1, ObjectSerialization [])])
  ∧ NoDup [VObject 0; VObject 1]
  ∧ (∀ w, w ∈ [VObject 0; VObject 1]
          ↔ ∃ l, w = VObject l ∧ reachable shared_record (VObject 0) (VObject l))
  ∧ List.length [ObjectSerialization [("a", Reference 1); ("b", Reference 1)];
                 ObjectSerialization []] = List.length [VObject 0; VObject 1]
  ∧ structuredSerialize 4 shared_record (VObject 0)
    = Ok (TopLevel [ObjectSerialization [("a", Reference 1); ("b", Reference 1)];
                    ObjectSerialization []] (Reference 0)).
Proof.
  assert (heap_wf shared_record) as Hh by (apply (bool_decide_unpack _); vm_compute; exact I).
  assert (value_wf shared_record (VObject 0)) as Hv by (simpl; lia).
  split; [exact Hh|]. split; [exact Hv|]. split; [reflexivity|].
  apply (one_record_per_object shared_record (VObject 0) 4 (Reference 0)
           [(VObject 0, ObjectSerialization [("a", Reference 1); ("b", Reference 1)]);
            (VObject 1, ObjectSerialization [])] Hh Hv); [simpl; lia|reflexivity].
Defined.

(** X3: a primitive other than a symbol is serialized as a bare primitive
    node, without a record array, and decodes to itself, whatever the
    heap: [undefined], [null], booleans, BigInts, strings, and the Numbers
    that are safe integers, NaN or the infinities. *)
Theorem primitive_round_trip (h : list obj) v fuel fuel' :
  ¬ has_identity v → exact_value v → 1 ≤ fuel → 1 ≤ fuel' →
  ∃ primitiveType s,
    structuredSerialize fuel h v = Ok (TopLevelPrimitive primitiveType s)
    ∧ structuredDeserialize fuel' (TopLevelPrimitive primitiveType s) = Ok (v, []).
Proof.
  intros Hid _ Hfuel Hfuel'. destruct fuel as [|fuel]; [lia|].
  destruct fuel' as [|fuel']; [lia|].
  destruct v as [| |b|n|z|s|sy|l]; try (by destruct Hid); eexists _, _;
    (split; [reflexivity|]); unfold structuredDeserialize;
    cbn [structuredDeserializeInternal structuredDeserializeInternal_body];
    unfold deserialize_primitive;
    rewrite ?Boolean_toString_inv, ?Number_toString_inv, ?BigInt_Z_toString; reflexivity.
Qed.

Lemma primitive_round_trip_witness :
  ¬ has_identity (VNumber (NumInt (-9007199254740991)))
  ∧ exact_value (VNumber (NumInt (-9007199254740991))) ∧ 1 ≤ 1
  ∧ ∃ primitiveType s,
      structuredSerialize 1 [] (VNumber (NumInt (-9007199254740991)))
      = Ok (TopLevelPrimitive primitiveType s)
      ∧ structuredDeserialize 1 (TopLevelPrimitive primitiveType s)
        = Ok (VNumber (NumInt (-9007199254740991)), []).
Proof.
  split; [simpl; tauto|]. split; [simpl; lia|]. split; [lia|].
  apply (primitive_round_trip [] (VNumber (NumInt (-9007199254740991))) 1 1);
    [simpl; tauto|simpl; lia|lia|lia].
Defined.

(** ** ArrayBuffers *)

(** X4: an ArrayBuffer is written as its length and the decimal values of
    its bytes, joined by commas (the empty text for an empty buffer), and
    decodes to the same bytes. *)
Theorem ArrayBuffer_round_trip (h : list obj) l data fuel fuel' :
  h !! l = Some (ArrayBufferObject data) → 1 ≤ fuel → 1 ≤ fuel' →
  structuredSerialize fuel h (VObject l)
  = Ok (TopLevel [ArrayBufferSerialization (List.length data)
                    (join "," (byte_toString <$> data))] (Reference 0))
  ∧ structuredDeserialize fuel'
      (TopLevel [ArrayBufferSerialization (List.length data)
                   (join "," (byte_toString <$> data))] (Reference 0))
    = Ok (VObject 0, [ArrayBufferObject data]).
Proof.
  intros Hl Hfuel Hfuel'. destruct fuel as [|fuel]; [lia|]. destruct fuel' as [|fuel']; [lia|].
  split.
  - unfold structuredSerialize. cbn [structuredSerializeInternal].
    unfold structuredSerializeInternal_body. simpl. rewrite Hl. simpl.
    rewrite decide_True by done. reflexivity.
  - unfold structuredDeserialize. cbn [structuredDeserializeInternal].
    unfold structuredDeserializeInternal_body. simpl.
    by rewrite ArrayBuffer_data_inv.
Qed.

Lemma ArrayBuffer_round_trip_witness :
  byte_view !! 1 = Some (ArrayBufferObject [x01; x02]) ∧ 1 ≤ 1
  ∧ structuredSerialize 1 byte_view (VObject 1)
    = Ok (TopLevel [ArrayBufferSerialization (List.length [x01; x02])
                      (join "," (byte_toString <$> [x01; x02]))] (Reference 0))
  ∧ structuredDeserialize 1
      (TopLevel [ArrayBufferSerialization (List.length [x01; x02])
                   (join "," (byte_toString <$> [x01; x02]))] (Reference 0))
    = Ok (VObject 0, [ArrayBufferObject [x01; x02]]).
Proof.
  split; [reflexivity|]. split; [lia|].
  apply (ArrayBuffer_round_trip byte_view 1 [x01; x02] 1 1); [reflexivity|lia|lia].
Defined.

(** ** The records of Errors and Arrays *)

Lemma serialized_envelope_record (h : list obj) v fuel objects c r :
  heap_wf h → value_wf h v → List.length h + 2 ≤ fuel →
  structuredSerialize fuel h v = Ok (TopLevel objects c) → r ∈ objects →
  ∃ keys l o, reachable h v (VObject l) ∧ h !! l = Some o
              ∧ serialized_record keys o = Some r.
Proof.
  intros Hh Hv Hfuel (c' & memory & Hrun & Henv)%structuredSerialize_inv Hr.
  pose proof (serialize_encoded h fuel v Hh Hv Hfuel) as Henc. rewrite Hrun in Henc.
  destruct c' as [primitiveType s|id]; [done|]. injection Henv as -> ->.
  apply list_elem_of_lookup in Hr as (i & Hi).
  assert (is_Some (memory_keys memory !! i)) as [k Hk].
  { apply lookup_lt_is_Some. rewrite (encoded_length memory). by eapply lookup_lt_Some. }
  destruct (encoded_lookup h v _ memory Henc i k Hk) as (l & o & r' & -> & Hl & Hr' & Hrec & Hreach).
  rewrite Hi in Hr'. injection Hr' as <-. by exists (memory_keys memory), l, o.
Qed.

(** X6: the name in an Error record of the serializer is always one of the
    seven standard error names. *)
Theorem Error_records_have_standard_names (h : list obj) v fuel objects c name message :
  heap_wf h → value_wf h v → List.length h + 2 ≤ fuel →
  structuredSerialize fuel h v = Ok (TopLevel objects c) →
  ErrorSerialization name message ∈ objects →
  name ∈ standard_error_names.
Proof.
  intros Hh Hv Hfuel Hrun Hr.
  destruct (serialized_envelope_record h v fuel objects c _ Hh Hv Hfuel Hrun Hr)
    as (keys & l & o & _ & _ & Hrec).
  destruct o as [| | |[|]| | | | | | | | | | | | | |]; simpl in Hrec; try done;
    try (by destruct (mapM _ _)); try (by destruct (serialized_child _ _)).
  injection Hrec as <- _. case_bool_decide; [done|]. by left.
Qed.

Lemma Error_records_have_standard_names_witness :
  heap_wf custom_error ∧ value_wf custom_error (VObject 0)
  ∧ structuredSerialize 3 custom_error (VObject 0)
    = Ok (TopLevel [ErrorSerialization "Error" (Some "boom")] (Reference 0))
  ∧ ErrorSerialization "Error" (Some "boom") ∈ [ErrorSerialization "Error" (Some "boom")]
  ∧ "Error" ∈ standard_error_names.
Proof.
  assert (heap_wf custom_error) as Hh by (apply (bool_decide_unpack _); vm_compute; exact I).
  assert (value_wf custom_error (VObject 0)) as Hv by (simpl; lia).
  assert (ErrorSerialization "Error" (Some "boom") ∈ [ErrorSerialization "Error" (Some "boom")])
    as Hin by left.
  split; [exact Hh|]. split; [exact Hv|]. split; [reflexivity|]. split; [exact Hin|].
  apply (Error_records_have_standard_names custom_error (VObject 0) 3
           [ErrorSerialization "Error" (Some "boom")] (Reference 0)
           "Error" (Some "boom") Hh Hv); [simpl; lia|reflexivity|exact Hin].
Defined.

(** X7: the properties of an Array record come in own-property order: the
    indices that are present, ascending, then [length], then the other
    keys; the [length] property holds the number that is also the [length]
    of the record. *)
Theorem Array_record_properties (h : list obj) v fuel objects c length properties :
  heap_wf h → value_wf h v → List.length h + 2 ≤ fuel →
  structuredSerialize fuel h v = Ok (TopLevel objects c) →
  ArraySerialization length properties ∈ objects →
  ∃ l props,
    reachable h v (VObject l) ∧ h !! l = Some (ArrayObject length props)
    ∧ properties.*1
      = filter (λ k, is_array_index k) props.*1 ++ ["length"]
        ++ filter (λ k, ¬ is_array_index k) props.*1
    ∧ ("length", Primitive PT_number (Number_toString (NumInt (Z.of_nat length))))
      ∈ properties.
Proof.
  intros Hh Hv Hfuel Hrun Hr.
  destruct (serialized_envelope_record h v fuel objects c _ Hh Hv Hfuel Hrun Hr)
    as (keys & l & o & Hreach & Hl & Hrec).
  destruct o as [| | |[|]| | | | | | |len props| | | | | | |]; simpl in Hrec; try done;
    try (by destruct (mapM _ _)); try (by destruct (serialized_child _ _)).
  rewrite filter_hasOwnProperty in Hrec.
  destruct (mapM _ _) as [cs|] eqn:Ecs; [|done]. injection Hrec as <- <-.
  exists l, props. split; [done|]. split; [done|]. split.
  - by rewrite (mapM_names _ _ _ _ Ecs).
  - destruct (mapM_Some_elem _ _ _ "length" Ecs) as (e & He & Hin).
    { unfold getOwnPropertyNames. rewrite !elem_of_app, list_elem_of_singleton. tauto. }
    change (Reflect_get (ArrayObject len props) "length")
      with (VNumber (NumInt (Z.of_nat len))) in He.
    cbn in He. by injection He as <-.
Qed.

Lemma Array_record_properties_witness :
  heap_wf sparse_array ∧ value_wf sparse_array (VObject 0)
  ∧ structuredSerialize 3 sparse_array (VObject 0)
    = Ok (TopLevel [ArraySerialization 3 [("0", Primitive PT_number "1");
                                          ("2", Primitive PT_number "3");
                                          ("length", Primitive PT_number "3")]]
            (Reference 0))
  ∧ ∃ l props,
      reachable sparse_array (VObject 0) (VObject l)
      ∧ sparse_array !! l = Some (ArrayObject 3 props)
      ∧ [("0", Primitive PT_number "1"); ("2", Primitive PT_number "3");
         ("length", Primitive PT_number "3")].*1
        = filter (λ k, is_array_index k) props.*1 ++ ["length"]
          ++ filter (λ k, ¬ is_array_index k) props.*1
      ∧ ("length", Primitive PT_number (Number_toString (NumInt (Z.of_nat 3))))
        ∈ [("0", Primitive PT_number "1"); ("2", Primitive PT_number "3");
           ("length", Primitive PT_number "3")].
Proof.
  assert (heap_wf sparse_array) as Hh by (apply (bool_decide_unpack _); vm_compute; exact I).
  assert (value_wf sparse_array (VObject 0)) as Hv by (simpl; lia).
  split; [exact Hh|]. split; [exact Hv|]. split; [reflexivity|].
  apply (Array_record_properties sparse_array (VObject 0) 3
           [ArraySerialization 3 [("0", Primitive PT_number "1");
                                  ("2", Primitive PT_number "3");
                                  ("length", Primitive PT_number "3")]]
           (Reference 0) 3 _ Hh Hv);
    [simpl; lia|reflexivity|left].
Defined.

(** ** The record array as the deserializer reads it *)

(** X19: on an envelope within the model of the host, written by the
    serializer or not, [structuredDeserialize] comes back, with a value or
    with an error, and the depth of its calls stays within the number of
    records plus one: an id is registered before the children of its record
    are decoded, so no record is entered twice along a chain of calls. *)
Theorem structuredDeserialize_terminates objects c fuel :
  modelled_envelope objects → List.length objects + 1 ≤ fuel →
  is_Ok (structuredDeserialize fuel (TopLevel objects c))
  ∨ is_Throw (structuredDeserialize fuel (TopLevel objects c)).
Proof.
  intros Hmod Hfuel. unfold structuredDeserialize.
  destruct (deserialize_returns objects fuel Hmod c [] ∅ (ready_empty _))
    as [[[[v h] m] ->]|[e ->]].
  - left. rewrite map_size_empty. lia.
  - left. by eexists.
  - right. by exists e.
Qed.

Lemma structuredDeserialize_terminates_witness :
  modelled_envelope [MapSerialization [(Primitive PT_bigint "7", Reference 0)];
                     SetSerialization [Reference 0; Reference 1; Reference 1]]
  ∧ (is_Ok (structuredDeserialize 3
              (TopLevel [MapSerialization [(Primitive PT_bigint "7", Reference 0)];
                         SetSerialization [Reference 0; Reference 1; Reference 1]]
                 (Reference 1)))
     ∨ is_Throw (structuredDeserialize 3
                   (TopLevel [MapSerialization [(Primitive PT_bigint "7", Reference 0)];
                              SetSerialization [Reference 0; Reference 1; Reference 1]]
                      (Reference 1)))).
Proof.
  assert (modelled_envelope [MapSerialization [(Primitive PT_bigint "7", Reference 0)];
                             SetSerialization [Reference 0; Reference 1; Reference 1]])
    as Hmod by (repeat (apply Forall_cons; split); try apply Forall_nil_2; done).
  split; [exact Hmod|].
  apply (structuredDeserialize_terminates _ (Reference 1) 3 Hmod). simpl. lia.
Defined.

Lemma foldM_Ok_impl {A S} (step step' : S → A → outcome S) l :
  (∀ s x s', step s x = Ok s' → step' s x = Ok s') →
  ∀ s s', foldM step s l = Ok s' → foldM step' s l = Ok s'.
Proof.
  intros Hstep. induction l as [|x l IH]; intros s s'; simpl; [done|].
  intros (s1 & H1 & Hrest)%bind_Ok. rewrite (Hstep _ _ _ H1). simpl. by apply IH.
Qed.

Section more_records.
Context (objects extra : list ComplexSerialization).

Section body.
Context (self self' : ChildSerialization → list ComplexSerialization → list obj → gmap nat value
                      → outcome (value * list obj * gmap nat value)).
Context (Hself : ∀ c h m r, self c objects h m = Ok r → self' c (objects ++ extra) h m = Ok r).

Lemma body_more_records c h m r :
  structuredDeserializeInternal_body self c objects h m = Ok r →
  structuredDeserializeInternal_body self' c (objects ++ extra) h m = Ok r.
Proof.
  unfold structuredDeserializeInternal_body.
  destruct c as [primitiveType s|id]; [done|].
  destruct (m !! id) as [u|]; [done|].
  destruct (objects !! id) as [r0|] eqn:Hid; [|done].
  rewrite (lookup_app_l_Some _ _ _ _ Hid).
  destruct r0; try done; simpl.
  - destruct (typedArrayConstructor typedArrayName) as [kind| | |]; simpl; try done.
    destruct (self arrayBufferSerialized objects h m) as [[[ab h1] m1]| | |] eqn:Hb;
      simpl; try done.
    by rewrite (Hself _ _ _ _ Hb).
  - intros ([h1 m1] & Hloop & Hk)%bind_Ok.
    eapply foldM_Ok_impl in Hloop; [rewrite Hloop; exact Hk|].
    intros [h2 m2] [k v] s'. simpl.
    intros ([[dk h3] m3] & Hk1 & Hrest)%bind_Ok. rewrite (Hself _ _ _ _ Hk1). simpl.
    apply bind_Ok in Hrest as ([[dv h4] m4] & Hv1 & Hrest). by rewrite (Hself _ _ _ _ Hv1).
  - intros ([h1 m1] & Hloop & Hk)%bind_Ok.
    eapply foldM_Ok_impl in Hloop; [rewrite Hloop; exact Hk|].
    intros [h2 m2] v s'. simpl.
    intros ([[dv h4] m4] & Hv1 & Hrest)%bind_Ok. by rewrite (Hself _ _ _ _ Hv1).
  - destruct (Array_new length) as [array| | |]; simpl; try done.
    intros ([h1 m1] & Hloop & Hk)%bind_Ok.
    eapply foldM_Ok_impl in Hloop; [rewrite Hloop; exact Hk|].
    intros [h2 m2] [k v] s'. simpl.
    intros ([[dv h4] m4] & Hv1 & Hrest)%bind_Ok. by rewrite (Hself _ _ _ _ Hv1).
  - intros ([h1 m1] & Hloop & Hk)%bind_Ok.
    eapply foldM_Ok_impl in Hloop; [rewrite Hloop; exact Hk|].
    intros [h2 m2] [k v] s'. simpl.
    intros ([[dv h4] m4] & Hv1 & Hrest)%bind_Ok. by rewrite (Hself _ _ _ _ Hv1).
Qed.

End body.

Lemma deserialize_more_records fuel : ∀ c h m r,
  structuredDeserializeInternal fuel c objects h m = Ok r →
  structuredDeserializeInternal fuel c (objects ++ extra) h m = Ok r.
Proof.
  induction fuel as [|fuel IH]; intros c h m r; [done|].
  cbn [structuredDeserializeInternal]. by apply body_more_records.
Qed.

End more_records.

(** X9: records that are added at the end of the record array change
    nothing: when [structuredDeserialize] returns a value for an envelope,
    it returns the same value and the same objects with more records after
    those of the envelope. *)
Theorem added_records_ignored objects extra c fuel v (h : list obj) :
  structuredDeserialize fuel (TopLevel objects c) = Ok (v, h) →
  structuredDeserialize fuel (TopLevel (objects ++ extra) c) = Ok (v, h).
Proof.
  unfold structuredDeserialize. intros ([[v0 h0] m0] & Hrun & [= <- <-])%bind_Ok.
  by rewrite (deserialize_more_records objects extra fuel _ _ _ _ Hrun).
Qed.

Lemma added_records_ignored_witness :
  structuredDeserialize 2 (TopLevel [BooleanSerialization "true"] (Reference 0))
  = Ok (VObject 0, [BooleanObject true])
  ∧ structuredDeserialize 2
      (TopLevel ([BooleanSerialization "true"] ++ [SetSerialization [Reference 9]])
         (Reference 0))
    = Ok (VObject 0, [BooleanObject true]).
Proof.
  split; [reflexivity|].
  apply (added_records_ignored [BooleanSerialization "true"] [SetSerialization [Reference 9]]
           (Reference 0) 2 (VObject 0) [BooleanObject true]).
  reflexivity.
Defined.

(** ** Views *)

Section encoded_reaches.
Context (h : list obj) (v : value) (c : ChildSerialization)
  (memory : list (value * ComplexSerialization)).
Context (Hh : heap_wf h) (Henc : encoded h v c memory).

(** A path of the value graph is a path of the records. *)
Lemma reachable_reaches u w :
  reachable h u w → reachable h v u →
  ∀ cu cw, serialized_child (memory_keys memory) u = Some cu →
           serialized_child (memory_keys memory) w = Some cw →
           reaches (memory_values memory) cu cw.
Proof.
  induction 1 as [u|l o x w Hl Hx Hreach IH]; intros Hu cu cw Hcu Hcw.
  - rewrite Hcu in Hcw. injection Hcw as <-. constructor.
  - destruct (encoded_id h v c memory Henc l (mk_is_Some _ _ Hcu))
      as (id & o' & r & Hid & Hl' & Hr & Hrec).
    rewrite Hl in Hl'. injection Hl' as <-.
    unfold serialized_child in Hcu. rewrite Hid in Hcu. injection Hcu as <-.
    assert (reachable h v x) as Hvx.
    { eapply reachable_trans; [exact Hu|]. eapply reachable_child; [done..|constructor]. }
    destruct (encoded_closed h v c memory Hh Henc x Hvx) as [cx Hcx].
    eapply reaches_child; [exact Hr| |by eapply IH].
    eapply serialized_record_nodes; [|done..]. by eapply obj_wf_lookup.
Qed.

End encoded_reaches.

(** X10: a DataView is accepted by the serializer and never comes back:
    when a graph with a DataView anywhere in it serializes, the envelope is
    one on which [structuredDeserialize] returns no value, whatever the
    fuel. *)
Theorem DataView_never_decodes (h : list obj) v fuel env l buffer byteOffset byteLength fuel' :
  heap_wf h → value_wf h v → List.length h + 2 ≤ fuel →
  reachable h v (VObject l) →
  h !! l = Some (ArrayBufferViewObject DataView buffer byteOffset byteLength) →
  structuredSerialize fuel h v = Ok env →
  ∀ r, structuredDeserialize fuel' env ≠ Ok r.
Proof.
  intros Hh Hv Hfuel Hreach Hl (c & memory & Hrun & ->)%structuredSerialize_inv [v' h'] Hdec.
  pose proof (serialize_encoded h fuel v Hh Hv Hfuel) as Henc. rewrite Hrun in Henc.
  destruct (encoded_closed h v c memory Hh Henc _ Hreach) as [cl Hcl].
  destruct (encoded_id h v c memory Henc l (mk_is_Some _ _ Hcl))
    as (id & o & r & Hid & Hl' & Hr & Hrec).
  rewrite Hl in Hl'. injection Hl' as <-.
  pose proof Henc as (_ & Hc & _).
  pose proof (reachable_reaches h v c memory Hh Henc v (VObject l) Hreach
                (reachable_refl _ _) c cl Hc Hcl) as Hpath.
  destruct c as [primitiveType s|id0].
  { inversion Hpath; subst. unfold serialized_child in Hcl. by rewrite Hid in Hcl. }
  simpl in Hdec. apply structuredDeserialize_inv in Hdec as (m' & Hdec).
  apply deserialize_spec in Hdec; [|apply instances_ok_empty].
  destruct (reaches_resolved _ _ _ _ _ Hdec cl Hpath) as [u Hu].
  unfold serialized_child in Hcl. rewrite Hid in Hcl. injection Hcl as <-.
  destruct Hdec as (_ & _ & _ & Hnew & _).
  destruct (Hnew id u (lookup_empty _) Hu) as (r' & Hr' & Hdecoded).
  rewrite Hr in Hr'. injection Hr' as <-.
  simpl in Hrec. destruct (serialized_child _ (VObject buffer)); [|done].
  injection Hrec as <-. destruct Hdecoded as (l' & o' & _ & _ & _ & Ho').
  by simpl in Ho'.
Qed.

Lemma DataView_never_decodes_witness :
  heap_wf shared_buffer ∧ value_wf shared_buffer (VObject 0)
  ∧ reachable shared_buffer (VObject 0) (VObject 1)
  ∧ shared_buffer !! 1 = Some (ArrayBufferViewObject DataView 3 0 4)
  ∧ structuredSerialize 6 shared_buffer (VObject 0)
    = Ok (TopLevel
            [ArraySerialization 2
               [("0", Reference 2); ("1", Reference 3); ("length", Primitive PT_number "2")];
             ArrayBufferSerialization 4 "0,0,0,0";
             TypedArraySerialization "DataView" 0 4 (Reference 1);
             TypedArraySerialization "Uint8Array" 0 4 (Reference 1)]
            (Reference 0))
  ∧ ∀ r, structuredDeserialize 9
           (TopLevel
              [ArraySerialization 2
                 [("0", Reference 2); ("1", Reference 3); ("length", Primitive PT_number "2")];
               ArrayBufferSerialization 4 "0,0,0,0";
               TypedArraySerialization "DataView" 0 4 (Reference 1);
               TypedArraySerialization "Uint8Array" 0 4 (Reference 1)]
              (Reference 0)) ≠ Ok r.
Proof.
  assert (heap_wf shared_buffer) as Hh by (apply (bool_decide_unpack _); vm_compute; exact I).
  assert (value_wf shared_buffer (VObject 0)) as Hv by (simpl; lia).
  assert (reachable shared_buffer (VObject 0) (VObject 1)) as Hreach.
  { eapply reachable_child; [reflexivity| |constructor]. simpl. set_solver. }
  split; [exact Hh|]. split; [exact Hv|]. split; [exact Hreach|].
  split; [reflexivity|]. split; [reflexivity|].
  apply (DataView_never_decodes shared_buffer (VObject 0) 6 _ 1 3 0 4 9 Hh Hv);
    [simpl; lia|exact Hreach|reflexivity|reflexivity].
Defined.

(** X11: a typed array alone with its buffer.  The serializer writes the
    buffer as record 0 and the view as record 1, with its byte offset and
    its byte length.  The deserializer passes that byte length to the
    constructor as the number of elements: the view that comes back spans
    [BYTES_PER_ELEMENT] times the bytes of the original, over the same
    bytes of data, and where that does not fit the buffer the deserializer
    throws a RangeError. *)
Theorem typed_array_length_scaled (h : list obj) l kind buffer byteOffset byteLength data
    fuel fuel' :
  h !! l = Some (ArrayBufferViewObject kind buffer byteOffset byteLength) →
  h !! buffer = Some (ArrayBufferObject data) →
  kind ≠ DataView → byteOffset `mod` BYTES_PER_ELEMENT kind = 0 →
  2 ≤ fuel → 2 ≤ fuel' →
  structuredSerialize fuel h (VObject l)
  = Ok (TopLevel
          [ArrayBufferSerialization (List.length data) (join "," (byte_toString <$> data));
           TypedArraySerialization (constructor_name kind) byteOffset byteLength (Reference 0)]
          (Reference 1))
  ∧ structuredDeserialize fuel'
      (TopLevel
         [ArrayBufferSerialization (List.length data) (join "," (byte_toString <$> data));
          TypedArraySerialization (constructor_name kind) byteOffset byteLength (Reference 0)]
         (Reference 1))
    = if decide (byteOffset + byteLength * BYTES_PER_ELEMENT kind ≤ List.length data)
      then Ok (VObject 1,
               [ArrayBufferObject data;
                ArrayBufferViewObject kind 0 byteOffset
                  (byteLength * BYTES_PER_ELEMENT kind)])
      else Throw (RangeError "Invalid typed array length").
Proof.
  intros Hl Hb Hkind Hmod Hfuel Hfuel'.
  destruct fuel as [|[|fuel]]; [lia|lia|]. destruct fuel' as [|[|fuel']]; [lia|lia|].
  assert (buffer ≠ l) as Hne by (intros ->; congruence).
  split.
  - unfold structuredSerialize. cbn [structuredSerializeInternal].
    unfold structuredSerializeInternal_body. simpl. rewrite Hl. simpl. rewrite Hb. simpl.
    rewrite decide_True by done. simpl.
    rewrite !(decide_False (P := VObject buffer = VObject l)) by congruence. simpl.
    rewrite decide_False by congruence. rewrite decide_True by done. reflexivity.
  - unfold structuredDeserialize. cbn [structuredDeserializeInternal].
    unfold structuredDeserializeInternal_body. simpl.
    rewrite (typedArrayConstructor_name kind Hkind). simpl.
    rewrite ArrayBuffer_data_inv. unfold TypedArray_new. simpl.
    rewrite Hmod. simpl. rewrite !lookup_empty. simpl.
    destruct (decide (byteOffset + byteLength * BYTES_PER_ELEMENT kind ≤ List.length data))
      as [Hfit|Hfit].
    + rewrite (proj2 (Nat.ltb_ge _ _)) by lia. reflexivity.
    + rewrite (proj2 (Nat.ltb_lt _ _)) by lia. reflexivity.
Qed.

Lemma typed_array_length_scaled_witness :
  wide_view !! 0 = Some (ArrayBufferViewObject Int16Array 1 0 4)
  ∧ wide_view !! 1 = Some (ArrayBufferObject [x00; x00; x00; x00])
  ∧ Int16Array ≠ DataView ∧ 0 `mod` BYTES_PER_ELEMENT Int16Array = 0
  ∧ structuredSerialize 2 wide_view (VObject 0)
    = Ok (TopLevel
            [ArrayBufferSerialization (List.length [x00; x00; x00; x00])
               (join "," (byte_toString <$> [x00; x00; x00; x00]));
             TypedArraySerialization (constructor_name Int16Array) 0 4 (Reference 0)]
            (Reference 1))
  ∧ structuredDeserialize 2
      (TopLevel
         [ArrayBufferSerialization (List.length [x00; x00; x00; x00])
            (join "," (byte_toString <$> [x00; x00; x00; x00]));
          TypedArraySerialization (constructor_name Int16Array) 0 4 (Reference 0)]
         (Reference 1))
    = if decide (0 + 4 * BYTES_PER_ELEMENT Int16Array ≤ List.length [x00; x00; x00; x00])
      then Ok (VObject 1,
               [ArrayBufferObject [x00; x00; x00; x00];
                ArrayBufferViewObject Int16Array 0 0 (4 * BYTES_PER_ELEMENT Int16Array)])
      else Throw (RangeError "Invalid typed array length").
Proof.
  split; [reflexivity|]. split; [reflexivity|]. split; [done|]. split; [reflexivity|].
  apply (typed_array_length_scaled wide_view 0 Int16Array 1 0 4 [x00; x00; x00; x00] 2 2);
    [reflexivity|reflexivity|done|reflexivity|lia|lia].
Defined.

(** * The codec without references: the serializer *)

(** ** The loops over the members of a container *)


Lemma map_loop_outcome self (entries : list (value * value)) : ∀ acc m0,
  Legacy.loop_outcome self (entries ≫= λ e, [e.1; e.2]) m0
    (λ ss, Legacy.MapSerialization (acc ++ Legacy.pairs ss))
    (foldM (λ '(serialized, memory) '(key, val),
       '(serializedKey, memory) ← self key memory;
       '(serializedVal, memory) ← self val memory;
       Ok (Legacy.push_mapData (serializedKey, serializedVal) serialized, memory))
       (Legacy.MapSerialization acc, m0) entries).
Proof.
  induction entries as [|[k v] entries IH]; intros acc m0.
  { left. exists [], m0. simpl. rewrite app_nil_r. split; [done|constructor]. }
  cbn [foldM]. rewrite bind_cons. cbn [fst snd app].
  destruct (self k m0) as [[sk m1]| | |] eqn:Hk;
    try (right; split; [done|]; exists [], k; eexists _, m0, [];
         split; [done|]; split; [constructor|by rewrite Hk]).
  cbn [mbind outcome_bind].
  destruct (self v m1) as [[sv m2]| | |] eqn:Hv;
    try (right; split; [done|]; exists [k], v; eexists _, m1, [sk];
         split; [done|]; split; [by repeat econstructor|by rewrite Hv]).
  cbn [mbind outcome_bind Legacy.push_mapData].
  destruct (IH (acc ++ [(sk, sv)]) m2)
    as [(ss & m' & Hr & Hch)|(Hno & xs1 & x & xs2 & m3 & ss1 & Hxs & Hch & Hx)].
  - left. exists (sk :: sv :: ss), m'. rewrite Hr. cbn [Legacy.pairs].
    rewrite <- app_assoc. split; [done|]. by repeat econstructor.
  - right. split; [done|]. exists (k :: v :: xs1), x, xs2, m3, (sk :: sv :: ss1).
    rewrite Hxs. split; [done|]. split; [by repeat econstructor|done].
Qed.

Lemma set_loop_outcome self (elements : list value) : ∀ acc m0,
  Legacy.loop_outcome self elements m0
    (λ ss, Legacy.SetSerialization (acc ++ ss))
    (foldM (λ '(serialized, memory) val,
       '(serializedVal, memory) ← self val memory;
       Ok (Legacy.push_setData serializedVal serialized, memory))
       (Legacy.SetSerialization acc, m0) elements).
Proof.
  induction elements as [|v elements IH]; intros acc m0.
  { left. exists [], m0. simpl. rewrite app_nil_r. split; [done|constructor]. }
  cbn [foldM].
  destruct (self v m0) as [[sv m1]| | |] eqn:Hv;
    try (right; split; [done|]; exists [], v; eexists _, m0, [];
         split; [done|]; split; [constructor|by rewrite Hv]).
  cbn [mbind outcome_bind Legacy.push_setData].
  destruct (IH (acc ++ [sv]) m1)
    as [(ss & m' & Hr & Hch)|(Hno & xs1 & x & xs2 & m3 & ss1 & Hxs & Hch & Hx)].
  - left. exists (sv :: ss), m'. rewrite Hr, <- app_assoc. split; [done|].
    by econstructor.
  - right. split; [done|]. exists (v :: xs1), x, xs2, m3, (sv :: ss1).
    split; [by rewrite Hxs|]. split; [by econstructor|done].
Qed.

Lemma properties_loop_outcome self o (mk : list (string * Legacy.Serialization) → Legacy.Serialization)
    (names : list string) :
  (∀ acc e, Legacy.push_properties e (mk acc) = mk (acc ++ [e])) →
  ∀ acc m0,
  Legacy.loop_outcome self
    (Reflect_get o <$> filter (λ name, hasOwnProperty o name) names) m0
    (λ ss, mk (acc ++ zip (filter (λ name, hasOwnProperty o name) names) ss))
    (foldM (λ '(serialized, memory) ownPropertyName,
       if hasOwnProperty o ownPropertyName then
         let inputValue := Reflect_get o ownPropertyName in
         '(outputValue, memory) ← self inputValue memory;
         Ok (Legacy.push_properties (ownPropertyName, outputValue) serialized, memory)
       else Ok (serialized, memory))
       (mk acc, m0) names).
Proof.
  intros Hpush. cbv zeta. induction names as [|name names IH]; intros acc m0.
  { left. exists [], m0. simpl. rewrite app_nil_r. split; [done|constructor]. }
  cbn [foldM]. rewrite filter_cons.
  destruct (hasOwnProperty o name) eqn:Hown.
  2: { rewrite decide_False by (by intros []). apply IH. }
  rewrite decide_True by done. rewrite fmap_cons.
  destruct (self (Reflect_get o name) m0) as [[sv m1]| | |] eqn:Hv;
    try (right; split; [done|]; exists [], (Reflect_get o name); eexists _, m0, [];
         split; [done|]; split; [constructor|by rewrite Hv]).
  cbn [mbind outcome_bind]. rewrite Hpush.
  destruct (IH (acc ++ [(name, sv)]) m1)
    as [(ss & m' & Hr & Hch)|(Hno & xs1 & x & xs2 & m3 & ss1 & Hxs & Hch & Hx)].
  - left. exists (sv :: ss), m'. rewrite Hr. cbn [zip zip_with]. rewrite <- app_assoc.
    split; [done|]. by econstructor.
  - right. split; [done|]. exists (Reflect_get o name :: xs1), x, xs2, m3, (sv :: ss1).
    rewrite Hxs. split; [done|]. split; [by econstructor|done].
Qed.

(** ** Positions in a graph *)

Lemma reachable_follow (h : list obj) v w : reachable h v w → ∃ path, follow h v path = Some w.
Proof.
  induction 1 as [v|l o c w Hl Hc _ [path Hpath]]; [by exists []|].
  apply list_elem_of_lookup in Hc as [i Hi]. exists (i :: path).
  cbn [follow]. rewrite Hl. cbn [mbind option_bind]. by rewrite Hi.
Qed.

Lemma follow_child (h : list obj) l o i x path :
  h !! l = Some o → children o !! i = Some x →
  follow h (VObject l) (i :: path) = follow h x path.
Proof. intros Hl Hi. cbn [follow]. rewrite Hl. cbn [mbind option_bind]. by rewrite Hi. Qed.

Lemma tree_graph_primitive (h : list obj) v : (∀ l, v ≠ VObject l) → Legacy.tree_graph h v.
Proof.
  intros Hv [|i p1] p2 l; simpl; [intros [= ->]; by destruct (Hv l)|].
  destruct v; try done. by destruct (Hv l0).
Qed.




Lemma shared_not_tree (h : list obj) v : Legacy.shared h v → ¬ Legacy.tree_graph h v.
Proof. intros (p1 & p2 & l & Hne & H1 & H2) Htree. by apply Hne, (Htree _ _ l). Qed.

Lemma shared_child (h : list obj) l o i x :
  h !! l = Some o → children o !! i = Some x → Legacy.shared h x →
  Legacy.shared h (VObject l).
Proof.
  intros Hl Hi (p1 & p2 & w & Hne & H1 & H2). exists (i :: p1), (i :: p2), w.
  rewrite !(follow_child h l o i x) by done. split; [congruence|done].
Qed.

Lemma shared_cycle (h : list obj) l o i x :
  h !! l = Some o → children o !! i = Some x → reachable h x (VObject l) →
  Legacy.shared h (VObject l).
Proof.
  intros Hl Hi [path Hpath]%reachable_follow. exists [], (i :: path), l.
  rewrite (follow_child h l o i x) by done. done.
Qed.

Lemma shared_children (h : list obj) l o i j x y w :
  h !! l = Some o → i ≠ j → children o !! i = Some x → children o !! j = Some y →
  reachable h x (VObject w) → reachable h y (VObject w) → Legacy.shared h (VObject l).
Proof.
  intros Hl Hij Hi Hj [p Hp]%reachable_follow [q Hq]%reachable_follow.
  exists (i :: p), (j :: q), w.
  rewrite (follow_child h l o i x), (follow_child h l o j y) by done.
  split; [congruence|done].
Qed.

Lemma NoDup_concat_lookup {X} (L : list (list X)) : ∀ i j a b w,
  NoDup (mjoin L) → L !! i = Some a → L !! j = Some b → i ≠ j → w ∈ a → w ∈ b → False.
Proof.
  induction L as [|a0 L IH]; intros i j a b w Hnd Hi Hj Hij Ha Hb; [done|].
  simpl in Hnd. apply NoDup_app in Hnd as (_ & Hdisj & Hnd).
  assert (∀ k c, L !! k = Some c → w ∈ c → w ∈ mjoin L) as Hin.
  { intros k c Hk Hc. apply list_elem_of_join. exists c. split; [done|].
    by eapply list_elem_of_lookup_2. }
  destruct i as [|i], j as [|j]; simpl in Hi, Hj; try done.
  - injection Hi as <-. by eapply Hdisj, Hin.
  - injection Hj as <-. by eapply Hdisj, Hin.
  - eapply (IH i j a b w); eauto.
Qed.

Lemma tree_graph_intro (h : list obj) l o news :
  h !! l = Some o → Forall2 (Legacy.reached h) (children o) news →
  NoDup (VObject l :: mjoin news) → Forall (Legacy.tree_graph h) (children o) →
  Legacy.tree_graph h (VObject l).
Proof.
  intros Hl Hnews [Hroot Hnd]%NoDup_cons Htrees.
  assert (∀ i x path w, children o !! i = Some x → follow h x path = Some (VObject w) →
            ∃ new, news !! i = Some new ∧ VObject w ∈ new) as Hin.
  { intros i x path w Hi Hpath.
    destruct (Forall2_lookup_l _ _ _ _ _ Hnews Hi) as (new & Hnew & Hreached).
    exists new. split; [done|]. apply Hreached. exists w. split; [done|].
    by eapply follow_reachable. }
  assert (∀ i x path, children o !! i = Some x → follow h x path ≠ Some (VObject l)) as Hcycle.
  { intros i x path Hi Hpath. destruct (Hin _ _ _ _ Hi Hpath) as (new & Hnew & Hw).
    apply Hroot. apply list_elem_of_join. exists new. split; [done|].
    by eapply list_elem_of_lookup_2. }
  intros [|i p] [|j q] w; simpl; rewrite ?Hl; simpl.
  - done.
  - intros [= <-]. destruct (children o !! j) as [y|] eqn:Hj; simpl; [|done].
    intros Hq. by destruct (Hcycle _ _ _ Hj Hq).
  - destruct (children o !! i) as [x|] eqn:Hi; simpl; [|done].
    intros Hp [= <-]. by destruct (Hcycle _ _ _ Hi Hp).
  - destruct (children o !! i) as [x|] eqn:Hi; simpl; [|done].
    destruct (children o !! j) as [y|] eqn:Hj; simpl; [|done].
    intros Hp Hq. destruct (decide (i = j)) as [->|Hij].
    + rewrite Hi in Hj. injection Hj as <-. f_equal.
      rewrite Forall_lookup in Htrees. by apply (Htrees _ _ Hi _ _ w).
    + destruct (Hin _ _ _ _ Hi Hp) as (nx & Hnx & Hwx).
      destruct (Hin _ _ _ _ Hj Hq) as (ny & Hny & Hwy).
      destruct (NoDup_concat_lookup news i j nx ny (VObject w)); done.
Qed.

Lemma reached_primitive (h : list obj) x new :
  Legacy.reached h x new → (∀ l, x ≠ VObject l) → new = [].
Proof.
  intros Hnew Hx. destruct new as [|w new]; [done|].
  destruct (proj1 (Hnew w)) as (l & -> & Hreach); [left|].
  apply reachable_primitive in Hreach; [|done]. by destruct (Hx l).
Qed.

Lemma reached_object (h : list obj) l o news :
  h !! l = Some o → Forall2 (Legacy.reached h) (children o) news →
  ∀ w, w ∈ VObject l :: mjoin news ↔ ∃ l', w = VObject l' ∧ reachable h (VObject l) w.
Proof.
  intros Hl Hnews w. rewrite elem_of_cons, list_elem_of_join. split.
  - intros [->|(new & Hw & Hnew)]; [exists l; split; [done|constructor]|].
    apply list_elem_of_lookup in Hnew as [i Hi].
    destruct (Forall2_lookup_r _ _ _ _ _ Hnews Hi) as (x & Hx & Hreached).
    apply Hreached in Hw as (l' & -> & Hreach). exists l'. split; [done|].
    eapply reachable_child; [done|by eapply list_elem_of_lookup_2|done].
  - intros (l' & -> & Hreach).
    inversion Hreach as [|l0 o' c w' Hl' Hc Hcw]; subst; [by left|]. right.
    rewrite Hl in Hl'. injection Hl' as <-.
    apply list_elem_of_lookup in Hc as [i Hi].
    destruct (Forall2_lookup_l _ _ _ _ _ Hnews Hi) as (new & Hnew & Hreached).
    exists new. split; [apply Hreached; eauto|by eapply list_elem_of_lookup_2].
Qed.

(** ** The calls on the members and the children *)

Lemma lookup_without_middle {X} (A c B : list X) a x :
  (A ++ c ++ B) !! a = Some x → x ∉ c →
  ∃ i, (A ++ B) !! i = Some x
       ∧ a = (if decide (i < List.length A) then i else i + List.length c).
Proof.
  intros Ha Hx. destruct (decide (a < List.length A)) as [Hlt|Hge].
  - exists a. rewrite lookup_app_l in Ha by done. rewrite lookup_app_l by done.
    by rewrite decide_True.
  - rewrite lookup_app_r in Ha by lia.
    destruct (decide (a - List.length A < List.length c)) as [Hc|Hc].
    + rewrite lookup_app_l in Ha by done. destruct Hx. by eapply list_elem_of_lookup_2.
    + rewrite lookup_app_r in Ha by lia. exists (a - List.length c).
      rewrite lookup_app_r by lia. rewrite decide_False by lia. split; [|lia].
      rewrite <- Ha. f_equal. lia.
Qed.

Lemma calls_shape (h : list obj) o :
  obj_wf h o → is_container o →
  ∃ A B c, children o = A ++ B ∧ Legacy.calls o = A ++ c ++ B
           ∧ Forall (λ x, ¬ has_identity x) c.
Proof.
  intros Hwf Hcont.
  destruct o as [b|n|s|t|source flags|data|kind buffer byteOffset byteLength
                |entries|elements|name message|len props| | | | | | |props];
    try (by destruct Hcont);
    try (by destruct Hcont).
  - exists (children (MapObject entries)), [], []. rewrite !app_nil_r.
    split; [done|]. split; [done|constructor].
  - exists elements, [], []. rewrite !app_nil_r.
    split; [done|]. split; [done|constructor].
  - destruct Hwf as (Hprops & Hlen & _). destruct Hprops as (Hnd & Hord & _).
    set (o := ArrayObject len props).
    exists (filter (λ e : string * value, is_array_index e.1) props).*2,
      (filter (λ e : string * value, ¬ is_array_index e.1) props).*2,
      [VNumber (NumInt (Z.of_nat len))].
    split; [|split].
    + cbn [children o]. rewrite <- fmap_app. f_equal.
      by apply (own_property_order_split_by fst).
    + unfold Legacy.calls, o. rewrite filter_hasOwnProperty. unfold getOwnPropertyNames.
      rewrite !fmap_app, !filter_keys. rewrite list_fmap_singleton.
      assert (∀ sub : list (string * value), (∀ e, e ∈ sub → e ∈ props) →
                Reflect_get (ArrayObject len props) <$> sub.*1 = sub.*2) as Hsub.
      { intros sub Hin. rewrite <- (own_entries_Array len props sub Hnd Hlen Hin) at 2.
        generalize (sub.*1). intros ks. by rewrite <- list_fmap_compose. }
      rewrite !Hsub by (intros e [_ He]%list_elem_of_filter; exact He).
      by f_equal.
    + apply Forall_singleton. by intros [].
  - destruct Hwf as (Hnd & Hord & _).
    exists props.*2, [], []. rewrite !app_nil_r. split; [done|]. split; [|constructor].
    unfold Legacy.calls. rewrite filter_hasOwnProperty. unfold getOwnPropertyNames.
    pose proof (own_entries_Plain props props Hnd (λ e He, He)) as Hsub.
    apply (f_equal (fmap snd)) in Hsub. rewrite <- Hsub.
    generalize (props.*1). intros ks. by rewrite <- list_fmap_compose.
Qed.

(** ** The table *)

Lemma legacy_memory_set_fresh (m : Legacy.Memory) v : v ∉ m → Legacy.memory_set m v = m ++ [v].
Proof. intros Hv. unfold Legacy.memory_set. by rewrite bool_decide_eq_false_2. Qed.

Lemma keys_ok_length (h : list obj) m : Legacy.keys_ok h m → List.length m ≤ List.length h.
Proof.
  intros [Hnd Hk].
  assert (m ⊆+ (VObject <$> seq 0 (List.length h))) as Hs.
  { apply NoDup_submseteq; [done|]. intros k Hin.
    rewrite Forall_forall in Hk. destruct (Hk k Hin) as (l & -> & Hl).
    apply list_elem_of_fmap. exists l. split; [done|]. apply elem_of_seq. lia. }
  apply submseteq_length in Hs. by rewrite length_fmap, length_seq in Hs.
Qed.

Lemma keys_ok_snoc (h : list obj) m l :
  Legacy.keys_ok h m → VObject l ∉ m → l < List.length h → Legacy.keys_ok h (m ++ [VObject l]).
Proof.
  intros [Hnd Hk] Hl Hlt. split.
  - apply NoDup_app. split_and!; [done| |apply NoDup_singleton].
    intros x Hx ->%list_elem_of_singleton. done.
  - apply Forall_app. split; [done|]. apply Forall_singleton. eauto.
Qed.

Lemma keys_ok_length_fresh (h : list obj) m l :
  Legacy.keys_ok h m → VObject l ∉ m → l < List.length h → List.length m < List.length h.
Proof.
  intros Hok Hl Hlt. pose proof (keys_ok_length h _ (keys_ok_snoc h m l Hok Hl Hlt)) as H.
  rewrite length_app in H. simpl in H. lia.
Qed.

(** ** What a call comes to *)

Section legacy_serializer_body.
Context (h : list obj) (Hwf : heap_wf h).
Context (self : value → Legacy.Memory → outcome (Legacy.Serialization * Legacy.Memory))
  (fuel : nat).
Context (Hself : ∀ x m, value_wf h x → Legacy.keys_ok h m →
                   Legacy.serialize_post fuel h x m (self x m)).

Lemma chain_post xs m0 m' ss :
  Legacy.chain self xs m0 m' ss → Forall (value_wf h) xs → Legacy.keys_ok h m0 →
  ∃ news, m' = m0 ++ mjoin news ∧ Legacy.keys_ok h m'
    ∧ Forall2 (Legacy.reached h) xs news
    ∧ Forall (Legacy.tree_graph h) xs
    ∧ Forall (λ x, ∀ w e, reachable h x w → ¬ rejects h w e) xs.
Proof.
  induction 1 as [m|x xs m s m1 m' ss Hx _ IH]; intros Hxs Hok.
  { exists []. simpl. rewrite app_nil_r. by split_and!. }
  apply Forall_cons in Hxs as [Hxwf Hxs].
  pose proof (Hself x m Hxwf Hok) as Hpost. rewrite Hx in Hpost.
  destruct Hpost as (new & -> & Hok1 & Hnew & Hrej & Htree & _).
  destruct (IH Hxs Hok1) as (news & -> & Hok' & Hnews & Htrees & Hrejs).
  exists (new :: news). simpl. rewrite <- app_assoc in Hok' |- *.
  split_and!; try done; by constructor.
Qed.

Lemma primitive_post v m s n :
  (∀ l, v ≠ VObject l) → (∀ id, v ≠ VSymbol id) → Legacy.keys_ok h m →
  Legacy.serialize_post n h v m (Ok (s, m)).
Proof.
  intros Hv Hsym Hok. exists []. rewrite app_nil_r. split_and!; try done.
  - intros w. split; [by intros ?%elem_of_nil|].
    intros (l & -> & Hreach). apply reachable_primitive in Hreach; [|done]. by destruct (Hv l).
  - intros w e Hreach. apply reachable_primitive in Hreach as ->; [|done].
    destruct v as [| |b|n0|z|s0|sy|l0]; simpl; try tauto;
      [by destruct (Hsym sy)|by destruct (Hv l0)].
  - by apply tree_graph_primitive.
  - intros l data ->. by destruct (Hv l).
Qed.

(** A call on an object returns to the caller a table that holds, after
    the entries it was called with, the object and what its children left. *)
Lemma object_post l o m s news new n :
  h !! l = Some o → Legacy.keys_ok h (m ++ new) → new ≡ₚ VObject l :: mjoin news →
  Forall2 (Legacy.reached h) (children o) news →
  Forall (Legacy.tree_graph h) (children o) →
  Forall (λ x, ∀ w e, reachable h x w → ¬ rejects h w e) (children o) →
  unsupported_message o = None → o ≠ DateObject InvalidDate →
  (∀ data, o = ArrayBufferObject data →
     ∃ size arrayBufferData, s = Legacy.ArrayBufferSerialization size arrayBufferData) →
  Legacy.serialize_post n h (VObject l) m (Ok (s, m ++ new)).
Proof.
  intros Hl Hok Hperm Hnews Htrees Hrejs Hsup Hdate Hbuf.
  exists new. split_and!; try done.
  - intros w. rewrite Hperm. by apply (reached_object h l o).
  - intros w e Hreach Hrej.
    inversion Hreach as [|l0 o' c w' Hl' Hc Hcw]; subst.
    + destruct Hrej as (o' & Hl' & [(message & Hm & _)|[Ho' _]]);
        rewrite Hl in Hl'; injection Hl' as <-; congruence.
    + rewrite Hl in Hl'. injection Hl' as <-.
      rewrite Forall_forall in Hrejs. by apply (Hrejs c Hc w e).
  - apply (tree_graph_intro h l o news); [done|done| |done].
    rewrite <- Hperm. destruct Hok as [Hnd _]. by apply NoDup_app in Hnd as (_ & _ & ?).
  - intros l' data [= <-] Hl'. rewrite Hl in Hl'. injection Hl' as ->. by eapply Hbuf.
Qed.

(** A call on a child that does not return ends the call on the object. *)
Lemma child_failure l o m x m1 r :
  h !! l = Some o → VObject l ∉ m →
  x ∈ children o ∨ ¬ has_identity x →
  (∀ w, w ∈ m1 → w ∈ m ∨ w = VObject l
                 ∨ (reachable h x w → Legacy.shared h (VObject l))) →
  Legacy.keys_ok h m1 →
  (Legacy.enough (S fuel) h m (VObject l) → Legacy.enough fuel h m1 x) →
  (∀ a, r ≠ Ok a) → Legacy.serialize_post fuel h x m1 r →
  Legacy.serialize_post (S fuel) h (VObject l) m r.
Proof.
  intros Hl Hfresh Hx Hm1 Hok1 Hfuel Hno Hpost.
  assert (∀ w, has_identity w → reachable h x w → x ∈ children o) as Hchild.
  { intros w Hw Hreach. destruct Hx as [Hx|Hx]; [done|].
    apply reachable_primitive in Hreach as ->; [done|]. intros lx ->. by apply Hx. }
  assert (∀ w, has_identity w → reachable h x w → reachable h (VObject l) w) as Hsub.
  { intros w Hw Hreach. eapply reachable_child; [done|by eapply Hchild|done]. }
  assert (Legacy.shared h x → Legacy.shared h (VObject l)) as Hshared.
  { intros Hs. destruct Hx as [Hx|Hx].
    - apply list_elem_of_lookup in Hx as [i Hi]. by eapply shared_child.
    - destruct (shared_not_tree h x Hs). apply tree_graph_primitive.
      intros lx ->. by apply Hx. }
  destruct r as [a|e| |]; [by destruct (Hno a)| | |done].
  - destruct Hpost as [[-> [(w & Hw & Hreach)|Hnot]]|(w & Hreach & Hrej)].
    + assert (has_identity w) as Hid.
      { destruct Hok1 as [_ Hk]. rewrite Forall_forall in Hk.
        by destruct (Hk w Hw) as (l' & -> & _). }
      left. split; [done|]. destruct (Hm1 w Hw) as [Hin|[->|Hdisj]].
      * left. exists w. split; [done|]. by apply Hsub.
      * right.
        pose proof (Hchild _ Hid Hreach) as [i Hi]%list_elem_of_lookup.
        by eapply shared_cycle.
      * right. by apply Hdisj.
    + left. split; [done|]. right. by apply Hshared.
    + right. exists w. split; [|done]. apply Hsub; [|done]. by eapply rejects_has_identity.
  - simpl in *. intros Hen. by apply Hpost, Hfuel.
Qed.

Lemma container_post l o m mk r :
  h !! l = Some o → is_container o → VObject l ∉ m → Legacy.keys_ok h m →
  Legacy.loop_outcome self (Legacy.calls o) (m ++ [VObject l]) mk r →
  Legacy.serialize_post (S fuel) h (VObject l) m r.
Proof.
  intros Hl Hcont Hfresh Hok Hloop.
  pose proof (obj_wf_lookup h Hwf l o Hl) as Howf.
  pose proof (lookup_lt_Some _ _ _ Hl) as Hlt.
  pose proof (keys_ok_snoc h m l Hok Hfresh Hlt) as Hok0.
  destruct (calls_shape h o Howf Hcont) as (A & B & c & Hchildren & Hcalls & Hc).
  assert (Forall (value_wf h) (Legacy.calls o)) as Hcwf.
  { pose proof (obj_wf_children h o Howf) as Hch. rewrite Hchildren in Hch.
    apply Forall_app in Hch as [HA HB]. rewrite Hcalls. rewrite !Forall_app. split_and!; try done.
    eapply Forall_impl; [exact Hc|]. intros x Hx.
    destruct x as [| |b|n0|z|s0|sy|lx]; try done. }
  destruct Hloop as [(ss & m' & -> & Hchain)|(Hno & xs1 & x & xs2 & m1 & ss1 & Hxs & Hchain & Hx)].
  - destruct (chain_post _ _ _ _ Hchain Hcwf Hok0) as (news & -> & Hok' & Hnews & Htrees & Hrejs).
    rewrite Hcalls in Hnews, Htrees, Hrejs.
    apply Forall2_app_inv_l in Hnews as (nA & nrest & HnA & Hnrest & ->).
    apply Forall2_app_inv_l in Hnrest as (nc & nB & Hnc & HnB & ->).
    assert (mjoin nc = []) as Hcnil.
    { clear -Hnc Hc. induction Hnc as [|x new c nc Hx _ IH]; [done|].
      apply Forall_cons in Hc as [Hxp Hc]. simpl.
      rewrite (reached_primitive h x new Hx), IH; [done|done|].
      intros lx ->. by apply Hxp. }
    rewrite !Forall_app in Htrees, Hrejs.
    destruct Htrees as (HtA & _ & HtB). destruct Hrejs as (HrA & _ & HrB).
    rewrite <- app_assoc. rewrite <- app_assoc in Hok'.
    apply (object_post l o m _ (nA ++ nB)); try done.
    + simpl. by rewrite !join_app, Hcnil.
    + rewrite Hchildren. by apply Forall2_app.
    + rewrite Hchildren. by apply Forall_app.
    + rewrite Hchildren. by apply Forall_app.
    + by destruct o.
    + by destruct o.
    + intros data ->. by destruct Hcont.
  - assert (Forall (value_wf h) xs1 ∧ value_wf h x) as [Hwf1 Hxwf].
    { rewrite Hxs in Hcwf. apply Forall_app in Hcwf as [? [? _]%Forall_cons]. done. }
    destruct (chain_post _ _ _ _ Hchain Hwf1 Hok0) as (news & -> & Hok1 & Hnews & _ & _).
    assert (x ∈ children o ∨ ¬ has_identity x) as Hxc.
    { assert (x ∈ Legacy.calls o) as Hin.
      { rewrite Hxs. apply elem_of_app. right. left. }
      rewrite Hcalls in Hin. rewrite Hchildren.
      rewrite !elem_of_app in Hin. rewrite elem_of_app.
      destruct Hin as [?|[Hin|?]]; [left; by left| |left; by right].
      right. rewrite Forall_forall in Hc. by apply Hc. }
    apply (child_failure l o m x ((m ++ [VObject l]) ++ mjoin news) r); try done.
    + intros w Hw. rewrite <- app_assoc in Hw. simpl in Hw.
      apply elem_of_app in Hw as [?|Hw]; [by left|].
      apply elem_of_cons in Hw as [->|Hw]; [right; by left|]. right. right.
      intros Hreach.
      apply list_elem_of_join in Hw as (new & Hw & Hnew).
      apply list_elem_of_lookup in Hnew as [a Ha].
      destruct (Forall2_lookup_r _ _ _ _ _ Hnews Ha) as (y & Hy & Hreached).
      apply Hreached in Hw as (lw & -> & Hyw).
      assert (Legacy.calls o !! a = Some y) as Hcy.
      { rewrite Hxs. by apply lookup_app_l_Some. }
      assert (Legacy.calls o !! List.length xs1 = Some x) as Hcx.
      { rewrite Hxs. by rewrite list_lookup_middle. }
      pose proof (lookup_lt_Some _ _ _ Hy) as Halt.
      assert (∀ z, reachable h z (VObject lw) → z ∉ c) as Hnotc.
      { intros z Hz Hin. rewrite Forall_forall in Hc. specialize (Hc z Hin).
        apply reachable_primitive in Hz; [subst z; by apply Hc|]. intros lz ->. by apply Hc. }
      rewrite Hcalls in Hcy, Hcx.
      destruct (lookup_without_middle A c B _ _ Hcy (Hnotc _ Hyw)) as (i & Hi & Hai).
      destruct (lookup_without_middle A c B _ _ Hcx (Hnotc _ Hreach)) as (j & Hj & Hbj).
      rewrite <- Hchildren in Hi, Hj.
      apply (shared_children h l o i j y x lw); try done.
      intros ->. rewrite <- Hai in Hbj. lia.
    + intros [Hen|(_ & l' & data & [= <-] & Hl')].
      * left. rewrite !length_app. simpl in *. lia.
      * rewrite Hl in Hl'. injection Hl' as ->. by destruct Hcont.
    + rewrite <- Hx. by apply Hself.
Qed.

Lemma body_post v m :
  value_wf h v → Legacy.keys_ok h m →
  Legacy.serialize_post (S fuel) h v m (Legacy.structuredSerializeInternal_body self h v m).
Proof.
  intros Hv Hok. unfold Legacy.structuredSerializeInternal_body, Legacy.memory_has.
  case_bool_decide as Hhas.
  { left. split; [done|]. left. exists v. split; [done|constructor]. }
  destruct v as [| |b|n|z|s|sy|l]; try (by apply primitive_post).
  { right. exists (VSymbol sy). split; [constructor|done]. }
  simpl in Hv. destruct (lookup_lt_is_Some_2 _ _ Hv) as [o Ho]. rewrite Ho.
  cbn [of_option mbind outcome_bind].
  pose proof (obj_wf_lookup h Hwf _ _ Ho) as Howf.
  assert (∀ s, children o = [] → unsupported_message o = None → o ≠ DateObject InvalidDate →
            (∀ data, o = ArrayBufferObject data →
               ∃ size arrayBufferData, s = Legacy.ArrayBufferSerialization size arrayBufferData) →
            Legacy.serialize_post (S fuel) h (VObject l) m
              (Ok (s, Legacy.memory_set m (VObject l)))) as Hleaf.
  { intros s Hch Hsup Hdate Hbuf. rewrite legacy_memory_set_fresh by done.
    apply (object_post l o m s [] [VObject l]); try done.
    - by apply keys_ok_snoc.
    - rewrite Hch. constructor.
    - rewrite Hch. constructor.
    - rewrite Hch. constructor. }
  assert (∀ message, unsupported_message o = Some message →
            Legacy.serialize_post (S fuel) h (VObject l) m (Throw (TypeError message)))
    as Hunsupported.
  { intros message Hm. right. exists (VObject l). split; [constructor|].
    exists o. split; [done|]. left. by exists message. }
  destruct o as [b|n|s|[ms|]|source flags|data|kind buffer byteOffset byteLength
                |entries|elements|name message|len props| | | | | | |props];
    cbn [mbind outcome_bind Date_toISOString];
    try (by apply Hunsupported); try (by apply Hleaf).
  - right. exists (VObject l). split; [constructor|]. exists (DateObject InvalidDate).
    split; [done|]. by right.
  - apply Hleaf; try done. intros data' [= <-]. eauto.
  - destruct Howf as (data & Hb & _).
    assert (value_wf h (VObject buffer)) as Hbwf by (simpl; by eapply lookup_lt_Some).
    pose proof (Hself (VObject buffer) m Hbwf Hok) as Hpost.
    assert (∀ r, (∀ a, r ≠ Ok a) → Legacy.serialize_post fuel h (VObject buffer) m r →
              Legacy.serialize_post (S fuel) h (VObject l) m r) as Hfail.
    { intros r Hno Hr.
      apply (child_failure l (ArrayBufferViewObject kind buffer byteOffset byteLength)
               m (VObject buffer) m); try done.
      - left. simpl. by left.
      - intros w Hw. by left.
      - intros [Hen|(_ & l' & data' & [= <-] & Hl')]; [|congruence].
        right. split; [|by exists buffer, data].
        pose proof (keys_ok_length_fresh h m l Hok Hhas Hv). lia. }
    destruct (self (VObject buffer) m) as [[bs m1]|e| |] eqn:Hcall;
      cbn [mbind outcome_bind]; try (by apply Hfail).
    destruct Hpost as (newb & -> & Hok1 & Hnewb & Hrejb & Htreeb & Hbuf).
    destruct (Hbuf buffer data eq_refl Hb) as (size & d & ->). cbn [mbind outcome_bind].
    assert (VObject l ∉ m ++ newb) as Hfresh.
    { intros [?|Hin]%elem_of_app; [done|]. apply Hnewb in Hin as (l' & [= <-] & Hreach).
      apply (reachable_ArrayBuffer h buffer data) in Hreach; [|done]. congruence. }
    rewrite legacy_memory_set_fresh by done. rewrite <- app_assoc.
    apply (object_post l (ArrayBufferViewObject kind buffer byteOffset byteLength)
             m _ [newb] (newb ++ [VObject l])); try done.
    + rewrite app_assoc. by apply keys_ok_snoc.
    + simpl. rewrite app_nil_r. symmetry. apply Permutation_cons_append.
    + simpl. constructor; [done|constructor].
    + simpl. by apply Forall_singleton.
    + simpl. by apply Forall_singleton.
  - rewrite legacy_memory_set_fresh by done.
    eapply container_post; [done|done|done|done|]. apply (map_loop_outcome self entries []).
  - rewrite legacy_memory_set_fresh by done.
    eapply container_post; [done|done|done|done|]. apply (set_loop_outcome self elements []).
  - rewrite legacy_memory_set_fresh by done.
    eapply container_post; [done|done|done|done|].
    by apply (properties_loop_outcome self (ArrayObject len props)
                (Legacy.ArraySerialization len) _ (λ _ _, eq_refl) []).
  - rewrite legacy_memory_set_fresh by done.
    eapply container_post; [done|done|done|done|].
    by apply (properties_loop_outcome self (PlainObject props)
                Legacy.ObjectSerialization _ (λ _ _, eq_refl) []).
Qed.

End legacy_serializer_body.

Lemma legacy_serialize_post (h : list obj) fuel :
  heap_wf h →
  ∀ v m, value_wf h v → Legacy.keys_ok h m →
  Legacy.serialize_post fuel h v m (Legacy.structuredSerializeInternal fuel h v m).
Proof.
  intros Hwf. induction fuel as [|fuel IH]; intros v m Hv Hok.
  - simpl. pose proof (keys_ok_length h m Hok). intros [?|[? _]]; lia.
  - cbn [Legacy.structuredSerializeInternal]. by apply body_post.
Qed.

Lemma keys_ok_nil (h : list obj) : Legacy.keys_ok h [].
Proof. split; constructor. Qed.

Lemma legacy_serialize_Ok (h : list obj) v fuel s :
  heap_wf h → value_wf h v → Legacy.structuredSerialize fuel h v = Ok s →
  ∃ m, Legacy.structuredSerializeInternal fuel h v [] = Ok (s, m)
       ∧ Legacy.keys_ok h m ∧ Legacy.reached h v m
       ∧ (∀ w e, reachable h v w → ¬ rejects h w e) ∧ Legacy.tree_graph h v.
Proof.
  intros Hwf Hv Hrun. unfold Legacy.structuredSerialize in Hrun.
  pose proof (legacy_serialize_post h fuel Hwf v [] Hv (keys_ok_nil h)) as Hpost.
  destruct (Legacy.structuredSerializeInternal fuel h v []) as [[s' m]|e| |]; try done.
  injection Hrun as ->. exists m. split; [done|].
  destruct Hpost as (new & -> & Hok & Hnew & Hrej & Htree & _). done.
Qed.

(** ** What the serializer accepts *)

(** X12: the older serializer returns a serialization exactly for the
    trees it supports: no value of the graph is one it rejects (a Symbol, a
    function, an invalid Date and the like), and no object is found at two
    positions of the graph.  So it refuses not only a cycle but also an
    object that is merely referred to twice. *)
Theorem legacy_serializes_trees (h : list obj) v fuel :
  heap_wf h → value_wf h v → List.length h + 2 ≤ fuel →
  (∃ s, Legacy.structuredSerialize fuel h v = Ok s)
  ↔ (Legacy.tree_graph h v ∧ ∀ w e, reachable h v w → ¬ rejects h w e).
Proof.
  intros Hwf Hv Hfuel. split.
  - intros [s Hs]. destruct (legacy_serialize_Ok h v fuel s Hwf Hv Hs) as (m & _ & _ & _ & ? & ?).
    done.
  - intros [Htree Hrej]. unfold Legacy.structuredSerialize.
    pose proof (legacy_serialize_post h fuel Hwf v [] Hv (keys_ok_nil h)) as Hpost.
    destruct (Legacy.structuredSerializeInternal fuel h v []) as [[s m]|e| |]; simpl.
    + by exists s.
    + destruct Hpost as [[_ [(w & Hw & _)|Hnot]]|(w & Hreach & Hw)].
      * by apply elem_of_nil in Hw.
      * by destruct (shared_not_tree h v Hnot).
      * by destruct (Hrej w e).
    + destruct Hpost. left. simpl. lia.
    + done.
Qed.

Lemma legacy_serializes_trees_witness :
  heap_wf nested_tree ∧ value_wf nested_tree (VObject 0)
  ∧ ((∃ s, Legacy.structuredSerialize 9 nested_tree (VObject 0) = Ok s)
     ↔ (Legacy.tree_graph nested_tree (VObject 0)
        ∧ ∀ w e, reachable nested_tree (VObject 0) w → ¬ rejects nested_tree w e)).
Proof.
  assert (heap_wf nested_tree) as Hh by (apply (bool_decide_unpack _); vm_compute; exact I).
  assert (value_wf nested_tree (VObject 0)) as Hv by (simpl; lia).
  split; [exact Hh|]. split; [exact Hv|].
  apply (legacy_serializes_trees nested_tree (VObject 0) 9 Hh Hv). simpl. lia.
Defined.

(** X13: on a well-formed heap, where every view is over an ArrayBuffer
    (a SharedArrayBuffer is not in the model), with fuel above the number
    of objects plus one, the older serializer returns a serialization or
    throws; what it throws is the TypeError for a circular reference, and
    then some object is found at two positions of the graph, or the error
    of a value of the graph that it rejects. *)
Theorem legacy_serialize_errors (h : list obj) v fuel :
  heap_wf h → value_wf h v → List.length h + 2 ≤ fuel →
  (∃ s, Legacy.structuredSerialize fuel h v = Ok s)
  ∨ (Legacy.structuredSerialize fuel h v
     = Throw (TypeError "Cannot serialize a circular reference")
     ∧ ∃ path1 path2 l, path1 ≠ path2 ∧ follow h v path1 = Some (VObject l)
                        ∧ follow h v path2 = Some (VObject l))
  ∨ (∃ w e, Legacy.structuredSerialize fuel h v = Throw e
            ∧ reachable h v w ∧ rejects h w e).
Proof.
  intros Hwf Hv Hfuel. unfold Legacy.structuredSerialize.
  pose proof (legacy_serialize_post h fuel Hwf v [] Hv (keys_ok_nil h)) as Hpost.
  destruct (Legacy.structuredSerializeInternal fuel h v []) as [[s m]|e| |]; simpl.
  - left. by exists s.
  - right. destruct Hpost as [[-> [(w & Hw & _)|Hnot]]|(w & Hreach & Hw)].
    + by apply elem_of_nil in Hw.
    + left. by split.
    + right. by exists w, e.
  - destruct Hpost. left. simpl. lia.
  - done.
Qed.

Lemma legacy_serialize_errors_witness :
  heap_wf shared_record ∧ value_wf shared_record (VObject 0)
  ∧ ((∃ s, Legacy.structuredSerialize 4 shared_record (VObject 0) = Ok s)
     ∨ (Legacy.structuredSerialize 4 shared_record (VObject 0)
        = Throw (TypeError "Cannot serialize a circular reference")
        ∧ ∃ path1 path2 l, path1 ≠ path2
            ∧ follow shared_record (VObject 0) path1 = Some (VObject l)
            ∧ follow shared_record (VObject 0) path2 = Some (VObject l))
     ∨ (∃ w e, Legacy.structuredSerialize 4 shared_record (VObject 0) = Throw e
               ∧ reachable shared_record (VObject 0) w ∧ rejects shared_record w e)).
Proof.
  assert (heap_wf shared_record) as Hh by (apply (bool_decide_unpack _); vm_compute; exact I).
  assert (value_wf shared_record (VObject 0)) as Hv by (simpl; lia).
  split; [exact Hh|]. split; [exact Hv|].
  apply (legacy_serialize_errors shared_record (VObject 0) 4 Hh Hv). simpl. lia.
Defined.

(** * The codec without references: the round trip *)

(** ** The deserializer, case by case *)

Lemma legacy_deserialize_Map mapData (h0 : list obj) :
  Legacy.structuredDeserializeInternal (Legacy.MapSerialization mapData) h0
  = h ← foldM (λ h '(serializedKey, serializedValue),
           '(deserializedKey, h) ← Legacy.structuredDeserializeInternal serializedKey h;
           '(deserializedValue, h) ← Legacy.structuredDeserializeInternal serializedValue h;
           Ok (Map_prototype_set h (VObject (List.length h0)) deserializedKey deserializedValue))
           (h0 ++ [MapObject []]) mapData;
    Ok (VObject (List.length h0), h).
Proof. reflexivity. Qed.

Lemma legacy_deserialize_Set setData (h0 : list obj) :
  Legacy.structuredDeserializeInternal (Legacy.SetSerialization setData) h0
  = h ← foldM (λ h serializedValue,
           '(deserializedValue, h) ← Legacy.structuredDeserializeInternal serializedValue h;
           Ok (Set_prototype_add h (VObject (List.length h0)) deserializedValue))
           (h0 ++ [SetObject []]) setData;
    Ok (VObject (List.length h0), h).
Proof. reflexivity. Qed.

Lemma legacy_deserialize_Array length properties (h0 : list obj) :
  Legacy.structuredDeserializeInternal (Legacy.ArraySerialization length properties) h0
  = array ← Array_new length;
    h ← foldM (λ h '(key, serializedValue),
           '(deserializedValue, h) ← Legacy.structuredDeserializeInternal serializedValue h;
           Reflect_set h (VObject (List.length h0)) key deserializedValue)
           (h0 ++ [array]) properties;
    Ok (VObject (List.length h0), h).
Proof.
  cbn [Legacy.structuredDeserializeInternal]. by destruct (Array_new length).
Qed.

Lemma legacy_deserialize_Object properties (h0 : list obj) :
  Legacy.structuredDeserializeInternal (Legacy.ObjectSerialization properties) h0
  = h ← foldM (λ h '(key, serializedValue),
           '(deserializedValue, h) ← Legacy.structuredDeserializeInternal serializedValue h;
           Reflect_set h (VObject (List.length h0)) key deserializedValue)
           (h0 ++ [PlainObject []]) properties;
    Ok (VObject (List.length h0), h).
Proof. reflexivity. Qed.

Lemma legacy_deserialize_view name byteOffset byteLength s (h0 : list obj) :
  Legacy.structuredDeserializeInternal
    (Legacy.TypedArraySerialization name byteOffset byteLength s) h0
  = kind ← typedArrayConstructor name;
    '(arrayBuffer, h) ← Legacy.structuredDeserializeInternal s h0;
    typedArray ← TypedArray_new kind h arrayBuffer byteOffset byteLength;
    Ok (VObject (List.length h), h ++ [typedArray]).
Proof.
  cbn [Legacy.structuredDeserializeInternal].
  destruct (typedArrayConstructor name) as [kind| | |]; try done. cbn [mbind outcome_bind].
  destruct (Legacy.structuredDeserializeInternal s h0) as [[arrayBuffer h1]| | |]; try done.
  cbn [mbind outcome_bind].
  by destruct (TypedArray_new kind h1 arrayBuffer byteOffset byteLength).
Qed.

(** ** Writes to the container that is being filled *)

Lemma Map_prototype_set_middle (pre : list obj) done post k v :
  Map_prototype_set (pre ++ MapObject done :: post) (VObject (List.length pre)) k v
  = pre ++ MapObject (Map_set_entries k v done) :: post.
Proof.
  unfold Map_prototype_set. rewrite list_lookup_middle by done.
  rewrite insert_app_r_alt by lia. by rewrite Nat.sub_diag.
Qed.

Lemma Set_prototype_add_middle (pre : list obj) done post v :
  Set_prototype_add (pre ++ SetObject done :: post) (VObject (List.length pre)) v
  = pre ++ SetObject (Set_add_elements v done) :: post.
Proof.
  unfold Set_prototype_add. rewrite list_lookup_middle by done.
  rewrite insert_app_r_alt by lia. by rewrite Nat.sub_diag.
Qed.

Lemma Reflect_set_middle (pre : list obj) o post key v :
  Reflect_set (pre ++ o :: post) (VObject (List.length pre)) key v
  = o' ← Reflect_set_own o key v; Ok (pre ++ o' :: post).
Proof.
  unfold Reflect_set. rewrite list_lookup_middle by done.
  destruct (Reflect_set_own o key v) as [o'| | |]; try done. cbn [mbind outcome_bind].
  rewrite insert_app_r_alt by lia. by rewrite Nat.sub_diag.
Qed.

(** ** The numbering of the copies *)

Lemma numbering_prefix (f : nat → nat) (m new : list value) :
  (∀ i l, (m ++ new) !! i = Some (VObject l) → f l = i) →
  ∀ i l, m !! i = Some (VObject l) → f l = i.
Proof. intros Hf i l Hi. apply Hf. by apply lookup_app_l_Some. Qed.

Lemma numbering_inj (f : nat → nat) (m : list value) l1 l2 :
  (∀ i l, m !! i = Some (VObject l) → f l = i) →
  VObject l1 ∈ m → VObject l2 ∈ m → f l1 = f l2 → l1 = l2.
Proof.
  intros Hf [i1 H1]%list_elem_of_lookup [i2 H2]%list_elem_of_lookup Heq.
  rewrite (Hf _ _ H1), (Hf _ _ H2) in Heq. subst i2. rewrite H1 in H2. by injection H2.
Qed.

Lemma copied_lookup (h : list obj) f (m new rest : list value) (h0 hnew : list obj) l :
  Forall2 (Legacy.copied h f) new hnew →
  (∀ i l, (m ++ new ++ rest) !! i = Some (VObject l) → f l = i) →
  List.length h0 = List.length m → VObject l ∈ new →
  ∃ o, h !! l = Some o ∧ (h0 ++ hnew) !! f l = Some (rename_obj f (standard_error_name o)).
Proof.
  intros Hcopied Hf Hlen [i Hi]%list_elem_of_lookup.
  destruct (Forall2_lookup_l _ _ _ _ _ Hcopied Hi) as (o' & Ho' & l' & o & [= <-] & Hl & ->).
  exists o. split; [done|].
  assert (f l = List.length m + i) as ->.
  { apply Hf. rewrite lookup_app_r by lia.
    replace (List.length m + i - List.length m) with i by lia. by apply lookup_app_l_Some. }
  rewrite lookup_app_r by lia. by replace (List.length m + i - List.length h0) with i by lia.
Qed.

(** ** Decoding what a call has written *)

Section legacy_round_trip_body.
Context (h : list obj) (Hwf : heap_wf h) (f : nat → nat).
Context (self : value → Legacy.Memory → outcome (Legacy.Serialization * Legacy.Memory))
  (fuel : nat).
Context (Hpost : ∀ x m, value_wf h x → Legacy.keys_ok h m →
                   Legacy.serialize_post fuel h x m (self x m)).
Context (Hrt : ∀ x m s new,
           value_wf h x → Legacy.keys_ok h m → supported_graph h x →
           self x m = Ok (s, m ++ new) →
           (∀ i l, (m ++ new) !! i = Some (VObject l) → f l = i) →
           Legacy.decodes_to h f (List.length m) x s new).

Lemma call_decodes x m s m1 :
  value_wf h x → Legacy.keys_ok h m → supported_graph h x → self x m = Ok (s, m1) →
  ∃ new, m1 = m ++ new ∧ Legacy.keys_ok h m1 ∧ Legacy.reached h x new
    ∧ ((∀ i l, m1 !! i = Some (VObject l) → f l = i) →
       Legacy.decodes_to h f (List.length m) x s new).
Proof.
  intros Hx Hok Hsup Hcall. pose proof (Hpost x m Hx Hok) as Hp. rewrite Hcall in Hp.
  destruct Hp as (new & -> & Hok1 & Hnew & _). exists new. split_and!; try done.
  intros Hf. by apply Hrt.
Qed.

Lemma map_decode_loop (pre : list obj) (entries : list (value * value)) :
  ∀ m1 m' ss done post,
  Legacy.chain self (entries ≫= λ e, [e.1; e.2]) m1 m' ss →
  Forall (value_wf h) (entries ≫= λ e, [e.1; e.2]) →
  Forall (supported_graph h) (entries ≫= λ e, [e.1; e.2]) →
  Legacy.keys_ok h m1 →
  (∀ i l, m' !! i = Some (VObject l) → f l = i) →
  List.length (pre ++ MapObject done :: post) = List.length m1 →
  ∃ new hnew, m' = m1 ++ new ∧ Forall2 (Legacy.copied h f) new hnew
    ∧ foldM (λ h '(serializedKey, serializedValue),
         '(deserializedKey, h) ← Legacy.structuredDeserializeInternal serializedKey h;
         '(deserializedValue, h) ← Legacy.structuredDeserializeInternal serializedValue h;
         Ok (Map_prototype_set h (VObject (List.length pre)) deserializedKey deserializedValue))
         (pre ++ MapObject done :: post) (Legacy.pairs ss)
      = Ok (pre ++ MapObject (populate_map done (rename_entry f <$> entries))
              :: post ++ hnew).
Proof.
  induction entries as [|[k v] entries IH]; intros m1 m' ss done post Hchain Hwfs Hsups Hok Hf Hlen.
  { inversion Hchain; subst. exists [], []. rewrite !app_nil_r.
    split; [done|]. split; [constructor|done]. }
  rewrite bind_cons in Hchain, Hwfs, Hsups. cbn [fst snd app] in Hchain, Hwfs, Hsups.
  inversion Hchain as [|x1 xs1 ma sk m2 mb ss1 Hk Hchain1]; subst.
  inversion Hchain1 as [|x2 xs2 ma sv m3 mb ss2 Hv Hchain2]; subst.
  apply Forall_cons in Hwfs as [Hkwf Hwfs]. apply Forall_cons in Hwfs as [Hvwf Hwfs].
  apply Forall_cons in Hsups as [Hksup Hsups]. apply Forall_cons in Hsups as [Hvsup Hsups].
  destruct (call_decodes k m1 sk m2 Hkwf Hok Hksup Hk) as (nk & -> & Hok2 & _ & Hdk).
  destruct (call_decodes v _ sv m3 Hvwf Hok2 Hvsup Hv) as (nv & -> & Hok3 & _ & Hdv).
  destruct (chain_post h self fuel Hpost _ _ _ _ Hchain2 Hwfs Hok3) as (news & Hm' & _).
  assert (∀ i l, ((m1 ++ nk) ++ nv) !! i = Some (VObject l) → f l = i) as Hf3.
  { rewrite Hm' in Hf. exact (numbering_prefix f _ _ Hf). }
  pose proof (numbering_prefix _ _ _ Hf3) as Hf2.
  destruct (Hdk Hf2 (pre ++ MapObject done :: post) Hlen) as (hk & Hck & Edk).
  destruct (Hdv Hf3 ((pre ++ MapObject done :: post) ++ hk)) as (hv & Hcv & Edv).
  { pose proof (Forall2_length _ _ _ Hck).
    rewrite !length_app in Hlen. rewrite !length_app. cbn [List.length] in Hlen |- *. lia. }
  destruct (IH _ m' ss2 (Map_set_entries (rename_value f k) (rename_value f v) done)
              (post ++ hk ++ hv) Hchain2 Hwfs Hsups Hok3 Hf) as (new & hnew & -> & Hcn & Efold).
  { pose proof (Forall2_length _ _ _ Hck). pose proof (Forall2_length _ _ _ Hcv).
    rewrite !length_app in Hlen. rewrite !length_app. cbn [List.length] in Hlen |- *.
    rewrite !length_app. lia. }
  exists (nk ++ nv ++ new), (hk ++ hv ++ hnew). split; [by rewrite !app_assoc|].
  split; [by repeat apply Forall2_app|].
  cbn [Legacy.pairs foldM]. rewrite Edk. cbn [mbind outcome_bind]. rewrite Edv.
  cbn [mbind outcome_bind]. rewrite <- !app_assoc, <- app_comm_cons.
  rewrite Map_prototype_set_middle. rewrite Efold. by rewrite <- !app_assoc.
Qed.

Lemma set_decode_loop (pre : list obj) (elements : list value) :
  ∀ m1 m' ss done post,
  Legacy.chain self elements m1 m' ss →
  Forall (value_wf h) elements → Forall (supported_graph h) elements →
  Legacy.keys_ok h m1 →
  (∀ i l, m' !! i = Some (VObject l) → f l = i) →
  List.length (pre ++ SetObject done :: post) = List.length m1 →
  ∃ new hnew, m' = m1 ++ new ∧ Forall2 (Legacy.copied h f) new hnew
    ∧ foldM (λ h serializedValue,
         '(deserializedValue, h) ← Legacy.structuredDeserializeInternal serializedValue h;
         Ok (Set_prototype_add h (VObject (List.length pre)) deserializedValue))
         (pre ++ SetObject done :: post) ss
      = Ok (pre ++ SetObject (populate_set done (rename_value f <$> elements))
              :: post ++ hnew).
Proof.
  induction elements as [|v elements IH]; intros m1 m' ss done post Hchain Hwfs Hsups Hok Hf Hlen.
  { inversion Hchain; subst. exists [], []. rewrite !app_nil_r.
    split; [done|]. split; [constructor|done]. }
  inversion Hchain as [|x2 xs2 ma sv m3 mb ss2 Hv Hchain2]; subst.
  apply Forall_cons in Hwfs as [Hvwf Hwfs]. apply Forall_cons in Hsups as [Hvsup Hsups].
  destruct (call_decodes v _ sv m3 Hvwf Hok Hvsup Hv) as (nv & -> & Hok3 & _ & Hdv).
  destruct (chain_post h self fuel Hpost _ _ _ _ Hchain2 Hwfs Hok3) as (news & Hm' & _).
  assert (∀ i l, (m1 ++ nv) !! i = Some (VObject l) → f l = i) as Hf3.
  { rewrite Hm' in Hf. exact (numbering_prefix f _ _ Hf). }
  destruct (Hdv Hf3 (pre ++ SetObject done :: post) Hlen) as (hv & Hcv & Edv).
  destruct (IH _ m' ss2 (Set_add_elements (rename_value f v) done)
              (post ++ hv) Hchain2 Hwfs Hsups Hok3 Hf) as (new & hnew & -> & Hcn & Efold).
  { pose proof (Forall2_length _ _ _ Hcv).
    rewrite !length_app in Hlen. rewrite !length_app. cbn [List.length] in Hlen |- *.
    rewrite !length_app. lia. }
  exists (nv ++ new), (hv ++ hnew). split; [by rewrite !app_assoc|].
  split; [by apply Forall2_app|].
  cbn [foldM]. rewrite Edv. cbn [mbind outcome_bind]. rewrite <- !app_assoc, <- app_comm_cons.
  rewrite Set_prototype_add_middle. rewrite Efold. by rewrite <- !app_assoc.
Qed.

Lemma properties_decode_loop (pre : list obj) (o : obj) (names : list string) :
  ∀ m1 m' ss cur fin post,
  Legacy.chain self (Reflect_get o <$> names) m1 m' ss →
  Forall (value_wf h) (Reflect_get o <$> names) →
  Forall (supported_graph h) (Reflect_get o <$> names) →
  Legacy.keys_ok h m1 →
  (∀ i l, m' !! i = Some (VObject l) → f l = i) →
  List.length (pre ++ cur :: post) = List.length m1 →
  populate_properties cur
    ((λ name, (name, rename_value f (Reflect_get o name))) <$> names) = Ok fin →
  ∃ new hnew, m' = m1 ++ new ∧ Forall2 (Legacy.copied h f) new hnew
    ∧ foldM (λ h '(key, serializedValue),
         '(deserializedValue, h) ← Legacy.structuredDeserializeInternal serializedValue h;
         Reflect_set h (VObject (List.length pre)) key deserializedValue)
         (pre ++ cur :: post) (zip names ss)
      = Ok (pre ++ fin :: post ++ hnew).
Proof.
  induction names as [|name names IH];
    intros m1 m' ss cur fin post Hchain Hwfs Hsups Hok Hf Hlen Hfin.
  { inversion Hchain; subst. injection Hfin as <-. exists [], []. rewrite !app_nil_r.
    split; [done|]. split; [constructor|done]. }
  rewrite fmap_cons in Hchain, Hwfs, Hsups. rewrite fmap_cons in Hfin.
  inversion Hchain as [|x2 xs2 ma sv m3 mb ss2 Hv Hchain2]; subst.
  apply Forall_cons in Hwfs as [Hvwf Hwfs]. apply Forall_cons in Hsups as [Hvsup Hsups].
  unfold populate_properties in Hfin. cbn [foldM] in Hfin.
  apply bind_Ok in Hfin as (cur1 & Hset & Hfin). cbn [fst snd] in Hset.
  destruct (call_decodes _ _ sv m3 Hvwf Hok Hvsup Hv) as (nv & -> & Hok3 & _ & Hdv).
  destruct (chain_post h self fuel Hpost _ _ _ _ Hchain2 Hwfs Hok3) as (news & Hm' & _).
  assert (∀ i l, (m1 ++ nv) !! i = Some (VObject l) → f l = i) as Hf3.
  { rewrite Hm' in Hf. exact (numbering_prefix f _ _ Hf). }
  destruct (Hdv Hf3 (pre ++ cur :: post) Hlen) as (hv & Hcv & Edv).
  destruct (IH _ m' ss2 cur1 fin (post ++ hv) Hchain2 Hwfs Hsups Hok3 Hf)
    as (new & hnew & -> & Hcn & Efold); [|done|].
  { pose proof (Forall2_length _ _ _ Hcv).
    rewrite !length_app in Hlen. rewrite !length_app. cbn [List.length] in Hlen |- *.
    rewrite !length_app. lia. }
  exists (nv ++ new), (hv ++ hnew). split; [by rewrite !app_assoc|].
  split; [by apply Forall2_app|].
  cbn [zip zip_with foldM]. rewrite Edv. cbn [mbind outcome_bind].
  rewrite <- !app_assoc, <- app_comm_cons.
  rewrite Reflect_set_middle, Hset. cbn [mbind outcome_bind].
  rewrite Efold. by rewrite <- !app_assoc.
Qed.

Lemma calls_wf_supported l o v :
  h !! l = Some o → v = VObject l → supported_graph h v →
  ∀ x, x ∈ children o ∨ ¬ has_identity x → value_wf h x → supported_graph h x.
Proof.
  intros Hl -> Hsup x Hx _ w Hreach. destruct Hx as [Hx|Hx].
  - apply Hsup. by eapply reachable_child.
  - apply reachable_primitive in Hreach as ->; [|intros lx ->; by apply Hx].
    by destruct x.
Qed.

Lemma body_decodes v m s new :
  value_wf h v → Legacy.keys_ok h m → supported_graph h v →
  Legacy.structuredSerializeInternal_body self h v m = Ok (s, m ++ new) →
  (∀ i l, (m ++ new) !! i = Some (VObject l) → f l = i) →
  Legacy.decodes_to h f (List.length m) v s new.
Proof.
  intros Hv Hok Hsup Hrun Hf.
  pose proof (body_post h Hwf self fuel Hpost v m Hv Hok) as Hwhole. rewrite Hrun in Hwhole.
  destruct Hwhole as (new0 & Hnew0 & Hok' & Hreached & _).
  apply app_inv_head in Hnew0 as <-.
  unfold Legacy.structuredSerializeInternal_body, Legacy.memory_has in Hrun.
  case_bool_decide as Hhas; [done|].
  assert (∀ s0, Ok (s0, m) = Ok (s, m ++ new) →
            (∀ h0, Legacy.structuredDeserializeInternal s0 h0 = Ok (rename_value f v, h0)) →
            Legacy.decodes_to h f (List.length m) v s new) as Hprimitive.
  { intros s0 [= <- Hm] Hdec. rewrite <- (app_nil_r m) in Hm at 1.
    apply app_inv_head in Hm as <-. intros h0 _. exists []. split; [constructor|].
    by rewrite app_nil_r. }
  destruct v as [| |b|n|z|s0|sy|l]; try done;
    try (apply (Hprimitive _ Hrun); intros h0; cbn; unfold deserialize_primitive;
         by rewrite ?Boolean_toString_inv, ?Number_toString_inv, ?BigInt_Z_toString).
  simpl in Hv. destruct (lookup_lt_is_Some_2 _ _ Hv) as [o Ho]. rewrite Ho in Hrun.
  cbn [of_option mbind outcome_bind] in Hrun.
  pose proof (obj_wf_lookup h Hwf _ _ Ho) as Howf.
  assert (round_trips o) as Hrt'.
  { destruct (Hsup (VObject l) (reachable_refl _ _)) as (o' & Ho' & ?).
    rewrite Ho in Ho'. by injection Ho' as <-. }
  assert (∀ s0 o', Ok (s0, Legacy.memory_set m (VObject l)) = Ok (s, m ++ new) →
            (∀ h0, Legacy.structuredDeserializeInternal s0 h0
                   = Ok (VObject (List.length h0), h0 ++ [o'])) →
            o' = rename_obj f (standard_error_name o) →
            Legacy.decodes_to h f (List.length m) (VObject l) s new) as Hleaf.
  { intros s1 o' Heq Hdec ->. rewrite legacy_memory_set_fresh in Heq by done.
    injection Heq as <- Hm. apply app_inv_head in Hm as <-. intros h0 Hlen.
    exists [rename_obj f (standard_error_name o)]. split.
    - constructor; [by exists l, o|constructor].
    - rewrite Hdec. cbn [rename_value]. rewrite (Hf (List.length m) l), Hlen; [done|].
      by apply list_lookup_middle. }
  assert (∀ x, x ∈ children o ∨ ¬ has_identity x → value_wf h x → supported_graph h x)
    as Hsupx by (by apply (calls_wf_supported l o (VObject l))).
  assert (∀ l1 l2, reachable h (VObject l) (VObject l1) → reachable h (VObject l) (VObject l2) →
            f l1 = f l2 → l1 = l2) as Hinj.
  { intros l1 l2 H1 H2. apply (numbering_inj f (m ++ new)); [done|..];
      apply elem_of_app; right; apply Hreached; eauto. }
  assert (∀ x y, x ∈ children o → y ∈ children o →
            rename_value f x = rename_value f y → x = y) as Hinjc.
  { intros x y Hx Hy.
    apply (rename_value_inj (λ w, reachable h (VObject l) w)); [exact Hinj|..];
      cbv beta; (eapply reachable_child; [exact Ho| |apply reachable_refl]; done). }
  destruct o as [b|n|s0|[ms|]|source flags|data|kind buffer byteOffset byteLength
                |entries|elements|name message|len props| | | | | | |props];
    cbn [mbind outcome_bind Date_toISOString] in Hrun; try done.
  - eapply Hleaf; [exact Hrun| |]; [intros h0; cbn; by rewrite Boolean_toString_inv|done].
  - eapply Hleaf; [exact Hrun| |]; [intros h0; cbn; by rewrite Number_toString_inv|done].
  - eapply Hleaf; [exact Hrun| |]; [intros h0; by cbn|done].
  - eapply Hleaf; [exact Hrun| |]; [intros h0; cbn -[Date_new ISOString]; by rewrite Date_new_ISOString|done].
  - eapply Hleaf; [exact Hrun| |]; [intros h0; by cbn|done].
  - eapply Hleaf; [exact Hrun| |]; [intros h0; cbn -[fill_bytes split join replicate]; by rewrite ArrayBuffer_data_inv|done].
  - destruct Howf as (data & Hb & Hfit & _).
    assert (value_wf h (VObject buffer)) as Hbwf by (simpl; by eapply lookup_lt_Some).
    destruct (self (VObject buffer) m) as [[bs m1]| | |] eqn:Hcall; try done.
    cbn [mbind outcome_bind] in Hrun.
    destruct (call_decodes _ _ _ _ Hbwf Hok (Hsupx _ (or_introl (list_elem_of_here _ _)) Hbwf)
                Hcall) as (nb & -> & Hok1 & Hnb & Hdb).
    destruct bs as [| | | | | |size d| | | | | | |]; try done.
    cbn [mbind outcome_bind] in Hrun.
    assert (VObject l ∉ m ++ nb) as Hfresh.
    { intros [?|Hin]%elem_of_app; [done|]. apply Hnb in Hin as (l' & [= <-] & Hreach).
      apply (reachable_ArrayBuffer h buffer data) in Hreach; [|done]. congruence. }
    rewrite legacy_memory_set_fresh in Hrun by done.
    injection Hrun as <- Hm. rewrite <- app_assoc in Hm. apply app_inv_head in Hm as <-.
    intros h0 Hlen.
    assert (∀ i l, (m ++ nb) !! i = Some (VObject l) → f l = i) as Hfb.
    { rewrite app_assoc in Hf. exact (numbering_prefix f _ _ Hf). }
    destruct (Hdb Hfb h0 Hlen) as (hb & Hcb & Edb).
    destruct (copied_lookup h f m nb [VObject l] h0 hb buffer Hcb Hf Hlen)
      as (ob & Hob & Hlookup).
    { apply Hnb. exists buffer. split; [done|constructor]. }
    rewrite Hb in Hob. injection Hob as <-. cbn [standard_error_name rename_obj] in Hlookup.
    assert (BYTES_PER_ELEMENT kind = 1 ∧ kind ≠ DataView) as [Hbytes Hkind].
    { simpl in Hrt'. rewrite !elem_of_cons, elem_of_nil in Hrt'.
      destruct Hrt' as [->|[->|[->|[]]]]; by split. }
    exists (hb ++ [ArrayBufferViewObject kind (f buffer) byteOffset byteLength]). split.
    + apply Forall2_app; [done|]. constructor; [|constructor].
      exists l, (ArrayBufferViewObject kind buffer byteOffset byteLength). by split.
    + rewrite legacy_deserialize_view, (typedArrayConstructor_name kind Hkind).
      cbn [mbind outcome_bind]. rewrite Edb. cbn [mbind outcome_bind rename_value].
      unfold TypedArray_new. rewrite Hlookup, Hbytes, Nat.mod_1_r, Nat.mul_1_r.
      cbn [Nat.eqb negb]. rewrite (proj2 (Nat.ltb_ge _ _)) by lia.
      cbn [mbind outcome_bind]. rewrite <- app_assoc. do 3 f_equal.
      rewrite (Hf (List.length (m ++ nb)) l).
      * rewrite !length_app. by rewrite Hlen, (Forall2_length _ _ _ Hcb).
      * rewrite app_assoc. by apply list_lookup_middle.
  - rewrite legacy_memory_set_fresh in Hrun by done.
    destruct (map_loop_outcome self entries [] (m ++ [VObject l]))
      as [(ss & m'' & Heq & Hchain)|(Hno & _)]; [|by destruct (Hno _ Hrun)].
    assert (Ok (s, m ++ new) = Ok (Legacy.MapSerialization (Legacy.pairs ss), m'')) as Hs.
    { etrans; [symmetry; exact Hrun|exact Heq]. }
    injection Hs as -> <-. intros h0 Hlen.
    destruct (map_decode_loop h0 entries (m ++ [VObject l]) (m ++ new) ss [] [] Hchain)
      as (new' & hnew & Hm & Hcn & Efold); try done.
    + by apply (obj_wf_children h (MapObject entries)).
    + apply Forall_forall. intros x Hx. apply Hsupx; [by left|].
      pose proof (obj_wf_children h _ Howf) as Hall. rewrite Forall_forall in Hall.
      by apply Hall.
    + by apply keys_ok_snoc.
    + rewrite !length_app. simpl. lia.
    + rewrite <- app_assoc in Hm. apply app_inv_head in Hm as ->.
      exists (MapObject (rename_entry f <$> entries) :: hnew). split.
      * constructor; [by exists l, (MapObject entries)|done].
      * rewrite legacy_deserialize_Map, Efold. cbn [mbind outcome_bind rename_value app].
        rewrite populate_map_fresh.
        -- do 3 f_equal. rewrite (Hf (List.length m) l), Hlen; [done|].
           by apply list_lookup_middle.
        -- cbn [fmap list_fmap app]. destruct Howf as (Hnd & _).
           rewrite <- list_fmap_compose.
           rewrite (list_fmap_ext (fst ∘ rename_entry f) (rename_value f ∘ fst) entries)
             by done.
           rewrite list_fmap_compose. apply NoDup_fmap_2_strong; [|done].
           intros x y [ex [-> Hex]]%list_elem_of_fmap [ey [-> Hey]]%list_elem_of_fmap.
           apply Hinjc; simpl; apply list_elem_of_bind;
             [exists ex|exists ey]; (split; [left|done]).
  - rewrite legacy_memory_set_fresh in Hrun by done.
    destruct (set_loop_outcome self elements [] (m ++ [VObject l]))
      as [(ss & m'' & Heq & Hchain)|(Hno & _)]; [|by destruct (Hno _ Hrun)].
    assert (Ok (s, m ++ new) = Ok (Legacy.SetSerialization ss, m'')) as Hs.
    { etrans; [symmetry; exact Hrun|exact Heq]. }
    injection Hs as -> <-. intros h0 Hlen.
    destruct (set_decode_loop h0 elements (m ++ [VObject l]) (m ++ new) ss [] [] Hchain)
      as (new' & hnew & Hm & Hcn & Efold); try done.
    + by apply (obj_wf_children h (SetObject elements)).
    + apply Forall_forall. intros x Hx. apply Hsupx; [by left|].
      pose proof (obj_wf_children h _ Howf) as Hall. rewrite Forall_forall in Hall.
      by apply Hall.
    + by apply keys_ok_snoc.
    + rewrite !length_app. simpl. lia.
    + rewrite <- app_assoc in Hm. apply app_inv_head in Hm as ->.
      exists (SetObject (rename_value f <$> elements) :: hnew). split.
      * constructor; [by exists l, (SetObject elements)|done].
      * rewrite legacy_deserialize_Set, Efold. cbn [mbind outcome_bind rename_value app].
        rewrite populate_set_fresh.
        -- do 3 f_equal. rewrite (Hf (List.length m) l), Hlen; [done|].
           by apply list_lookup_middle.
        -- cbn [app]. destruct Howf as (Hnd & _). apply NoDup_fmap_2_strong; [|done].
           intros x y Hx Hy. by apply Hinjc.
  - eapply Hleaf; [exact Hrun| |]; [intros h0; by cbn|done].
  - rewrite legacy_memory_set_fresh in Hrun by done.
    destruct (properties_loop_outcome self (ArrayObject len props)
                (Legacy.ArraySerialization len)
                (getOwnPropertyNames (ArrayObject len props)) (λ _ _, eq_refl)
                [] (m ++ [VObject l]))
      as [(ss & m'' & Heq & Hchain)|(Hno & _)]; [|by destruct (Hno _ Hrun)].
    rewrite filter_hasOwnProperty in Heq, Hchain.
    assert (Ok (s, m ++ new)
            = Ok (Legacy.ArraySerialization len
                    (zip (getOwnPropertyNames (ArrayObject len props)) ss), m'')) as Hs.
    { etrans; [symmetry; exact Hrun|exact Heq]. }
    injection Hs as -> <-. intros h0 Hlen.
    destruct Howf as (Hprops & Hnolen & Hlen32 & Hidx). destruct Hprops as (Hnd & Hord & Hvals).
    destruct (properties_decode_loop h0 (ArrayObject len props)
                (getOwnPropertyNames (ArrayObject len props))
                (m ++ [VObject l]) (m ++ new) ss (ArrayObject len [])
                (ArrayObject len (rename_property f <$> props)) [] Hchain)
      as (new' & hnew & Hm & Hcn & Efold); try done.
    + apply Forall_fmap, Forall_forall. intros name _. by apply (Reflect_get_wf h).
    + apply Forall_fmap, Forall_forall. intros name _. apply Hsupx.
      * destruct (Reflect_get_cases (ArrayObject len props) name); [by right|by left].
      * by apply (Reflect_get_wf h).
    + by apply keys_ok_snoc.
    + rewrite !length_app. simpl. lia.
    + by apply populate_array.
    + rewrite <- app_assoc in Hm. apply app_inv_head in Hm as ->.
      exists (ArrayObject len (rename_property f <$> props) :: hnew). split.
      * constructor; [by exists l, (ArrayObject len props)|done].
      * rewrite legacy_deserialize_Array. unfold Array_new.
        rewrite (proj2 (N.ltb_lt _ _)) by done. cbn [mbind outcome_bind].
        rewrite Efold. cbn [mbind outcome_bind rename_value app].
        do 3 f_equal. rewrite (Hf (List.length m) l), Hlen; [done|].
        by apply list_lookup_middle.
  - rewrite legacy_memory_set_fresh in Hrun by done.
    destruct (properties_loop_outcome self (PlainObject props)
                Legacy.ObjectSerialization
                (getOwnPropertyNames (PlainObject props)) (λ _ _, eq_refl)
                [] (m ++ [VObject l]))
      as [(ss & m'' & Heq & Hchain)|(Hno & _)]; [|by destruct (Hno _ Hrun)].
    rewrite filter_hasOwnProperty in Heq, Hchain.
    assert (Ok (s, m ++ new)
            = Ok (Legacy.ObjectSerialization
                    (zip (getOwnPropertyNames (PlainObject props)) ss), m'')) as Hs.
    { etrans; [symmetry; exact Hrun|exact Heq]. }
    injection Hs as -> <-. intros h0 Hlen.
    destruct Howf as (Hnd & Hord & Hvals).
    destruct (properties_decode_loop h0 (PlainObject props)
                (getOwnPropertyNames (PlainObject props))
                (m ++ [VObject l]) (m ++ new) ss (PlainObject [])
                (PlainObject (rename_property f <$> props)) [] Hchain)
      as (new' & hnew & Hm & Hcn & Efold); try done.
    + apply Forall_fmap, Forall_forall. intros name _. by apply (Reflect_get_wf h).
    + apply Forall_fmap, Forall_forall. intros name _. apply Hsupx.
      * destruct (Reflect_get_cases (PlainObject props) name); [by right|by left].
      * by apply (Reflect_get_wf h).
    + by apply keys_ok_snoc.
    + rewrite !length_app. simpl. lia.
    + by apply populate_plain_names.
    + rewrite <- app_assoc in Hm. apply app_inv_head in Hm as ->.
      exists (PlainObject (rename_property f <$> props) :: hnew). split.
      * constructor; [by exists l, (PlainObject props)|done].
      * rewrite legacy_deserialize_Object, Efold. cbn [mbind outcome_bind rename_value app].
        do 3 f_equal. rewrite (Hf (List.length m) l), Hlen; [done|].
        by apply list_lookup_middle.
Qed.

End legacy_round_trip_body.

Lemma legacy_decodes (h : list obj) f fuel :
  heap_wf h →
  ∀ v m s new,
  value_wf h v → Legacy.keys_ok h m → supported_graph h v →
  Legacy.structuredSerializeInternal fuel h v m = Ok (s, m ++ new) →
  (∀ i l, (m ++ new) !! i = Some (VObject l) → f l = i) →
  Legacy.decodes_to h f (List.length m) v s new.
Proof.
  intros Hwf. induction fuel as [|fuel IH]; intros v m s new Hv Hok Hsup Hrun Hf; [done|].
  cbn [Legacy.structuredSerializeInternal] in Hrun.
  apply (body_decodes h Hwf f (Legacy.structuredSerializeInternal fuel h) fuel); try done.
  by apply legacy_serialize_post.
Qed.



(** * The two codecs *)

(** X15: what the older serializer accepts, the newer one accepts: where
    the codec without references returns a serialization, the codec with
    references returns an envelope. *)
Theorem newer_accepts_older (h : list obj) v fuel s :
  heap_wf h → value_wf h v → List.length h + 2 ≤ fuel →
  Legacy.structuredSerialize fuel h v = Ok s →
  ∃ env, structuredSerialize fuel h v = Ok env.
Proof.
  intros Hh Hv Hfuel Hs.
  destruct (legacy_serialize_Ok h v fuel s Hh Hv Hs) as (m & _ & _ & _ & Hrej & _).
  pose proof (serialize_encoded h fuel v Hh Hv Hfuel) as Henc.
  destruct (structuredSerializeInternal fuel h v []) as [[c memory]|e| |] eqn:Hrun; try done.
  - eexists. by apply structuredSerialize_envelope.
  - destruct Henc as (w & Hw & Hw'). by destruct (Hrej w e).
Qed.

Lemma newer_accepts_older_witness :
  heap_wf nested_tree ∧ value_wf nested_tree (VObject 0)
  ∧ ∃ s, Legacy.structuredSerialize 9 nested_tree (VObject 0) = Ok s
    ∧ ∃ env, structuredSerialize 9 nested_tree (VObject 0) = Ok env.
Proof.
  assert (heap_wf nested_tree) as Hh by (apply (bool_decide_unpack _); vm_compute; exact I).
  assert (value_wf nested_tree (VObject 0)) as Hv by (simpl; lia).
  split; [exact Hh|]. split; [exact Hv|]. eexists. split; [reflexivity|].
  eapply (newer_accepts_older nested_tree (VObject 0) 9 _ Hh Hv); [simpl; lia|reflexivity].
Defined.

(** * The codec without references: views *)

(** X16: in the older codec too, the byte length of a typed array is taken
    for its number of elements when it is read back: a typed array alone
    with its buffer comes back spanning [BYTES_PER_ELEMENT] times its bytes,
    or, where that does not fit the buffer, the deserializer throws a
    RangeError. *)
Theorem legacy_typed_array_length_scaled (h : list obj) l kind buffer byteOffset byteLength
    data fuel :
  h !! l = Some (ArrayBufferViewObject kind buffer byteOffset byteLength) →
  h !! buffer = Some (ArrayBufferObject data) →
  kind ≠ DataView → byteOffset `mod` BYTES_PER_ELEMENT kind = 0 → 2 ≤ fuel →
  Legacy.structuredSerialize fuel h (VObject l)
  = Ok (Legacy.TypedArraySerialization (constructor_name kind) byteOffset byteLength
          (Legacy.ArrayBufferSerialization (List.length data)
             (join "," (byte_toString <$> data))))
  ∧ Legacy.structuredDeserialize
      (Legacy.TypedArraySerialization (constructor_name kind) byteOffset byteLength
         (Legacy.ArrayBufferSerialization (List.length data)
            (join "," (byte_toString <$> data))))
    = if decide (byteOffset + byteLength * BYTES_PER_ELEMENT kind ≤ List.length data)
      then Ok (VObject 1,
               [ArrayBufferObject data;
                ArrayBufferViewObject kind 0 byteOffset
                  (byteLength * BYTES_PER_ELEMENT kind)])
      else Throw (RangeError "Invalid typed array length").
Proof.
  intros Hl Hb Hkind Hmod Hfuel. destruct fuel as [|[|fuel]]; [lia|lia|].
  assert (buffer ≠ l) as Hne by (intros ->; congruence).
  split.
  - unfold Legacy.structuredSerialize. cbn [Legacy.structuredSerializeInternal].
    unfold Legacy.structuredSerializeInternal_body, Legacy.memory_has.
    rewrite bool_decide_eq_false_2 by apply not_elem_of_nil. rewrite Hl.
    cbn [of_option mbind outcome_bind].
    rewrite bool_decide_eq_false_2 by apply not_elem_of_nil. rewrite Hb.
    by cbn [of_option mbind outcome_bind].
  - unfold Legacy.structuredDeserialize.
    rewrite legacy_deserialize_view, (typedArrayConstructor_name kind Hkind).
    cbn -[fill_bytes split join replicate TypedArray_new]. rewrite ArrayBuffer_data_inv.
    unfold TypedArray_new. simpl. rewrite Hmod. simpl.
    destruct (decide (byteOffset + byteLength * BYTES_PER_ELEMENT kind ≤ List.length data))
      as [Hfit|Hfit].
    + rewrite (proj2 (Nat.ltb_ge _ _)) by lia. reflexivity.
    + rewrite (proj2 (Nat.ltb_lt _ _)) by lia. reflexivity.
Qed.

Lemma legacy_typed_array_length_scaled_witness :
  wide_view !! 0 = Some (ArrayBufferViewObject Int16Array 1 0 4)
  ∧ wide_view !! 1 = Some (ArrayBufferObject [x00; x00; x00; x00])
  ∧ Int16Array ≠ DataView ∧ 0 `mod` BYTES_PER_ELEMENT Int16Array = 0
  ∧ Legacy.structuredSerialize 2 wide_view (VObject 0)
    = Ok (Legacy.TypedArraySerialization (constructor_name Int16Array) 0 4
            (Legacy.ArrayBufferSerialization (List.length [x00; x00; x00; x00])
               (join "," (byte_toString <$> [x00; x00; x00; x00]))))
  ∧ Legacy.structuredDeserialize
      (Legacy.TypedArraySerialization (constructor_name Int16Array) 0 4
         (Legacy.ArrayBufferSerialization (List.length [x00; x00; x00; x00])
            (join "," (byte_toString <$> [x00; x00; x00; x00]))))
    = if decide (0 + 4 * BYTES_PER_ELEMENT Int16Array ≤ List.length [x00; x00; x00; x00])
      then Ok (VObject 1,
               [ArrayBufferObject [x00; x00; x00; x00];
                ArrayBufferViewObject Int16Array 0 0 (4 * BYTES_PER_ELEMENT Int16Array)])
      else Throw (RangeError "Invalid typed array length").
Proof.
  split; [reflexivity|]. split; [reflexivity|]. split; [done|]. split; [reflexivity|].
  apply (legacy_typed_array_length_scaled wide_view 0 Int16Array 1 0 4 [x00; x00; x00; x00] 2);
    [reflexivity|reflexivity|done|reflexivity|lia].
Defined.

(** ** A DataView *)

Lemma foldM_Ok_elem {A S} (step : S → A → outcome S) l : ∀ s s' x,
  foldM step s l = Ok s' → x ∈ l → ∃ s1 s2, step s1 x = Ok s2.
Proof.
  induction l as [|y l IH]; intros s s' x; simpl; [by intros _ ?%elem_of_nil|].
  intros (s1 & Hy & Hrest)%bind_Ok [->|Hx]%elem_of_cons; [by exists s, s1|].
  by eapply IH.
Qed.

(** The deserializer returns from a serialization only if it returns from
    each part of it. *)
Lemma legacy_deserialize_component s s' :
  Legacy.component s s' →
  ∀ (h0 : list obj) r, Legacy.structuredDeserializeInternal s' h0 = Ok r →
  ∃ (h1 : list obj) r1, Legacy.structuredDeserializeInternal s h1 = Ok r1.
Proof.
  induction 1 as [|name byteOffset byteLength b _ IH|mapData e He _ IH|mapData e He _ IH
                  |setData e He _ IH|len properties e He _ IH|properties e He _ IH];
    intros h0 r Hr.
  - by exists h0, r.
  - rewrite legacy_deserialize_view in Hr.
    apply bind_Ok in Hr as (kind & _ & Hr). apply bind_Ok in Hr as ([ab h1] & Hb & _).
    by eapply IH.
  - rewrite legacy_deserialize_Map in Hr. apply bind_Ok in Hr as (h1 & Hloop & _).
    destruct (foldM_Ok_elem _ _ _ _ _ Hloop He) as (h2 & h3 & Hstep). destruct e as [sk sv].
    apply bind_Ok in Hstep as ([dk h4] & Hk & _). by eapply IH.
  - rewrite legacy_deserialize_Map in Hr. apply bind_Ok in Hr as (h1 & Hloop & _).
    destruct (foldM_Ok_elem _ _ _ _ _ Hloop He) as (h2 & h3 & Hstep). destruct e as [sk sv].
    apply bind_Ok in Hstep as ([dk h4] & Hk & Hstep).
    apply bind_Ok in Hstep as ([dv h5] & Hv & _). by eapply IH.
  - rewrite legacy_deserialize_Set in Hr. apply bind_Ok in Hr as (h1 & Hloop & _).
    destruct (foldM_Ok_elem _ _ _ _ _ Hloop He) as (h2 & h3 & Hstep).
    apply bind_Ok in Hstep as ([dv h5] & Hv & _). by eapply IH.
  - rewrite legacy_deserialize_Array in Hr. apply bind_Ok in Hr as (array & _ & Hr).
    apply bind_Ok in Hr as (h1 & Hloop & _).
    destruct (foldM_Ok_elem _ _ _ _ _ Hloop He) as (h2 & h3 & Hstep). destruct e as [key sv].
    apply bind_Ok in Hstep as ([dv h5] & Hv & _). by eapply IH.
  - rewrite legacy_deserialize_Object in Hr. apply bind_Ok in Hr as (h1 & Hloop & _).
    destruct (foldM_Ok_elem _ _ _ _ _ Hloop He) as (h2 & h3 & Hstep). destruct e as [key sv].
    apply bind_Ok in Hstep as ([dv h5] & Hv & _). by eapply IH.
Qed.

Lemma chain_elem self xs m m' ss x :
  Legacy.chain self xs m m' ss → x ∈ xs →
  ∃ s m1 m2, s ∈ ss ∧ self x m1 = Ok (s, m2).
Proof.
  induction 1 as [m|y xs m s m1 m' ss Hy _ IH]; [by intros ?%elem_of_nil|].
  intros [->|Hx]%elem_of_cons.
  - exists s, m, m1. split; [left|done].
  - destruct (IH Hx) as (s' & m2 & m3 & Hs' & Hcall). exists s', m2, m3. split; [by right|done].
Qed.

Lemma chain_pairs_elem self (entries : list (value * value)) : ∀ m m' ss x,
  Legacy.chain self (entries ≫= λ e, [e.1; e.2]) m m' ss →
  x ∈ (entries ≫= λ e, [e.1; e.2]) →
  ∃ e m1 m2, e ∈ Legacy.pairs ss
             ∧ (self x m1 = Ok (e.1, m2) ∨ self x m1 = Ok (e.2, m2)).
Proof.
  induction entries as [|[k v] entries IH]; intros m m' ss x Hchain Hx.
  { by apply elem_of_nil in Hx. }
  rewrite bind_cons in Hchain, Hx. cbn [fst snd app] in Hchain, Hx.
  inversion Hchain as [|x1 xs1 ma sk m2 mb ss1 Hk Hchain1]; subst.
  inversion Hchain1 as [|x2 xs2 ma sv m3 mb ss2 Hv Hchain2]; subst.
  cbn [Legacy.pairs]. apply elem_of_cons in Hx as [->|Hx]; [|apply elem_of_cons in Hx as [->|Hx]].
  - exists (sk, sv), m, m2. split; [left|by left].
  - exists (sk, sv), m2, m3. split; [left|by right].
  - destruct (IH _ _ _ _ Hchain2 Hx) as (e & m4 & m5 & He & Hcall).
    exists e, m4, m5. split; [by right|done].
Qed.

Lemma chain_zip_elem {K} self (g : K → value) (names : list K) : ∀ m m' ss x,
  Legacy.chain self (g <$> names) m m' ss → x ∈ g <$> names →
  ∃ e m1 m2, e ∈ zip names ss ∧ self x m1 = Ok (e.2, m2).
Proof.
  induction names as [|name names IH]; intros m m' ss x Hchain Hx.
  { by apply elem_of_nil in Hx. }
  rewrite fmap_cons in Hchain, Hx.
  inversion Hchain as [|x2 xs2 ma sv m3 mb ss2 Hv Hchain2]; subst.
  cbn [zip zip_with]. apply elem_of_cons in Hx as [->|Hx].
  - exists (name, sv), m, m3. split; [left|done].
  - destruct (IH _ _ _ _ Hchain2 Hx) as (e & m4 & m5 & He & Hcall).
    exists e, m4, m5. split; [by right|done].
Qed.

(** A view of the graph is written into the serialization, under the name
    of its constructor. *)
Lemma legacy_serialized_view (h : list obj) fuel l kind buffer byteOffset byteLength :
  heap_wf h →
  h !! l = Some (ArrayBufferViewObject kind buffer byteOffset byteLength) →
  ∀ v m s m',
  Legacy.structuredSerializeInternal fuel h v m = Ok (s, m') →
  reachable h v (VObject l) →
  ∃ b, Legacy.component
         (Legacy.TypedArraySerialization (constructor_name kind) byteOffset byteLength b) s.
Proof.
  intros Hwf Hl. induction fuel as [|fuel IH]; intros v m s m' Hrun Hreach; [done|].
  cbn [Legacy.structuredSerializeInternal] in Hrun.
  unfold Legacy.structuredSerializeInternal_body in Hrun.
  destruct (Legacy.memory_has m v); [done|].
  destruct v as [| |b|n|z|s0|sy|l0]; try (by inversion Hreach).
  destruct (h !! l0) as [o|] eqn:Ho; [|done]. cbn [of_option mbind outcome_bind] in Hrun.
  assert (l0 = l ∨ ∃ c, c ∈ children o ∧ reachable h c (VObject l)) as Hwhere.
  { inversion Hreach as [|l1 o' c w Hl1 Hc Hcw]; subst; [by left|]. right.
    rewrite Ho in Hl1. injection Hl1 as <-. by exists c. }
  pose proof (obj_wf_lookup h Hwf _ _ Ho) as Howf.
  assert (is_container o → ∀ c, c ∈ children o → c ∈ Legacy.calls o) as Hcalls.
  { intros Hcont c Hc. destruct (calls_shape h o Howf Hcont) as (A & B & c0 & HA & HB & _).
    rewrite HA in Hc. rewrite HB. rewrite !elem_of_app. rewrite elem_of_app in Hc. tauto. }
  destruct o as [b|n|s0|[ms|]|source flags|data|kind' buffer' byteOffset' byteLength'
                |entries|elements|name message|len props| | | | | | |props];
    cbn [mbind outcome_bind Date_toISOString] in Hrun; try done;
    try (destruct Hwhere as [->|(c & Hc & _)];
         [congruence|by apply elem_of_nil in Hc]).
  - destruct (Legacy.structuredSerializeInternal fuel h (VObject buffer') m)
      as [[bs m1]| | |] eqn:Hcall; try done.
    cbn [mbind outcome_bind] in Hrun.
    destruct bs as [| | | | | |size d| | | | | | |]; try done.
    cbn [mbind outcome_bind] in Hrun. injection Hrun as <- _.
    destruct Hwhere as [->|(c & Hc & Hcl)].
    + rewrite Hl in Ho. injection Ho as <- <- <- <-. eexists. apply Legacy.component_refl.
    + apply list_elem_of_singleton in Hc as ->.
      destruct (IH _ _ _ _ Hcall Hcl) as (b & Hb). exists b.
      by apply Legacy.component_buffer.
  - destruct (map_loop_outcome (Legacy.structuredSerializeInternal fuel h) entries []
                (Legacy.memory_set m (VObject l0)))
      as [(ss & m'' & Heq & Hchain)|(Hno & _)]; [|by destruct (Hno _ Hrun)].
    assert (Ok (s, m') = Ok (Legacy.MapSerialization (Legacy.pairs ss), m'')) as Hs.
    { etrans; [symmetry; exact Hrun|exact Heq]. }
    injection Hs as -> <-. destruct Hwhere as [->|(c & Hc & Hcl)]; [congruence|].
    destruct (chain_pairs_elem _ _ _ _ _ _ Hchain Hc) as (e & m1 & m2 & He & [Hcall|Hcall]);
      destruct (IH _ _ _ _ Hcall Hcl) as (b & Hb); exists b.
    + by eapply Legacy.component_key.
    + by eapply Legacy.component_value.
  - destruct (set_loop_outcome (Legacy.structuredSerializeInternal fuel h) elements []
                (Legacy.memory_set m (VObject l0)))
      as [(ss & m'' & Heq & Hchain)|(Hno & _)]; [|by destruct (Hno _ Hrun)].
    assert (Ok (s, m') = Ok (Legacy.SetSerialization ss, m'')) as Hs.
    { etrans; [symmetry; exact Hrun|exact Heq]. }
    injection Hs as -> <-. destruct Hwhere as [->|(c & Hc & Hcl)]; [congruence|].
    destruct (chain_elem _ _ _ _ _ _ Hchain Hc) as (sc & m1 & m2 & Hsc & Hcall).
    destruct (IH _ _ _ _ Hcall Hcl) as (b & Hb). exists b.
    by eapply Legacy.component_element.
  - destruct (properties_loop_outcome (Legacy.structuredSerializeInternal fuel h)
                (ArrayObject len props) (Legacy.ArraySerialization len)
                (getOwnPropertyNames (ArrayObject len props)) (λ _ _, eq_refl)
                [] (Legacy.memory_set m (VObject l0)))
      as [(ss & m'' & Heq & Hchain)|(Hno & _)]; [|by destruct (Hno _ Hrun)].
    match type of Heq with _ = Ok (?s1, _) =>
      assert (Ok (s, m') = Ok (s1, m'')) as Hs
        by (etrans; [symmetry; exact Hrun|exact Heq]) end.
    injection Hs as -> <-. destruct Hwhere as [->|(c & Hc & Hcl)]; [congruence|].
    destruct (chain_zip_elem _ _ _ _ _ _ _ Hchain (Hcalls I c Hc))
      as (e & m1 & m2 & He & Hcall).
    destruct (IH _ _ _ _ Hcall Hcl) as (b & Hb). exists b.
    by eapply Legacy.component_item.
  - destruct (properties_loop_outcome (Legacy.structuredSerializeInternal fuel h)
                (PlainObject props) Legacy.ObjectSerialization
                (getOwnPropertyNames (PlainObject props)) (λ _ _, eq_refl)
                [] (Legacy.memory_set m (VObject l0)))
      as [(ss & m'' & Heq & Hchain)|(Hno & _)]; [|by destruct (Hno _ Hrun)].
    match type of Heq with _ = Ok (?s1, _) =>
      assert (Ok (s, m') = Ok (s1, m'')) as Hs
        by (etrans; [symmetry; exact Hrun|exact Heq]) end.
    injection Hs as -> <-. destruct Hwhere as [->|(c & Hc & Hcl)]; [congruence|].
    destruct (chain_zip_elem _ _ _ _ _ _ _ Hchain (Hcalls I c Hc))
      as (e & m1 & m2 & He & Hcall).
    destruct (IH _ _ _ _ Hcall Hcl) as (b & Hb). exists b.
    by eapply Legacy.component_property.
Qed.

(** X17: the older codec loses a DataView as the newer one does: a graph
    with a DataView in it may be serialized, but the deserializer returns
    nothing from the serialization; in its [switch] the case ['DataView']
    runs into [default], which throws (lines 300-303). *)
Theorem legacy_DataView_never_decodes (h : list obj) v fuel s l buffer byteOffset byteLength :
  heap_wf h → reachable h v (VObject l) →
  h !! l = Some (ArrayBufferViewObject DataView buffer byteOffset byteLength) →
  Legacy.structuredSerialize fuel h v = Ok s →
  ∀ r, Legacy.structuredDeserialize s ≠ Ok r.
Proof.
  intros Hwf Hreach Hl Hs r Hr. unfold Legacy.structuredSerialize in Hs.
  destruct (Legacy.structuredSerializeInternal fuel h v []) as [[s' m]| | |] eqn:Hrun;
    try done.
  injection Hs as ->.
  destruct (legacy_serialized_view h fuel l DataView buffer byteOffset byteLength Hwf Hl
              _ _ _ _ Hrun Hreach) as (b & Hb).
  destruct (legacy_deserialize_component _ _ Hb _ _ Hr) as (h1 & r1 & Hr1).
  by rewrite legacy_deserialize_view in Hr1.
Qed.

Lemma legacy_DataView_never_decodes_witness :
  heap_wf data_view_record ∧ reachable data_view_record (VObject 0) (VObject 1)
  ∧ data_view_record !! 1 = Some (ArrayBufferViewObject DataView 2 0 2)
  ∧ ∃ s, Legacy.structuredSerialize 3 data_view_record (VObject 0) = Ok s
    ∧ ∀ r, Legacy.structuredDeserialize s ≠ Ok r.
Proof.
  assert (heap_wf data_view_record) as Hh by (apply (bool_decide_unpack _); vm_compute; exact I).
  assert (reachable data_view_record (VObject 0) (VObject 1)) as Hreach.
  { eapply reachable_child; [reflexivity| |constructor]. simpl. by left. }
  split; [exact Hh|]. split; [exact Hreach|]. split; [reflexivity|].
  eexists. split; [reflexivity|].
  apply (legacy_DataView_never_decodes data_view_record (VObject 0) 3 _ 1 2 0 2 Hh Hreach);
    reflexivity.
Defined.
